(** * In-browser chatbot: the inference-worker orchestration core

    A shallow embedding of
    - [utils.js]          ([isRepetitive], [sanitizeFilename],
                          [generateTitle], [formatRelativeTime],
                          [getModelDisplayName], [debounce], [throttle]),
    - [chat-store.js]     (the store of conversations, messages and
                          settings),
    - [model-worker.js] / the [WORKER_CODE] blob of [model-manager.js]
                          (the worker runtime),
    - [model-manager.js]  (class [ModelManager], the coordinator),
    - [app.js]            ([generateSingleResponse], [generateResponse],
                          [regenerateResponse], [handleEditMessage],
                          [clearAllData]),
    the properties of the specification that concern them, and further
    properties of the code. *)

From Stdlib Require Import ZArith QArith Lia.
From stdpp Require Import base gmap sets list strings pretty.

Open Scope Z_scope.

(** ** JavaScript strings

    A JavaScript string is a sequence of UTF-16 code units; [length],
    [slice] and [trim] all work on code units. *)

Module JS.

Definition jsstring := list N.

(** Code unit of an 8-bit character, to write ASCII literals. *)
Definition unit_of_ascii (a : Ascii.ascii) : N := Ascii.N_of_ascii a.

Fixpoint str (s : string) : jsstring :=
  match s with
  | EmptyString => []
  | String a s' => unit_of_ascii a :: str s'
  end.

(** ECMAScript [WhiteSpace] and [LineTerminator] code points, the
    characters removed by [String.prototype.trim]. *)
Definition is_whitespace (c : N) : bool :=
  ((9 <=? c) && (c <=? 13) ||
   (c =? 32) || (c =? 160) || (c =? 5760) ||
   ((8192 <=? c) && (c <=? 8202)) ||
   (c =? 8232) || (c =? 8233) || (c =? 8239) || (c =? 8287) ||
   (c =? 12288) || (c =? 65279))%N.

Fixpoint trimStart (s : jsstring) : jsstring :=
  match s with
  | [] => []
  | c :: s' => if is_whitespace c then trimStart s' else s
  end.

Definition trimEnd (s : jsstring) : jsstring :=
  reverse (trimStart (reverse s)).

Definition trim (s : jsstring) : jsstring := trimEnd (trimStart s).

(** Relative index of [String.prototype.slice]: a negative index counts
    from the end, and both ends are clamped to [0, length]. *)
Definition rel_index (len i : Z) : Z :=
  if i <? 0 then Z.max (len + i) 0 else Z.min i len.

(** [s.slice(start, end)] *)
Definition slice (s : jsstring) (start end_ : Z) : jsstring :=
  let len := Z.of_nat (length s) in
  let from := rel_index len start in
  let to := rel_index len end_ in
  take (Z.to_nat (to - from)) (drop (Z.to_nat from) s).

(** [s.slice(start)] *)
Definition slice_from (s : jsstring) (start : Z) : jsstring :=
  slice s start (Z.of_nat (length s)).

(** [a === b] on strings. *)
Definition streq (a b : jsstring) : bool := bool_decide (a = b).

End JS.

(** ** utils.js *)

Module Utils.
Import JS.

(** The inner [for (let i = 0; i < threshold; i++)] loop with its
    [break]: [n] iterations remain, [i] is the loop variable. *)
Fixpoint isPattern_loop (suffix pattern : jsstring) (len : Z)
         (n : nat) (i : Z) : bool :=
  match n with
  | O => true
  | S n' =>
      if negb (streq (slice suffix (i * len) ((i + 1) * len)) pattern)
      then false
      else isPattern_loop suffix pattern len n' (i + 1)
  end.

Definition threshold_of (len : Z) : Z := if len <? 4 then 25 else 6.

(** One iteration of the outer loop: [true] when the iteration reaches
    [return true], [false] when it ends by [continue] or falls through. *)
Definition isRepetitive_body (text : jsstring) (len : Z) : bool :=
  let threshold := threshold_of len in
  let totalLen := len * threshold in
  if Z.of_nat (length text) <? totalLen then false
  else
    let suffix := slice_from text (- totalLen) in
    let pattern := slice suffix 0 len in
    if (length (trim pattern) =? 0)%nat then false
    else isPattern_loop suffix pattern len (Z.to_nat threshold) 0.

(** The outer [for (let len = minPatternLen; len <= maxPatternLen; len++)]
    loop: [n] iterations remain. *)
Fixpoint isRepetitive_loop (text : jsstring) (n : nat) (len : Z) : bool :=
  match n with
  | O => false
  | S n' =>
      if isRepetitive_body text len then true
      else isRepetitive_loop text n' (len + 1)
  end.

Definition maxPatternLen : Z := 50.
Definition minPatternLen : Z := 1.

Definition isRepetitive (text : jsstring) : bool :=
  isRepetitive_loop text
    (Z.to_nat (maxPatternLen - minPatternLen + 1)) minPatternLen.

(** *** sanitizeFilename *)

Definition is_ascii_letter (c : N) : bool :=
  ((65 <=? c) && (c <=? 90) || (97 <=? c) && (c <=? 122))%N.

Definition is_ascii_digit (c : N) : bool := ((48 <=? c) && (c <=? 57))%N.

Definition hyphen : N := 45.
Definition underscore : N := 95.
Definition space : N := 32.
Definition line_feed : N := 10.
Definition backtick : N := 96.

(** The class [[a-z0-9\s-]] under the flag [i]: without the flag [u] a
    code unit above 127 never folds to an ASCII letter, so the letters
    it holds are exactly [a-z] and [A-Z]. *)
Definition filename_char (c : N) : bool :=
  is_ascii_letter c || is_ascii_digit c || is_whitespace c || (c =? hyphen)%N.

(** [s.replace(/X+/g, r)] for a class [X] of code units: every maximal
    run of code units of the class becomes [r].  [in_run] tells that the
    code unit before [s] belongs to the run being replaced. *)
Fixpoint replace_runs (X : N -> bool) (r : jsstring) (in_run : bool)
         (s : jsstring) : jsstring :=
  match s with
  | [] => []
  | c :: s' =>
      if X c
      then (if in_run then [] else r) ++ replace_runs X r true s'
      else c :: replace_runs X r false s'
  end.

(** [s.replace(/[class]/g, '')] *)
Definition remove_all (X : N -> bool) (s : jsstring) : jsstring :=
  filter (fun c => X c = false) s.

(** [x || d] on strings: the empty string is falsy. *)
Definition or_else (x d : jsstring) : jsstring :=
  match x with
  | [] => d
  | _ => x
  end.

Definition sanitizeFilename (name : jsstring) : jsstring :=
  let sanitized :=
    take 50
      (replace_runs is_whitespace (str "_") false
         (trim (remove_all (fun c => negb (filename_char c)) name))) in
  or_else sanitized (str "conversation").

(** *** generateTitle *)

Definition starts_with_fence (s : jsstring) : bool :=
  match s with
  | a :: b :: c :: _ => ((a =? backtick) && (b =? backtick) && (c =? backtick))%N
  | _ => false
  end.

(** Index of the first fence in [s]. *)
Fixpoint fence_index (s : jsstring) : option nat :=
  match s with
  | [] => None
  | _ :: s' => if starts_with_fence s then Some O else S <$> fence_index s'
  end.

(** Length of the match of [/```[\s\S]*?```/] at the head of [s]: an
    opening fence, as little as possible, and the next fence. *)
Definition code_block_length (s : jsstring) : option nat :=
  if starts_with_fence s
  then (fun i => (3 + i + 3)%nat) <$> fence_index (drop 3 s)
  else None.

(** [s.replace(/```[\s\S]*?```/g, '')]: [skip] code units of a match
    are still to be dropped. *)
Fixpoint remove_code_blocks (skip : nat) (s : jsstring) : jsstring :=
  match s with
  | [] => []
  | c :: s' =>
      match skip with
      | S k => remove_code_blocks k s'
      | O =>
          match code_block_length s with
          | Some n => remove_code_blocks (n - 1) s'
          | None => c :: remove_code_blocks 0 s'
          end
      end
  end.

(** The class [[#*_~\[\]()]]. *)
Definition markdown_char (c : N) : bool :=
  ((c =? 35) || (c =? 42) || (c =? 95) || (c =? 126) ||
   (c =? 91) || (c =? 93) || (c =? 40) || (c =? 41))%N.

(** [s.lastIndexOf(c)]: [i] is the index of the head of [s], [found] the
    last index seen so far. *)
Fixpoint lastIndexOf_loop (c : N) (s : jsstring) (i found : Z) : Z :=
  match s with
  | [] => found
  | x :: s' => lastIndexOf_loop c s' (i + 1) (if (x =? c)%N then i else found)
  end.

Definition lastIndexOf (c : N) (s : jsstring) : Z := lastIndexOf_loop c s 0 (-1).

(** The first four [replace] calls and the [trim] of [generateTitle]. *)
Definition title_text (content : jsstring) : jsstring :=
  trim
    (replace_runs (fun c => (c =? line_feed)%N) (str " ") false
       (remove_all markdown_char
          (remove_all (fun c => (c =? backtick)%N)
             (remove_code_blocks 0 content)))).

(** [generateTitle(content, maxLength)].  [lastSpace > maxLength * 0.6]
    is a comparison of doubles; for every length a string can have the
    product is so close to three fifths of [maxLength] that the integer
    [lastSpace] exceeds the one exactly when it exceeds the other. *)
Definition generateTitle (content : jsstring) (maxLength : nat) : jsstring :=
  let cleaned := title_text content in
  if (length cleaned <=? maxLength)%nat then or_else cleaned (str "New Chat")
  else
    let truncated := take maxLength cleaned in
    let lastSpace := lastIndexOf space truncated in
    if 3 * Z.of_nat maxLength <? 5 * lastSpace
    then take (Z.to_nat lastSpace) truncated ++ str "..."
    else truncated ++ str "...".

(** The default of the parameter [maxLength]. *)
Definition default_maxLength : nat := 50.

(** *** formatRelativeTime *)

Definition intervals : list (string * Z) :=
  [("year", 31536000); ("month", 2592000); ("week", 604800);
   ("day", 86400); ("hour", 3600); ("minute", 60)]%string.

(** The [for] loop over the intervals that are left. *)
Fixpoint formatRelativeTime_loop (seconds : Z) (l : list (string * Z)) : string :=
  match l with
  | [] => "just now"
  | (label, unit_seconds) :: rest =>
      let count := seconds / unit_seconds in
      if 1 <=? count
      then pretty count +:+ " " +:+ label
           +:+ (if 1 <? count then "s" else EmptyString) +:+ " ago"
      else formatRelativeTime_loop seconds rest
  end.

(** The times the embedding is exact for: whole numbers of milliseconds
    from 1970 on within the range of [Date], as [Date.now()] returns
    them and [createdAt] stores them.  The code computes in doubles;
    between two such times the difference and every quotient it forms
    are whole numbers below 2^53, which doubles hold and divide
    exactly, and a count is far below 10^21, from where a number is
    printed with an exponent. *)
Definition time_value (t : Z) : Prop := 0 <= t <= 8640000000000000.

(** [formatRelativeTime(timestamp)] when [Date.now()] returns [now],
    for [now] and [timestamp] that are [time_value]s. *)
Definition formatRelativeTime (now timestamp : Z) : string :=
  formatRelativeTime_loop ((now - timestamp) / 1000) intervals.

(** *** getModelDisplayName *)

Definition slash : N := 47.

(** [parts[parts.length - 1]] of [modelId.split('/')], what follows the
    last slash; [part] is the part being read, backwards. *)
Fixpoint last_part (part : jsstring) (s : jsstring) : jsstring :=
  match s with
  | [] => reverse part
  | c :: s' =>
      if (c =? slash)%N then last_part [] s' else last_part (c :: part) s'
  end.

Fixpoint digits_length (s : jsstring) : nat :=
  match s with
  | c :: s' => if is_ascii_digit c then S (digits_length s') else O
  | [] => O
  end.

(** Length of the match of [/_q\d+/] at the head of [s]. *)
Definition quantization_length (s : jsstring) : option nat :=
  match s with
  | u :: q :: rest =>
      if ((u =? underscore) && (q =? 113))%N && (0 <? digits_length rest)%nat
      then Some (2 + digits_length rest)%nat
      else None
  | _ => None
  end.

(** Under the flag [i] an ASCII letter of the pattern matches the same
    letter in either case, and no other character. *)
Definition lower (c : N) : N :=
  if ((65 <=? c) && (c <=? 90))%N then (c + 32)%N else c.

(** Length of the match of [/-instruct/i] at the head of [s]. *)
Definition instruct_length (s : jsstring) : option nat :=
  if bool_decide (map lower (take 9 s) = str "-instruct") then Some 9%nat
  else None.

(** [s.replace(re, '')] for a global [re] whose match at the head of a
    string has the length [match_length] gives; [skip] code units of a
    match are still to be dropped. *)
Fixpoint remove_matches (match_length : jsstring -> option nat) (skip : nat)
         (s : jsstring) : jsstring :=
  match s with
  | [] => []
  | c :: s' =>
      match skip with
      | S k => remove_matches match_length k s'
      | O =>
          match match_length s with
          | Some n => remove_matches match_length (n - 1) s'
          | None => c :: remove_matches match_length 0 s'
          end
      end
  end.

(** [getModelDisplayName(modelId)]; [None] is a [modelId] that is
    [null] or [undefined], which like the empty string is falsy. *)
Definition getModelDisplayName (modelId : option jsstring) : jsstring :=
  match modelId with
  | None | Some [] => str "Unknown"
  | Some id =>
      let name := last_part [] id in
      map (fun c => if (c =? underscore)%N then space else c)
        (remove_matches instruct_length 0
           (remove_matches instruct_length 0
              (remove_matches quantization_length 0 name)))
  end.

(** *** The guard as the specification words it *)

(** [pattern] repeated back-to-back [n] times. *)
Fixpoint repeat_pattern (pattern : jsstring) (n : nat) : jsstring :=
  match n with
  | O => []
  | S n' => pattern ++ repeat_pattern pattern n'
  end.

Definition whitespace_only (p : jsstring) : Prop :=
  Forall (fun c => is_whitespace c = true) p.

Definition whitespace_free (p : jsstring) : Prop :=
  Forall (fun c => is_whitespace c = false) p.

(** Required repeat count of the specification. *)
Definition required_repeats (L : nat) : nat :=
  if (L <=? 3)%nat then 25%nat else 6%nat.

(** The last [k] characters of [text]. *)
Definition last_chars (k : nat) (text : jsstring) : jsstring :=
  drop (length text - k)%nat text.

(** The tail of [text] is a pattern of length [L] that is not
    whitespace only, repeated the required number of times. *)
Definition degenerate_at (text : jsstring) (L : nat) : Prop :=
  (L * required_repeats L <= length text)%nat /\
  exists pattern : jsstring,
    length pattern = L /\
    ~ whitespace_only pattern /\
    last_chars (L * required_repeats L) text
    = repeat_pattern pattern (required_repeats L).

Definition degenerate_tail (text : jsstring) : Prop :=
  exists L : nat, (1 <= L <= 50)%nat /\ degenerate_at text L.

End Utils.

(** ** The worker runtime

    [model-worker.js] and the [WORKER_CODE] blob of [model-manager.js]
    hold the same worker; the blob is the one [ModelManager.createWorker]
    starts.  The inference engine (transformers.js) is external: what it
    does at each of its turns is an input of the model ([Act]). *)

Module Worker.
Import JS.

Record ChatMessage := { role : string; content : jsstring }.

(** Payload of a [generate] command. *)
Record GenerateData := {
  messages : list ChatMessage;
  temperature : Q;
  maxTokens : Z;
  systemPrompt : option jsstring
}.

(** Coordinator to worker. *)
Inductive Command :=
| CInit (model : string)
| CGenerate (data : GenerateData)
| CAbort
| CUnload
| CPing.

(** Worker to coordinator. *)
Inductive Event :=
| EWorkerReady
| EStatus (status message : string)
| EProgress (file : string) (progress : Z)
| EReady (model : string) (device : option string)
| EGenerating
| EToken (token fullResponse : jsstring)
| EComplete (content : jsstring) (model : option string)
| EAborted
| EError (message : string)
| EUnloaded
| EPong (ready : bool) (model : option string).

(** Arguments of one engine call [generator(chatMessages, {...})]. *)
Record EngineCall := {
  chatMessages : list ChatMessage;
  max_new_tokens : Z;
  call_temperature : Q;
  do_sample : bool
}.

(** The promises a worker is waiting on.  A generation task carries the
    closure variable [fullResponse] of its streamer callback. *)
Inductive Task :=
| TLoadLib (modelId : string)                   (* await loadTransformers() *)
| TProbe (modelId : string)                     (* await requestAdapter() *)
| TLoadModel (modelId : string) (device : string) (* await pipeline(...) *)
| TGenerate (call : EngineCall) (fullResponse : jsstring).

Record State := {
  pipeline : bool;                  (* pipeline !== null *)
  generator : option string;        (* the loaded pipeline, by its model *)
  currentModel : option string;
  isGenerating : bool;
  shouldAbort : bool;
  tasks : gmap nat Task;
  next_task : nat
}.

(** What the engine, the library loader or the downloader does next. *)
Inductive Act :=
| LibLoaded                          (* import() resolved *)
| LibFailed (message : string)       (* import() rejected *)
| Probed (webgpu : bool)             (* adapter probe settled *)
| DownloadProgress (file : string) (progress : Z)
| DownloadInitiate (file : string)
| ModelLoaded                        (* pipeline(...) resolved *)
| ModelFailed (message : string)     (* pipeline(...) rejected *)
| Token (token : jsstring)           (* streamer calls callback_function *)
| Return (generated_text : option (list ChatMessage))
                                     (* generator(...) resolved *)
| Throw (message : string).          (* generator(...) rejected *)

Inductive Input :=
| Recv (c : Command)                 (* self.onmessage *)
| Step (tid : nat) (a : Act).        (* a pending promise makes progress *)

Definition init_state : State :=
  {| pipeline := false; generator := None; currentModel := None;
     isGenerating := false; shouldAbort := false;
     tasks := ∅; next_task := 0 |}.

(** The script's top level sends [worker-ready]. *)
Definition boot_events : list Event := [EWorkerReady].

Definition spawn (t : Task) (st : State) : State :=
  {| pipeline := pipeline st; generator := generator st;
     currentModel := currentModel st; isGenerating := isGenerating st;
     shouldAbort := shouldAbort st;
     tasks := <[next_task st := t]> (tasks st);
     next_task := S (next_task st) |}.

Definition set_task (tid : nat) (t : Task) (st : State) : State :=
  {| pipeline := pipeline st; generator := generator st;
     currentModel := currentModel st; isGenerating := isGenerating st;
     shouldAbort := shouldAbort st;
     tasks := <[tid := t]> (tasks st);
     next_task := next_task st |}.

Definition end_task (tid : nat) (st : State) : State :=
  {| pipeline := pipeline st; generator := generator st;
     currentModel := currentModel st; isGenerating := isGenerating st;
     shouldAbort := shouldAbort st;
     tasks := delete tid (tasks st);
     next_task := next_task st |}.

(** [x || d] on strings. *)
Definition or_default (x d : string) : string :=
  if bool_decide (x = EmptyString) then d else x.

(** [initModel(modelId)] up to its first [await]. *)
Definition initModel (modelId : string) (st : State) : State * list Event :=
  (spawn (TLoadLib modelId) st,
   if pipeline st then []
   else [EStatus "loading" "Loading AI library..."]).

Definition truthy_prompt (p : option jsstring) : bool :=
  match p with
  | Some (_ :: _) => true
  | _ => false
  end.

Definition build_chat (data : GenerateData) : list ChatMessage :=
  (if truthy_prompt (systemPrompt data)
   then [{| role := "system"; content := default [] (systemPrompt data) |}]
   else [])
  ++ messages data.

Definition Qzero (q : Q) : bool := (Qnum q =? 0)%Z.

Definition engine_call (data : GenerateData) : EngineCall :=
  let t := if Qzero (temperature data) then (7 # 10)%Q else temperature data in
  {| chatMessages := build_chat data;
     max_new_tokens := if maxTokens data =? 0 then 512 else maxTokens data;
     call_temperature := t;
     do_sample := (0 <? Qnum t)%Z |}.

(** [generate(data)] up to the engine call. *)
Definition generate (data : GenerateData) (st : State) : State * list Event :=
  match generator st with
  | None => (st, [EError "No model loaded"])
  | Some _ =>
      if isGenerating st then (st, [EError "Already generating"])
      else
        let st1 :=
          {| pipeline := pipeline st; generator := generator st;
             currentModel := currentModel st;
             isGenerating := true; shouldAbort := false;
             tasks := tasks st; next_task := next_task st |} in
        (spawn (TGenerate (engine_call data) []) st1, [EGenerating])
  end.

(** [self.onmessage] *)
Definition onmessage (c : Command) (st : State) : State * list Event :=
  match c with
  | CInit model => initModel model st
  | CGenerate data => generate data st
  | CAbort =>
      ({| pipeline := pipeline st; generator := generator st;
          currentModel := currentModel st; isGenerating := isGenerating st;
          shouldAbort := true;
          tasks := tasks st; next_task := next_task st |}, [])
  | CUnload =>
      ({| pipeline := pipeline st; generator := None;
          currentModel := None; isGenerating := isGenerating st;
          shouldAbort := shouldAbort st;
          tasks := tasks st; next_task := next_task st |}, [EUnloaded])
  | CPing =>
      (st, [EPong (bool_decide (is_Some (generator st))) (currentModel st)])
  end.

(** The [finally] block of [generate]. *)
Definition finally_generate (tid : nat) (st : State) : State :=
  end_task tid
    {| pipeline := pipeline st; generator := generator st;
       currentModel := currentModel st;
       isGenerating := false; shouldAbort := false;
       tasks := tasks st; next_task := next_task st |}.

(** The [catch] block of [generate]. *)
Definition catch_generate (message : string) : list Event :=
  if bool_decide (message = "Aborted") then [EAborted]
  else [EError message].

(** [msgs.findLast(m => m.role === 'assistant')], as the loop of
    [model-worker.js] from the last index down. *)
Fixpoint findLast_assistant (msgs : list ChatMessage) : option ChatMessage :=
  match msgs with
  | [] => None
  | m :: rest =>
      match findLast_assistant rest with
      | Some a => Some a
      | None => if bool_decide (role m = "assistant") then Some m else None
      end
  end.

Definition final_content (fullResponse : jsstring)
           (generated_text : option (list ChatMessage)) : jsstring :=
  match generated_text with
  | Some msgs =>
      match findLast_assistant msgs with
      | Some a => content a
      | None => fullResponse
      end
  | None => fullResponse
  end.

(** Progress of task [tid]; an act that does not fit the task is not a
    move of the worker and leaves it as it is. *)
Definition step_task (tid : nat) (a : Act) (st : State) : State * list Event :=
  match tasks st !! tid, a with
  | Some (TLoadLib modelId), LibLoaded =>
      let st1 :=
        {| pipeline := true; generator := generator st;
           currentModel := currentModel st; isGenerating := isGenerating st;
           shouldAbort := shouldAbort st;
           tasks := tasks st; next_task := next_task st |} in
      if bool_decide (currentModel st = Some modelId) &&
         bool_decide (is_Some (generator st))
      then (end_task tid st1, [EReady modelId None])
      else (set_task tid (TProbe modelId) st1, [])
  | Some (TLoadLib modelId), LibFailed message =>
      (end_task tid st, [EError (or_default message "Failed to load model")])
  | Some (TProbe modelId), Probed webgpu =>
      let device := if webgpu then "webgpu" else "wasm" in
      (set_task tid (TLoadModel modelId device) st,
       [EStatus "loading" ("Downloading model (" +:+ device +:+ ")...")])
  | Some (TLoadModel modelId device), DownloadProgress file progress =>
      (st, [EProgress (or_default file "model") progress])
  | Some (TLoadModel modelId device), DownloadInitiate file =>
      (st, [EStatus "loading" ("Loading " +:+ or_default file "files" +:+ "...")])
  | Some (TLoadModel modelId device), ModelLoaded =>
      (end_task tid
         {| pipeline := pipeline st; generator := Some modelId;
            currentModel := Some modelId; isGenerating := isGenerating st;
            shouldAbort := shouldAbort st;
            tasks := tasks st; next_task := next_task st |},
       [EReady modelId (Some device)])
  | Some (TLoadModel modelId device), ModelFailed message =>
      (end_task tid st, [EError (or_default message "Failed to load model")])
  | Some (TGenerate call fullResponse), Token token =>
      if shouldAbort st
      then (finally_generate tid st, catch_generate "Aborted")
      else
        let fullResponse' := fullResponse ++ token in
        (set_task tid (TGenerate call fullResponse') st,
         [EToken token fullResponse'])
  | Some (TGenerate call fullResponse), Return generated_text =>
      (finally_generate tid st,
       [EComplete (final_content fullResponse generated_text) (currentModel st)])
  | Some (TGenerate call fullResponse), Throw message =>
      (finally_generate tid st, catch_generate message)
  | _, _ => (st, [])
  end.

Definition step (i : Input) (st : State) : State * list Event :=
  match i with
  | Recv c => onmessage c st
  | Step tid a => step_task tid a st
  end.

(** A run of the worker: every input with the events it produced. *)
Fixpoint run (ins : list Input) (st : State) : State * list (Input * list Event) :=
  match ins with
  | [] => (st, [])
  | i :: rest =>
      let '(st1, evs) := step i st in
      let '(st2, tr) := run rest st1 in
      (st2, (i, evs) :: tr)
  end.

Definition final (ins : list Input) (st : State) : State := fst (run ins st).
Definition trace (ins : list Input) (st : State) : list (Input * list Event) :=
  snd (run ins st).

(** All events of a run, in the order they were sent. *)
Definition events (tr : list (Input * list Event)) : list Event :=
  concat (map snd tr).

(** The events sent on behalf of task [tid]: by its streamer callback
    and by the handlers of its promise. *)
Fixpoint events_of (tid : nat) (tr : list (Input * list Event)) : list Event :=
  match tr with
  | [] => []
  | (Step t _, evs) :: rest =>
      if bool_decide (t = tid) then evs ++ events_of tid rest
      else events_of tid rest
  | (Recv _, _) :: rest => events_of tid rest
  end.

Definition is_terminal (e : Event) : bool :=
  match e with
  | EComplete _ _ | EAborted | EError _ => true
  | _ => false
  end.

Definition is_token (e : Event) : bool :=
  match e with
  | EToken _ _ => true
  | _ => false
  end.

(** [generate] would pass both of its guards. *)
Definition accepts (st : State) : bool :=
  bool_decide (is_Some (generator st)) && negb (isGenerating st).

(** The acts by which the promise of an engine call settles. *)
Definition settles (a : Act) : bool :=
  match a with
  | Return _ | Throw _ => true
  | _ => false
  end.

(** The [token] events of a callback that starts from the accumulated
    text [acc] and is handed [tokens] one after the other. *)
Fixpoint token_stream (acc : jsstring) (tokens : list jsstring) : list Event :=
  match tokens with
  | [] => []
  | t :: rest => EToken t (acc ++ t) :: token_stream (acc ++ t) rest
  end.

(** [b] is [a] followed by at least one more character. *)
Definition strictly_extends (a b : jsstring) : Prop :=
  exists t : jsstring, t <> [] /\ b = a ++ t.

(** Two successive [token] events of the events [evs]. *)
Definition successive_tokens (evs : list Event)
           (t1 f1 t2 f2 : jsstring) : Prop :=
  exists l1 l2 : list Event,
    filter (fun e => is_token e = true) evs
    = l1 ++ [EToken t1 f1; EToken t2 f2] ++ l2.

(** The two states agree on everything but [shouldAbort], and on
    [shouldAbort] too while a generation runs. *)
Definition same_but_flag (a b : State) : Prop :=
  pipeline a = pipeline b /\ generator a = generator b /\
  currentModel a = currentModel b /\ isGenerating a = isGenerating b /\
  tasks a = tasks b /\ next_task a = next_task b /\
  (isGenerating a = true -> shouldAbort a = shouldAbort b).

End Worker.

(** ** Values shared by the coordinating thread *)

Module Runtime.
Import JS.

(** Workers and promises are named by numbers. *)
Abbreviation WorkerId := nat (only parsing).
Abbreviation PromiseId := nat (only parsing).

Inductive Value :=
| VUndefined
| VNull
| VString (s : jsstring).

(** How a promise settled. *)
Inductive Outcome :=
| Fulfilled (v : Value)
| Rejected (message : string).

(** What an [async] call hands back: a promise that is already settled,
    or one that is still pending. *)
Inductive Async :=
| Settled (o : Outcome)
| Waits (p : PromiseId).

(** The functions the application passes to [ModelManager.generate], by
    name: the two closures of [generateSingleResponse] for the output
    slot [s], and functions of any other caller, which are only observed
    through the record of their calls. *)
Inductive Callback :=
| SupOnToken (s : nat)
| SupOnComplete (s : nat)
| Probe (k : nat).

(** Arguments a callback is called with. *)
Inductive Args :=
| AToken (token accumulated : jsstring)
| AGenerating
| AComplete (content : jsstring) (model : option string)
| AAborted
| AError (message : string).

(** Calls of the manager's global callbacks [onProgress],
    [onStatusChange], [onModelReady] and [onError]. *)
Inductive GlobalCall :=
| GProgress (modelId file : string) (progress : Z)
| GStatus (modelId status message : string)
| GModelReady (modelId : string) (device : option string)
| GError (modelId message : string).

End Runtime.

(** ** model-manager.js: class ModelManager *)

Module Manager.
Import JS Runtime.
Import Worker(Command(..), Event(..), ChatMessage, GenerateData).

Record Options := {
  temperature : option Q;
  maxTokens : option Z;
  systemPrompt : option jsstring;
  onToken : option Callback;
  onGenerating : option Callback;
  onComplete : option Callback;
  onAborted : option Callback;
  onError : option Callback
}.

(** An entry of [this.callbacks].  [resolve] and [reject] belong to one
    promise and are stored together by [initModel]; [generate] stores
    [onToken], [onGenerating], [onComplete], [onAborted] and [onError]
    together: the caller's options and the promise its wrappers settle. *)
Record Callbacks := {
  resolve_reject : option PromiseId;
  generation : option (Options * PromiseId)
}.

Record State := {
  workers : gmap string WorkerId;
  readyModels : gset string;
  loadingModels : gset string;
  callbacks : gmap string Callbacks
}.

(** What a method does to the world outside the registry, in order. *)
Inductive Effect :=
| Spawn (w : WorkerId) (modelId : string) (p : PromiseId)
    (* new Worker(url); onmessage and onerror bound to modelId, reject to p *)
| Post (w : WorkerId) (c : Command)           (* worker.postMessage *)
| Terminate (w : WorkerId)                    (* worker.terminate *)
| Notify (g : GlobalCall)                     (* this.onX?.(...) *)
| Invoke (f : Callback) (a : Args)            (* options.onX?.(...) *)
| Settle (p : PromiseId) (o : Outcome)        (* resolve(v) or reject(e) *)
| SetInterval (i : nat) (modelId : string) (p : PromiseId)
| ClearInterval (i : nat).

Definition new_manager : State :=
  {| workers := ∅; readyModels := ∅; loadingModels := ∅; callbacks := ∅ |}.

Definition set_loading (l : gset string) (st : State) : State :=
  {| workers := workers st; readyModels := readyModels st;
     loadingModels := l; callbacks := callbacks st |}.

Definition set_ready (r : gset string) (st : State) : State :=
  {| workers := workers st; readyModels := r;
     loadingModels := loadingModels st; callbacks := callbacks st |}.

Definition set_workers (w : gmap string WorkerId) (st : State) : State :=
  {| workers := w; readyModels := readyModels st;
     loadingModels := loadingModels st; callbacks := callbacks st |}.

Definition set_callbacks (c : gmap string Callbacks) (st : State) : State :=
  {| workers := workers st; readyModels := readyModels st;
     loadingModels := loadingModels st; callbacks := c |}.

Definition isModelReady (st : State) (modelId : string) : bool :=
  bool_decide (modelId ∈ readyModels st).

Definition isModelLoading (st : State) (modelId : string) : bool :=
  bool_decide (modelId ∈ loadingModels st).

(** [f?.(a)] *)
Definition call (f : option Callback) (a : Args) : list Effect :=
  match f with
  | Some f => [Invoke f a]
  | None => []
  end.

(** The body of the [setInterval] callback [checkReady] of [initModel]. *)
Definition checkReady (st : State) (i : nat) (modelId : string)
           (p : PromiseId) : list Effect :=
  (if isModelReady st modelId
   then [ClearInterval i; Settle p (Fulfilled VUndefined)]
   else [])
  ++
  (if negb (isModelLoading st modelId) && negb (isModelReady st modelId)
   then [ClearInterval i; Settle p (Rejected "Model loading failed")]
   else []).

(** [initModel(modelId)].  [p] is the promise the call creates, [i] the
    identifier its [setInterval] would return, and [created] what
    [this.createWorker()] does: a new worker, or the message of the
    exception it throws. *)
Definition initModel (modelId : string) (p : PromiseId) (i : nat)
           (created : string + WorkerId) (st : State)
  : State * Async * list Effect :=
  if isModelReady st modelId then
    (st, Settled (Fulfilled VUndefined), [Notify (GModelReady modelId None)])
  else if isModelLoading st modelId then
    (st, Waits p, [SetInterval i modelId p])
  else
    let st1 := set_loading ({[modelId]} ∪ loadingModels st) st in
    match created with
    | inl e =>
        (set_loading (loadingModels st1 ∖ {[modelId]}) st1, Waits p,
         [Settle p (Rejected e)])
    | inr worker =>
        let st2 := set_workers (<[modelId := worker]> (workers st1)) st1 in
        let st3 :=
          set_callbacks
            (<[modelId := {| resolve_reject := Some p; generation := None |}]>
               (callbacks st2)) st2 in
        (st3, Waits p, [Spawn worker modelId p])
    end.

(** [worker.onerror] of the worker [initModel(modelId)] created; [p] is
    the promise of that call. *)
Definition onerror (modelId : string) (p : PromiseId) (message : string)
           (st : State) : State * list Effect :=
  let st1 := set_loading (loadingModels st ∖ {[modelId]}) st in
  let st2 := set_workers (delete modelId (workers st1)) st1 in
  let errorMsg :=
    Worker.or_default message
      "Worker failed to load - check console for details" in
  (st2, [Notify (GError modelId errorMsg); Settle p (Rejected errorMsg)]).

Definition no_callbacks : Callbacks :=
  {| resolve_reject := None; generation := None |}.

(** The wrappers [generate] installs around the caller's options. *)
Definition on_complete (g : option (Options * PromiseId))
           (content : jsstring) (model : option string) : list Effect :=
  match g with
  | Some (options, p) =>
      call (onComplete options) (AComplete content model)
      ++ [Settle p (Fulfilled (VString content))]
  | None => []
  end.

Definition on_aborted (g : option (Options * PromiseId)) : list Effect :=
  match g with
  | Some (options, p) =>
      call (onAborted options) AAborted ++ [Settle p (Fulfilled VNull)]
  | None => []
  end.

Definition on_error (g : option (Options * PromiseId)) (message : string)
  : list Effect :=
  match g with
  | Some (options, p) =>
      call (onError options) (AError message) ++ [Settle p (Rejected message)]
  | None => []
  end.

Definition settle_init (r : option PromiseId) (o : Outcome) : list Effect :=
  match r with
  | Some p => [Settle p o]
  | None => []
  end.

(** [handleWorkerMessage(modelId, data)] *)
Definition handleWorkerMessage (modelId : string) (data : Event)
           (st : State) : State * list Effect :=
  let cbs := default no_callbacks (callbacks st !! modelId) in
  match data with
  | EWorkerReady =>
      (st,
       match workers st !! modelId with
       | Some worker => [Post worker (CInit modelId)]
       | None => []
       end)
  | EStatus status message =>
      (st, [Notify (GStatus modelId status message)])
  | EProgress file progress =>
      (st, [Notify (GProgress modelId file progress)])
  | EReady _ device =>
      let st1 := set_loading (loadingModels st ∖ {[modelId]}) st in
      let st2 := set_ready ({[modelId]} ∪ readyModels st1) st1 in
      (st2,
       [Notify (GModelReady modelId device)]
       ++ settle_init (resolve_reject cbs) (Fulfilled VUndefined))
  | EGenerating =>
      (st,
       match generation cbs with
       | Some (options, _) => call (onGenerating options) AGenerating
       | None => []
       end)
  | EToken token fullResponse =>
      (st,
       match generation cbs with
       | Some (options, _) => call (onToken options) (AToken token fullResponse)
       | None => []
       end)
  | EComplete content model =>
      (st, on_complete (generation cbs) content model)
  | EAborted =>
      (st, on_aborted (generation cbs))
  | EError message =>
      let st1 := set_loading (loadingModels st ∖ {[modelId]}) st in
      (st1,
       [Notify (GError modelId message)]
       ++ on_error (generation cbs) message
       ++ settle_init (resolve_reject cbs) (Rejected message))
  | EUnloaded =>
      let st1 := set_ready (readyModels st ∖ {[modelId]}) st in
      (set_workers (delete modelId (workers st1)) st1, [])
  | EPong _ _ => (st, [])
  end.

(** [x ?? d] *)
Definition nullish {A} (x : option A) (d : A) : A := default d x.

(** [generate(modelId, messages, options)]; [p] is the promise the call
    creates when it does not throw. *)
Definition generate (modelId : string) (messages : list ChatMessage)
           (options : Options) (p : PromiseId) (st : State)
  : State * Async * list Effect :=
  match workers st !! modelId with
  | None =>
      (st, Settled (Rejected ("Model " +:+ modelId +:+ " not initialized")), [])
  | Some worker =>
      if negb (isModelReady st modelId) then
        (st, Settled (Rejected ("Model " +:+ modelId +:+ " not ready")), [])
      else
        let old := default no_callbacks (callbacks st !! modelId) in
        let st1 :=
          set_callbacks
            (<[modelId := {| resolve_reject := resolve_reject old;
                             generation := Some (options, p) |}]>
               (callbacks st)) st in
        (st1, Waits p,
         [Post worker
            (CGenerate
               {| Worker.messages := messages;
                  Worker.temperature := nullish (temperature options) (7 # 10)%Q;
                  Worker.maxTokens := nullish (maxTokens options) 512;
                  Worker.systemPrompt := systemPrompt options |})])
  end.

(** [abort(modelId)] *)
Definition abort (modelId : string) (st : State) : State * list Effect :=
  (st,
   match workers st !! modelId with
   | Some worker => [Post worker CAbort]
   | None => []
   end).

(** [abortAll()].  The loop follows the Map, which lists its entries in
    the order they were put in; the registry here keeps no such order,
    and the model walks it by key. *)
Definition abortAll (st : State) : State * list Effect :=
  (st, map (fun kw => Post kw.2 CAbort) (map_to_list (workers st))).

(** [unloadModel(modelId)] *)
Definition unloadModel (modelId : string) (st : State) : State * list Effect :=
  match workers st !! modelId with
  | Some worker =>
      let st1 := set_workers (delete modelId (workers st)) st in
      let st2 := set_ready (readyModels st1 ∖ {[modelId]}) st1 in
      (set_callbacks (delete modelId (callbacks st2)) st2,
       [Post worker CUnload; Terminate worker])
  | None => (st, [])
  end.

(** [unloadAll()]: [unloadModel] for every key of [this.workers], here
    by key and in the code in the order the Map lists them; the registry
    it leaves is the same for every order. *)
Definition unloadAll (st : State) : State * list Effect :=
  foldl (fun acc kw =>
           let '(st1, effs) := unloadModel kw.1 acc.1 in
           (st1, acc.2 ++ effs))
        (st, []) (map_to_list (workers st)).

End Manager.

(** ** app.js on the page's thread

    The page runs [ModelManager] and the application on one thread, one
    task at a time.  [Page.State] is what that thread holds: the manager's
    registry, the promises, timers and intervals it created, the
    variables of every [generateSingleResponse] call, and a record of what
    it sent out. *)

Module Page.
Import JS Runtime.
Import Worker(Command(..), Event(..), ChatMessage).

Definition TIMEOUT_MS : Z := 45000.

Definition timeout_message : string :=
  "Generation timed out - model stopped responding".
Definition repetition_message : string :=
  "Generation stopped due to repetitive output".

(** Where a [generateSingleResponse] call stands. *)
Inductive Status :=
| Awaiting (p : PromiseId)     (* at [await modelManager.generate(...)] *)
| Completed                    (* returned past the [try] block *)
| Failed (message : string).   (* returned from the [catch] block *)

(** The variables of one [generateSingleResponse(modelId, streamingId, _)]
    call; calls are keyed by their [streamingId]. *)
Record Supervisor := {
  modelId : option string;               (* [None] is [null] *)
  timeoutId : option nat;
  timedOut : bool;
  repetitionDetected : bool;
  status : Status
}.

(** Calls into [ui.js] and [chat-store.js], which are not modelled
    further. *)
Inductive UiCall :=
| UpdateStreamingMessage (s : nat) (accumulated : jsstring)
| SaveAndFinalize (s : nat) (content : jsstring) (model : option string)
| UpdateMessageError (s : nat) (message : string).

(** Where [generateResponse] stands. *)
Inductive Orchestrator :=
| Idle
| Single (s : nat)
| SeqFirst (id1 id2 : nat)     (* awaiting the first of two calls *)
| SeqSecond (id1 id2 : nat)    (* awaiting the second *)
| Parallel (id1 id2 : nat).    (* awaiting Promise.all([p1, p2]) *)

(** The fields of [state] and [state.settings] that generation reads. *)
Record AppState := {
  currentModel : option string;
  compareModel : option string;
  compareMode : bool;
  isGenerating : bool;
  chatHistory : list ChatMessage;
  set_temperature : option Q;
  set_maxTokens : option Z;
  set_systemPrompt : option jsstring
}.

Record State := {
  mgr : Manager.State;
  app : AppState;
  orch : Orchestrator;
  sups : gmap nat Supervisor;
  settled : gmap PromiseId Outcome;        (* promises no longer pending *)
  handlers : gmap WorkerId (string * PromiseId);
                                           (* onmessage/onerror of live workers *)
  intervals : gmap nat (string * PromiseId);
  timers : gmap nat (Z * nat);             (* armed timeouts: deadline, slot *)
  now : Z;
  next_id : nat;
  posted : list (WorkerId * Command);      (* every postMessage, in order *)
  notified : list GlobalCall;
  probed : list (nat * Args);
  ui : list UiCall
}.

Definition upd_mgr (f : Manager.State -> Manager.State) (st : State) : State :=
  {| mgr := f (mgr st); app := app st; orch := orch st; sups := sups st;
     settled := settled st; handlers := handlers st;
     intervals := intervals st; timers := timers st; now := now st;
     next_id := next_id st; posted := posted st; notified := notified st;
     probed := probed st; ui := ui st |}.

Definition upd_app (f : AppState -> AppState) (st : State) : State :=
  {| mgr := mgr st; app := f (app st); orch := orch st; sups := sups st;
     settled := settled st; handlers := handlers st;
     intervals := intervals st; timers := timers st; now := now st;
     next_id := next_id st; posted := posted st; notified := notified st;
     probed := probed st; ui := ui st |}.

Definition set_orch (o : Orchestrator) (st : State) : State :=
  {| mgr := mgr st; app := app st; orch := o; sups := sups st;
     settled := settled st; handlers := handlers st;
     intervals := intervals st; timers := timers st; now := now st;
     next_id := next_id st; posted := posted st; notified := notified st;
     probed := probed st; ui := ui st |}.

Definition upd_sups (f : gmap nat Supervisor -> gmap nat Supervisor)
           (st : State) : State :=
  {| mgr := mgr st; app := app st; orch := orch st; sups := f (sups st);
     settled := settled st; handlers := handlers st;
     intervals := intervals st; timers := timers st; now := now st;
     next_id := next_id st; posted := posted st; notified := notified st;
     probed := probed st; ui := ui st |}.

Definition upd_settled (f : gmap PromiseId Outcome -> gmap PromiseId Outcome)
           (st : State) : State :=
  {| mgr := mgr st; app := app st; orch := orch st; sups := sups st;
     settled := f (settled st); handlers := handlers st;
     intervals := intervals st; timers := timers st; now := now st;
     next_id := next_id st; posted := posted st; notified := notified st;
     probed := probed st; ui := ui st |}.

Definition upd_handlers
           (f : gmap WorkerId (string * PromiseId) -> gmap WorkerId (string * PromiseId))
           (st : State) : State :=
  {| mgr := mgr st; app := app st; orch := orch st; sups := sups st;
     settled := settled st; handlers := f (handlers st);
     intervals := intervals st; timers := timers st; now := now st;
     next_id := next_id st; posted := posted st; notified := notified st;
     probed := probed st; ui := ui st |}.

Definition upd_intervals
           (f : gmap nat (string * PromiseId) -> gmap nat (string * PromiseId))
           (st : State) : State :=
  {| mgr := mgr st; app := app st; orch := orch st; sups := sups st;
     settled := settled st; handlers := handlers st;
     intervals := f (intervals st); timers := timers st; now := now st;
     next_id := next_id st; posted := posted st; notified := notified st;
     probed := probed st; ui := ui st |}.

Definition upd_timers (f : gmap nat (Z * nat) -> gmap nat (Z * nat))
           (st : State) : State :=
  {| mgr := mgr st; app := app st; orch := orch st; sups := sups st;
     settled := settled st; handlers := handlers st;
     intervals := intervals st; timers := f (timers st); now := now st;
     next_id := next_id st; posted := posted st; notified := notified st;
     probed := probed st; ui := ui st |}.

Definition set_now (t : Z) (st : State) : State :=
  {| mgr := mgr st; app := app st; orch := orch st; sups := sups st;
     settled := settled st; handlers := handlers st;
     intervals := intervals st; timers := timers st; now := t;
     next_id := next_id st; posted := posted st; notified := notified st;
     probed := probed st; ui := ui st |}.

(** Take the next unused identifier (promise, worker, timer, interval or
    output slot). *)
Definition bump (st : State) : State :=
  {| mgr := mgr st; app := app st; orch := orch st; sups := sups st;
     settled := settled st; handlers := handlers st;
     intervals := intervals st; timers := timers st; now := now st;
     next_id := S (next_id st); posted := posted st; notified := notified st;
     probed := probed st; ui := ui st |}.

Definition post (w : WorkerId) (c : Command) (st : State) : State :=
  {| mgr := mgr st; app := app st; orch := orch st; sups := sups st;
     settled := settled st; handlers := handlers st;
     intervals := intervals st; timers := timers st; now := now st;
     next_id := next_id st; posted := posted st ++ [(w, c)];
     notified := notified st; probed := probed st; ui := ui st |}.

Definition notify (g : GlobalCall) (st : State) : State :=
  {| mgr := mgr st; app := app st; orch := orch st; sups := sups st;
     settled := settled st; handlers := handlers st;
     intervals := intervals st; timers := timers st; now := now st;
     next_id := next_id st; posted := posted st;
     notified := notified st ++ [g]; probed := probed st; ui := ui st |}.

Definition probe (k : nat) (a : Args) (st : State) : State :=
  {| mgr := mgr st; app := app st; orch := orch st; sups := sups st;
     settled := settled st; handlers := handlers st;
     intervals := intervals st; timers := timers st; now := now st;
     next_id := next_id st; posted := posted st;
     notified := notified st; probed := probed st ++ [(k, a)]; ui := ui st |}.

Definition ui_call (c : UiCall) (st : State) : State :=
  {| mgr := mgr st; app := app st; orch := orch st; sups := sups st;
     settled := settled st; handlers := handlers st;
     intervals := intervals st; timers := timers st; now := now st;
     next_id := next_id st; posted := posted st;
     notified := notified st; probed := probed st; ui := ui st ++ [c] |}.

(** [resolve(v)] or [reject(e)]: only the first call on a promise counts. *)
Definition settle (p : PromiseId) (o : Outcome) (st : State) : State :=
  match settled st !! p with
  | Some _ => st
  | None => upd_settled (insert p o) st
  end.

(** An effect of the manager that does not call into the application. *)
Definition perform_basic (e : Manager.Effect) (st : State) : State :=
  match e with
  | Manager.Spawn w modelId p => upd_handlers (insert w (modelId, p)) st
  | Manager.Post w c => post w c st
  | Manager.Terminate w => upd_handlers (delete w) st
  | Manager.Notify g => notify g st
  | Manager.Invoke (Probe k) a => probe k a st
  | Manager.Invoke _ _ => st
  | Manager.Settle p o => settle p o st
  | Manager.SetInterval i modelId p => upd_intervals (insert i (modelId, p)) st
  | Manager.ClearInterval i => upd_intervals (delete i) st
  end.

(** [modelManager.abort(modelId)] called from the application;
    [None] is JavaScript's [null], which is no key of [this.workers]. *)
Definition manager_abort (modelId : option string) (st : State) : State :=
  match modelId with
  | Some m =>
      let '(mg, effs) := Manager.abort m (mgr st) in
      foldl (fun s e => perform_basic e s) (upd_mgr (fun _ => mg) st) effs
  | None => st
  end.

(** *** generateSingleResponse *)

Definition set_timeoutId (t : option nat) (sv : Supervisor) : Supervisor :=
  {| modelId := modelId sv; timeoutId := t; timedOut := timedOut sv;
     repetitionDetected := repetitionDetected sv; status := status sv |}.

Definition set_timedOut (b : bool) (sv : Supervisor) : Supervisor :=
  {| modelId := modelId sv; timeoutId := timeoutId sv; timedOut := b;
     repetitionDetected := repetitionDetected sv; status := status sv |}.

Definition set_repetitionDetected (b : bool) (sv : Supervisor) : Supervisor :=
  {| modelId := modelId sv; timeoutId := timeoutId sv; timedOut := timedOut sv;
     repetitionDetected := b; status := status sv |}.

Definition set_status (x : Status) (sv : Supervisor) : Supervisor :=
  {| modelId := modelId sv; timeoutId := timeoutId sv; timedOut := timedOut sv;
     repetitionDetected := repetitionDetected sv; status := x |}.

Definition upd_sup (s : nat) (f : Supervisor -> Supervisor) (st : State) : State :=
  upd_sups (alter f s) st.

Definition sup_model (s : nat) (st : State) : option string :=
  match sups st !! s with
  | Some sv => modelId sv
  | None => None
  end.

(** [if (timeoutId) clearTimeout(timeoutId)]; timer identifiers are
    positive in a browser, so a stored one is always truthy. *)
Definition clear_timeout (s : nat) (st : State) : State :=
  match sups st !! s with
  | Some sv =>
      match timeoutId sv with
      | Some t => upd_timers (delete t) st
      | None => st
      end
  | None => st
  end.

(** [resetTimeout()] *)
Definition resetTimeout (s : nat) (st : State) : State :=
  let st1 := clear_timeout s st in
  let t := next_id st1 in
  upd_sup s (set_timeoutId (Some t))
    (upd_timers (insert t (now st1 + TIMEOUT_MS, s)) (bump st1)).

(** The callback [resetTimeout] hands to [setTimeout]. *)
Definition watchdog (s : nat) (st : State) : State :=
  manager_abort (sup_model s st) (upd_sup s (set_timedOut true) st).

(** [onToken(token, accumulated)] *)
Definition sup_onToken (s : nat) (token accumulated : jsstring)
           (st : State) : State :=
  let st1 := resetTimeout s st in
  if Utils.isRepetitive accumulated then
    let st2 := upd_sup s (set_repetitionDetected true) st1 in
    let st3 := clear_timeout s st2 in
    manager_abort (sup_model s st3) st3
  else
    ui_call (UpdateStreamingMessage s accumulated) st1.

(** [onComplete(content, model)], up to its [await store.addMessage];
    the write and the [finalizeStreamingMessage] that follows it in a
    later task are recorded here as one call. *)
Definition sup_onComplete (s : nat) (content : jsstring)
           (model : option string) (st : State) : State :=
  ui_call (SaveAndFinalize s content model) (clear_timeout s st).

(** The [catch] block; [message] is [error.message]. *)
Definition sup_catch (s : nat) (message : string) (st : State) : State :=
  let shown := Worker.or_default message "Generation failed" in
  upd_sup s (set_status (Failed shown))
    (ui_call (UpdateMessageError s shown) (clear_timeout s st)).

(** The rest of the [try] block once the awaited promise has settled. *)
Definition sup_resume (s : nat) (o : Outcome) (st : State) : State :=
  match o with
  | Fulfilled _ =>
      match sups st !! s with
      | Some sv =>
          if timedOut sv then sup_catch s timeout_message st
          else if repetitionDetected sv then sup_catch s repetition_message st
          else upd_sup s (set_status Completed) st
      | None => st
      end
  | Rejected message => sup_catch s message st
  end.

Definition sup_options (s : nat) (a : AppState) : Manager.Options :=
  {| Manager.temperature := set_temperature a;
     Manager.maxTokens := set_maxTokens a;
     Manager.systemPrompt := set_systemPrompt a;
     Manager.onToken := Some (SupOnToken s);
     Manager.onGenerating := None;
     Manager.onComplete := Some (SupOnComplete s);
     Manager.onAborted := None;
     Manager.onError := None |}.

(** [generateSingleResponse(modelId, streamingId, chatHistory)] up to its
    [await]; a [modelId] of [None] is [null]. *)
Definition sup_start (s : nat) (model : option string) (st : State) : State :=
  let p := next_id st in
  let st1 :=
    upd_sups (insert s {| modelId := model; timeoutId := None;
                          timedOut := false; repetitionDetected := false;
                          status := Awaiting p |}) (bump st) in
  let st2 := resetTimeout s st1 in
  match model with
  | Some m =>
      let '(mg, r, effs) :=
        Manager.generate m (chatHistory (app st2)) (sup_options s (app st2)) p
                         (mgr st2) in
      let st3 := foldl (fun x e => perform_basic e x) (upd_mgr (fun _ => mg) st2) effs in
      match r with
      | Settled (Rejected message) => sup_catch s message st3
      | Settled (Fulfilled v) => sup_resume s (Fulfilled v) st3
      | Waits _ => st3
      end
  | None => sup_catch s "Model null not initialized" st2
  end.

Definition returned (s : nat) (st : State) : bool :=
  match sups st !! s with
  | Some sv =>
      match status sv with
      | Awaiting _ => false
      | _ => true
      end
  | None => false
  end.

(** *** generateResponse *)

Definition set_isGenerating (b : bool) (a : AppState) : AppState :=
  {| currentModel := currentModel a; compareModel := compareModel a;
     compareMode := compareMode a; isGenerating := b;
     chatHistory := chatHistory a; set_temperature := set_temperature a;
     set_maxTokens := set_maxTokens a; set_systemPrompt := set_systemPrompt a |}.

(** The [finally] block. *)
Definition finish (st : State) : State :=
  set_orch Idle (upd_app (set_isGenerating false) st).

(** What [generateResponse] does when the call for slot [s] has
    returned. *)
Definition orch_continue (s : nat) (st : State) : State :=
  match orch st with
  | Idle => st
  | Single s' => if bool_decide (s = s') then finish st else st
  | SeqFirst id1 id2 =>
      if bool_decide (s = id1) then
        let st1 := sup_start id2 (compareModel (app st)) (set_orch (SeqSecond id1 id2) st) in
        if returned id2 st1 then finish st1 else st1
      else st
  | SeqSecond id1 id2 => if bool_decide (s = id2) then finish st else st
  | Parallel id1 id2 =>
      if returned id1 st && returned id2 st then finish st else st
  end.

Definition start_and_continue (s : nat) (model : option string)
           (st : State) : State :=
  let st1 := sup_start s model st in
  if returned s st1 then orch_continue s st1 else st1.

Definition truthy_model (m : option string) : bool :=
  match m with
  | Some x => negb (bool_decide (x = EmptyString))
  | None => false
  end.

Definition model_ready (m : option string) (st : State) : bool :=
  match m with
  | Some x => Manager.isModelReady (mgr st) x
  | None => false
  end.

(** [generateResponse()]: the guard and the flag of its first task and,
    nothing else having run while it read the history, its second task
    from the [try] block on, as one step. *)
Definition generateResponse (st : State) : State :=
  if isGenerating (app st) then st
  else
    let st0 := upd_app (set_isGenerating true) st in
    let a := app st0 in
    if compareMode a && truthy_model (compareModel a)
       && model_ready (compareModel a) st0
    then
      let id1 := next_id st0 in
      let id2 := S id1 in
      let st1 := bump (bump st0) in
      if bool_decide (currentModel a = compareModel a) then
        start_and_continue id1 (currentModel a) (set_orch (SeqFirst id1 id2) st1)
      else
        let st2 := start_and_continue id1 (currentModel a)
                     (set_orch (Parallel id1 id2) st1) in
        start_and_continue id2 (compareModel (app st2)) st2
    else
      let s := next_id st0 in
      start_and_continue s (currentModel a) (set_orch (Single s) (bump st0)).

(** [stopGeneration()] *)
Definition stopGeneration (st : State) : State :=
  if isGenerating (app st) then
    let st1 := if truthy_model (currentModel (app st))
               then manager_abort (currentModel (app st)) st else st in
    if truthy_model (compareModel (app st1))
    then manager_abort (compareModel (app st1)) st1 else st1
  else st.

(** *** Tasks of the page *)

(** An effect of the manager, calls into the application included. *)
Definition perform (e : Manager.Effect) (st : State) : State :=
  match e with
  | Manager.Invoke (SupOnToken s) (AToken token accumulated) =>
      sup_onToken s token accumulated st
  | Manager.Invoke (SupOnComplete s) (AComplete content model) =>
      sup_onComplete s content model st
  | _ => perform_basic e st
  end.

Definition perform_all (effs : list Manager.Effect) (st : State) : State :=
  foldl (fun x e => perform e x) st effs.

(** The options of a caller of [modelManager.generate] other than
    [generateSingleResponse]; its functions are numbered, and their
    calls recorded in [probed]. *)
Record CallerOptions := {
  c_temperature : option Q;
  c_maxTokens : option Z;
  c_systemPrompt : option jsstring;
  c_onToken : option nat;
  c_onGenerating : option nat;
  c_onComplete : option nat;
  c_onAborted : option nat;
  c_onError : option nat
}.

Definition caller_options (o : CallerOptions) : Manager.Options :=
  {| Manager.temperature := c_temperature o;
     Manager.maxTokens := c_maxTokens o;
     Manager.systemPrompt := c_systemPrompt o;
     Manager.onToken := Probe <$> c_onToken o;
     Manager.onGenerating := Probe <$> c_onGenerating o;
     Manager.onComplete := Probe <$> c_onComplete o;
     Manager.onAborted := Probe <$> c_onAborted o;
     Manager.onError := Probe <$> c_onError o |}.

Inductive Input :=
| Message (w : WorkerId) (data : Event)       (* a worker's message arrives *)
| Error (w : WorkerId) (message : string)     (* a worker's error event *)
| Interval (i : nat)                          (* an interval comes round *)
| Elapse (dt : Z)                             (* time passes *)
| Timeout (t : nat)                           (* a due timeout fires *)
| InitModel (modelId : string) (fails : option string)
| Generate (modelId : string) (messages : list ChatMessage)
           (options : CallerOptions)
| Abort (modelId : string)
| AbortAll
| UnloadModel (modelId : string)
| UnloadAll
| GenerateResponse
| StopGeneration.

Definition with_manager (r : Manager.State * list Manager.Effect)
           (st : State) : State :=
  perform_all r.2 (upd_mgr (fun _ => r.1) st).

(** The synchronous part of a task. *)
Definition handle (i : Input) (st : State) : State :=
  match i with
  | Message w data =>
      match handlers st !! w with
      | Some (modelId, _) =>
          with_manager (Manager.handleWorkerMessage modelId data (mgr st)) st
      | None => st
      end
  | Error w message =>
      match handlers st !! w with
      | Some (modelId, p) =>
          with_manager (Manager.onerror modelId p message (mgr st)) st
      | None => st
      end
  | Interval i =>
      match intervals st !! i with
      | Some (modelId, p) =>
          perform_all (Manager.checkReady (mgr st) i modelId p) st
      | None => st
      end
  | Elapse dt => if 0 <=? dt then set_now (now st + dt) st else st
  | Timeout t =>
      match timers st !! t with
      | Some (deadline, s) =>
          if deadline <=? now st
          then watchdog s (upd_timers (delete t) st)
          else st
      | None => st
      end
  | InitModel modelId fails =>
      let p := next_id st in
      let i := S p in
      let w := S i in
      let '(mg, r, effs) :=
        Manager.initModel modelId p i
          (match fails with Some e => inl e | None => inr w end) (mgr st) in
      let st1 := perform_all effs (upd_mgr (fun _ => mg) (bump (bump (bump st)))) in
      match r with
      | Settled o => settle p o st1
      | Waits _ => st1
      end
  | Generate modelId messages options =>
      let p := next_id st in
      let '(mg, r, effs) :=
        Manager.generate modelId messages (caller_options options) p (mgr st) in
      let st1 := perform_all effs (upd_mgr (fun _ => mg) (bump st)) in
      match r with
      | Settled o => settle p o st1
      | Waits _ => st1
      end
  | Abort modelId => with_manager (Manager.abort modelId (mgr st)) st
  | AbortAll => with_manager (Manager.abortAll (mgr st)) st
  | UnloadModel modelId => with_manager (Manager.unloadModel modelId (mgr st)) st
  | UnloadAll => with_manager (Manager.unloadAll (mgr st)) st
  | GenerateResponse => generateResponse st
  | StopGeneration => stopGeneration st
  end.

(** The calls of [generateSingleResponse] that [generateResponse] is
    waiting for. *)
Definition active (o : Orchestrator) : list nat :=
  match o with
  | Idle => []
  | Single s => [s]
  | SeqFirst id1 _ => [id1]
  | SeqSecond _ id2 => [id2]
  | Parallel id1 id2 => [id1; id2]
  end.

(** Resume the call for slot [s] if the promise it awaits was settled
    by the task that started in state [before]. *)
Definition resume_sup (before : State) (s : nat) (st : State) : State :=
  match sups st !! s with
  | Some sv =>
      match status sv with
      | Awaiting p =>
          match settled before !! p, settled st !! p with
          | None, Some o => orch_continue s (sup_resume s o st)
          | _, _ => st
          end
      | _ => st
      end
  | None => st
  end.

(** The microtasks at the end of a task: the continuations of the
    promises the task settled. *)
Definition microtasks (before st : State) : State :=
  foldl (fun x s => resume_sup before s x) st (active (orch st)).

Definition step (i : Input) (st : State) : State :=
  microtasks st (handle i st).

Definition run (ins : list Input) (st : State) : State :=
  foldl (fun x i => step i x) st ins.

Definition new_app (current compare : option string) (mode : bool)
           (history : list ChatMessage) : AppState :=
  {| currentModel := current; compareModel := compare; compareMode := mode;
     isGenerating := false; chatHistory := history;
     set_temperature := Some (7 # 10)%Q; set_maxTokens := Some 512;
     set_systemPrompt := None |}.

Definition new_page (a : AppState) : State :=
  {| mgr := Manager.new_manager; app := a; orch := Idle; sups := ∅;
     settled := ∅; handlers := ∅; intervals := ∅; timers := ∅;
     now := 0; next_id := 1; posted := []; notified := []; probed := [];
     ui := [] |}.

End Page.

(** ** The page together with its workers

    Messages travel in order in both directions: a worker takes the
    messages posted to it one by one, and the page takes a worker's events
    one by one. *)

Module System.
Import Runtime.
Import Worker(Command(..), Event(..)).

Record Instance := {
  wstate : Worker.State;
  received : nat;            (* how many of the posted messages it took *)
  outbox : list Event        (* events sent and not yet delivered *)
}.

Record State := {
  page : Page.State;
  instances : gmap WorkerId Instance;
  observed : list (WorkerId * Event)   (* events the page has handled *)
}.

(** A worker starts by running its script, which sends [worker-ready]. *)
Definition fresh_instance : Instance :=
  {| wstate := Worker.init_state; received := 0; outbox := Worker.boot_events |}.

Definition instance (w : WorkerId) (st : State) : Instance :=
  default fresh_instance (instances st !! w).

(** A worker runs from its creation until [terminate]. *)
Definition alive (w : WorkerId) (st : State) : bool :=
  bool_decide (is_Some (Page.handlers (page st) !! w)).

(** The messages posted to [w], oldest first. *)
Definition inbox_all (w : WorkerId) (st : State) : list Command :=
  omap (fun wc => if bool_decide (wc.1 = w) then Some wc.2 else None)
       (Page.posted (page st)).

Inductive Input :=
| Caller (i : Page.Input)          (* a call or a timer on the page *)
| WorkerRecv (w : WorkerId)        (* the worker takes its next message *)
| WorkerStep (w : WorkerId) (tid : nat) (a : Worker.Act)
| Deliver (w : WorkerId).          (* the page takes the worker's next event *)

(** The inputs of the page that do not come from a worker's outbox. *)
Definition from_caller (i : Page.Input) : bool :=
  match i with
  | Page.Message _ _ => false
  | _ => true
  end.

Definition set_page (p : Page.State) (st : State) : State :=
  {| page := p; instances := instances st; observed := observed st |}.

Definition set_instance (w : WorkerId) (x : Instance) (st : State) : State :=
  {| page := page st; instances := <[w := x]> (instances st);
     observed := observed st |}.

Definition worker_step (w : WorkerId) (i : Worker.Input) (recv : bool)
           (st : State) : State :=
  let x := instance w st in
  let '(ws, evs) := Worker.step i (wstate x) in
  set_instance w
    {| wstate := ws;
       received := if recv then S (received x) else received x;
       outbox := outbox x ++ evs |} st.

Definition step (i : Input) (st : State) : State :=
  match i with
  | Caller i =>
      if from_caller i then set_page (Page.step i (page st)) st else st
  | WorkerRecv w =>
      if alive w st then
        match inbox_all w st !! received (instance w st) with
        | Some c => worker_step w (Worker.Recv c) true st
        | None => st
        end
      else st
  | WorkerStep w tid a =>
      if alive w st then worker_step w (Worker.Step tid a) false st else st
  | Deliver w =>
      if alive w st then
        let x := instance w st in
        match outbox x with
        | e :: rest =>
            let st1 :=
              set_instance w
                {| wstate := wstate x; received := received x; outbox := rest |}
                st in
            {| page := Page.step (Page.Message w e) (page st1);
               instances := instances st1;
               observed := observed st1 ++ [(w, e)] |}
        | [] => st
        end
      else st
  end.

Definition run (ins : list Input) (st : State) : State :=
  foldl (fun x i => step i x) st ins.

Definition new_system (a : Page.AppState) : State :=
  {| page := Page.new_page a; instances := ∅; observed := [] |}.

End System.

(** ** utils.js: debounce and throttle

    Both wrappers keep their state in a closure and use the browser's
    timers.  [setTimeout(h, delay)] arms a timer under a number that is
    never given out again; the timer runs [h] once, no earlier than its
    timeout after the call, unless [clearTimeout] disarmed it first.
    The timeout is the delay as the platform reads it: converted to a
    32-bit signed integer, a negative one counted as zero.  The delay is
    an integer here.  The wrapped function [fn] is the caller's: the
    model records the calls the wrapper receives and the calls of [fn]
    it makes, each with its time. *)

Module Timing.

Section Wrappers.

Context {A : Type}.                      (* the arguments of one call *)

(** What a timer runs. *)
Inductive Handler :=
| Apply (args : A)                       (* () => fn.apply(this, args) *)
| Release.                               (* () => inThrottle = false *)

Inductive TimerEvent :=
| Requested (time : Z) (args : A)        (* the wrapper is called *)
| Applied (time : Z) (args : A).         (* the wrapper calls [fn] *)

Record Clock := {
  now : Z;
  timers : gmap nat (Z * Handler);       (* armed timers: deadline, handler *)
  next_timer : nat;
  log : list TimerEvent                   (* newest first *)
}.

Definition new_clock : Clock :=
  {| now := 0; timers := ∅; next_timer := 0; log := [] |}.

(** The conversion of a number to the WebIDL type [long], for an
    integer: its value modulo 2^32, read as a signed 32-bit number. *)
Definition to_long (x : Z) : Z := (x + 2 ^ 31) mod 2 ^ 32 - 2 ^ 31.

(** The timeout of [setTimeout(h, delay)] in milliseconds.  A delay
    from 0 to 2^31 - 1 is its own timeout; one of 2^31 wraps to a
    negative number, so that its timer is due at once. *)
Definition timeout_of (delay : Z) : Z := Z.max 0 (to_long delay).

Definition setTimeout (h : Handler) (delay : Z) (c : Clock) : nat * Clock :=
  (next_timer c,
   {| now := now c;
      timers := <[next_timer c := (now c + timeout_of delay, h)]> (timers c);
      next_timer := S (next_timer c); log := log c |}).

(** [clearTimeout(id)]; an [undefined] or spent [id] disarms nothing. *)
Definition clearTimeout (id : option nat) (c : Clock) : Clock :=
  match id with
  | Some t =>
      {| now := now c; timers := delete t (timers c);
         next_timer := next_timer c; log := log c |}
  | None => c
  end.

Definition record (e : TimerEvent) (c : Clock) : Clock :=
  {| now := now c; timers := timers c; next_timer := next_timer c;
     log := e :: log c |}.

Definition advance (dt : Z) (c : Clock) : Clock :=
  {| now := now c + dt; timers := timers c; next_timer := next_timer c;
     log := log c |}.

(** The handler of timer [t] if the timer is armed and due; the timer is
    spent when its handler runs. *)
Definition due (t : nat) (c : Clock) : option (Handler * Clock) :=
  match timers c !! t with
  | Some (deadline, h) =>
      if deadline <=? now c then Some (h, clearTimeout (Some t) c) else None
  | None => None
  end.

(** What the environment does with a wrapper: it calls it, lets time
    pass, or runs a timer. *)
Inductive TimerInput :=
| Call (args : A)
| Elapse (dt : Z)
| Timeout (t : nat).

(** *** debounce *)

(** The closure of [debounce(fn, delay)]. *)
Record Debounced := {
  timeoutId : option nat;
  d_clock : Clock
}.

Definition debounce : Debounced :=
  {| timeoutId := None; d_clock := new_clock |}.

(** The function [debounce(fn, delay)] returns, called with [args]. *)
Definition debounced (delay : Z) (args : A) (st : Debounced) : Debounced :=
  let c0 := record (Requested (now (d_clock st)) args) (d_clock st) in
  let c1 := clearTimeout (timeoutId st) c0 in
  let '(t, c2) := setTimeout (Apply args) delay c1 in
  {| timeoutId := Some t; d_clock := c2 |}.

Definition debounce_step (delay : Z) (i : TimerInput) (st : Debounced) : Debounced :=
  match i with
  | Call args => debounced delay args st
  | Elapse dt =>
      if 0 <=? dt
      then {| timeoutId := timeoutId st; d_clock := advance dt (d_clock st) |}
      else st
  | Timeout t =>
      match due t (d_clock st) with
      | Some (Apply args, c) =>
          {| timeoutId := timeoutId st;
             d_clock := record (Applied (now c) args) c |}
      | Some (Release, c) => {| timeoutId := timeoutId st; d_clock := c |}
      | None => st
      end
  end.

Definition debounce_run (delay : Z) (ins : list TimerInput) : Debounced :=
  foldl (fun st i => debounce_step delay i st) debounce ins.

(** *** throttle

    [fn] may throw; [fn_returns args] tells whether it returns on
    [args].  When it throws, the wrapper's call ends there, before
    [inThrottle] is set. *)

(** The closure of [throttle(fn, limit)]; [inThrottle] starts out
    [undefined], which the test reads as false. *)
Record Throttled := {
  inThrottle : bool;
  t_clock : Clock
}.

Definition throttle : Throttled :=
  {| inThrottle := false; t_clock := new_clock |}.

(** The function [throttle(fn, limit)] returns, called with [args]. *)
Definition throttled (fn_returns : A -> bool) (limit : Z) (args : A)
           (st : Throttled) : Throttled :=
  let c0 := record (Requested (now (t_clock st)) args) (t_clock st) in
  if inThrottle st
  then {| inThrottle := true; t_clock := c0 |}
  else
    let c1 := record (Applied (now c0) args) c0 in
    if fn_returns args
    then {| inThrottle := true; t_clock := (setTimeout Release limit c1).2 |}
    else {| inThrottle := false; t_clock := c1 |}.

Definition throttle_step (fn_returns : A -> bool) (limit : Z) (i : TimerInput)
           (st : Throttled) : Throttled :=
  match i with
  | Call args => throttled fn_returns limit args st
  | Elapse dt =>
      if 0 <=? dt
      then {| inThrottle := inThrottle st; t_clock := advance dt (t_clock st) |}
      else st
  | Timeout t =>
      match due t (t_clock st) with
      | Some (Release, c) => {| inThrottle := false; t_clock := c |}
      | Some (Apply args, c) =>
          {| inThrottle := inThrottle st;
             t_clock := record (Applied (now c) args) c |}
      | None => st
      end
  end.

Definition throttle_run (fn_returns : A -> bool) (limit : Z)
           (ins : list TimerInput) : Throttled :=
  foldl (fun st i => throttle_step fn_returns limit i st) throttle ins.

End Wrappers.

Arguments Handler : clear implicits.
Arguments TimerEvent : clear implicits.
Arguments Clock : clear implicits.
Arguments TimerInput : clear implicits.
Arguments Debounced : clear implicits.
Arguments Throttled : clear implicits.

End Timing.

(** ** chat-store.js

    The store is an IndexedDB database behind Dexie, with the tables
    [conversations] and [messages], whose primary key [id] is
    auto-incremented, and [settings], whose primary key is [key].  A
    table with an auto-incremented key hands out 1, 2, 3, ... and never
    a key twice, so the rows of such a table, listed in the order they
    were added, are listed by key.  The time [Date.now()] gives is an
    input of each operation that reads it.  Every function is modelled
    as one step, with no other writer between its awaits. *)

Module Store.
Import JS.

Record Conversation := {
  c_id : nat;
  c_title : jsstring;
  c_model : option string;
  c_systemPrompt : option jsstring;
  c_compareMode : bool;
  c_createdAt : Z;
  c_updatedAt : Z
}.

Record Message := {
  m_id : nat;
  m_conversationId : nat;
  m_role : string;
  m_content : jsstring;
  m_model : option string;
  m_createdAt : Z
}.

(** The values the application keeps as settings. *)
Inductive Setting :=
| SUndefined
| SNull
| SBool (b : bool)
| SNumber (q : Q)
| SString (s : jsstring).

Record DB := {
  conversations : list Conversation;       (* by key *)
  next_conversation : nat;
  messages : list Message;                 (* by key *)
  next_message : nat;
  settings : gmap string Setting
}.

Definition new_db : DB :=
  {| conversations := []; next_conversation := 1;
     messages := []; next_message := 1; settings := ∅ |}.

Definition set_conversations (l : list Conversation) (db : DB) : DB :=
  {| conversations := l; next_conversation := next_conversation db;
     messages := messages db; next_message := next_message db;
     settings := settings db |}.

Definition set_messages (l : list Message) (db : DB) : DB :=
  {| conversations := conversations db;
     next_conversation := next_conversation db;
     messages := l; next_message := next_message db;
     settings := settings db |}.

(** [array.sort(by key)]: the sort of an array is stable, rows with the
    same key stay in the order they had. *)
Fixpoint insert_by {X : Type} (key : X -> Z) (x : X) (l : list X) : list X :=
  match l with
  | [] => [x]
  | y :: l' => if key x <=? key y then x :: l else y :: insert_by key x l'
  end.

Definition sort_by {X : Type} (key : X -> Z) (l : list X) : list X :=
  foldr (insert_by key) [] l.

(** *** Conversations *)

Definition createConversation (title : jsstring) (model : option string)
           (now : Z) (db : DB) : nat * DB :=
  let id := next_conversation db in
  (id,
   {| conversations :=
        conversations db ++
        [{| c_id := id; c_title := title; c_model := model;
            c_systemPrompt := None; c_compareMode := false;
            c_createdAt := now; c_updatedAt := now |}];
      next_conversation := S id;
      messages := messages db; next_message := next_message db;
      settings := settings db |}).

Definition getConversation (id : nat) (db : DB) : option Conversation :=
  find (fun c => bool_decide (c_id c = id)) (conversations db).

(** [db.conversations.orderBy('updatedAt').reverse().toArray()]: the
    index lists the rows by [updatedAt], rows of one [updatedAt] by
    key, and [reverse] reads it backwards. *)
Definition getConversations (db : DB) : list Conversation :=
  reverse (sort_by c_updatedAt (conversations db)).

Definition deleteConversation (id : nat) (db : DB) : DB :=
  let db1 :=
    set_messages
      (filter (fun m => m_conversationId m <> id) (messages db)) db in
  set_conversations
    (filter (fun c => c_id c <> id) (conversations db1)) db1.

Definition deleteAllConversations (db : DB) : DB :=
  set_conversations [] (set_messages [] db).

(** *** Messages *)

(** [db.conversations.update(id, { updatedAt: now })], which changes
    nothing when no row has the key. *)
Definition touch (id : nat) (now : Z) (c : Conversation) : Conversation :=
  if bool_decide (c_id c = id)
  then {| c_id := c_id c; c_title := c_title c; c_model := c_model c;
          c_systemPrompt := c_systemPrompt c;
          c_compareMode := c_compareMode c;
          c_createdAt := c_createdAt c; c_updatedAt := now |}
  else c.

Definition addMessage (conversationId : nat) (role : string)
           (content : jsstring) (model : option string) (now : Z)
           (db : DB) : nat * DB :=
  let id := next_message db in
  (id,
   {| conversations := map (touch conversationId now) (conversations db);
      next_conversation := next_conversation db;
      messages :=
        messages db ++
        [{| m_id := id; m_conversationId := conversationId;
            m_role := role; m_content := content; m_model := model;
            m_createdAt := now |}];
      next_message := S id;
      settings := settings db |}).

(** [where('conversationId').equals(id).sortBy('createdAt')]: the rows
    of the conversation by key, sorted by [createdAt]. *)
Definition getMessages (conversationId : nat) (db : DB) : list Message :=
  sort_by m_createdAt
    (filter (fun m => m_conversationId m = conversationId) (messages db)).

Definition with_content (id : nat) (content : jsstring) (m : Message) : Message :=
  if bool_decide (m_id m = id)
  then {| m_id := m_id m; m_conversationId := m_conversationId m;
          m_role := m_role m; m_content := content; m_model := m_model m;
          m_createdAt := m_createdAt m |}
  else m.

(** [updateMessage(id, { content })], the one way the application calls
    it. *)
Definition updateMessage (id : nat) (content : jsstring) (db : DB) : DB :=
  set_messages (map (with_content id content) (messages db)) db.

Definition deleteMessage (id : nat) (db : DB) : DB :=
  set_messages (filter (fun m => m_id m <> id) (messages db)) db.

(** *** Settings *)

(** [value ?? defaultValue] *)
Definition coalesce (value defaultValue : Setting) : Setting :=
  match value with
  | SUndefined | SNull => defaultValue
  | _ => value
  end.

(** [getSetting(key, defaultValue = null)] *)
Definition getSetting (key : string) (defaultValue : Setting) (db : DB) : Setting :=
  match settings db !! key with
  | Some value => coalesce value defaultValue
  | None => defaultValue
  end.

Definition setSetting (key : string) (value : Setting) (db : DB) : DB :=
  {| conversations := conversations db;
     next_conversation := next_conversation db;
     messages := messages db; next_message := next_message db;
     settings := <[key := value]> (settings db) |}.

(** [getAllSettings()] copies the rows into an object literal by
    assignment.  Assigning to [__proto__] makes no property of its own:
    with [null] it changes the prototype, with another primitive value
    it does nothing. *)
Definition getAllSettings (db : DB) : gmap string Setting :=
  delete "__proto__"%string (settings db).

Definition DEFAULT_SYSTEM_PROMPT : jsstring :=
  str "You are a helpful, harmless, and honest AI assistant running entirely in the user's browser. You provide clear, accurate, and thoughtful responses. You can help with a wide variety of tasks including answering questions, writing, coding, analysis, and creative projects. Be concise but thorough.".

Definition defaults : list (string * Setting) :=
  [("theme", SString (str "dark"));
   ("temperature", SNumber (7 # 10));
   ("maxTokens", SNumber (512 # 1));
   ("systemPrompt", SString DEFAULT_SYSTEM_PROMPT);
   ("defaultModel", SNull);
   ("compareMode", SBool false);
   ("sidebarCollapsed", SBool false)]%string.

(** [initializeSettings()]: the settings it returns, [{ ...defaults,
    ...existing }], and the store.  None of the default keys is a
    property of [Object.prototype], so [key in existing] asks for a
    property of [existing] itself. *)
Definition initializeSettings (db : DB) : gmap string Setting * DB :=
  let existing := getAllSettings db in
  let db' :=
    foldl (fun d '(key, value) =>
             if bool_decide (is_Some (existing !! key)) then d
             else setSetting key value d)
          db defaults in
  (existing ∪ list_to_map defaults, db').

End Store.

(** ** app.js: what the page does with the store

    [regenerateResponse], [handleEditMessage] and [clearAllData], each
    up to its calls into [ui.js] and to [generateResponse], and with no
    other task of the page writing to the store meanwhile. *)

Module History.
Import JS Store.

(** How a handler ends. *)
Inductive Ending :=
| Returned
| Toast (message kind : string)
| Regenerates (shown : list Message).      (* ui.renderMessages(shown);
                                              await generateResponse() *)

(** The loop [for (let i = messages.length - 1; i >= 0; i--)] of
    [regenerateResponse], about to test index [n - 1]; [None] is the
    [-1] it starts from. *)
Fixpoint lastUserIndex_loop (messages : list Message) (n : nat) : option nat :=
  match n with
  | O => None
  | S i =>
      match messages !! i with
      | Some m =>
          if bool_decide (m_role m = "user"%string) then Some i
          else lastUserIndex_loop messages i
      | None => lastUserIndex_loop messages i
      end
  end.

Definition lastUserIndex (messages : list Message) : option nat :=
  lastUserIndex_loop messages (length messages).

Definition delete_all (l : list Message) (db : DB) : DB :=
  foldl (fun d msg => deleteMessage (m_id msg) d) db l.

(** [!state.currentConversationId]: [null] and 0 are falsy. *)
Definition no_conversation (currentConversationId : option nat) : bool :=
  match currentConversationId with
  | None | Some O => true
  | Some (S _) => false
  end.

Definition regenerateResponse (isGenerating : bool)
           (currentConversationId : option nat) (db : DB) : Ending * DB :=
  if isGenerating || no_conversation currentConversationId then (Returned, db)
  else
    let c := default O currentConversationId in
    let messages := getMessages c db in
    if bool_decide (length messages = O) then (Returned, db)
    else
      match lastUserIndex messages with
      | None => (Toast "No user message to regenerate from" "warning", db)
      | Some i =>
          let db' := delete_all (drop (S i) messages) db in
          (Regenerates (getMessages c db'), db')
      end.

(** [messages.findIndex(m => m.id === messageId)] *)
Fixpoint findIndex (messageId : nat) (messages : list Message) : option nat :=
  match messages with
  | [] => None
  | m :: rest =>
      if bool_decide (m_id m = messageId) then Some O
      else S <$> findIndex messageId rest
  end.

Definition handleEditMessage (isGenerating : bool)
           (currentConversationId : nat) (messageId : nat)
           (newContent : jsstring) (db : DB) : Ending * DB :=
  if isGenerating then (Returned, db)
  else
    let messages := getMessages currentConversationId db in
    match findIndex messageId messages with
    | None => (Toast "Message not found" "error", db)
    | Some i =>
        let db1 := updateMessage messageId newContent db in
        let db' := delete_all (drop (S i) messages) db1 in
        (Regenerates (getMessages currentConversationId db'), db')
    end.

(** [clearAllData()]: what it writes to [state.settings] when the user
    confirms, and the store. *)
Definition clearAllData (confirmed : bool) (db : DB)
  : option (gmap string Setting) * DB :=
  if confirmed
  then
    let '(settings, db') := initializeSettings (deleteAllConversations db) in
    (Some settings, db')
  else (None, db).

End History.

(** * Vocabulary of the statements

    Predicates, invariants and sample states the theorems are stated
    with.  Nothing here belongs to the program. *)

Module WorkerSpec.
Import JS Worker.

(** Task identifiers are handed out in increasing order. *)
Definition tasks_below (st : State) : Prop :=
  forall tid t, tasks st !! tid = Some t -> (tid < next_task st)%nat.

(** A task that has ended stays ended: its identifier is not reused. *)
Definition ended (tid : nat) (st : State) : Prop :=
  tasks st !! tid = None /\ (tid < next_task st)%nat.

(** The engine call of task [tid] settles among the inputs. *)
Definition settled_in (tid : nat) (ins : list Input) : Prop :=
  Exists (fun i => exists a, i = Step tid a /\ settles a = true) ins.

(** A worker that has loaded model "m". *)
Definition loaded : State :=
  final [Recv (CInit "m"); Step 0 LibLoaded; Step 0 (Probed false);
         Step 0 ModelLoaded] init_state.

(** A request with one user message and the default settings. *)
Definition hello : GenerateData :=
  {| messages := [{| role := "user"; content := str "hello" |}];
     temperature := (7 # 10)%Q; maxTokens := 512; systemPrompt := None |}.

(** While no generation runs there is no engine call, and there is
    never more than one. *)
Definition one_generation (st : State) : Prop :=
  (forall tid c f, tasks st !! tid = Some (TGenerate c f) ->
                   isGenerating st = true) /\
  (forall t1 t2 c1 f1 c2 f2,
      tasks st !! t1 = Some (TGenerate c1 f1) ->
      tasks st !! t2 = Some (TGenerate c2 f2) -> t1 = t2).

(** The events by which a load reports progress, and those that answer
    the [init] command for model [m]. *)
Definition is_progress (e : Event) : bool :=
  match e with
  | EStatus _ _ | EProgress _ _ => true
  | _ => false
  end.

Definition answers_init (m : string) (e : Event) : bool :=
  match e with
  | EReady m' _ => bool_decide (m' = m)
  | EError _ => true
  | _ => false
  end.

(** Task [t] is a load of model [m]. *)
Definition loads (m : string) (t : Task) : bool :=
  match t with
  | TLoadLib m' | TProbe m' | TLoadModel m' _ => bool_decide (m' = m)
  | TGenerate _ _ => false
  end.

(** The inputs before the first move of task [tid]. *)
Definition before_move (tid : nat) (pre : list Input) : Prop :=
  Forall (fun i => forall a, i <> Step tid a) pre.

(** Generation [tid] is pending and the worker has taken an [abort]. *)
Definition aborting (tid : nat) (st : State) : Prop :=
  shouldAbort st = true /\
  (exists c f, tasks st !! tid = Some (TGenerate c f)) /\
  one_generation st /\ tasks_below st.

(** What the streamer hands its callback is never the empty string:
    [TextStreamer] of transformers.js 3.8.0, the version the worker
    imports, calls [callback_function] only with a text of a length
    above zero. *)
Definition engine_text (ins : list Input) : Prop :=
  forall tid token, Step tid (Token token) ∈ ins -> token <> [].

End WorkerSpec.

Module PageSpec.
Import JS Runtime Page.
Import Worker(Command(..), Event(..), ChatMessage).

(** The two sets of the registry. *)
Definition sets (m : Manager.State) : gset string * gset string :=
  (Manager.readyModels m, Manager.loadingModels m).

(** The registry never holds a model as both ready and loading. *)
Definition disjoint_sets (m : Manager.State) : Prop :=
  Manager.readyModels m ## Manager.loadingModels m.

(** Every identifier the page holds was handed out before: it is below
    [n]. *)
Definition callbacks_below (n : nat) (cb : Manager.Callbacks) : Prop :=
  (forall p, Manager.resolve_reject cb = Some p -> (p < n)%nat) /\
  (forall o p, Manager.generation cb = Some (o, p) -> (p < n)%nat).

(** A call's promise and timer are below [n]. *)
Definition sup_below (n : nat) (sv : Supervisor) : Prop :=
  (forall p, status sv = Awaiting p -> (p < n)%nat) /\
  (forall t, timeoutId sv = Some t -> (t < n)%nat).

(** The slots [generateResponse] has named. *)
Definition slots (o : Orchestrator) : list nat :=
  match o with
  | Idle => []
  | Single s => [s]
  | SeqFirst id1 id2 | SeqSecond id1 id2 | Parallel id1 id2 => [id1; id2]
  end.

(** Everything the page holds is below [n]. *)
Record below (n : nat) (st : State) : Prop := {
  b_settled : forall p o, settled st !! p = Some o -> (p < n)%nat;
  b_handlers : forall w m p, handlers st !! w = Some (m, p) -> (w < n)%nat /\ (p < n)%nat;
  b_intervals : forall i m p, intervals st !! i = Some (m, p) -> (i < n)%nat /\ (p < n)%nat;
  b_callbacks : forall m cb, Manager.callbacks (mgr st) !! m = Some cb -> callbacks_below n cb;
  b_sups : forall s sv, sups st !! s = Some sv -> (s < n)%nat /\ sup_below n sv;
  b_timers : forall t d s, timers st !! t = Some (d, s) -> (t < n)%nat;
  b_orch : Forall (fun s => (s < n)%nat) (slots (orch st));
  b_next : (next_id st <= n)%nat
}.

(** The next identifier is fresh. *)
Definition wf (st : State) : Prop := below (next_id st) st.

(** The identifiers an effect carries are below [n]. *)
Definition effect_below (n : nat) (e : Manager.Effect) : Prop :=
  match e with
  | Manager.Spawn w _ p => (w < n)%nat /\ (p < n)%nat
  | Manager.Settle p _ => (p < n)%nat
  | Manager.SetInterval i _ p => (i < n)%nat /\ (p < n)%nat
  | _ => True
  end.

(** Every entry of the callbacks registry is below [n]. *)
Definition registry_below (n : nat) (mg : Manager.State) : Prop :=
  forall m cb, Manager.callbacks mg !! m = Some cb -> callbacks_below n cb.

(** What may arrive while a model loads: the worker's greeting, status
    and progress events, the second caller's interval, time. *)
Definition still_loading (w i2 : nat) (i : Input) : bool :=
  match i with
  | Message w' EWorkerReady | Message w' (EStatus _ _)
  | Message w' (EProgress _ _) | Message w' (EPong _ _) => bool_decide (w' = w)
  | Interval i => bool_decide (i = i2)
  | Elapse _ => true
  | _ => false
  end.

Section LoadingState.
Variables (m : string) (w p1 p2 i2 : nat) (mg1 : Manager.State).

(** The second [initModel(m)] polls with interval [i2] for promise [p2]
    while the first call's worker [w] loads for promise [p1]. *)
Record loading_inv (st : State) : Prop := {
  l_mgr : mgr st = mg1;
  l_p1 : settled st !! p1 = None;
  l_p2 : settled st !! p2 = None;
  l_handler : handlers st !! w = Some (m, p1);
  l_interval : intervals st !! i2 = Some (m, p2);
  l_sups : forall s sv q, sups st !! s = Some sv -> status sv = Awaiting q ->
                          q <> p1 /\ q <> p2
}.

(** Before the second call: the first call's worker loads, and the
    identifiers [p2] and [i2] are still to be handed out. *)
Record pre_loading (st : State) : Prop := {
  pl_mgr : mgr st = mg1;
  pl_p1 : settled st !! p1 = None;
  pl_p2 : settled st !! p2 = None;
  pl_handler : handlers st !! w = Some (m, p1);
  pl_interval : intervals st !! i2 = None;
  pl_next : next_id st = p2;
  pl_sups : forall s sv q, sups st !! s = Some sv -> status sv = Awaiting q ->
                           q <> p1 /\ q <> p2
}.
End LoadingState.

(** The slot's call is where it was: same model, same place in its
    code. *)
Definition same_call (a b : option Supervisor) : Prop :=
  match a, b with
  | None, None => True
  | Some sv, Some sv' => status sv' = status sv /\ modelId sv' = modelId sv
  | _, _ => False
  end.

(** What the callbacks and the watchdog of a call may change: that
    call's flags and timer, the timers, the log of posted messages and
    of interface calls, and the next identifier. *)
Record sup_local (st st' : State) : Prop := {
  sl_mgr : mgr st' = mgr st;
  sl_app : app st' = app st;
  sl_orch : orch st' = orch st;
  sl_settled : settled st' = settled st;
  sl_handlers : handlers st' = handlers st;
  sl_intervals : intervals st' = intervals st;
  sl_now : now st' = now st;
  sl_sups : forall s, same_call (sups st !! s) (sups st' !! s)
}.

(** The tasks that can run while the application generates without a
    caller changing the registry under it: worker messages and errors,
    intervals, timers, time, [abort] calls and the stop button. *)
Definition undisturbed (i : Input) : bool :=
  match i with
  | Message _ _ | Error _ _ | Interval _ | Elapse _ | Timeout _
  | Abort _ | AbortAll | StopGeneration => true
  | _ => false
  end.

(** What such a task leaves in place. *)
Record calm (st st' : State) : Prop := {
  c_app : app st' = app st;
  c_orch : orch st' = orch st;
  c_handlers : handlers st' = handlers st;
  c_callbacks : Manager.callbacks (mgr st') = Manager.callbacks (mgr st);
  c_intervals : intervals st' ⊆ intervals st;
  c_workers : Manager.workers (mgr st') ⊆ Manager.workers (mgr st);
  c_sups : forall s, same_call (sups st !! s) (sups st' !! s)
}.

(** Effects that create no worker, end none and start no interval. *)
Definition keeps_registry (e : Manager.Effect) : bool :=
  match e with
  | Manager.Spawn _ _ _ | Manager.Terminate _ | Manager.SetInterval _ _ _ => false
  | _ => true
  end.

(** The first [resolve] or [reject] of promise [p] among the effects. *)
Fixpoint first_settle (p : nat) (effs : list Manager.Effect) : option Outcome :=
  match effs with
  | [] => None
  | Manager.Settle q o :: rest =>
      if bool_decide (q = p) then Some o else first_settle p rest
  | _ :: rest => first_settle p rest
  end.

(** Promise [p] once the effects have been performed. *)
Definition settled_after (st : State) (p : nat) (effs : list Manager.Effect)
  : option Outcome :=
  match settled st !! p with
  | Some o => Some o
  | None => first_settle p effs
  end.

(** The outcome a terminal event gives the promise of [generate]. *)
Definition outcome_of (data : Event) : Outcome :=
  match data with
  | EComplete content _ => Fulfilled (VString content)
  | EAborted => Fulfilled VNull
  | EError message => Rejected message
  | _ => Fulfilled VUndefined
  end.

(** What the continuation of a call leaves in place. *)
Record resumed (st st' : State) : Prop := {
  r_mgr : mgr st' = mgr st;
  r_app : app st' = app st;
  r_orch : orch st' = orch st;
  r_settled : settled st' = settled st;
  r_handlers : handlers st' = handlers st;
  r_intervals : intervals st' = intervals st;
  r_posted : posted st' = posted st
}.

(** The [generate] command [generateSingleResponse] posts. *)
Definition app_command (a : AppState) : Command :=
  CGenerate
    {| Worker.messages := chatHistory a;
       Worker.temperature := Manager.nullish (set_temperature a) (7 # 10)%Q;
       Worker.maxTokens := Manager.nullish (set_maxTokens a) 512;
       Worker.systemPrompt := set_systemPrompt a |}.

(** The registry entry [generate] leaves for slot [s]. *)
Definition installed (s p : nat) (a : AppState) (mg : Manager.State) (m : string)
  : Manager.Callbacks :=
  {| Manager.resolve_reject :=
       Manager.resolve_reject
         (default Manager.no_callbacks (Manager.callbacks mg !! m));
     Manager.generation := Some (sup_options s a, p) |}.

(** The tasks that can run while [generateResponse] is under way. *)
Definition during_generation (i : Input) : bool :=
  undisturbed i ||
  match i with GenerateResponse => true | _ => false end.

(** Event [data] of worker [w] is a terminal event, and the manager
    routes it to the generation whose promise is [p]. *)
Definition ends_generation (p w : nat) (data : Event) (st : State) : Prop :=
  Worker.is_terminal data = true /\
  exists m q cb opts,
    handlers st !! w = Some (m, q) /\
    Manager.callbacks (mgr st) !! m = Some cb /\
    Manager.generation cb = Some (opts, p).

(** [generateResponse] awaits the first of two calls on one model. *)
Record first_running (id1 id2 p1 : nat) (st : State) : Prop := {
  fr_orch : orch st = SeqFirst id1 id2;
  fr_gen : isGenerating (app st) = true;
  fr_first : exists sv, sups st !! id1 = Some sv /\ status sv = Awaiting p1;
  fr_second : sups st !! id2 = None;
  fr_pending : settled st !! p1 = None;
  fr_rr : forall m cb, Manager.callbacks (mgr st) !! m = Some cb ->
                       Manager.resolve_reject cb <> Some p1;
  fr_handlers : forall w m q, handlers st !! w = Some (m, q) -> q <> p1;
  fr_intervals : forall j m q, intervals st !! j = Some (m, q) -> q <> p1
}.

(** The commands posted to worker [w], oldest first. *)
Definition sent_to (w : nat) (st : State) : list Command :=
  omap (fun wc => if bool_decide (wc.1 = w) then Some wc.2 else None)
       (posted st).

(** What happens beside a call: the variables of the call for slot [s],
    the commands sent to worker [w] and promise [p] are as they were. *)
Record aside (s w p : nat) (x y : State) : Prop := {
  as_sup : sups y !! s = sups x !! s;
  as_sent : sent_to w y = sent_to w x;
  as_settled : settled y !! p = settled x !! p
}.

(** An effect of the manager that stays within slot [k], away from
    worker [w] and promise [p]. *)
Definition beside (k w p : nat) (e : Manager.Effect) : bool :=
  match e with
  | Manager.Invoke (SupOnToken k') _ | Manager.Invoke (SupOnComplete k') _ =>
      bool_decide (k' = k)
  | Manager.Post w' _ => negb (bool_decide (w' = w))
  | Manager.Settle q _ => negb (bool_decide (q = p))
  | _ => true
  end.

(** The model of slot [k] runs on another worker than [w]. *)
Definition elsewhere (k w : nat) (x : State) : Prop :=
  forall m, sup_model k x = Some m -> Manager.workers (mgr x) !! m <> Some w.

(** The call for slot [s] runs model [m]; while it awaits, it awaits
    [p], and [p] is pending in [b]. *)
Definition slot_ok (s p : nat) (m : string) (b x : State) : Prop :=
  match sups x !! s with
  | Some sv =>
      modelId sv = Some m /\
      forall q, status sv = Awaiting q -> q = p /\ settled b !! p = None
  | None => False
  end.

(** The tasks in which a call can fail: an event of its worker (an
    engine error, or a token that trips the repetition guard) and its
    watchdog. *)
Definition of_slot (s w : nat) (st : State) (i : Input) : Prop :=
  (exists data, i = Message w data) \/
  (exists t d, i = Timeout t /\ timers st !! t = Some (d, s)).

Section PairOfCalls.
Variables (id1 id2 p1 p2 : nat) (m1 m2 : string) (w1 w2 : nat).
Variable C : gmap string Manager.Callbacks.
Variable H : gmap nat (string * nat).
Variable W : gmap string nat.

(** [generateResponse] awaits [Promise.all] of the two calls.  [b] is
    the state the running task started in. *)
Record pair_slots (b x : State) : Prop := {
  bs_handlers : handlers x = H;
  bs_callbacks : Manager.callbacks (mgr x) = C;
  bs_workers : Manager.workers (mgr x) ⊆ W;
  bs_slot1 : slot_ok id1 p1 m1 b x;
  bs_slot2 : slot_ok id2 p2 m2 b x;
  bs_orch : orch x = if returned id1 x && returned id2 x
                     then Idle else Parallel id1 id2
}.

(** The picture between two tasks. *)
Definition both_slots (st : State) : Prop := pair_slots st st.

(** What dual generation on two models promises at every moment. *)
Definition parallel_calls (st : State) : Prop :=
  (orch st = Idle <-> returned id1 st = true /\ returned id2 st = true) /\
  (forall data, Worker.is_terminal data = true ->
                returned id1 (step (Message w1 data) st) = true /\
                returned id2 (step (Message w2 data) st) = true) /\
  (forall i, undisturbed i = true ->
             (returned id1 st = true -> returned id1 (step i st) = true) /\
             (returned id2 st = true -> returned id2 (step i st) = true)) /\
  (forall i, of_slot id1 w1 st i -> aside id2 w2 p2 st (step i st)) /\
  (forall i, of_slot id2 w2 st i -> aside id1 w1 p1 st (step i st)).
End PairOfCalls.

(** One call of [generateSingleResponse] under way: slot [s] awaits
    promise [p] of the generation on model [m], served by worker [w]. *)
Record supervised (s p : nat) (m : string) (w : nat) (sv : Supervisor)
       (st : State) : Prop := {
  sv_orch : orch st = Single s;
  sv_handler : exists q, handlers st !! w = Some (m, q);
  sv_worker : Manager.workers (mgr st) !! m = Some w;
  sv_callbacks : exists rr a,
      Manager.callbacks (mgr st) !! m
      = Some {| Manager.resolve_reject := rr;
                Manager.generation := Some (sup_options s a, p) |};
  sv_sup : sups st !! s = Some sv;
  sv_model : modelId sv = Some m;
  sv_status : status sv = Awaiting p;
  sv_pending : settled st !! p = None
}.

(** The terminal events that fulfil the promise of [generate]. *)
Definition fulfils (data : Event) : bool :=
  match data with
  | EComplete _ _ | EAborted => true
  | _ => false
  end.

(** Where the call for slot [s] stands. *)
Definition status_of (s : nat) (st : State) : option Status :=
  status <$> sups st !! s.

(** An application with model "m" selected, not in compare mode. *)
Definition one_model : AppState := new_app (Some "m"%string) None false [].

(** A caller that passes no options, and one whose callbacks are the
    probes [k+1] .. [k+5]. *)
Definition no_options : CallerOptions :=
  {| c_temperature := None; c_maxTokens := None; c_systemPrompt := None;
     c_onToken := None; c_onGenerating := None; c_onComplete := None;
     c_onAborted := None; c_onError := None |}.

Definition probes (k : nat) : CallerOptions :=
  {| c_temperature := None; c_maxTokens := None; c_systemPrompt := None;
     c_onToken := Some (k + 1)%nat; c_onGenerating := Some (k + 2)%nat;
     c_onComplete := Some (k + 3)%nat; c_onAborted := Some (k + 4)%nat;
     c_onError := Some (k + 5)%nat |}.

(** Two models, loaded one after the other, in compare mode. *)
Definition two_loaded : State :=
  run [InitModel "a" None; Message 3 (EReady "a" None);
       InitModel "b" None; Message 6 (EReady "b" None)]
      (new_page (new_app (Some "a"%string) (Some "b"%string) true [])).

(** A single generation on a loaded model, 45 seconds into which no
    token has come and the watchdog has fired. *)
Definition tripped : State :=
  run [InitModel "a" None; Message 3 (EReady "a" None); GenerateResponse;
       Elapse 45000; Timeout 6]
      (new_page (new_app (Some "a"%string) None false [])).

(** The variables of its call. *)
Definition tripped_call : Supervisor :=
  {| modelId := Some "a"%string; timeoutId := Some 6%nat; timedOut := true;
     repetitionDetected := false; status := Awaiting 5 |}.

(** No entry of the callbacks registry holds promise [p]. *)
Definition forgotten (p : nat) (mg : Manager.State) : Prop :=
  forall m cb, Manager.callbacks mg !! m = Some cb ->
    Manager.resolve_reject cb <> Some p /\
    forall o q, Manager.generation cb = Some (o, q) -> q <> p.

(** The registry holds model [m] as loading, not as ready, and has no
    worker for it. *)
Definition unserved (m : string) (mg : Manager.State) : Prop :=
  m ∈ Manager.loadingModels mg /\
  (m ∉ Manager.readyModels mg) /\
  Manager.workers mg !! m = None.

(** Model [m] is held as loading, and no worker is there to load it:
    none is registered for it, and no live worker reports for it. *)
Record orphaned (m : string) (st : State) : Prop := {
  or_registry : unserved m (mgr st);
  or_handlers : forall w m' q, handlers st !! w = Some (m', q) -> m' <> m
}.

(** Promise [p] is pending, and only an interval that polls model [m]
    could settle it. *)
Record polling (m : string) (p : nat) (st : State) : Prop := {
  po_pending : settled st !! p = None;
  po_below : (p < next_id st)%nat;
  po_handlers : forall w m' q, handlers st !! w = Some (m', q) -> q <> p;
  po_intervals : forall j m' q, intervals st !! j = Some (m', q) -> q = p -> m' = m;
  po_callbacks : forgotten p (mgr st)
}.

(** An effect that starts no worker for model [m]. *)
Definition spawns_other (m : string) (e : Manager.Effect) : Prop :=
  match e with
  | Manager.Spawn _ m' _ => m' <> m
  | _ => True
  end.

(** An effect that neither settles promise [p] nor hands it to a worker
    or to an interval for another model than [m]. *)
Definition spares (m : string) (p : nat) (e : Manager.Effect) : Prop :=
  match e with
  | Manager.Spawn _ _ q => q <> p
  | Manager.Settle q _ => q <> p
  | Manager.SetInterval _ m' q => q = p -> m' = m
  | _ => True
  end.

(** What the application's own functions leave in place: the registry
    but for new entries of [callbacks], the workers, the intervals and
    the promises. *)
Record app_frame (st st' : State) : Prop := {
  af_sets : sets (mgr st') = sets (mgr st);
  af_workers : Manager.workers (mgr st') = Manager.workers (mgr st);
  af_handlers : handlers st' = handlers st;
  af_intervals : intervals st' = intervals st;
  af_settled : settled st' = settled st;
  af_next : (next_id st <= next_id st')%nat;
  af_forgotten : forall p, (p < next_id st)%nat ->
                           forgotten p (mgr st) -> forgotten p (mgr st')
}.

(** A single generation on a loaded model that has just started, and
    the variables of its call. *)
Definition started : State :=
  run [InitModel "a" None; Message 3 (EReady "a" None); GenerateResponse]
      (new_page (new_app (Some "a"%string) None false [])).

Definition started_call : Supervisor :=
  {| modelId := Some "a"%string; timeoutId := Some 6%nat; timedOut := false;
     repetitionDetected := false; status := Awaiting 5 |}.

(** What [generateSingleResponse] shows when [modelManager.generate]
    throws for the model [model]: it has no worker, or is not ready. *)
Definition refusal (model : option string) (mg : Manager.State) : string :=
  match model with
  | None => "Model null not initialized"
  | Some m =>
      match Manager.workers mg !! m with
      | None => "Model " +:+ m +:+ " not initialized"
      | Some _ => "Model " +:+ m +:+ " not ready"
      end
  end.

(** [modelManager.generate] accepts a request for [model]. *)
Definition servable (model : option string) (mg : Manager.State) : bool :=
  match model with
  | None => false
  | Some m =>
      bool_decide (is_Some (Manager.workers mg !! m)) && Manager.isModelReady mg m
  end.

(** Two calls of [initModel] for model "m" in a row; the load fails;
    within the 100 ms the second call waits between two polls a third
    call starts the load again, and this load succeeds. *)
Definition retried_load : list Input :=
  [InitModel "m" None; InitModel "m" None;
   Message 3 EWorkerReady; Message 3 (EError "boom");
   Elapse 50; InitModel "m" None; Elapse 50; Interval 5;
   Message 9 EWorkerReady; Message 9 (EReady "m" (Some "wasm"%string));
   Elapse 100; Interval 5].

(** [unloadAll()] when the Map [this.workers] lists its keys in the
    order [keys]: the loop calls [unloadModel] for each of them in
    turn. *)
Definition unloadAll_in (keys : list string) (mg : Manager.State)
  : Manager.State * list Manager.Effect :=
  foldl (fun acc k =>
           let '(st1, effs) := Manager.unloadModel k acc.1 in
           (st1, acc.2 ++ effs))
        (mg, []) keys.

(** [keys] lists the keys of [this.workers], each once. *)
Definition lists_workers (keys : list string) (mg : Manager.State) : Prop :=
  NoDup keys /\ forall k, k ∈ keys <-> is_Some (Manager.workers mg !! k).

(** A registry with two workers, "b" put in before "a". *)
Definition two_workers : Manager.State :=
  {| Manager.workers := <["a"%string := 6%nat]> (<["b"%string := 3%nat]> ∅);
     Manager.readyModels := {["a"%string]};
     Manager.loadingModels := {["b"%string]};
     Manager.callbacks := ∅ |}.

End PageSpec.

Module SystemSpec.
Import JS Runtime System.
Import Worker(Command(..), Event(..), ChatMessage).
Import PageSpec.

(** The page loads model "m", a caller asks for a generation, and while
    its first token is out a second caller asks for another on the same
    model; the worker goes on to stream a second token and to
    complete. *)
Definition busy_schedule : list Input :=
  [Caller (Page.InitModel "m" None); Deliver 3; WorkerRecv 3;
   WorkerStep 3 0 Worker.LibLoaded; WorkerStep 3 0 (Worker.Probed false);
   WorkerStep 3 0 Worker.ModelLoaded; Deliver 3; Deliver 3; Deliver 3;
   Caller (Page.Generate "m" [] (probes 10)); WorkerRecv 3;
   WorkerStep 3 1 (Worker.Token (str "a"));
   Caller (Page.Generate "m" [] (probes 20)); WorkerRecv 3;
   Deliver 3; Deliver 3; Deliver 3;
   WorkerStep 3 1 (Worker.Token (str "b")); WorkerStep 3 1 (Worker.Return None);
   Deliver 3; Deliver 3].

(** The system after that schedule. *)
Definition busy_run : State := run busy_schedule (new_system one_model).

End SystemSpec.

Module TimingSpec.
Import Timing.

Section Wrappers.

Context {A : Type}.

(** The timers a debounced function has armed, read off its log: the one
    of the newest request as long as it has not run, and no other. *)
Definition pending (delay : Z) (st : Debounced A) : Prop :=
  match log (d_clock st) with
  | Requested t0 args :: _ =>
      exists t, timeoutId st = Some t /\
                timers (d_clock st) = {[ t := (t0 + timeout_of delay, Apply args) ]}
  | _ => timers (d_clock st) = ∅
  end.

(** Every call of [fn] comes right after the request whose arguments it
    takes, the timeout of [delay] or more later. *)
Definition settled_calls (delay : Z) (l : list (TimerEvent A)) : Prop :=
  forall pre T args post,
    l = pre ++ Applied T args :: post ->
    exists t0 post', post = Requested t0 args :: post' /\ t0 + timeout_of delay <= T.

(** [fn] is called only inside a request, with that request's
    arguments. *)
Definition immediate_calls (l : list (TimerEvent A)) : Prop :=
  forall pre T args post,
    l = pre ++ Applied T args :: post ->
    exists post', post = Requested T args :: post'.

(** After a call of [fn] that returned, no call of [fn] for the timeout
    of [limit]. *)
Definition spaced_calls (fn_returns : A -> bool) (limit : Z)
           (l : list (TimerEvent A)) : Prop :=
  forall pre T2 args2 mid T1 args1 post,
    l = pre ++ Applied T2 args2 :: mid ++ Applied T1 args1 :: post ->
    fn_returns args1 = true ->
    T1 + timeout_of limit <= T2.

(** The calls of [fn] that returned all lie the timeout of [limit] or
    more before [bound]. *)
Definition calls_before (fn_returns : A -> bool) (limit bound : Z)
           (l : list (TimerEvent A)) : Prop :=
  forall T args,
    Applied T args ∈ l -> fn_returns args = true -> T + timeout_of limit <= bound.

(** The flag of a throttled function and its timers: while the flag is
    set one timer is armed, which will clear it no earlier than the
    timeout of [limit] after the last call of [fn] that returned; while
    it is clear no timer is armed and that time has passed. *)
Definition throttling (fn_returns : A -> bool) (limit : Z)
           (st : Throttled A) : Prop :=
  if inThrottle st
  then exists t deadline,
         timers (t_clock st) = {[ t := (deadline, Release) ]} /\
         calls_before fn_returns limit deadline (log (t_clock st))
  else timers (t_clock st) = ∅ /\
       calls_before fn_returns limit (now (t_clock st)) (log (t_clock st)).

(** What a run of a throttled function keeps. *)
Record throttle_inv (fn_returns : A -> bool) (limit : Z)
       (st : Throttled A) : Prop := {
  ti_flag : throttling fn_returns limit st;
  ti_past : forall T args,
      Applied T args ∈ log (t_clock st) -> T <= now (t_clock st);
  ti_immediate : immediate_calls (log (t_clock st));
  ti_spaced : spaced_calls fn_returns limit (log (t_clock st))
}.

End Wrappers.

End TimingSpec.

Module StoreSpec.
Import JS Store.

(** The rows of the two tables with generated keys carry different keys,
    in rising order, all below the next key to give out. *)
Fixpoint rising (keys : list nat) (bound : nat) : Prop :=
  match keys with
  | [] => True
  | k :: rest => (forall k', k' ∈ rest -> (k < k')%nat) /\ (k < bound)%nat /\ rising rest bound
  end.

Definition store_wf (db : DB) : Prop :=
  rising (map m_id (messages db)) (next_message db) /\
  rising (map c_id (conversations db)) (next_conversation db).

(** What the application does with the store. *)
Inductive Op :=
| CreateConversation (title : jsstring) (model : option string) (now : Z)
| DeleteConversation (id : nat)
| DeleteAllConversations
| AddMessage (conversationId : nat) (role : string) (content : jsstring)
             (model : option string) (now : Z)
| UpdateMessage (id : nat) (content : jsstring)
| DeleteMessage (id : nat)
| SetSetting (key : string) (value : Setting)
| InitializeSettings.

Definition apply (op : Op) (db : DB) : DB :=
  match op with
  | CreateConversation title model now => (createConversation title model now db).2
  | DeleteConversation id => deleteConversation id db
  | DeleteAllConversations => deleteAllConversations db
  | AddMessage c role content model now => (addMessage c role content model now db).2
  | UpdateMessage id content => updateMessage id content db
  | DeleteMessage id => deleteMessage id db
  | SetSetting key value => setSetting key value db
  | InitializeSettings => (initializeSettings db).2
  end.

Definition store_run (ops : list Op) : DB := foldl (fun db op => apply op db) new_db ops.

(** Sorted by [key], smallest first. *)
Fixpoint sorted_by {X : Type} (key : X -> Z) (l : list X) : Prop :=
  match l with
  | [] => True
  | x :: rest => (forall y, y ∈ rest -> key x <= key y) /\ sorted_by key rest
  end.

End StoreSpec.

(** * Proofs *)

Section RepetitionGuard.

Import JS Utils.

Example repeated_token :
  isRepetitive (str "Sure! " ++ repeat_pattern (str "abcd") 8) = true.
Proof. vm_compute. reflexivity. Qed.

Example dashes_24 : isRepetitive (repeat_pattern (str "-") 24) = true.
Proof. vm_compute. reflexivity. Qed.

Example dashes_23 : isRepetitive (repeat_pattern (str "-") 23) = false.
Proof. vm_compute. reflexivity. Qed.

Example spaces_100 : isRepetitive (repeat_pattern (str " ") 100) = false.
Proof. vm_compute. reflexivity. Qed.

Example pangram :
  isRepetitive (str "The quick brown fox jumps over the lazy dog.") = false.
Proof. vm_compute. reflexivity. Qed.

Lemma trimStart_nil (s : jsstring) :
  trimStart s = [] <-> whitespace_only s.
Proof.
  unfold whitespace_only. induction s as [|c s IH]; simpl.
  - split; [constructor | reflexivity].
  - destruct (is_whitespace c) eqn:Hc.
    + rewrite IH. split; intros H.
      * constructor; assumption.
      * inversion H; assumption.
    + split; [discriminate |].
      intros H. inversion H; congruence.
Qed.

Lemma trimStart_whitespace_only (s : jsstring) :
  whitespace_only (trimStart s) -> whitespace_only s.
Proof.
  unfold whitespace_only. induction s as [|c s IH]; simpl; [trivial |].
  destruct (is_whitespace c) eqn:Hc; intros H.
  - constructor; auto.
  - inversion H; congruence.
Qed.

Lemma trim_nil (s : jsstring) :
  length (trim s) = 0%nat <-> whitespace_only s.
Proof.
  unfold trim, trimEnd. rewrite length_reverse. split.
  - intros H. apply nil_length_inv in H. apply trimStart_nil in H.
    apply trimStart_whitespace_only.
    unfold whitespace_only in *. rewrite Forall_reverse in H. exact H.
  - intros H. apply trimStart_nil in H. rewrite H. reflexivity.
Qed.

Lemma slice_nat (s : jsstring) (a b : nat) :
  (a <= b <= length s)%nat ->
  slice s (Z.of_nat a) (Z.of_nat b) = take (b - a) (drop a s).
Proof.
  intros H. unfold slice, rel_index.
  destruct (Z.ltb_spec (Z.of_nat a) 0); [lia |].
  destruct (Z.ltb_spec (Z.of_nat b) 0); [lia |].
  rewrite !Z.min_l by lia.
  f_equal; [| f_equal]; lia.
Qed.

Lemma slice_from_neg (s : jsstring) (n : nat) :
  (0 < n <= length s)%nat ->
  slice_from s (- Z.of_nat n) = last_chars n s.
Proof.
  intros H. unfold slice_from, slice, rel_index, last_chars.
  destruct (Z.ltb_spec (- Z.of_nat n) 0); [| lia].
  destruct (Z.ltb_spec (Z.of_nat (length s)) 0); [lia |].
  rewrite Z.min_l by lia. rewrite Z.max_l by lia.
  replace (Z.to_nat (Z.of_nat (length s) + - Z.of_nat n)) with (length s - n)%nat by lia.
  apply take_ge. rewrite length_drop. lia.
Qed.

Lemma length_repeat_pattern (p : jsstring) (n : nat) :
  length (repeat_pattern p n) = (n * length p)%nat.
Proof. induction n; simpl; [reflexivity |]. rewrite length_app. lia. Qed.

(** The chunks the inner loop compares: [n] chunks of [L] characters
    from position [i * L] on all equal [p]. *)
Lemma isPattern_loop_true (suffix p : jsstring) (L n i : nat) :
  (0 < L)%nat -> length p = L ->
  ((i + n) * L <= length suffix)%nat ->
  isPattern_loop suffix p (Z.of_nat L) n (Z.of_nat i) = true
  <-> take (n * L) (drop (i * L) suffix) = repeat_pattern p n.
Proof.
  intros HL Hp. revert i. induction n as [|n IH]; intros i Hlen; simpl.
  - rewrite take_0. tauto.
  - replace (Z.of_nat i * Z.of_nat L) with (Z.of_nat (i * L)) by lia.
    replace ((Z.of_nat i + 1) * Z.of_nat L) with (Z.of_nat (S i * L)) by lia.
    rewrite slice_nat by lia.
    replace (S i * L - i * L)%nat with L by lia.
    replace (Z.of_nat i + 1) with (Z.of_nat (S i)) by lia.
    assert (Hsplit : take (L + n * L) (drop (i * L) suffix)
                     = take L (drop (i * L) suffix)
                       ++ take (n * L) (drop (S i * L) suffix)).
    { rewrite <- take_take_drop, drop_drop. do 3 f_equal. lia. }
    rewrite Hsplit. unfold streq.
    case_bool_decide as Heq; cbn [negb].
    + rewrite IH by lia. rewrite Heq. split; [intros ->; reflexivity |].
      intros H. apply app_inv_head in H. exact H.
    + split; [discriminate |]. intros H. exfalso. apply Heq.
      apply app_inj_1 in H; [tauto |].
      rewrite length_take, length_drop. lia.
Qed.

Lemma threshold_of_nat (L : nat) :
  threshold_of (Z.of_nat L) = Z.of_nat (required_repeats L).
Proof.
  unfold threshold_of, required_repeats.
  destruct (Z.ltb_spec (Z.of_nat L) 4), (Nat.leb_spec L 3); lia.
Qed.

Lemma required_repeats_pos (L : nat) : (0 < required_repeats L)%nat.
Proof. unfold required_repeats. destruct (L <=? 3)%nat; lia. Qed.

Lemma isRepetitive_body_spec (text : jsstring) (L : nat) :
  (0 < L)%nat ->
  isRepetitive_body text (Z.of_nat L) = true <-> degenerate_at text L.
Proof.
  intros HL. unfold isRepetitive_body, degenerate_at.
  rewrite threshold_of_nat.
  pose proof (required_repeats_pos L) as HT.
  set (T := required_repeats L) in *.
  replace (Z.of_nat L * Z.of_nat T) with (Z.of_nat (L * T)) by lia.
  destruct (Z.ltb_spec (Z.of_nat (length text)) (Z.of_nat (L * T))) as [Hlt | Hge].
  { split; [discriminate | lia]. }
  assert (Hle : (L * T <= length text)%nat) by lia.
  rewrite slice_from_neg by nia.
  set (suffix := last_chars (L * T) text).
  assert (Hsuf : length suffix = (L * T)%nat).
  { unfold suffix, last_chars. rewrite length_drop. lia. }
  change 0 with (Z.of_nat 0).
  rewrite slice_nat by nia. rewrite drop_0, Nat.sub_0_r.
  set (pattern := take L suffix).
  assert (Hpat : length pattern = L).
  { unfold pattern. rewrite length_take. nia. }
  rewrite Nat2Z.id.
  destruct (Nat.eqb_spec (length (trim pattern)) 0) as [Hws | Hws].
  - apply trim_nil in Hws. split; [discriminate |].
    intros [_ (p & Hp & Hnws & Heq)]. exfalso. apply Hnws.
    replace p with pattern; [exact Hws |].
    unfold pattern. rewrite Heq.
    destruct T as [|T']; [lia |]. simpl.
    apply take_app_length'. congruence.
  - rewrite (isPattern_loop_true suffix pattern L T 0 HL Hpat) by (simpl; lia).
    simpl. rewrite drop_0.
    rewrite (take_ge suffix) by lia.
    split.
    + intros Heq. split; [exact Hle |].
      exists pattern. split; [exact Hpat |]. split; [| exact Heq].
      intros Hw. apply Hws. apply trim_nil. exact Hw.
    + intros [_ (p & Hp & _ & Heq)].
      replace pattern with p; [exact Heq |].
      unfold pattern. rewrite Heq.
      destruct T as [|T']; [lia |]. simpl.
      symmetry. apply take_app_length'. congruence.
Qed.

Lemma isRepetitive_loop_spec (text : jsstring) (n a : nat) :
  (0 < a)%nat ->
  isRepetitive_loop text n (Z.of_nat a) = true
  <-> exists L : nat, (a <= L < a + n)%nat /\ degenerate_at text L.
Proof.
  revert a. induction n as [|n IH]; intros a Ha; simpl.
  - split; [discriminate | intros (L & H & _); lia].
  - destruct (isRepetitive_body text (Z.of_nat a)) eqn:Hb.
    + split; [| reflexivity]. intros _. exists a. split; [lia |].
      apply isRepetitive_body_spec; assumption.
    + replace (Z.of_nat a + 1) with (Z.of_nat (S a)) by lia.
      rewrite IH by lia. split.
      * intros (L & HL & Hd). exists L. split; [lia | exact Hd].
      * intros (L & HL & Hd).
        destruct (decide (L = a)) as [-> | Hne].
        -- apply isRepetitive_body_spec in Hd; [congruence | assumption].
        -- exists L. split; [lia | exact Hd].
Qed.

Lemma isRepetitive_iff (text : jsstring) :
  isRepetitive text = true <-> degenerate_tail text.
Proof.
  unfold isRepetitive, degenerate_tail, maxPatternLen, minPatternLen.
  change (Z.to_nat (50 - 1 + 1)) with 50%nat.
  change 1 with (Z.of_nat 1).
  rewrite isRepetitive_loop_spec by lia.
  split; intros (L & HL & H); exists L; (split; [lia | exact H]).
Qed.

Lemma last_chars_app (prefix s : jsstring) :
  last_chars (length s) (prefix ++ s) = s.
Proof.
  unfold last_chars. rewrite length_app.
  replace (length prefix + length s - length s)%nat with (length prefix) by lia.
  apply drop_app_length.
Qed.

Lemma repeat_pattern_add (p : jsstring) (n m : nat) :
  repeat_pattern p (n + m) = repeat_pattern p n ++ repeat_pattern p m.
Proof.
  induction n as [|n IH]; simpl; [reflexivity |].
  rewrite IH, app_assoc. reflexivity.
Qed.

(** C2. [isRepetitive(text)] is true exactly when, for some pattern
    length L from 1 to 50, the text has at least L*T characters and its
    last L*T characters are one pattern of length L, not made of
    whitespace only, repeated back-to-back T times, with T = 25 for
    L <= 3 and T = 6 for L >= 4; and a text that ends in a
    whitespace-free token of 4 characters repeated 8 times trips the
    guard. *)
Theorem isRepetitive_spec (text : jsstring) :
  (isRepetitive text = true <-> degenerate_tail text) /\
  (forall prefix token : jsstring,
      length token = 4%nat ->
      whitespace_free token ->
      text = prefix ++ repeat_pattern token 8 ->
      isRepetitive text = true).
Proof.
  split; [apply isRepetitive_iff |].
  intros prefix token Hlen Hfree ->.
  apply isRepetitive_iff.
  exists 4%nat. split; [lia |].
  unfold degenerate_at. change (required_repeats 4) with 6%nat.
  assert (Hrep : length (repeat_pattern token 6) = 24%nat).
  { rewrite length_repeat_pattern. lia. }
  split.
  { rewrite length_app, length_repeat_pattern. lia. }
  exists token. split; [exact Hlen |]. split.
  - intros Hw. destruct token as [|c token]; [discriminate |].
    inversion Hw; inversion Hfree; congruence.
  - change 8%nat with (2 + 6)%nat.
    rewrite repeat_pattern_add, app_assoc.
    change (4 * 6)%nat with 24%nat. rewrite <- Hrep.
    apply last_chars_app.
Qed.

Lemma isRepetitive_spec_witness :
  isRepetitive (str "Sure! " ++ repeat_pattern (str "abcd") 8) = true.
Proof.
  apply (proj2 (isRepetitive_spec (str "Sure! " ++ repeat_pattern (str "abcd") 8))
               (str "Sure! ") (str "abcd")).
  - reflexivity.
  - unfold whitespace_free. repeat constructor.
  - reflexivity.
Defined.

End RepetitionGuard.

Section WorkerRuntime.

Import JS Worker.
Import WorkerSpec.

(** A generation that streams two tokens and completes; one that is
    aborted after its first token; one that the engine fails, with a
    second request refused meanwhile. *)
Example streamed_and_complete :
  events (trace [Recv (CGenerate hello); Step 1 (Token (str "Hi"));
                 Step 1 (Token (str "!")); Step 1 (Return None)] loaded)
  = [EGenerating; EToken (str "Hi") (str "Hi"); EToken (str "!") (str "Hi!");
     EComplete (str "Hi!") (Some "m"%string)].
Proof. vm_compute. reflexivity. Qed.

Example aborted_after_token :
  events (trace [Recv (CGenerate hello); Step 1 (Token (str "Hi"));
                 Recv CAbort; Step 1 (Token (str "!"))] loaded)
  = [EGenerating; EToken (str "Hi") (str "Hi"); EAborted].
Proof. vm_compute. reflexivity. Qed.

Example refused_while_busy :
  events (trace [Recv (CGenerate hello); Recv (CGenerate hello);
                 Step 1 (Throw "out of memory")] loaded)
  = [EGenerating; EError "Already generating"; EError "out of memory"].
Proof. vm_compute. reflexivity. Qed.

Lemma final_cons (i : Input) (ins : list Input) (st : State) :
  final (i :: ins) st = final ins (step i st).1.
Proof.
  unfold final. simpl. destruct (step i st) as [st1 evs]. simpl.
  destruct (run ins st1) as [st2 tr]. reflexivity.
Qed.

Lemma trace_cons (i : Input) (ins : list Input) (st : State) :
  trace (i :: ins) st = (i, (step i st).2) :: trace ins (step i st).1.
Proof.
  unfold trace. simpl. destruct (step i st) as [st1 evs]. simpl.
  destruct (run ins st1) as [st2 tr]. reflexivity.
Qed.

Lemma final_app (ins1 ins2 : list Input) (st : State) :
  final (ins1 ++ ins2) st = final ins2 (final ins1 st).
Proof.
  revert st. induction ins1 as [|i ins1 IH]; intros st; [reflexivity |].
  simpl. rewrite !final_cons. apply IH.
Qed.

Lemma trace_app (ins1 ins2 : list Input) (st : State) :
  trace (ins1 ++ ins2) st = trace ins1 st ++ trace ins2 (final ins1 st).
Proof.
  revert st. induction ins1 as [|i ins1 IH]; intros st; [reflexivity |].
  simpl. rewrite !trace_cons, final_cons, IH. reflexivity.
Qed.

Ltac step_cases :=
  unfold step, onmessage, initModel, generate, step_task, finally_generate,
    spawn, set_task, end_task in *;
  repeat case_match; simplify_eq/=.

Lemma step_next_task (i : Input) (st : State) :
  (next_task st <= next_task (step i st).1)%nat.
Proof. step_cases; lia. Qed.

Lemma step_tasks_below (i : Input) (st : State) :
  tasks_below st -> tasks_below (step i st).1.
Proof.
  intros H tid t. pose proof (H tid) as Htid.
  step_cases; intros Hl;
    repeat match goal with
           | H : <[_:=_]> _ !! _ = Some _ |- _ =>
               apply lookup_insert_Some in H; destruct H as [[<- _] | [_ H]]
           | H : delete _ _ !! _ = Some _ |- _ =>
               apply lookup_delete_Some in H; destruct H as [_ H]
           end;
    first [lia | pose proof (Htid _ ltac:(eassumption)); lia].
Qed.

Ltac other_task :=
  first
    [ assumption
    | lia
    | rewrite lookup_insert_ne by (first [lia | congruence]); assumption
    | rewrite lookup_delete_ne by (first [lia | congruence]); assumption
    | apply lookup_delete_None; right; assumption ].

Lemma step_ended_tasks (tid : nat) (i : Input) (st : State) :
  ended tid st -> ended tid (step i st).1.
Proof.
  intros [Hnone Hlt]. unfold ended.
  step_cases; split; other_task.
Qed.

Lemma step_ended_silent (tid : nat) (a : Act) (st : State) :
  ended tid st -> (step (Step tid a) st).2 = [].
Proof.
  intros [Hnone Hlt]. unfold step, step_task. rewrite Hnone. reflexivity.
Qed.

Lemma ended_run (tid : nat) (ins : list Input) (st : State) :
  ended tid st ->
  events_of tid (trace ins st) = [] /\ ended tid (final ins st).
Proof.
  revert st. induction ins as [|i ins IH]; intros st Hend; [split; [reflexivity | exact Hend] |].
  rewrite trace_cons, final_cons.
  destruct (IH _ (step_ended_tasks tid i st Hend)) as [Hev Hfin].
  split; [| exact Hfin].
  cbn [events_of]. destruct i as [c | t a]; [exact Hev |].
  case_bool_decide as Ht; [| exact Hev].
  subst t. rewrite step_ended_silent by exact Hend. exact Hev.
Qed.

(** One step of the worker, seen from a running generation task. *)
Lemma step_live (tid : nat) (c : EngineCall) (f : jsstring)
      (i : Input) (st : State) :
  tasks st !! tid = Some (TGenerate c f) ->
  (tid < next_task st)%nat ->
  (tasks (step i st).1 !! tid = Some (TGenerate c f) /\
   (tid < next_task (step i st).1)%nat /\
   (forall a, i = Step tid a -> (step i st).2 = [] /\ settles a = false))
  \/ (exists t, i = Step tid (Token t) /\
               tasks (step i st).1 !! tid = Some (TGenerate c (f ++ t)) /\
               (tid < next_task (step i st).1)%nat /\
               (step i st).2 = [EToken t (f ++ t)])
  \/ (exists a e, i = Step tid a /\ ended tid (step i st).1 /\
                 (step i st).2 = [e] /\ is_terminal e = true).
Proof.
  intros Hlive Hlt.
  destruct i as [cmd | t a].
  - left. split; [| split; [| intros a [=]]].
    + step_cases; other_task.
    + pose proof (step_next_task (Recv cmd) st). lia.
  - destruct (decide (t = tid)) as [-> | Hne].
    + unfold step, step_task, ended. rewrite Hlive.
      destruct a; simpl;
        try (left; split; [assumption | split; [assumption |]];
             intros ? [= <-]; split; reflexivity).
      * destruct (shouldAbort st) eqn:Hab.
        -- right. right. exists (Token token), EAborted.
           unfold finally_generate, end_task. simpl.
           rewrite lookup_delete_eq. auto.
        -- right. left. exists token. unfold set_task. simpl.
           rewrite lookup_insert_eq. auto.
      * right. right. eexists _, _. unfold finally_generate, end_task. simpl.
        rewrite lookup_delete_eq. repeat split; eauto.
      * right. right. unfold finally_generate, end_task, catch_generate. simpl.
        case_bool_decide; eexists _, _; rewrite lookup_delete_eq;
          repeat split; eauto.
    + left. split; [| split; [| intros ? [= ?]; congruence]].
      * step_cases; other_task.
      * pose proof (step_next_task (Step t a) st). lia.
Qed.

Lemma is_token_stream (acc : jsstring) (toks : list jsstring) :
  Forall (fun e => is_token e = true) (token_stream acc toks).
Proof.
  revert acc. induction toks as [|t toks IH]; intros acc; simpl; constructor; auto.
Qed.

(** The events of a generation task from a state in which it runs:
    [token] events that each extend the accumulated text by their
    token, then nothing while the engine call is pending, and exactly
    one terminal event once it has settled. *)
Lemma generation_run (tid : nat) (ins : list Input) :
  forall (c : EngineCall) (f : jsstring) (st : State),
    tasks st !! tid = Some (TGenerate c f) ->
    (tid < next_task st)%nat ->
    exists (toks : list jsstring) (term : list Event),
      events_of tid (trace ins st) = token_stream f toks ++ term /\
      ((term = [] /\ is_Some (tasks (final ins st) !! tid) /\
        Forall (fun i => forall a, i = Step tid a -> settles a = false) ins)
       \/ (ended tid (final ins st) /\
           exists e, term = [e] /\ is_terminal e = true)).
Proof.
  induction ins as [|i ins IH]; intros c f st Hlive Hlt.
  - exists [], []. split; [reflexivity |]. left. split; [reflexivity |].
    split; [unfold final; simpl; rewrite Hlive; eauto | constructor].
  - rewrite trace_cons, final_cons.
    destruct (step_live tid c f i st Hlive Hlt)
      as [(Hsame & Hlt' & Hquiet) | [(t & -> & Hnext & Hlt' & Hev) | (a & e & -> & Hend & Hev & Hterm)]].
    + destruct (IH c f _ Hsame Hlt') as (toks & term & Heq & Hcases).
      exists toks, term. split.
      * cbn [events_of]. destruct i as [cmd | t a]; [exact Heq |].
        case_bool_decide as Ht; [| exact Heq].
        subst t. destruct (Hquiet a eq_refl) as [-> _]. exact Heq.
      * destruct Hcases as [(-> & Hsome & Hall) | Hcase]; [left | right; exact Hcase].
        split; [reflexivity |]. split; [exact Hsome |].
        constructor; [| exact Hall].
        intros a ->. apply (Hquiet a eq_refl).
    + destruct (IH c (f ++ t) _ Hnext Hlt') as (toks & term & Heq & Hcases).
      exists (t :: toks), term. split.
      * cbn [events_of]. rewrite bool_decide_eq_true_2 by reflexivity.
        rewrite Hev, Heq. reflexivity.
      * destruct Hcases as [(-> & Hsome & Hall) | Hcase]; [left | right; exact Hcase].
        split; [reflexivity |]. split; [exact Hsome |].
        constructor; [| exact Hall]. intros a [= <-]. reflexivity.
    + destruct (ended_run tid ins _ Hend) as [Hnil Hfin].
      exists [], [e]. split.
      * cbn [events_of]. rewrite bool_decide_eq_true_2 by reflexivity.
        rewrite Hev, Hnil. reflexivity.
      * right. split; [exact Hfin |]. exists e. auto.
Qed.

Lemma accepted_generate (data : GenerateData) (st : State) :
  accepts st = true ->
  (step (Recv (CGenerate data)) st).2 = [EGenerating] /\
  tasks (step (Recv (CGenerate data)) st).1 !! next_task st
  = Some (TGenerate (engine_call data) []) /\
  next_task (step (Recv (CGenerate data)) st).1 = S (next_task st) /\
  isGenerating (step (Recv (CGenerate data)) st).1 = true /\
  shouldAbort (step (Recv (CGenerate data)) st).1 = false.
Proof.
  unfold accepts. intros [Hgen Hidle]%andb_true_iff.
  apply bool_decide_eq_true in Hgen. destruct Hgen as [g Hg].
  apply negb_true_iff in Hidle.
  unfold step, onmessage, generate. rewrite Hg, Hidle. simpl.
  rewrite lookup_insert_eq. auto.
Qed.

(** The events of one generation are [token] events, then at most one
    terminal event. *)
Lemma generation_tokens (st : State) (data : GenerateData) (ins : list Input) :
  accepts st = true ->
  exists (toks : list jsstring) (term : list Event),
    events_of (next_task st) (trace ins (step (Recv (CGenerate data)) st).1)
    = token_stream [] toks ++ term /\
    (term = [] \/ exists e, term = [e] /\ is_terminal e = true).
Proof.
  intros Hacc.
  destruct (accepted_generate data st Hacc) as (_ & Hlive & Hnext & _ & _).
  destruct (generation_run (next_task st) ins _ _ _ Hlive)
    as (toks & term & Heq & Hcases); [rewrite Hnext; lia |].
  exists toks, term. split; [exact Heq |].
  destruct Hcases as [(-> & _) | (_ & e & -> & Hterm)]; eauto.
Qed.

(** C6. Every accepted [generate] command is answered by [generating];
    the events of that generation are then [token] events followed, once
    the engine call has settled, by exactly one of [complete], [aborted]
    and [error], after which the generation sends nothing more. *)
Theorem one_terminal_event (st : State) (data : GenerateData)
        (ins : list Input) :
  accepts st = true ->
  let tid := next_task st in
  let started := step (Recv (CGenerate data)) st in
  started.2 = [EGenerating] /\
  exists (toks : list jsstring) (term : list Event),
    events_of tid (trace ins started.1) = token_stream [] toks ++ term /\
    (term = [] \/ exists e, term = [e] /\ is_terminal e = true) /\
    (settled_in tid ins -> exists e, term = [e] /\ is_terminal e = true) /\
    (term = [] -> is_Some (tasks (final ins started.1) !! tid)).
Proof.
  intros Hacc tid started.
  destruct (accepted_generate data st Hacc) as (Hev & Hlive & Hnext & _ & _).
  split; [exact Hev |].
  destruct (generation_run tid ins _ _ _ Hlive) as (toks & term & Heq & Hcases).
  { unfold started, tid in *. rewrite Hnext. lia. }
  exists toks, term. split; [exact Heq |].
  destruct Hcases as [(-> & Hsome & Hall) | (Hend & e & -> & Hterm)].
  - split; [left; reflexivity |]. split; [| intros _; exact Hsome].
    intros Hset. exfalso. unfold settled_in in Hset.
    rewrite Exists_exists in Hset. destruct Hset as (i & Hin & a & -> & Hs).
    rewrite Forall_forall in Hall. specialize (Hall _ Hin a eq_refl). congruence.
  - split; [right; eauto |]. split; [eauto | discriminate].
Qed.

Lemma one_terminal_event_witness :
  (step (Recv (CGenerate hello)) loaded).2 = [EGenerating] /\
  exists (toks : list jsstring) (term : list Event),
    events_of 1 (trace [Step 1 (Token (str "Hi")); Recv CAbort;
                        Step 1 (Token (str "!"))]
                       (step (Recv (CGenerate hello)) loaded).1)
    = token_stream [] toks ++ term /\
    (term = [] \/ exists e, term = [e] /\ is_terminal e = true) /\
    (settled_in 1 [Step 1 (Token (str "Hi")); Recv CAbort;
                   Step 1 (Token (str "!"))] ->
     exists e, term = [e] /\ is_terminal e = true) /\
    (term = [] ->
     is_Some (tasks (final [Step 1 (Token (str "Hi")); Recv CAbort;
                            Step 1 (Token (str "!"))]
                           (step (Recv (CGenerate hello)) loaded).1) !! 1%nat)).
Proof.
  apply (one_terminal_event loaded hello). reflexivity.
Defined.

Lemma token_stream_successive (toks : list jsstring) :
  forall (acc : jsstring) (l1 l2 : list Event) (t1 f1 t2 f2 : jsstring),
    token_stream acc toks = l1 ++ [EToken t1 f1; EToken t2 f2] ++ l2 ->
    f2 = f1 ++ t2.
Proof.
  induction toks as [|t toks IH]; intros acc l1 l2 t1 f1 t2 f2 Heq.
  - destruct l1; discriminate.
  - destruct l1 as [|e l1]; simpl in Heq.
    + destruct toks as [|t' toks]; simpl in Heq; [discriminate |].
      congruence.
    + injection Heq as _ Heq. eapply IH. exact Heq.
Qed.

Lemma filter_token_stream (acc : jsstring) (toks : list jsstring)
      (term : list Event) :
  (term = [] \/ exists e, term = [e] /\ is_terminal e = true) ->
  filter (fun e => is_token e = true) (token_stream acc toks ++ term)
  = token_stream acc toks.
Proof.
  intros Hterm. rewrite filter_app.
  assert (filter (fun e => is_token e = true) term = []) as ->.
  { destruct Hterm as [-> | (e & -> & He)]; [reflexivity |].
    destruct e; try discriminate; reflexivity. }
  rewrite app_nil_r.
  revert acc. induction toks as [|t toks IH]; intros acc; [reflexivity |].
  simpl. rewrite filter_cons_True by reflexivity. rewrite IH. reflexivity.
Qed.

(** Within one generation the accumulated text of a [token] event is
    the accumulated text of the previous [token] event followed by the
    new token, whatever the token is. *)
Lemma accumulated_text_extends (st : State) (data : GenerateData)
        (ins : list Input) (t1 f1 t2 f2 : jsstring) :
  accepts st = true ->
  successive_tokens
    (events_of (next_task st) (trace ins (step (Recv (CGenerate data)) st).1))
    t1 f1 t2 f2 ->
  f2 = f1 ++ t2 /\
  f1 `prefix_of` f2 /\
  (length f1 <= length f2)%nat /\
  (strictly_extends f1 f2 <-> t2 <> []).
Proof.
  intros Hacc (l1 & l2 & Heq).
  destruct (generation_tokens st data ins Hacc) as (toks & term & Hev & Hterm).
  rewrite Hev, filter_token_stream in Heq by exact Hterm.
  apply token_stream_successive in Heq. subst f2.
  split; [reflexivity |]. split; [exists t2; reflexivity |].
  split; [rewrite length_app; lia |].
  split.
  - intros (t & Ht & Happ). apply app_inv_head in Happ. congruence.
  - intros Ht. exists t2. auto.
Qed.

(** A [token] event of a task carries the text the streamer handed the
    callback of that task. *)
Lemma token_event_input (tid : nat) (ins : list Input) :
  forall (st : State) (token fullResponse : jsstring),
    EToken token fullResponse ∈ events_of tid (trace ins st) ->
    Step tid (Token token) ∈ ins.
Proof.
  induction ins as [|i ins IH]; intros st token fullResponse Hin.
  - inversion Hin.
  - rewrite trace_cons in Hin. cbn [events_of] in Hin.
    destruct i as [cmd | t a]; [right; eapply IH; exact Hin |].
    case_bool_decide as Ht; [| right; eapply IH; exact Hin].
    subst t. apply elem_of_app in Hin as [Hin | Hin]; [| right; eapply IH; exact Hin].
    assert (Ha : a = Token token).
    { unfold step, step_task, catch_generate in Hin.
      repeat case_match; simpl in Hin;
        repeat (apply elem_of_cons in Hin as [Hin | Hin]; [congruence |]);
        inversion Hin. }
    subst a. left.
Qed.

(** C4. Within one generation, the streamer handing over no empty text,
    the accumulated text of each [token] event is the accumulated text
    of the previous [token] event followed by the new token: it strictly
    extends the previous one, which is a prefix of it, and is longer. *)
Theorem accumulated_text_strict (st : State) (data : GenerateData)
        (ins : list Input) (t1 f1 t2 f2 : jsstring) :
  accepts st = true ->
  engine_text ins ->
  successive_tokens
    (events_of (next_task st) (trace ins (step (Recv (CGenerate data)) st).1))
    t1 f1 t2 f2 ->
  f2 = f1 ++ t2 /\
  strictly_extends f1 f2 /\
  f1 `prefix_of` f2 /\
  (length f1 < length f2)%nat.
Proof.
  intros Hacc Hengine Hsucc.
  destruct (accumulated_text_extends st data ins t1 f1 t2 f2 Hacc Hsucc)
    as (Heq & Hpre & _ & Hstrict).
  assert (Ht2 : t2 <> []).
  { destruct Hsucc as (l1 & l2 & Hf).
    apply (Hengine (next_task st)).
    apply (token_event_input _ _ (step (Recv (CGenerate data)) st).1 t2 f2).
    assert (Hin : EToken t2 f2
                  ∈ filter (fun e => is_token e = true)
                      (events_of (next_task st)
                         (trace ins (step (Recv (CGenerate data)) st).1))).
    { rewrite Hf. apply elem_of_app. right. right. left. }
    apply list_elem_of_filter in Hin as [_ Hin]. exact Hin. }
  split; [exact Heq |]. split; [apply Hstrict; exact Ht2 |].
  split; [exact Hpre |].
  subst f2. rewrite length_app.
  destruct t2; [congruence | simpl; lia].
Qed.

Lemma accumulated_text_strict_witness :
  str "Hi!" = str "Hi" ++ str "!" /\
  strictly_extends (str "Hi") (str "Hi!") /\
  str "Hi" `prefix_of` str "Hi!" /\
  (length (str "Hi") < length (str "Hi!"))%nat.
Proof.
  apply (accumulated_text_strict loaded hello
           [Step 1 (Token (str "Hi")); Step 1 (Token (str "!"))]
           (str "Hi") (str "Hi") (str "!") (str "Hi!")).
  - reflexivity.
  - intros tid token Hin.
    repeat (apply elem_of_cons in Hin as [Hin | Hin];
            [injection Hin as _ ->; discriminate |]).
    inversion Hin.
  - exists [], []. reflexivity.
Defined.

Lemma one_generation_init : one_generation init_state /\ tasks_below init_state.
Proof.
  split; [split |]; unfold tasks_below, init_state; simpl; intros *;
    rewrite ?lookup_empty; discriminate.
Qed.

Ltac lookups :=
  repeat match goal with
         | H : <[?i:=_]> _ !! ?j = Some _ |- _ =>
             apply lookup_insert_Some in H;
             destruct H as [[? H] | [? H]]; simplify_eq/=
         | H : delete ?i _ !! ?j = Some _ |- _ =>
             apply lookup_delete_Some in H; destruct H as [? H]
         end.

Lemma step_one_generation (i : Input) (st : State) :
  one_generation st -> tasks_below st ->
  one_generation (step i st).1.
Proof.
  intros [Hgen Huniq] Hbelow.
  assert (Hfresh : forall t, tasks st !! next_task st = Some t -> False).
  { intros t Ht. apply Hbelow in Ht. lia. }
  split.
  - intros tid c f.
    step_cases; intros Hl; lookups; eauto;
      try (exfalso; eauto; fail);
      match goal with
      | Hx : tasks st !! ?a = Some (TGenerate _ _),
        Hy : tasks st !! ?b = Some (TGenerate _ _) |- _ =>
          pose proof (Huniq _ _ _ _ _ _ Hx Hy); congruence
      end.
  - intros t1 t2 c1 f1 c2 f2.
    step_cases; intros Hla Hlb; lookups; eauto;
      try (exfalso; eauto; fail);
      try match goal with
      | Hx : tasks st !! ?a = Some (TGenerate _ _) |- _ =>
          apply Hgen in Hx; congruence
      end.
Qed.

Lemma reachable_invariants (ins : list Input) :
  one_generation (final ins init_state) /\ tasks_below (final ins init_state).
Proof.
  induction ins as [|i ins IH] using rev_ind; [apply one_generation_init |].
  rewrite final_app, final_cons. destruct IH as [Hone Hbelow].
  change (final [] ?s) with s.
  split; [apply step_one_generation | apply step_tasks_below]; assumption.
Qed.

Lemma step_same_but_flag (i : Input) (a b : State) :
  same_but_flag a b ->
  (forall tid c f, tasks a !! tid = Some (TGenerate c f) ->
                   isGenerating a = true) ->
  (step i a).2 = (step i b).2 /\
  same_but_flag (step i a).1 (step i b).1.
Proof.
  destruct a as [pa ga ca ia sa ta na], b as [pb gb cb ib sb tb nb].
  unfold same_but_flag. simpl.
  intros (-> & -> & -> & -> & -> & -> & Hflag) Hgen.
  destruct i as [cmd | tid act].
  - destruct cmd; simpl; unfold initModel, generate, spawn; simpl;
      repeat case_match; simpl; auto 10.
  - unfold step, step_task. simpl.
    destruct (tb !! tid) as [[m | m | m d | c f] |] eqn:Hl;
      destruct act; simpl; auto 10;
      repeat case_match; simpl; auto 10.
    all: specialize (Hgen _ _ _ Hl); specialize (Hflag Hgen); congruence.
Qed.

Lemma run_same_but_flag (ins : list Input) :
  forall a b : State,
    same_but_flag a b ->
    one_generation a -> tasks_below a ->
    map snd (trace ins a) = map snd (trace ins b) /\
    same_but_flag (final ins a) (final ins b).
Proof.
  induction ins as [|i ins IH]; intros a b Hsame Hone Hbelow.
  - split; [reflexivity | exact Hsame].
  - rewrite !trace_cons, !final_cons.
    destruct (step_same_but_flag i a b Hsame (proj1 Hone)) as [Hev Hnext].
    destruct (IH _ _ Hnext (step_one_generation i a Hone Hbelow)
                 (step_tasks_below i a Hbelow)) as [Htr Hfin].
    split; [| exact Hfin]. simpl. rewrite Hev, Htr. reflexivity.
Qed.

Lemma aborts_idle (k : nat) (st : State) :
  isGenerating st = false ->
  events (trace (replicate k (Recv CAbort)) st) = [] /\
  same_but_flag (final (replicate k (Recv CAbort)) st) st.
Proof.
  revert st. induction k as [|k IH]; intros st Hidle.
  - split; [reflexivity |]. unfold same_but_flag. auto 10.
  - simpl. rewrite trace_cons, final_cons. simpl.
    destruct (IH {| pipeline := pipeline st; generator := generator st;
                    currentModel := currentModel st;
                    isGenerating := isGenerating st; shouldAbort := true;
                    tasks := tasks st; next_task := next_task st |} Hidle)
      as [Hev Hsame].
    split; [exact Hev |].
    unfold same_but_flag in *. simpl in *.
    destruct Hsame as (? & ? & ? & ? & ? & ? & ?).
    repeat split; try congruence.
Qed.

Lemma events_app (tr1 tr2 : list (Input * list Event)) :
  events (tr1 ++ tr2) = events tr1 ++ events tr2.
Proof. unfold events. rewrite map_app, concat_app. reflexivity. Qed.

Lemma generation_end_clears (st : State) (tid : nat) (c : EngineCall)
      (f : jsstring) (a : Act) (e : Event) :
  tasks st !! tid = Some (TGenerate c f) ->
  e ∈ (step (Step tid a) st).2 ->
  is_terminal e = true ->
  isGenerating (step (Step tid a) st).1 = false /\
  shouldAbort (step (Step tid a) st).1 = false.
Proof.
  intros Hl. unfold step, step_task. rewrite Hl.
  destruct a; simpl; try (intros []%elem_of_nil; fail); auto.
  destruct (shouldAbort st); simpl; auto.
  intros [-> | []%elem_of_nil]%elem_of_cons. discriminate.
Qed.

(** C8. Any number of [abort] calls on a handle whose worker is not
    generating (in particular after [complete]) returns normally, leaves
    the registry as it is and only posts [abort] messages; the worker
    sends nothing in answer and everything it does afterwards is what it
    would have done without them, because the flag they leave behind is
    cleared when a generation starts and when one ends. *)
Theorem abort_idle_noop (ins0 : list Input) (k : nat) (rest : list Input)
        (mg : Manager.State) (m : string) :
  let st := final ins0 init_state in
  let aborts := replicate k (Recv CAbort) in
  isGenerating st = false ->
  ((Manager.abort m mg).1 = mg /\
   forall e, e ∈ (Manager.abort m mg).2 ->
             exists w, Manager.workers mg !! m = Some w /\
                       e = Manager.Post w CAbort) /\
  events (trace aborts st) = [] /\
  events (trace (aborts ++ rest) st) = events (trace rest st) /\
  same_but_flag (final (aborts ++ rest) st) (final rest st) /\
  (forall (w : State) (data : GenerateData),
      accepts w = true ->
      shouldAbort (step (Recv (CGenerate data)) w).1 = false) /\
  (forall (w : State) (tid : nat) (c : EngineCall) (f : jsstring)
          (a : Act) (e : Event),
      tasks w !! tid = Some (TGenerate c f) ->
      e ∈ (step (Step tid a) w).2 -> is_terminal e = true ->
      isGenerating (step (Step tid a) w).1 = false /\
      shouldAbort (step (Step tid a) w).1 = false).
Proof.
  intros st aborts Hidle.
  split.
  { unfold Manager.abort. simpl. split; [reflexivity |].
    intros e He. destruct (Manager.workers mg !! m) as [w |].
    - apply list_elem_of_singleton in He. eauto.
    - apply elem_of_nil in He. contradiction. }
  destruct (aborts_idle k st Hidle) as [Hquiet Hsame]. fold aborts in Hquiet, Hsame.
  destruct (reachable_invariants ins0) as [Hone Hbelow]. fold st in Hone, Hbelow.
  assert (Hone' : one_generation (final aborts st) /\ tasks_below (final aborts st)).
  { unfold st. rewrite <- final_app. apply reachable_invariants. }
  destruct (run_same_but_flag rest _ _ Hsame (proj1 Hone') (proj2 Hone'))
    as [Htr Hfin].
  split; [exact Hquiet |]. split; [| split; [| split]].
  - rewrite trace_app, events_app, Hquiet. unfold events. rewrite Htr. reflexivity.
  - rewrite final_app. exact Hfin.
  - intros w data Hacc. apply (accepted_generate data w Hacc).
  - intros w tid c f a e. apply generation_end_clears.
Qed.

Lemma abort_idle_noop_witness :
  events (trace (replicate 3 (Recv CAbort)
                 ++ [Recv (CGenerate hello); Step 1 (Token (str "Hi"));
                     Step 1 (Return None)]) loaded)
  = events (trace [Recv (CGenerate hello); Step 1 (Token (str "Hi"));
                   Step 1 (Return None)] loaded).
Proof.
  apply (abort_idle_noop
           [Recv (CInit "m"); Step 0 LibLoaded; Step 0 (Probed false);
            Step 0 ModelLoaded] 3
           [Recv (CGenerate hello); Step 1 (Token (str "Hi"));
            Step 1 (Return None)]
           Manager.new_manager "m").
  reflexivity.
Defined.

End WorkerRuntime.

Section Registry.

Import JS Runtime Page.
Import Worker(Command(..), Event(..), ChatMessage).
Import PageSpec.

(** *** What the application's functions leave alone *)

Lemma mgr_perform_basic e st : mgr (perform_basic e st) = mgr st.
Proof. destruct e as [| | | |[]| | |]; simpl; try reflexivity.
       unfold settle. case_match; reflexivity. Qed.

Lemma mgr_foldl_basic effs st :
  mgr (foldl (fun s e => perform_basic e s) st effs) = mgr st.
Proof.
  revert st. induction effs as [|e effs IH]; intros st; [reflexivity |].
  simpl. rewrite IH. apply mgr_perform_basic.
Qed.

Lemma mgr_manager_abort m st : mgr (manager_abort m st) = mgr st.
Proof.
  destruct m as [m |]; [| reflexivity]. unfold manager_abort, Manager.abort.
  rewrite mgr_foldl_basic. reflexivity.
Qed.

Lemma mgr_clear_timeout s st : mgr (clear_timeout s st) = mgr st.
Proof. unfold clear_timeout. repeat case_match; reflexivity. Qed.

Lemma mgr_resetTimeout s st : mgr (resetTimeout s st) = mgr st.
Proof. unfold resetTimeout. simpl. apply mgr_clear_timeout. Qed.

Lemma mgr_sup_onToken s t a st : mgr (sup_onToken s t a st) = mgr st.
Proof.
  unfold sup_onToken. case_match; simpl.
  - rewrite mgr_manager_abort, mgr_clear_timeout. simpl. apply mgr_resetTimeout.
  - apply mgr_resetTimeout.
Qed.

Lemma mgr_sup_onComplete s c m st : mgr (sup_onComplete s c m st) = mgr st.
Proof. unfold sup_onComplete. simpl. apply mgr_clear_timeout. Qed.

Lemma mgr_sup_catch s msg st : mgr (sup_catch s msg st) = mgr st.
Proof. unfold sup_catch. simpl. apply mgr_clear_timeout. Qed.

Lemma mgr_sup_resume s o st : mgr (sup_resume s o st) = mgr st.
Proof.
  unfold sup_resume. repeat case_match;
    rewrite ?mgr_sup_catch; reflexivity.
Qed.

Lemma mgr_perform e st : mgr (perform e st) = mgr st.
Proof.
  unfold perform. repeat case_match; subst;
    rewrite ?mgr_sup_onToken, ?mgr_sup_onComplete, ?mgr_perform_basic;
    reflexivity.
Qed.

Lemma mgr_perform_all effs st : mgr (perform_all effs st) = mgr st.
Proof.
  unfold perform_all. revert st.
  induction effs as [|e effs IH]; intros st; [reflexivity |].
  simpl. rewrite IH. apply mgr_perform.
Qed.

Lemma mgr_settle p o st : mgr (settle p o st) = mgr st.
Proof. unfold settle. case_match; reflexivity. Qed.

Lemma sets_generate m msgs o p mg :
  sets (Manager.generate m msgs o p mg).1.1 = sets mg.
Proof. unfold Manager.generate. repeat case_match; reflexivity. Qed.

Lemma sets_sup_start s m st : sets (mgr (sup_start s m st)) = sets (mgr st).
Proof.
  unfold sup_start, Manager.generate. destruct m as [m |].
  - repeat case_match; simplify_eq/=;
      rewrite ?mgr_sup_catch, ?mgr_sup_resume, ?mgr_foldl_basic; simpl;
      rewrite ?mgr_clear_timeout; reflexivity.
  - rewrite mgr_sup_catch, mgr_resetTimeout. reflexivity.
Qed.

Lemma sets_orch_continue s st : sets (mgr (orch_continue s st)) = sets (mgr st).
Proof.
  unfold orch_continue, finish. repeat case_match; simpl;
    rewrite ?sets_sup_start; reflexivity.
Qed.

Lemma sets_start_and_continue s m st :
  sets (mgr (start_and_continue s m st)) = sets (mgr st).
Proof.
  unfold start_and_continue. case_match;
    rewrite ?sets_orch_continue, sets_sup_start; reflexivity.
Qed.

Lemma sets_generateResponse st : sets (mgr (generateResponse st)) = sets (mgr st).
Proof.
  unfold generateResponse. repeat case_match;
    rewrite ?sets_start_and_continue; reflexivity.
Qed.

Lemma sets_stopGeneration st : sets (mgr (stopGeneration st)) = sets (mgr st).
Proof.
  unfold stopGeneration. repeat case_match;
    rewrite ?mgr_manager_abort; reflexivity.
Qed.

Lemma sets_resume_sup b s st : sets (mgr (resume_sup b s st)) = sets (mgr st).
Proof.
  unfold resume_sup. repeat case_match;
    rewrite ?sets_orch_continue, ?mgr_sup_resume; reflexivity.
Qed.

Lemma sets_microtasks b st : sets (mgr (microtasks b st)) = sets (mgr st).
Proof.
  unfold microtasks. generalize (active (orch st)). intros l. revert st.
  induction l as [|s l IH]; intros st; [reflexivity |].
  simpl. rewrite IH. apply sets_resume_sup.
Qed.

Lemma disjoint_initModel modelId p i created mg :
  disjoint_sets mg -> disjoint_sets (Manager.initModel modelId p i created mg).1.1.
Proof.
  unfold disjoint_sets, Manager.initModel, Manager.isModelReady,
    Manager.isModelLoading.
  intros H. repeat case_bool_decide; simpl; [assumption | assumption |].
  destruct created; simpl; set_solver.
Qed.

Lemma disjoint_handleWorkerMessage modelId data mg :
  disjoint_sets mg ->
  disjoint_sets (Manager.handleWorkerMessage modelId data mg).1.
Proof.
  unfold disjoint_sets. intros H. destruct data; simpl; try assumption;
    try set_solver.
  all: case_match; simpl; set_solver.
Qed.

Lemma disjoint_onerror modelId p message mg :
  disjoint_sets mg -> disjoint_sets (Manager.onerror modelId p message mg).1.
Proof. unfold disjoint_sets. simpl. set_solver. Qed.

Lemma disjoint_unloadModel modelId mg :
  disjoint_sets mg -> disjoint_sets (Manager.unloadModel modelId mg).1.
Proof.
  unfold disjoint_sets, Manager.unloadModel. intros H.
  case_match; simpl; set_solver.
Qed.

Lemma disjoint_unloadAll mg :
  disjoint_sets mg -> disjoint_sets (Manager.unloadAll mg).1.
Proof.
  unfold Manager.unloadAll. generalize (map_to_list (Manager.workers mg)).
  intros l. generalize (@nil Manager.Effect). revert mg.
  induction l as [|kw l IH]; intros mg effs H; [exact H |].
  simpl. destruct (Manager.unloadModel kw.1 mg) as [mg1 effs1] eqn:Hu.
  apply IH. change mg1 with (mg1, effs1).1. rewrite <- Hu.
  apply disjoint_unloadModel. exact H.
Qed.

Lemma disjoint_sets_eq a b : sets a = sets b -> disjoint_sets b -> disjoint_sets a.
Proof. unfold sets, disjoint_sets. intros [= -> ->]. trivial. Qed.

Lemma handle_disjoint i st :
  disjoint_sets (mgr st) -> disjoint_sets (mgr (handle i st)).
Proof.
  intros H.
  destruct i as [w data | w message | i | dt | t | m fails | m messages options
                | m | | m | | | ]; simpl.
  - destruct (handlers st !! w) as [[modelId p] |]; [| exact H].
    unfold with_manager. rewrite mgr_perform_all.
    exact (disjoint_handleWorkerMessage modelId data _ H).
  - destruct (handlers st !! w) as [[modelId p] |]; [| exact H].
    unfold with_manager. rewrite mgr_perform_all.
    exact (disjoint_onerror modelId p message _ H).
  - destruct (intervals st !! i) as [[modelId p] |]; [| exact H].
    rewrite mgr_perform_all. exact H.
  - case_match; exact H.
  - repeat case_match; try exact H.
    unfold watchdog. rewrite mgr_manager_abort. exact H.
  - pose proof (disjoint_initModel m (next_id st) (S (next_id st))
                  (match fails with
                   | Some e => inl e
                   | None => inr (S (S (next_id st)))
                   end) (mgr st) H) as Hd.
    destruct (Manager.initModel _ _ _ _ _) as [[mg r] effs]. simpl in Hd.
    destruct r; rewrite ?mgr_settle, mgr_perform_all; exact Hd.
  - pose proof (sets_generate m messages (caller_options options)
                  (next_id st) (mgr st)) as Hs.
    destruct (Manager.generate _ _ _ _ _) as [[mg r] effs]. simpl in Hs.
    apply (disjoint_sets_eq _ (mgr st)); [| exact H].
    destruct r; rewrite ?mgr_settle, mgr_perform_all; exact Hs.
  - unfold with_manager. rewrite mgr_perform_all. exact H.
  - unfold with_manager. rewrite mgr_perform_all. exact H.
  - unfold with_manager. rewrite mgr_perform_all.
    exact (disjoint_unloadModel m _ H).
  - unfold with_manager. rewrite mgr_perform_all.
    exact (disjoint_unloadAll _ H).
  - apply (disjoint_sets_eq _ (mgr st)); [apply sets_generateResponse | exact H].
  - apply (disjoint_sets_eq _ (mgr st)); [apply sets_stopGeneration | exact H].
Qed.

Lemma run_snoc ins i st : run (ins ++ [i]) st = step i (run ins st).
Proof. unfold run. rewrite foldl_app. reflexivity. Qed.

(** C10. After any sequence of calls, timer and interval callbacks and
    worker messages, no model is in [readyModels] and in [loadingModels]
    at once: [isModelReady] and [isModelLoading] are never both true. *)
Theorem ready_loading_disjoint (a : AppState) (ins : list Input) (m : string) :
  let st := run ins (new_page a) in
  ~ (m ∈ Manager.readyModels (mgr st) /\ m ∈ Manager.loadingModels (mgr st)) /\
  (Manager.isModelReady (mgr st) m && Manager.isModelLoading (mgr st) m = false).
Proof.
  assert (H : disjoint_sets (mgr (run ins (new_page a)))).
  { induction ins as [|i ins IH] using rev_ind.
    - unfold disjoint_sets. simpl. set_solver.
    - rewrite run_snoc. unfold step.
      apply (disjoint_sets_eq _ (mgr (handle i (run ins (new_page a)))));
        [apply sets_microtasks | apply handle_disjoint, IH]. }
  simpl. unfold disjoint_sets in H.
  assert (Hn : ~ (m ∈ Manager.readyModels (mgr (run ins (new_page a))) /\
                  m ∈ Manager.loadingModels (mgr (run ins (new_page a)))))
    by set_solver.
  split; [exact Hn |].
  unfold Manager.isModelReady, Manager.isModelLoading.
  repeat case_bool_decide; simpl; tauto.
Qed.

End Registry.

Section Freshness.

Import JS Runtime Page.
Import Worker(Command(..), Event(..), ChatMessage).
Import PageSpec.

Lemma below_mono n n' st : (n <= n')%nat -> below n st -> below n' st.
Proof.
  intros Hle [H1 H2 H3 H4 H5 H6 H8 H7]. split; try (intros; lia).
  - intros p o Hp. specialize (H1 _ _ Hp). lia.
  - intros w m p Hp. specialize (H2 _ _ _ Hp). lia.
  - intros i m p Hp. specialize (H3 _ _ _ Hp). lia.
  - intros m cb Hc. destruct (H4 _ _ Hc) as [Ha Hb]. split.
    + intros p Hp. specialize (Ha _ Hp). lia.
    + intros o p Hp. specialize (Hb _ _ Hp). lia.
  - intros s sv Hs. destruct (H5 _ _ Hs) as [Ha [Hb Hc]]. split; [lia |]. split.
    + intros p Hp. specialize (Hb _ Hp). lia.
    + intros t Ht. specialize (Hc _ Ht). lia.
  - intros t d s Ht. specialize (H6 _ _ _ Ht). lia.
  - eapply Forall_impl; [exact H8 |]. simpl. intros; lia.
Qed.

(** Rebuild [below] when only some fields changed. *)
Lemma below_fields n st st' :
  below n st ->
  settled st' = settled st -> handlers st' = handlers st ->
  intervals st' = intervals st ->
  Manager.callbacks (mgr st') = Manager.callbacks (mgr st) ->
  sups st' = sups st -> timers st' = timers st ->
  orch st' = orch st ->
  next_id st' = next_id st ->
  below n st'.
Proof.
  intros [H1 H2 H3 H4 H5 H6 H8 H7] E1 E2 E3 E4 E5 E6 E8 E7.
  split; rewrite ?E1, ?E2, ?E3, ?E4, ?E5, ?E6, ?E7, ?E8; assumption.
Qed.

Lemma below_post n w c st : below n st -> below n (post w c st).
Proof. intros H. eapply below_fields; eauto. Qed.

Lemma below_notify n g st : below n st -> below n (notify g st).
Proof. intros H. eapply below_fields; eauto. Qed.

Lemma below_probe n k a st : below n st -> below n (probe k a st).
Proof. intros H. eapply below_fields; eauto. Qed.

Lemma below_ui_call n c st : below n st -> below n (ui_call c st).
Proof. intros H. eapply below_fields; eauto. Qed.

Lemma below_set_now n t st : below n st -> below n (set_now t st).
Proof. intros H. eapply below_fields; eauto. Qed.

Lemma below_set_orch n o st :
  Forall (fun s => (s < n)%nat) (slots o) ->
  below n st -> below n (set_orch o st).
Proof. intros Ho [H1 H2 H3 H4 H5 H6 H8 H7]. split; simpl; assumption. Qed.

Lemma below_upd_app n f st : below n st -> below n (upd_app f st).
Proof. intros H. eapply below_fields; eauto. Qed.

Lemma below_bump n st : below n st -> (S (next_id st) <= n)%nat -> below n (bump st).
Proof. intros [H1 H2 H3 H4 H5 H6 H8 H7] Hn. split; simpl; assumption. Qed.

Lemma below_settle n p o st : (p < n)%nat -> below n st -> below n (settle p o st).
Proof.
  intros Hp H. unfold settle. case_match; [exact H |].
  destruct H as [H1 H2 H3 H4 H5 H6 H8 H7]. split; simpl; try assumption.
  intros q o' [[<- _] | [_ Hq]]%lookup_insert_Some; eauto.
Qed.

Lemma below_delete_timer n t st : below n st -> below n (upd_timers (delete t) st).
Proof.
  intros [H1 H2 H3 H4 H5 H6 H8 H7]. split; simpl; try assumption.
  intros t' d s [_ Ht]%lookup_delete_Some. eauto.
Qed.

Lemma below_insert_timer n t x st :
  (t < n)%nat -> below n st -> below n (upd_timers (insert t x) st).
Proof.
  intros Ht [H1 H2 H3 H4 H5 H6 H8 H7]. split; simpl; try assumption.
  intros t' d s [[<- _] | [_ Hl]]%lookup_insert_Some; eauto.
Qed.

Lemma below_upd_sup n s f st :
  (forall sv, sup_below n sv -> sup_below n (f sv)) ->
  below n st -> below n (upd_sup s f st).
Proof.
  intros Hf [H1 H2 H3 H4 H5 H6 H8 H7]. split; simpl; try assumption.
  intros s' sv'. rewrite lookup_alter.
  case_decide as Heq; [subst s' | apply H5].
  destruct (sups st !! s) as [sv |] eqn:Hs; simpl; intros [= <-].
  destruct (H5 _ _ Hs). auto.
Qed.

Lemma below_insert_sup n s sv st :
  (s < n)%nat -> sup_below n sv ->
  below n st -> below n (upd_sups (insert s sv) st).
Proof.
  intros Hs Hsv [H1 H2 H3 H4 H5 H6 H8 H7]. split; simpl; try assumption.
  intros s' sv' [[<- <-] | [_ Hl]]%lookup_insert_Some; eauto.
Qed.

Lemma below_clear_timeout n s st : below n st -> below n (clear_timeout s st).
Proof.
  intros H. unfold clear_timeout. repeat case_match; try exact H.
  apply below_delete_timer, H.
Qed.

Lemma next_id_clear_timeout s st : next_id (clear_timeout s st) = next_id st.
Proof. unfold clear_timeout. repeat case_match; reflexivity. Qed.

Lemma below_resetTimeout n s st :
  (S (next_id st) <= n)%nat -> below n st -> below n (resetTimeout s st).
Proof.
  intros Hn H. unfold resetTimeout.
  apply below_upd_sup.
  { intros sv [Ha Hb]. split; simpl; [exact Ha |].
    intros t [= <-]. rewrite next_id_clear_timeout. lia. }
  apply below_insert_timer; [rewrite next_id_clear_timeout; lia |].
  apply below_bump; [apply below_clear_timeout, H |].
  rewrite next_id_clear_timeout. exact Hn.
Qed.

Lemma next_id_resetTimeout s st : next_id (resetTimeout s st) = S (next_id st).
Proof. unfold resetTimeout. simpl. rewrite next_id_clear_timeout. reflexivity. Qed.

Lemma effect_below_mono n n' e :
  (n <= n')%nat -> effect_below n e -> effect_below n' e.
Proof. intros Hle. destruct e; simpl; lia. Qed.

Lemma below_upd_mgr n mg st :
  (forall m cb, Manager.callbacks mg !! m = Some cb -> callbacks_below n cb) ->
  below n st -> below n (upd_mgr (fun _ => mg) st).
Proof. intros Hc [H1 H2 H3 H4 H5 H6 H8 H7]. split; simpl; assumption. Qed.

Lemma below_perform_basic n e st :
  effect_below n e -> below n st -> below n (perform_basic e st).
Proof.
  intros He H. destruct e as [w m p | w c | w | g | f a | p o | i m p | i]; simpl in *.
  - destruct H as [H1 H2 H3 H4 H5 H6 H8 H7]. split; simpl; try assumption.
    intros w' m' p' [[<- [= <- <-]] | [_ Hl]]%lookup_insert_Some; eauto.
  - apply below_post, H.
  - destruct H as [H1 H2 H3 H4 H5 H6 H8 H7]. split; simpl; try assumption.
    intros w' m' p' [_ Hl]%lookup_delete_Some. eauto.
  - apply below_notify, H.
  - destruct f; try exact H. apply below_probe, H.
  - apply below_settle; assumption.
  - destruct H as [H1 H2 H3 H4 H5 H6 H8 H7]. split; simpl; try assumption.
    intros i' m' p' [[<- [= <- <-]] | [_ Hl]]%lookup_insert_Some; eauto.
  - destruct H as [H1 H2 H3 H4 H5 H6 H8 H7]. split; simpl; try assumption.
    intros i' m' p' [_ Hl]%lookup_delete_Some. eauto.
Qed.

Lemma next_id_perform_basic e st : next_id (perform_basic e st) = next_id st.
Proof.
  destruct e as [| | | |[]| | |]; simpl; try reflexivity.
  unfold settle. case_match; reflexivity.
Qed.

Lemma below_foldl_basic n effs st :
  Forall (effect_below n) effs -> below n st ->
  below n (foldl (fun s e => perform_basic e s) st effs).
Proof.
  revert st. induction effs as [|e effs IH]; intros st Hall H; [exact H |].
  inversion Hall; subst. simpl. apply IH; [assumption |].
  apply below_perform_basic; assumption.
Qed.

Lemma next_id_foldl_basic effs st :
  next_id (foldl (fun s e => perform_basic e s) st effs) = next_id st.
Proof.
  revert st. induction effs as [|e effs IH]; intros st; [reflexivity |].
  simpl. rewrite IH. apply next_id_perform_basic.
Qed.

Lemma below_manager_abort n m st : below n st -> below n (manager_abort m st).
Proof.
  intros H. destruct m as [m |]; [| exact H].
  unfold manager_abort, Manager.abort.
  apply below_foldl_basic.
  - case_match; repeat constructor.
  - apply below_upd_mgr; [exact (b_callbacks _ _ H) | exact H].
Qed.

Lemma next_id_manager_abort m st : next_id (manager_abort m st) = next_id st.
Proof.
  destruct m as [m |]; [| reflexivity]. unfold manager_abort, Manager.abort.
  rewrite next_id_foldl_basic. reflexivity.
Qed.

Lemma sup_below_flags n sv :
  sup_below n sv ->
  (forall b, sup_below n (set_timedOut b sv)) /\
  (forall b, sup_below n (set_repetitionDetected b sv)).
Proof. intros H. split; intros b; exact H. Qed.

Lemma below_watchdog n s st : below n st -> below n (watchdog s st).
Proof.
  intros H. unfold watchdog. apply below_manager_abort, below_upd_sup; [| exact H].
  intros sv Hsv. exact Hsv.
Qed.

Lemma next_id_watchdog s st : next_id (watchdog s st) = next_id st.
Proof. unfold watchdog. rewrite next_id_manager_abort. reflexivity. Qed.

Lemma below_sup_onToken n s t a st :
  (S (next_id st) <= n)%nat -> below n st -> below n (sup_onToken s t a st).
Proof.
  intros Hn H. unfold sup_onToken. case_match.
  - apply below_manager_abort, below_clear_timeout, below_upd_sup;
      [intros sv Hsv; exact Hsv |].
    apply below_resetTimeout; assumption.
  - apply below_ui_call, below_resetTimeout; assumption.
Qed.

Lemma next_id_sup_onToken s t a st :
  next_id (sup_onToken s t a st) = S (next_id st).
Proof.
  unfold sup_onToken. case_match;
    rewrite ?next_id_manager_abort, ?next_id_clear_timeout;
    [change (next_id (upd_sup ?s ?f ?x)) with (next_id x) |
     change (next_id (ui_call ?c ?x)) with (next_id x)];
    apply next_id_resetTimeout.
Qed.

Lemma below_sup_onComplete n s c m st :
  below n st -> below n (sup_onComplete s c m st).
Proof. intros H. apply below_ui_call, below_clear_timeout, H. Qed.

Lemma next_id_sup_onComplete s c m st :
  next_id (sup_onComplete s c m st) = next_id st.
Proof. unfold sup_onComplete. simpl. apply next_id_clear_timeout. Qed.

Lemma below_sup_catch n s msg st : below n st -> below n (sup_catch s msg st).
Proof.
  intros H. unfold sup_catch. apply below_upd_sup.
  - intros sv [Ha Hb]. split; simpl; [discriminate | exact Hb].
  - apply below_ui_call, below_clear_timeout, H.
Qed.

Lemma next_id_sup_catch s msg st : next_id (sup_catch s msg st) = next_id st.
Proof. unfold sup_catch. simpl. apply next_id_clear_timeout. Qed.

Lemma below_sup_resume n s o st : below n st -> below n (sup_resume s o st).
Proof.
  intros H. unfold sup_resume. repeat case_match; try exact H;
    try (apply below_sup_catch, H).
  apply below_upd_sup; [| exact H].
  intros sv' [Ha Hb]. split; simpl; [discriminate | exact Hb].
Qed.

Lemma next_id_sup_resume s o st : next_id (sup_resume s o st) = next_id st.
Proof.
  unfold sup_resume. repeat case_match; rewrite ?next_id_sup_catch; reflexivity.
Qed.

(** [perform] keeps the page well-formed; it hands out at most one
    identifier. *)
Lemma wf_perform e st :
  effect_below (next_id st) e -> wf st ->
  wf (perform e st) /\ (next_id st <= next_id (perform e st))%nat.
Proof.
  intros He H. unfold wf, perform.
  destruct e as [w m p | w c | w | g | f a | p o | i m p | i];
    try (rewrite next_id_perform_basic; split; [| lia];
         apply below_perform_basic; assumption).
  destruct f as [s | s | k]; destruct a;
    try (rewrite next_id_perform_basic; split; [| lia];
         apply below_perform_basic; assumption).
  - rewrite next_id_sup_onToken. split; [| lia].
    apply below_sup_onToken; [lia |]. eapply below_mono; [| exact H]. lia.
  - rewrite next_id_sup_onComplete. split; [| lia].
    apply below_sup_onComplete, H.
Qed.

Lemma wf_perform_all effs st :
  Forall (effect_below (next_id st)) effs -> wf st ->
  wf (perform_all effs st) /\ (next_id st <= next_id (perform_all effs st))%nat.
Proof.
  unfold perform_all. revert st.
  induction effs as [|e effs IH]; intros st Hall H; [simpl; split; [exact H | lia] |].
  inversion Hall as [| ? ? He Hrest]; subst. simpl.
  destruct (wf_perform e st He H) as [Hwf Hle].
  destruct (IH (perform e st)) as [Hwf' Hle']; [| exact Hwf | split; [exact Hwf' | lia]].
  eapply Forall_impl; [exact Hrest |].
  intros e' He'. eapply effect_below_mono; [exact Hle | exact He'].
Qed.

Lemma registry_below_default n mg m :
  registry_below n mg ->
  callbacks_below n (default Manager.no_callbacks (Manager.callbacks mg !! m)).
Proof.
  intros H. destruct (Manager.callbacks mg !! m) as [cb |] eqn:Hcb; simpl.
  - eapply H, Hcb.
  - split; simpl; discriminate.
Qed.

Lemma below_handleWorkerMessage n m data mg :
  registry_below n mg ->
  registry_below n (Manager.handleWorkerMessage m data mg).1 /\
  Forall (effect_below n) (Manager.handleWorkerMessage m data mg).2.
Proof.
  intros H. pose proof (registry_below_default n mg m H) as [Hr Hg].
  unfold Manager.handleWorkerMessage, Manager.on_complete, Manager.on_aborted,
    Manager.on_error, Manager.settle_init, Manager.call.
  destruct data; simpl; (split; [exact H |]);
    repeat case_match; simplify_eq/=;
    repeat (first [apply Forall_cons_2 | apply Forall_nil_2 | apply Forall_app_2]);
    simpl; eauto.
Qed.

Lemma below_abort n m mg :
  registry_below n mg ->
  registry_below n (Manager.abort m mg).1 /\
  Forall (effect_below n) (Manager.abort m mg).2.
Proof.
  intros H. unfold Manager.abort. simpl. split; [exact H |].
  case_match; repeat constructor.
Qed.

Lemma below_abortAll n mg :
  registry_below n mg ->
  registry_below n (Manager.abortAll mg).1 /\
  Forall (effect_below n) (Manager.abortAll mg).2.
Proof.
  intros H. unfold Manager.abortAll. simpl. split; [exact H |].
  apply Forall_map, Forall_true. intros kw. exact I.
Qed.

Lemma below_unloadModel n m mg :
  registry_below n mg ->
  registry_below n (Manager.unloadModel m mg).1 /\
  Forall (effect_below n) (Manager.unloadModel m mg).2.
Proof.
  intros H. unfold Manager.unloadModel. case_match; simpl.
  - split; [| repeat constructor].
    intros m' cb Hl. simpl in Hl.
    apply lookup_delete_Some in Hl as [_ Hl]. eapply H, Hl.
  - split; [exact H | constructor].
Qed.

Lemma below_unloadAll n mg :
  registry_below n mg ->
  registry_below n (Manager.unloadAll mg).1 /\
  Forall (effect_below n) (Manager.unloadAll mg).2.
Proof.
  intros H. unfold Manager.unloadAll.
  generalize (map_to_list (Manager.workers mg)). intros l.
  assert (Hnil : Forall (effect_below n) []) by constructor.
  revert Hnil. generalize (@nil Manager.Effect). revert mg H.
  induction l as [|kw l IH]; intros mg H effs Heffs; [split; assumption |].
  simpl. destruct (below_unloadModel n kw.1 mg H) as [H1 H2].
  destruct (Manager.unloadModel kw.1 mg) as [mg1 effs1]. simpl in *.
  apply IH; [exact H1 |]. apply Forall_app_2; assumption.
Qed.

Lemma below_onerror n m p msg mg :
  (p < n)%nat -> registry_below n mg ->
  registry_below n (Manager.onerror m p msg mg).1 /\
  Forall (effect_below n) (Manager.onerror m p msg mg).2.
Proof.
  intros Hp H. unfold Manager.onerror. simpl. split; [exact H |].
  repeat constructor. exact Hp.
Qed.

Lemma below_checkReady n mg i m p :
  (p < n)%nat -> Forall (effect_below n) (Manager.checkReady mg i m p).
Proof.
  intros Hp. unfold Manager.checkReady.
  apply Forall_app_2; case_match; repeat constructor; exact Hp.
Qed.

Lemma below_initModel n m p i created mg :
  (p < n)%nat -> (i < n)%nat ->
  (forall w, created = inr w -> (w < n)%nat) ->
  registry_below n mg ->
  registry_below n (Manager.initModel m p i created mg).1.1 /\
  Forall (effect_below n) (Manager.initModel m p i created mg).2.
Proof.
  intros Hp Hi Hw H. unfold Manager.initModel.
  repeat case_match; simplify_eq/=; (split; [| repeat constructor; eauto]);
    try exact H.
  intros m' cb Hl. simpl in Hl.
  apply lookup_insert_Some in Hl as [[<- <-] | [_ Hl]]; [| eapply H, Hl].
  split; simpl; [intros q [= <-]; exact Hp | discriminate].
Qed.

Lemma below_generate n m msgs o p mg :
  (p < n)%nat -> registry_below n mg ->
  registry_below n (Manager.generate m msgs o p mg).1.1 /\
  Forall (effect_below n) (Manager.generate m msgs o p mg).2.
Proof.
  intros Hp H. pose proof (registry_below_default n mg m H) as [Hr Hg].
  unfold Manager.generate.
  repeat case_match; simplify_eq/=; (split; [| repeat constructor]);
    try exact H.
  intros m' cb Hl. simpl in Hl.
  apply lookup_insert_Some in Hl as [[<- <-] | [_ Hl]]; [| eapply H, Hl].
  split; simpl; [exact Hr | intros o' q [= <- <-]; exact Hp].
Qed.

Lemma wf_with_manager r st :
  registry_below (next_id st) r.1 ->
  Forall (effect_below (next_id st)) r.2 ->
  wf st ->
  wf (with_manager r st) /\ (next_id st <= next_id (with_manager r st))%nat.
Proof.
  intros Hr He H. unfold with_manager.
  apply (wf_perform_all r.2 (upd_mgr (fun _ => r.1) st) He).
  apply below_upd_mgr; assumption.
Qed.

Lemma registry_below_mono n n' mg :
  (n <= n')%nat -> registry_below n mg -> registry_below n' mg.
Proof.
  intros Hle H m cb Hl. destruct (H m cb Hl) as [Ha Hb]. split.
  - intros p Hp. specialize (Ha _ Hp). lia.
  - intros o p Hp. specialize (Hb _ _ Hp). lia.
Qed.

Lemma wf_sup_start s m st :
  (s < next_id st)%nat -> wf st ->
  wf (sup_start s m st) /\ (next_id st <= next_id (sup_start s m st))%nat.
Proof.
  intros Hs H. unfold sup_start.
  set (st1 := upd_sups _ (bump st)).
  assert (H1 : below (S (S (next_id st))) st1).
  { apply below_insert_sup; [lia | |].
    - split; simpl; [intros p [= <-]; lia | discriminate].
    - apply below_bump; [| simpl; lia].
      eapply below_mono; [| exact H]. lia. }
  assert (H2 : wf (resetTimeout s st1)).
  { unfold wf. rewrite next_id_resetTimeout.
    apply below_resetTimeout; [simpl; lia | exact H1]. }
  assert (Hn2 : next_id (resetTimeout s st1) = S (S (next_id st))).
  { rewrite next_id_resetTimeout. reflexivity. }
  destruct m as [m |].
  - destruct (below_generate (next_id (resetTimeout s st1)) m
                (chatHistory (app (resetTimeout s st1)))
                (sup_options s (app (resetTimeout s st1))) (next_id st)
                (mgr (resetTimeout s st1))) as [Hg1 Hg2];
      [lia | exact (b_callbacks _ _ H2) |].
    destruct (Manager.generate _ _ _ _ _) as [[mg r] effs]. simpl in Hg1, Hg2.
    assert (H3 : wf (foldl (fun x e => perform_basic e x)
                           (upd_mgr (fun _ => mg) (resetTimeout s st1)) effs)).
    { unfold wf. rewrite next_id_foldl_basic.
      apply below_foldl_basic; [exact Hg2 |].
      apply below_upd_mgr; [exact Hg1 | exact H2]. }
    assert (Hn3 : next_id (foldl (fun x e => perform_basic e x)
                           (upd_mgr (fun _ => mg) (resetTimeout s st1)) effs)
                  = S (S (next_id st))).
    { rewrite next_id_foldl_basic. exact Hn2. }
    destruct r as [[v | msg] | p]; unfold wf;
      rewrite ?next_id_sup_catch, ?next_id_sup_resume, Hn3;
      (split; [| lia]);
      [apply below_sup_resume | apply below_sup_catch |];
      unfold wf in H3; rewrite Hn3 in H3; exact H3.
  - unfold wf. rewrite next_id_sup_catch, Hn2. split; [| lia].
    apply below_sup_catch. unfold wf in H2. rewrite Hn2 in H2. exact H2.
Qed.

Lemma below_finish n st : below n st -> below n (finish st).
Proof.
  intros H. unfold finish. apply below_set_orch; [constructor |].
  apply below_upd_app, H.
Qed.

Lemma wf_orch_continue s st :
  wf st ->
  wf (orch_continue s st) /\ (next_id st <= next_id (orch_continue s st))%nat.
Proof.
  intros H. unfold orch_continue.
  destruct (orch st) as [| s' | id1 id2 | id1 id2 | id1 id2] eqn:Ho.
  - split; [exact H | lia].
  - case_match; [split; [apply below_finish, H | simpl; lia] | split; [exact H | lia]].
  - case_match; [| split; [exact H | lia]].
    pose proof (b_orch _ _ H) as Hslots. rewrite Ho in Hslots. simpl in Hslots.
    inversion Hslots as [| ? ? Hid1 Hrest]; subst.
    inversion Hrest as [| ? ? Hid2 _]; subst.
    destruct (wf_sup_start id2 (compareModel (app st))
                (set_orch (SeqSecond id1 id2) st)) as [Hwf Hle];
      [exact Hid2 | apply below_set_orch; [exact Hslots | exact H] | ].
    simpl in Hle. case_match; [| split; [exact Hwf | lia]].
    split; [apply below_finish, Hwf | simpl; lia].
  - case_match; [split; [apply below_finish, H | simpl; lia] | split; [exact H | lia]].
  - case_match; [split; [apply below_finish, H | simpl; lia] | split; [exact H | lia]].
Qed.

Lemma wf_start_and_continue s m st :
  (s < next_id st)%nat -> wf st ->
  wf (start_and_continue s m st) /\
  (next_id st <= next_id (start_and_continue s m st))%nat.
Proof.
  intros Hs H. unfold start_and_continue.
  destruct (wf_sup_start s m st Hs H) as [Hwf Hle].
  case_match; [| split; assumption].
  destruct (wf_orch_continue s _ Hwf) as [Hwf' Hle']. split; [exact Hwf' | lia].
Qed.

Lemma wf_generateResponse st :
  wf st ->
  wf (generateResponse st) /\ (next_id st <= next_id (generateResponse st))%nat.
Proof.
  intros H. unfold generateResponse.
  case_match; [split; [exact H | lia] |].
  set (st0 := upd_app (set_isGenerating true) st).
  assert (Hwf0 : wf st0) by (apply below_upd_app, H).
  assert (Hbb : below (S (S (next_id st))) (bump (bump st0))).
  { apply below_bump; [| simpl; lia]. apply below_bump; [| simpl; lia].
    eapply below_mono; [| exact Hwf0]. simpl. lia. }
  assert (Hb : below (S (next_id st)) (bump st0)).
  { apply below_bump; [| simpl; lia].
    eapply below_mono; [| exact Hwf0]. simpl. lia. }
  repeat case_match.
  - destruct (wf_start_and_continue (next_id st0) (currentModel (app st0))
                (set_orch (SeqFirst (next_id st0) (S (next_id st0))) (bump (bump st0))))
      as [Hwf Hle]; [simpl; lia | | split; [exact Hwf | unfold st0 in *; simpl in *; lia]].
    apply below_set_orch; [repeat constructor; simpl; lia | exact Hbb].
  - destruct (wf_start_and_continue (next_id st0) (currentModel (app st0))
                (set_orch (Parallel (next_id st0) (S (next_id st0))) (bump (bump st0))))
      as [Hwf Hle]; [simpl; lia | | ].
    { apply below_set_orch; [repeat constructor; simpl; lia | exact Hbb]. }
    simpl in Hle.
    match goal with
    | |- context [start_and_continue ?s ?m ?x] =>
        destruct (wf_start_and_continue s m x) as [Hwf' Hle'];
        [unfold st0 in *; simpl in *; lia | exact Hwf | split; [exact Hwf' | unfold st0 in *; simpl in *; lia]]
    end.
  - destruct (wf_start_and_continue (next_id st0) (currentModel (app st0))
                (set_orch (Single (next_id st0)) (bump st0)))
      as [Hwf Hle]; [simpl; lia | | split; [exact Hwf | unfold st0 in *; simpl in *; lia]].
    apply below_set_orch; [repeat constructor; simpl; lia | exact Hb].
Qed.

Lemma wf_stopGeneration st :
  wf st -> wf (stopGeneration st) /\ next_id (stopGeneration st) = next_id st.
Proof.
  intros H. unfold stopGeneration, wf.
  repeat case_match; rewrite ?next_id_manager_abort;
    (split; [| reflexivity]);
    repeat apply below_manager_abort; exact H.
Qed.

Lemma wf_settle p o st : (p < next_id st)%nat -> wf st -> wf (settle p o st).
Proof.
  intros Hp H. unfold wf.
  replace (next_id (settle p o st)) with (next_id st)
    by (unfold settle; case_match; reflexivity).
  apply below_settle; assumption.
Qed.

Lemma next_id_settle p o st : next_id (settle p o st) = next_id st.
Proof. unfold settle. case_match; reflexivity. Qed.

Lemma wf_handle i st :
  wf st -> wf (handle i st) /\ (next_id st <= next_id (handle i st))%nat.
Proof.
  intros H.
  destruct i as [w data | w message | i | dt | t | m fails | m messages options
                | m | | m | | | ]; simpl.
  - destruct (handlers st !! w) as [[m p] |] eqn:Hw; [| split; [exact H | lia]].
    destruct (below_handleWorkerMessage (next_id st) m data (mgr st)
                (b_callbacks _ _ H)).
    apply wf_with_manager; assumption.
  - destruct (handlers st !! w) as [[m p] |] eqn:Hw; [| split; [exact H | lia]].
    destruct (b_handlers _ _ H _ _ _ Hw) as [_ Hp].
    destruct (below_onerror (next_id st) m p message (mgr st) Hp
                (b_callbacks _ _ H)).
    apply wf_with_manager; assumption.
  - destruct (intervals st !! i) as [[m p] |] eqn:Hi; [| split; [exact H | lia]].
    destruct (b_intervals _ _ H _ _ _ Hi) as [_ Hp].
    apply wf_perform_all; [| exact H].
    apply below_checkReady, Hp.
  - case_match; (split; [| simpl; lia]); [apply below_set_now |]; exact H.
  - repeat case_match; try (split; [exact H | lia]).
    unfold wf. rewrite next_id_watchdog. simpl. split; [| lia].
    apply below_watchdog, below_delete_timer, H.
  - set (st3 := bump (bump (bump st))).
    assert (H3 : wf st3).
    { unfold st3. repeat (apply below_bump; [| simpl; lia]).
      eapply below_mono; [| exact H]. simpl. lia. }
    destruct (below_initModel (next_id st3) m (next_id st) (S (next_id st))
                (match fails with
                 | Some e => inl e
                 | None => inr (S (S (next_id st)))
                 end) (mgr st)) as [Hr He];
      [simpl; lia | simpl; lia | | | ].
    { intros w Hw. destruct fails; simplify_eq/=. lia. }
    { eapply registry_below_mono; [| exact (b_callbacks _ _ H)]. simpl. lia. }
    destruct (Manager.initModel _ _ _ _ _) as [[mg r] effs]. simpl in Hr, He.
    destruct (wf_perform_all effs (upd_mgr (fun _ => mg) st3)) as [Hwf Hle];
      [exact He | apply below_upd_mgr; [exact Hr | exact H3] |].
    simpl in Hle.
    destruct r as [o | p]; [| split; [exact Hwf | lia]].
    rewrite next_id_settle. split; [| lia].
    apply wf_settle; [lia | exact Hwf].
  - set (st1 := bump st).
    assert (H1 : wf st1).
    { unfold st1. apply below_bump; [| simpl; lia].
      eapply below_mono; [| exact H]. simpl. lia. }
    destruct (below_generate (next_id st1) m messages (caller_options options)
                (next_id st) (mgr st)) as [Hr He]; [simpl; lia | |].
    { eapply registry_below_mono; [| exact (b_callbacks _ _ H)]. simpl. lia. }
    destruct (Manager.generate _ _ _ _ _) as [[mg r] effs]. simpl in Hr, He.
    destruct (wf_perform_all effs (upd_mgr (fun _ => mg) st1)) as [Hwf Hle];
      [exact He | apply below_upd_mgr; [exact Hr | exact H1] |].
    simpl in Hle.
    destruct r as [o | p]; [| split; [exact Hwf | lia]].
    rewrite next_id_settle. split; [| lia].
    apply wf_settle; [lia | exact Hwf].
  - destruct (below_abort (next_id st) m (mgr st) (b_callbacks _ _ H)).
    apply wf_with_manager; assumption.
  - destruct (below_abortAll (next_id st) (mgr st) (b_callbacks _ _ H)).
    apply wf_with_manager; assumption.
  - destruct (below_unloadModel (next_id st) m (mgr st) (b_callbacks _ _ H)).
    apply wf_with_manager; assumption.
  - destruct (below_unloadAll (next_id st) (mgr st) (b_callbacks _ _ H)).
    apply wf_with_manager; assumption.
  - apply wf_generateResponse, H.
  - destruct (wf_stopGeneration st H) as [Hwf Hn]. split; [exact Hwf | lia].
Qed.

Lemma wf_resume_sup b s st :
  wf st -> wf (resume_sup b s st) /\ (next_id st <= next_id (resume_sup b s st))%nat.
Proof.
  intros H. unfold resume_sup. repeat case_match; try (split; [exact H | lia]).
  match goal with
  | |- context [orch_continue ?s ?x] =>
      destruct (wf_orch_continue s x) as [Hwf Hle]
  end.
  - unfold wf. rewrite next_id_sup_resume. apply below_sup_resume, H.
  - rewrite next_id_sup_resume in Hle. split; assumption.
Qed.

Lemma wf_microtasks b st :
  wf st -> wf (microtasks b st) /\ (next_id st <= next_id (microtasks b st))%nat.
Proof.
  unfold microtasks. generalize (active (orch st)). intros l. revert st.
  induction l as [|s l IH]; intros st H; [simpl; split; [exact H | lia] |].
  simpl. destruct (wf_resume_sup b s st H) as [Hwf Hle].
  destruct (IH _ Hwf) as [Hwf' Hle']. split; [exact Hwf' | lia].
Qed.

Lemma wf_step i st :
  wf st -> wf (step i st) /\ (next_id st <= next_id (step i st))%nat.
Proof.
  intros H. unfold step. destruct (wf_handle i st H) as [Hwf Hle].
  destruct (wf_microtasks st _ Hwf) as [Hwf' Hle']. split; [exact Hwf' | lia].
Qed.

Lemma wf_new_page a : wf (new_page a).
Proof.
  split; simpl; try (intros *; rewrite lookup_empty; discriminate);
    try constructor; lia.
Qed.

Lemma wf_run ins st :
  wf st -> wf (run ins st) /\ (next_id st <= next_id (run ins st))%nat.
Proof.
  revert st. induction ins as [|i ins IH]; intros st H; [simpl; split; [exact H | lia] |].
  simpl. destruct (wf_step i st H) as [Hwf Hle].
  destruct (IH _ Hwf) as [Hwf' Hle']. split; [exact Hwf' | lia].
Qed.

End Freshness.

Section ManagerCalls.

Import JS Runtime Page.
Import Worker(Command(..), Event(..), ChatMessage).
Import PageSpec.

(** No continuation runs when the task settled no awaited promise. *)
Lemma microtasks_idle b st :
  (forall s sv p, sups st !! s = Some sv -> status sv = Awaiting p ->
                  settled b !! p = None -> settled st !! p = None) ->
  microtasks b st = st.
Proof.
  intros H. unfold microtasks. generalize (active (orch st)). intros l.
  induction l as [|s l IH]; [reflexivity |].
  simpl. replace (resume_sup b s st) with st; [exact IH |].
  unfold resume_sup.
  destruct (sups st !! s) as [sv |] eqn:Hs; [| reflexivity].
  destruct (status sv) as [p | |] eqn:Hst; try reflexivity.
  destruct (settled b !! p) eqn:Hb; [reflexivity |].
  rewrite (H _ _ _ Hs Hst Hb). reflexivity.
Qed.

Lemma step_quiet i st :
  settled (handle i st) = settled st -> step i st = handle i st.
Proof.
  intros H. unfold step. apply microtasks_idle.
  intros s sv p _ _. rewrite H. trivial.
Qed.

Lemma step_quiet_or i st :
  (forall s sv p, sups (handle i st) !! s = Some sv -> status sv = Awaiting p ->
                  settled st !! p = None -> settled (handle i st) !! p = None) ->
  step i st = handle i st.
Proof. intros H. unfold step. apply microtasks_idle, H. Qed.

(** C9. For a model without a registered worker, [generate] returns a
    promise rejected with "Model ... not initialized", posts nothing to
    any worker and leaves the registry as it is. *)
Theorem generate_before_init (a : AppState) (ins : list Input) (m : string)
        (messages : list ChatMessage) (options : CallerOptions) :
  let st := run ins (new_page a) in
  Manager.workers (mgr st) !! m = None ->
  (forall (o : Manager.Options) (p : PromiseId),
      Manager.generate m messages o p (mgr st)
      = (mgr st, Settled (Rejected ("Model " +:+ m +:+ " not initialized")), [])) /\
  let st' := step (Generate m messages options) st in
  settled st' !! next_id st
  = Some (Rejected ("Model " +:+ m +:+ " not initialized")) /\
  posted st' = posted st /\
  mgr st' = mgr st /\
  handlers st' = handlers st.
Proof.
  intros st Hnone.
  assert (Hgen : forall o p,
             Manager.generate m messages o p (mgr st)
             = (mgr st, Settled (Rejected ("Model " +:+ m +:+ " not initialized")), [])).
  { intros o p. unfold Manager.generate. rewrite Hnone. reflexivity. }
  split; [exact Hgen |].
  destruct (wf_run ins (new_page a) (wf_new_page a)) as [Hwf _]. fold st in Hwf.
  assert (Hfresh : settled st !! next_id st = None).
  { destruct (settled st !! next_id st) eqn:Hs; [| reflexivity].
    apply (b_settled _ _ Hwf) in Hs. lia. }
  assert (Hh : handle (Generate m messages options) st
               = upd_settled (insert (next_id st)
                    (Rejected ("Model " +:+ m +:+ " not initialized")))
                   (upd_mgr (fun _ => mgr st) (bump st))).
  { simpl. rewrite Hgen. simpl. unfold settle. simpl. rewrite Hfresh. reflexivity. }
  intros st'. unfold st'. clear st'.
  rewrite step_quiet_or; [rewrite Hh; simpl; rewrite lookup_insert_eq; auto |].
  rewrite Hh. simpl. intros s sv p Hs Hst Hp.
  rewrite lookup_insert_ne; [exact Hp |].
  destruct (b_sups _ _ Hwf _ _ Hs) as [_ [Hlt _]]. specialize (Hlt _ Hst). lia.
Qed.

Section Loading.

Variables (m : string) (w p1 p2 i2 : nat) (mg1 : Manager.State).
Hypothesis Hloading : m ∈ Manager.loadingModels mg1.
Hypothesis Hnotready : m ∉ Manager.readyModels mg1.
Hypothesis Hcb :
  Manager.callbacks mg1 !! m
  = Some {| Manager.resolve_reject := Some p1; Manager.generation := None |}.
Hypothesis Hneq : p1 <> p2.
Local Abbreviation loading_inv := (PageSpec.loading_inv m w p1 p2 i2 mg1).
Local Abbreviation pre_loading := (PageSpec.pre_loading m w p1 p2 i2 mg1).

Lemma checkReady_loading : Manager.checkReady mg1 i2 m p2 = [].
Proof.
  unfold Manager.checkReady, Manager.isModelReady, Manager.isModelLoading.
  rewrite (bool_decide_eq_false_2 _ Hnotready).
  rewrite (bool_decide_eq_true_2 _ Hloading). reflexivity.
Qed.

Lemma loading_step st i :
  loading_inv st -> still_loading w i2 i = true -> loading_inv (step i st).
Proof.
  intros [Hm H1 H2 Hh Hi Hs] Hb.
  assert (Hq : settled (handle i st) = settled st /\
               mgr (handle i st) = mg1 /\
               handlers (handle i st) = handlers st /\
               intervals (handle i st) = intervals st /\
               sups (handle i st) = sups st).
  { destruct i as [w' data | | i | dt | | | | | | | | | ]; try discriminate.
    - destruct data; try discriminate; simpl in Hb;
        apply bool_decide_eq_true in Hb; subst w';
        simpl; rewrite Hh; unfold with_manager; simpl;
        rewrite ?Hm; try (destruct (Manager.workers mg1 !! m)); simpl; auto.
    - simpl in Hb. apply bool_decide_eq_true in Hb. subst i.
      simpl. rewrite Hi, Hm, checkReady_loading. simpl. auto.
    - simpl. case_match; simpl; auto. }
  destruct Hq as (Hq1 & Hq2 & Hq3 & Hq4 & Hq5).
  rewrite (step_quiet i st Hq1).
  split; rewrite ?Hq1, ?Hq2, ?Hq3, ?Hq4, ?Hq5; auto.
Qed.

Lemma loading_run st ins :
  loading_inv st -> Forall (fun i => still_loading w i2 i = true) ins ->
  loading_inv (run ins st).
Proof.
  revert st. induction ins as [|i ins IH]; intros st H Hall; [exact H |].
  inversion Hall; subst. simpl. apply IH; [| assumption].
  apply loading_step; assumption.
Qed.

Lemma pre_loading_step st i :
  pre_loading st -> still_loading w i2 i = true -> pre_loading (step i st).
Proof.
  intros [Hm H1 H2 Hh Hi Hn Hs] Hb.
  assert (Hq : settled (handle i st) = settled st /\
               mgr (handle i st) = mg1 /\
               handlers (handle i st) = handlers st /\
               intervals (handle i st) = intervals st /\
               next_id (handle i st) = next_id st /\
               sups (handle i st) = sups st).
  { destruct i as [w' data | | i | dt | | | | | | | | | ]; try discriminate.
    - destruct data; try discriminate; simpl in Hb;
        apply bool_decide_eq_true in Hb; subst w';
        simpl; rewrite Hh; unfold with_manager; simpl;
        rewrite ?Hm; try (destruct (Manager.workers mg1 !! m)); simpl;
        repeat split; auto.
    - simpl in Hb. apply bool_decide_eq_true in Hb. subst i.
      simpl. rewrite Hi. repeat split; auto.
    - simpl. case_match; simpl; repeat split; auto. }
  destruct Hq as (Hq1 & Hq2 & Hq3 & Hq4 & Hq5 & Hq6).
  rewrite (step_quiet i st Hq1).
  split; rewrite ?Hq1, ?Hq2, ?Hq3, ?Hq4, ?Hq5, ?Hq6; auto.
Qed.

Lemma pre_loading_run st ins :
  pre_loading st -> Forall (fun i => still_loading w i2 i = true) ins ->
  pre_loading (run ins st).
Proof.
  revert st. induction ins as [|i ins IH]; intros st H Hall; [exact H |].
  inversion Hall; subst. simpl. apply IH; [| assumption].
  apply pre_loading_step; assumption.
Qed.

(** The second call, made while the first loads. *)
Lemma second_call st fails :
  pre_loading st -> i2 = S p2 ->
  step (InitModel m fails) st
  = upd_intervals (insert i2 (m, p2))
      (upd_mgr (fun _ => mg1) (bump (bump (bump st)))) /\
  loading_inv (step (InitModel m fails) st).
Proof.
  intros [Hm H1 H2 Hh Hi Hn Hs] Heq.
  assert (Hi2 : forall c, Manager.initModel m p2 (S p2) c (mgr st)
                          = (mg1, Waits p2, [Manager.SetInterval i2 m p2])).
  { intros c. rewrite Hm, Heq.
    unfold Manager.initModel, Manager.isModelReady, Manager.isModelLoading.
    rewrite (bool_decide_eq_false_2 _ Hnotready), (bool_decide_eq_true_2 _ Hloading).
    reflexivity. }
  assert (Hstep : step (InitModel m fails) st
                  = upd_intervals (insert i2 (m, p2))
                      (upd_mgr (fun _ => mg1) (bump (bump (bump st))))).
  { rewrite step_quiet; simpl; rewrite Hn, Hi2; reflexivity. }
  split; [exact Hstep |]. rewrite Hstep. split; simpl; auto.
  apply lookup_insert_eq.
Qed.

(** The second caller's interval once the registry [mg] has the model
    ready, or neither ready nor loading. *)
Lemma interval_settles st mg o :
  mgr st = mg -> intervals st !! i2 = Some (m, p2) ->
  settled st !! p2 = None ->
  (forall s sv q, sups st !! s = Some sv -> status sv = Awaiting q -> q <> p2) ->
  Manager.checkReady mg i2 m p2 = [Manager.ClearInterval i2; Manager.Settle p2 o] ->
  settled (step (Interval i2) st) = <[p2 := o]> (settled st).
Proof.
  intros Hm Hi H2 Hs Hc.
  assert (Hh : handle (Interval i2) st
               = upd_settled (insert p2 o) (upd_intervals (delete i2) st)).
  { simpl. rewrite Hi, Hm, Hc. simpl. unfold settle. simpl. rewrite H2. reflexivity. }
  rewrite step_quiet_or; [rewrite Hh; reflexivity |].
  rewrite Hh. simpl. intros s sv q Hsv Hst Hq.
  rewrite lookup_insert_ne; [exact Hq |].
  specialize (Hs _ _ _ Hsv Hst). congruence.
Qed.

(** [ready] resolves both calls. *)
Lemma loading_ready st x device :
  loading_inv st ->
  let st' := step (Interval i2) (step (Message w (EReady x device)) st) in
  settled st' !! p1 = Some (Fulfilled VUndefined) /\
  settled st' !! p2 = Some (Fulfilled VUndefined).
Proof.
  intros [Hm H1 H2 Hh Hi Hs].
  set (mgR := (Manager.handleWorkerMessage m (EReady x device) mg1).1).
  assert (Hstep : step (Message w (EReady x device)) st
                  = upd_settled (insert p1 (Fulfilled VUndefined))
                      (notify (GModelReady m device)
                         (upd_mgr (fun _ => mgR) st))).
  { assert (Hhd : handle (Message w (EReady x device)) st
                  = upd_settled (insert p1 (Fulfilled VUndefined))
                      (notify (GModelReady m device)
                         (upd_mgr (fun _ => mgR) st))).
    { simpl. rewrite Hh, Hm. unfold with_manager. simpl. rewrite Hcb. simpl.
      unfold settle. simpl. rewrite H1. reflexivity. }
    rewrite step_quiet_or; [exact Hhd |].
    rewrite Hhd. simpl. intros s sv q Hsv Hst Hq.
    rewrite lookup_insert_ne; [exact Hq |].
    specialize (Hs _ _ _ Hsv Hst). intuition congruence. }
  intros st'. unfold st'. rewrite Hstep.
  rewrite (interval_settles _ mgR (Fulfilled VUndefined)); simpl.
  - rewrite lookup_insert_ne by congruence.
    rewrite !lookup_insert_eq. auto.
  - reflexivity.
  - exact Hi.
  - rewrite lookup_insert_ne by congruence. exact H2.
  - intros s sv q Hsv Hst. apply (Hs _ _ _ Hsv Hst).
  - unfold Manager.checkReady, Manager.isModelReady, Manager.isModelLoading, mgR.
    simpl. rewrite bool_decide_eq_true_2 by set_solver.
    simpl. rewrite andb_false_r. reflexivity.
Qed.

(** An [error] event, or the worker's [onerror], rejects both. *)
Lemma loading_failed st (i : Input) (e : string) :
  loading_inv st ->
  (i = Message w (EError e) \/
   exists message,
     i = Error w message /\
     e = Worker.or_default message
           "Worker failed to load - check console for details") ->
  let st' := step (Interval i2) (step i st) in
  settled st' !! p1 = Some (Rejected e) /\
  settled st' !! p2 = Some (Rejected "Model loading failed").
Proof.
  intros [Hm H1 H2 Hh Hi Hs] Hcase.
  assert (Hstep : exists st1,
             step i st = upd_settled (insert p1 (Rejected e)) st1 /\
             settled st1 = settled st /\ intervals st1 = intervals st /\
             sups st1 = sups st /\
             (m ∉ Manager.loadingModels (mgr st1)) /\
             m ∉ Manager.readyModels (mgr st1)).
  { destruct Hcase as [-> | (message & -> & ->)].
    - exists (notify (GError m e)
                (upd_mgr (fun _ => (Manager.handleWorkerMessage m (EError e) mg1).1) st)).
      split; [| simpl; repeat split; auto; set_solver].
      rewrite step_quiet_or.
      + simpl. rewrite Hh, Hm. unfold with_manager. simpl. rewrite Hcb. simpl.
        unfold settle. simpl. rewrite H1. reflexivity.
      + simpl. rewrite Hh, Hm. unfold with_manager. simpl. rewrite Hcb. simpl.
        unfold settle. simpl. rewrite H1. simpl.
        intros s sv q Hsv Hst Hq.
        rewrite lookup_insert_ne; [exact Hq |].
        specialize (Hs _ _ _ Hsv Hst). intuition congruence.
    - exists (notify (GError m (Worker.or_default message
                 "Worker failed to load - check console for details"))
                (upd_mgr (fun _ => (Manager.onerror m p1 message mg1).1) st)).
      split; [| simpl; repeat split; auto; set_solver].
      rewrite step_quiet_or.
      + simpl. rewrite Hh, Hm. unfold with_manager. simpl.
        unfold settle. simpl. rewrite H1. reflexivity.
      + simpl. rewrite Hh, Hm. unfold with_manager. simpl.
        unfold settle. simpl. rewrite H1. simpl.
        intros s sv q Hsv Hst Hq.
        rewrite lookup_insert_ne; [exact Hq |].
        specialize (Hs _ _ _ Hsv Hst). intuition congruence. }
  destruct Hstep as (st1 & Hstep & Hs1 & Hi1 & Hsup1 & Hnl & Hnr).
  intros st'. unfold st'. rewrite Hstep.
  rewrite (interval_settles _ (mgr st1) (Rejected "Model loading failed")); simpl.
  - rewrite lookup_insert_ne by congruence.
    rewrite !lookup_insert_eq. auto.
  - reflexivity.
  - rewrite Hi1. exact Hi.
  - rewrite lookup_insert_ne by congruence. rewrite Hs1. exact H2.
  - rewrite Hsup1. intros s sv q Hsv Hst. apply (Hs _ _ _ Hsv Hst).
  - unfold Manager.checkReady, Manager.isModelReady, Manager.isModelLoading.
    rewrite (bool_decide_eq_false_2 _ Hnr), (bool_decide_eq_false_2 _ Hnl).
    reflexivity.
Qed.

End Loading.

Lemma settled_fresh st p : wf st -> (next_id st <= p)%nat -> settled st !! p = None.
Proof.
  intros Hwf Hp. destruct (settled st !! p) eqn:Hs; [| reflexivity].
  apply (b_settled _ _ Hwf) in Hs. lia.
Qed.

(** [initModel] for a model that is ready. *)
Lemma initModel_ready st m fails :
  wf st -> m ∈ Manager.readyModels (mgr st) ->
  let st' := step (InitModel m fails) st in
  settled st' !! next_id st = Some (Fulfilled VUndefined) /\
  handlers st' = handlers st /\ mgr st' = mgr st /\ posted st' = posted st.
Proof.
  intros Hwf Hr.
  assert (Hh : handle (InitModel m fails) st
               = upd_settled (insert (next_id st) (Fulfilled VUndefined))
                   (notify (GModelReady m None)
                      (upd_mgr (fun _ => mgr st) (bump (bump (bump st)))))).
  { simpl. unfold Manager.initModel, Manager.isModelReady.
    rewrite (bool_decide_eq_true_2 _ Hr). simpl. unfold settle. simpl.
    rewrite (settled_fresh st (next_id st) Hwf) by lia. reflexivity. }
  intros st'. unfold st'.
  rewrite step_quiet_or; [rewrite Hh; simpl; rewrite lookup_insert_eq; auto |].
  rewrite Hh. simpl. intros s sv p Hs Hst Hp.
  rewrite lookup_insert_ne; [exact Hp |].
  destruct (b_sups _ _ Hwf _ _ Hs) as [_ [Hlt _]]. specialize (Hlt _ Hst). lia.
Qed.

(** X27. While the first [initModel(id)] is loading, a second call
    creates no worker and posts nothing.  As long as nothing happens
    but status and progress events of the first call's worker, polls of
    the second call and time passing, both calls stay pending; if the
    worker then reports [ready] and the second call polls next, both
    are resolved; if it reports an error and the second call polls
    next, both are rejected, the second with 'Model loading failed'.
    For a model that is ready, [initModel] returns at once and creates
    no worker. *)
Theorem initModel_idempotent (a : AppState) (ins0 : list Input) (m : string)
        (fails2 : option string) (before loading : list Input) :
  let st := run ins0 (new_page a) in
  let p1 := next_id st in
  let w := S (S p1) in
  let st1 := step (InitModel m None) st in
  let p2 := next_id st1 in
  let i2 := S p2 in
  let st1' := run before st1 in
  let st2 := step (InitModel m fails2) st1' in
  let st3 := run loading st2 in
  m ∉ Manager.readyModels (mgr st) ->
  m ∉ Manager.loadingModels (mgr st) ->
  Forall (fun i => still_loading w i2 i = true) before ->
  Forall (fun i => still_loading w i2 i = true) loading ->
  (handlers st1 = <[w := (m, p1)]> (handlers st) /\
   handlers st2 = handlers st1' /\ mgr st2 = mgr st1' /\
   posted st2 = posted st1') /\
  (settled st3 !! p1 = None /\ settled st3 !! p2 = None) /\
  (forall x device,
      let st4 := step (Interval i2) (step (Message w (EReady x device)) st3) in
      settled st4 !! p1 = Some (Fulfilled VUndefined) /\
      settled st4 !! p2 = Some (Fulfilled VUndefined)) /\
  (forall e,
      let st4 := step (Interval i2) (step (Message w (EError e)) st3) in
      settled st4 !! p1 = Some (Rejected e) /\
      settled st4 !! p2 = Some (Rejected "Model loading failed")) /\
  (forall message,
      let st4 := step (Interval i2) (step (Error w message) st3) in
      settled st4 !! p1
      = Some (Rejected (Worker.or_default message
                          "Worker failed to load - check console for details")) /\
      settled st4 !! p2 = Some (Rejected "Model loading failed")) /\
  (forall (ins : list Input) (m' : string) (fails : option string),
      let s := run ins (new_page a) in
      m' ∈ Manager.readyModels (mgr s) ->
      let s' := step (InitModel m' fails) s in
      settled s' !! next_id s = Some (Fulfilled VUndefined) /\
      handlers s' = handlers s /\ mgr s' = mgr s /\ posted s' = posted s).
Proof.
  intros st p1 w st1 p2 i2 st1' st2 st3 Hnr Hnl Hbefore Hload.
  destruct (wf_run ins0 (new_page a) (wf_new_page a)) as [Hwf _]. fold st in Hwf.
  set (mg1 := (Manager.initModel m p1 (S p1) (inr w) (mgr st)).1.1).
  assert (Hinit : Manager.initModel m p1 (S p1) (inr w) (mgr st)
                  = (mg1, Waits p1, [Manager.Spawn w m p1])).
  { unfold mg1, Manager.initModel, Manager.isModelReady, Manager.isModelLoading.
    rewrite (bool_decide_eq_false_2 _ Hnr), (bool_decide_eq_false_2 _ Hnl).
    reflexivity. }
  assert (Hmg1 : m ∈ Manager.loadingModels mg1 /\ (m ∉ Manager.readyModels mg1) /\
                 Manager.callbacks mg1 !! m
                 = Some {| Manager.resolve_reject := Some p1;
                           Manager.generation := None |}).
  { unfold mg1, Manager.initModel, Manager.isModelReady, Manager.isModelLoading.
    rewrite (bool_decide_eq_false_2 _ Hnr), (bool_decide_eq_false_2 _ Hnl).
    simpl. rewrite lookup_insert_eq. repeat split; [set_solver | exact Hnr]. }
  destruct Hmg1 as (Hl1 & Hr1 & Hcb1).
  assert (Hst1 : st1 = upd_handlers (insert w (m, p1))
                         (upd_mgr (fun _ => mg1) (bump (bump (bump st))))).
  { unfold st1. rewrite step_quiet.
    - simpl. fold p1 w. rewrite Hinit. reflexivity.
    - simpl. fold p1 w. rewrite Hinit. reflexivity. }
  assert (Hp2 : p2 = S (S (S p1))).
  { unfold p2. rewrite Hst1. reflexivity. }
  assert (Hpre : pre_loading m w p1 p2 i2 mg1 st1).
  { rewrite Hst1. split; simpl.
    - reflexivity.
    - apply settled_fresh; [exact Hwf | lia].
    - apply settled_fresh; [exact Hwf | fold p1; lia].
    - apply lookup_insert_eq.
    - destruct (intervals st !! i2) as [[m' q] |] eqn:Hi; [| reflexivity].
      destruct (b_intervals _ _ Hwf _ _ _ Hi) as [Hlt _]. fold p1 in Hlt.
      unfold i2 in Hlt. lia.
    - fold p1. lia.
    - intros s sv q Hs Hq.
      destruct (b_sups _ _ Hwf _ _ Hs) as [_ [Hlt _]]. specialize (Hlt _ Hq).
      fold p1 in Hlt. lia. }
  assert (Hpre' : pre_loading m w p1 p2 i2 mg1 st1').
  { unfold st1'. apply pre_loading_run; assumption. }
  destruct (second_call m w p1 p2 i2 mg1 Hl1 Hr1 st1' fails2 Hpre' eq_refl)
    as [Hst2 Hinv]. fold st2 in Hst2, Hinv.
  assert (Hinv3 : loading_inv m w p1 p2 i2 mg1 st3).
  { unfold st3. apply loading_run; assumption. }
  assert (Hneq : p1 <> p2) by lia.
  split; [| split; [| split; [| split; [| split]]]].
  - rewrite Hst2, Hst1. simpl. rewrite (pl_mgr _ _ _ _ _ _ _ Hpre'). auto.
  - split; [apply (l_p1 _ _ _ _ _ _ _ Hinv3) | apply (l_p2 _ _ _ _ _ _ _ Hinv3)].
  - intros x device. eapply loading_ready; eassumption.
  - intros e. eapply loading_failed; try eassumption. left. reflexivity.
  - intros message. eapply loading_failed; try eassumption.
    right. exists message. auto.
  - intros ins m' fails s Hr. apply initModel_ready; [| exact Hr].
    apply wf_run, wf_new_page.
Qed.

End ManagerCalls.

Section Frames.

Import JS Runtime Page.
Import Worker(Command(..), Event(..), ChatMessage).
Import PageSpec.

Lemma same_call_refl o : same_call o o.
Proof. destruct o; simpl; auto. Qed.

Lemma same_call_trans a b c : same_call a b -> same_call b c -> same_call a c.
Proof.
  destruct a, b, c; simpl; try tauto.
  intros [-> ->] [-> ->]. auto.
Qed.

Lemma sup_local_refl st : sup_local st st.
Proof. split; auto using same_call_refl. Qed.

Lemma sup_local_trans a b c : sup_local a b -> sup_local b c -> sup_local a c.
Proof.
  intros [] []. split; try congruence.
  intros s. eapply same_call_trans; eauto.
Qed.

Lemma sup_local_fields st st' :
  mgr st' = mgr st -> app st' = app st -> orch st' = orch st ->
  settled st' = settled st -> handlers st' = handlers st ->
  intervals st' = intervals st -> now st' = now st -> sups st' = sups st ->
  sup_local st st'.
Proof.
  intros. split; auto. intros s.
  replace (sups st') with (sups st). apply same_call_refl.
Qed.

Lemma sup_local_upd_sup s f st :
  (forall sv, status (f sv) = status sv /\ modelId (f sv) = modelId sv) ->
  sup_local st (upd_sup s f st).
Proof.
  intros Hf. split; auto. intros s'. simpl. rewrite lookup_alter.
  case_decide; [subst s' | apply same_call_refl].
  destruct (sups st !! s); simpl; auto.
Qed.

Lemma sup_local_clear_timeout s st : sup_local st (clear_timeout s st).
Proof.
  unfold clear_timeout. repeat case_match; try apply sup_local_refl.
  apply sup_local_fields; reflexivity.
Qed.

Lemma sup_local_resetTimeout s st : sup_local st (resetTimeout s st).
Proof.
  unfold resetTimeout.
  eapply sup_local_trans; [apply (sup_local_clear_timeout s) |].
  eapply sup_local_trans; [| apply sup_local_upd_sup; intros sv; split; reflexivity].
  apply sup_local_fields; reflexivity.
Qed.

Lemma sups_foldl_basic effs st :
  sups (foldl (fun s e => perform_basic e s) st effs) = sups st.
Proof.
  revert st. induction effs as [|e effs IH]; intros st; [reflexivity |].
  simpl. rewrite IH. destruct e as [| | | |[]| | |]; simpl; try reflexivity.
  unfold settle. case_match; reflexivity.
Qed.

Lemma sup_local_manager_abort m st : sup_local st (manager_abort m st).
Proof.
  destruct m as [m |]; [| apply sup_local_refl].
  unfold manager_abort, Manager.abort.
  destruct (Manager.workers (mgr st) !! m); simpl;
    apply sup_local_fields; reflexivity.
Qed.

Lemma sup_local_watchdog s st : sup_local st (watchdog s st).
Proof.
  unfold watchdog.
  eapply sup_local_trans; [| apply sup_local_manager_abort].
  apply sup_local_upd_sup. intros sv; split; reflexivity.
Qed.

Lemma sup_local_sup_onToken s t a st : sup_local st (sup_onToken s t a st).
Proof.
  unfold sup_onToken.
  eapply sup_local_trans; [apply (sup_local_resetTimeout s) |].
  case_match.
  - eapply sup_local_trans; [| apply sup_local_manager_abort].
    eapply sup_local_trans; [| apply sup_local_clear_timeout].
    apply sup_local_upd_sup. intros sv; split; reflexivity.
  - apply sup_local_fields; reflexivity.
Qed.

Lemma sup_local_sup_onComplete s c m st : sup_local st (sup_onComplete s c m st).
Proof.
  unfold sup_onComplete.
  eapply sup_local_trans; [apply (sup_local_clear_timeout s) |].
  apply sup_local_fields; reflexivity.
Qed.

Lemma calm_refl st : calm st st.
Proof. split; auto using same_call_refl. Qed.

Lemma calm_trans a b c : calm a b -> calm b c -> calm a c.
Proof.
  intros [] []. split; try congruence.
  - etrans; eauto.
  - etrans; eauto.
  - intros s. eapply same_call_trans; eauto.
Qed.

Lemma sup_local_calm st st' : sup_local st st' -> calm st st'.
Proof.
  intros [Hm Ha Ho Hs Hh Hi Hn Hsup]. split; auto; try congruence.
  - rewrite Hi. done.
  - rewrite Hm. done.
Qed.

Lemma calm_settle p o st : calm st (settle p o st).
Proof. unfold settle. case_match; [apply calm_refl |]. split; simpl; auto using same_call_refl. Qed.

Lemma calm_perform e st : keeps_registry e = true -> calm st (perform e st).
Proof.
  intros He. unfold perform.
  destruct e as [w m p | w c | w | g | f a | p o | i m p | i]; try discriminate;
    try (split; simpl; auto using same_call_refl; fail).
  - destruct f as [s | s | k]; destruct a;
      try (split; simpl; auto using same_call_refl; fail).
    + apply sup_local_calm, sup_local_sup_onToken.
    + apply sup_local_calm, sup_local_sup_onComplete.
  - apply calm_settle.
  - split; simpl; auto using same_call_refl. apply delete_subseteq.
Qed.

Lemma calm_perform_all effs st :
  forallb keeps_registry effs = true -> calm st (perform_all effs st).
Proof.
  unfold perform_all. revert st.
  induction effs as [|e effs IH]; intros st H; [apply calm_refl |].
  simpl in *. apply andb_true_iff in H as [He H].
  eapply calm_trans; [apply calm_perform, He | apply IH, H].
Qed.

Lemma keeps_handleWorkerMessage m data mg :
  Manager.callbacks (Manager.handleWorkerMessage m data mg).1 = Manager.callbacks mg /\
  Manager.workers (Manager.handleWorkerMessage m data mg).1 ⊆ Manager.workers mg /\
  forallb keeps_registry (Manager.handleWorkerMessage m data mg).2 = true.
Proof.
  unfold Manager.handleWorkerMessage, Manager.on_complete, Manager.on_aborted,
    Manager.on_error, Manager.settle_init, Manager.call.
  destruct data; simpl; repeat case_match; simpl; repeat split; auto;
    apply delete_subseteq.
Qed.

Lemma calm_with_manager r st :
  Manager.callbacks r.1 = Manager.callbacks (mgr st) ->
  Manager.workers r.1 ⊆ Manager.workers (mgr st) ->
  forallb keeps_registry r.2 = true ->
  calm st (with_manager r st).
Proof.
  intros Hc Hw He. unfold with_manager.
  eapply calm_trans; [| apply calm_perform_all, He].
  split; simpl; auto using same_call_refl.
Qed.

Lemma calm_handle i st : undisturbed i = true -> calm st (handle i st).
Proof.
  intros Hi.
  destruct i as [w data | w message | i | dt | t | m fails | m messages options
                | m | | m | | | ]; try discriminate; simpl.
  - destruct (handlers st !! w) as [[m p] |]; [| apply calm_refl].
    apply calm_with_manager; apply keeps_handleWorkerMessage.
  - destruct (handlers st !! w) as [[m p] |]; [| apply calm_refl].
    apply calm_with_manager; [reflexivity | apply delete_subseteq | reflexivity].
  - destruct (intervals st !! i) as [[m p] |]; [| apply calm_refl].
    apply calm_perform_all. unfold Manager.checkReady.
    repeat case_match; reflexivity.
  - case_match; [| apply calm_refl]. split; simpl; auto using same_call_refl.
  - repeat case_match; try apply calm_refl.
    eapply calm_trans; [| apply sup_local_calm, sup_local_watchdog].
    split; simpl; auto using same_call_refl.
  - apply calm_with_manager; [reflexivity | reflexivity |].
    unfold Manager.abort. simpl. case_match; reflexivity.
  - apply calm_with_manager; [reflexivity | reflexivity |].
    unfold Manager.abortAll. simpl.
    induction (map_to_list (Manager.workers (mgr st))); simpl; auto.
  - unfold stopGeneration. repeat case_match; try apply calm_refl.
    + eapply calm_trans; apply sup_local_calm, sup_local_manager_abort.
    + apply sup_local_calm, sup_local_manager_abort.
    + apply sup_local_calm, sup_local_manager_abort.
Qed.

Lemma settled_perform e st p :
  settled (perform e st) !! p = settled_after st p [e].
Proof.
  unfold settled_after, perform.
  destruct e as [w m q | w c | w | g | f a | q o | i m q | i];
    try (simpl; destruct (settled st !! p); reflexivity).
  - destruct f as [s | s | k]; destruct a;
      try (simpl; destruct (settled st !! p); reflexivity).
    + rewrite (sl_settled _ _ (sup_local_sup_onToken s token accumulated st)).
      simpl. destruct (settled st !! p); reflexivity.
    + rewrite (sl_settled _ _ (sup_local_sup_onComplete s content model st)).
      simpl. destruct (settled st !! p); reflexivity.
  - simpl. unfold settle. destruct (settled st !! q) eqn:Hq.
    + case_bool_decide; [subst q; rewrite Hq |]; destruct (settled st !! p); reflexivity.
    + simpl. case_bool_decide.
      * subst q. rewrite lookup_insert_eq, Hq. reflexivity.
      * rewrite lookup_insert_ne by assumption. destruct (settled st !! p); reflexivity.
Qed.

Lemma settled_perform_all effs st p :
  settled (perform_all effs st) !! p = settled_after st p effs.
Proof.
  unfold perform_all. revert st.
  induction effs as [|e effs IH]; intros st.
  - unfold settled_after. simpl. destruct (settled st !! p); reflexivity.
  - simpl. rewrite IH. unfold settled_after at 1. rewrite settled_perform.
    unfold settled_after. destruct (settled st !! p); [reflexivity |].
    simpl. destruct e; try reflexivity.
    case_bool_decide; reflexivity.
Qed.

Lemma first_settle_message m data mg p o :
  first_settle p (Manager.handleWorkerMessage m data mg).2 = Some o ->
  let cb := default Manager.no_callbacks (Manager.callbacks mg !! m) in
  (exists opts, Manager.generation cb = Some (opts, p) /\
                Worker.is_terminal data = true /\ o = outcome_of data)
  \/ Manager.resolve_reject cb = Some p.
Proof.
  unfold Manager.handleWorkerMessage, Manager.on_complete, Manager.on_aborted,
    Manager.on_error, Manager.settle_init, Manager.call.
  destruct (default Manager.no_callbacks (Manager.callbacks mg !! m))
    as [rr [[opts q] |]]; simpl;
    destruct data; simpl; repeat case_match; simpl;
    repeat case_bool_decide; simpl; intros; simplify_eq/=; eauto.
Qed.

Lemma first_settle_terminal m data mg p opts :
  Manager.generation (default Manager.no_callbacks (Manager.callbacks mg !! m))
  = Some (opts, p) ->
  Worker.is_terminal data = true ->
  first_settle p (Manager.handleWorkerMessage m data mg).2 = Some (outcome_of data).
Proof.
  unfold Manager.handleWorkerMessage, Manager.on_complete, Manager.on_aborted,
    Manager.on_error, Manager.settle_init, Manager.call.
  destruct (default Manager.no_callbacks (Manager.callbacks mg !! m))
    as [rr [[opts' q] |]]; simpl; intros [= -> ->];
    destruct data; try discriminate; intros _; simpl; repeat case_match; simpl;
    rewrite ?bool_decide_eq_true_2 by reflexivity; reflexivity.
Qed.

(** What an undisturbed task can settle. *)
Lemma settled_handle i st p o :
  undisturbed i = true ->
  settled st !! p = None ->
  settled (handle i st) !! p = Some o ->
  (exists w m q data,
      i = Message w data /\ handlers st !! w = Some (m, q) /\
      first_settle p (Manager.handleWorkerMessage m data (mgr st)).2 = Some o)
  \/ (exists w m message, i = Error w message /\ handlers st !! w = Some (m, p))
  \/ (exists j m, i = Interval j /\ intervals st !! j = Some (m, p)).
Proof.
  intros Hi Hnone.
  destruct i as [w data | w message | i | dt | t | m fails | m messages options
                | m | | m | | | ]; try discriminate; simpl.
  - destruct (handlers st !! w) as [[m q] |] eqn:Hw; [| congruence].
    unfold with_manager. rewrite settled_perform_all.
    unfold settled_after. simpl. rewrite Hnone. intros H. left. eauto 10.
  - destruct (handlers st !! w) as [[m q] |] eqn:Hw; [| congruence].
    unfold with_manager. rewrite settled_perform_all.
    unfold settled_after. simpl. rewrite Hnone. simpl.
    case_bool_decide; [subst q | discriminate]. intros _. right. left. eauto.
  - destruct (intervals st !! i) as [[m q] |] eqn:Hint; [| congruence].
    rewrite settled_perform_all. unfold settled_after. rewrite Hnone.
    unfold Manager.checkReady.
    repeat case_match; simpl; repeat case_bool_decide; simpl;
      intros; simplify_eq/=; right; right; eauto.
  - case_match; simpl; congruence.
  - repeat case_match; try congruence.
    rewrite (sl_settled _ _ (sup_local_watchdog _ _)). simpl. congruence.
  - unfold with_manager. rewrite settled_perform_all.
    unfold settled_after. simpl. rewrite Hnone.
    unfold Manager.abort. simpl. case_match; discriminate.
  - unfold with_manager. rewrite settled_perform_all.
    unfold settled_after. simpl. rewrite Hnone.
    unfold Manager.abortAll. simpl.
    induction (map_to_list (Manager.workers (mgr st))); simpl; [discriminate | assumption].
  - unfold stopGeneration.
    repeat case_match; rewrite ?(sl_settled _ _ (sup_local_manager_abort _ _));
      congruence.
Qed.

(** A settled promise stays as it is. *)
Lemma settled_handle_kept i st p o :
  undisturbed i = true ->
  settled st !! p = Some o -> settled (handle i st) !! p = Some o.
Proof.
  intros Hi Hsome.
  assert (Hall : forall effs x, settled x !! p = Some o ->
                                settled (perform_all effs x) !! p = Some o).
  { intros effs x Hx. rewrite settled_perform_all. unfold settled_after.
    rewrite Hx. reflexivity. }
  destruct i as [w data | w message | i | dt | t | m fails | m messages options
                | m | | m | | | ]; try discriminate; simpl;
    unfold with_manager; repeat case_match; try exact Hsome;
    try (apply Hall; exact Hsome).
  - rewrite (sl_settled _ _ (sup_local_watchdog _ _)). exact Hsome.
  - unfold stopGeneration.
    repeat case_match; rewrite ?(sl_settled _ _ (sup_local_manager_abort _ _));
      exact Hsome.
Qed.

Lemma resumed_sup_catch s msg st : resumed st (sup_catch s msg st).
Proof.
  unfold sup_catch, clear_timeout. repeat case_match; split; reflexivity.
Qed.

Lemma resumed_sup_resume s o st : resumed st (sup_resume s o st).
Proof.
  unfold sup_resume. repeat case_match; try apply resumed_sup_catch;
    split; reflexivity.
Qed.

End Frames.

Section SequentialCalls.

Import JS Runtime Page.
Import Worker(Command(..), Event(..), ChatMessage).
Import PageSpec.

(** [generateSingleResponse] when the manager accepts the request. *)
Lemma sup_start_accepted s m w st :
  Manager.workers (mgr st) !! m = Some w ->
  m ∈ Manager.readyModels (mgr st) ->
  sup_start s (Some m) st
  = {| mgr := Manager.set_callbacks
                (<[m := installed s (next_id st) (app st) (mgr st) m]>
                   (Manager.callbacks (mgr st))) (mgr st);
       app := app st; orch := orch st;
       sups := <[s := {| modelId := Some m; timeoutId := Some (S (next_id st));
                         timedOut := false; repetitionDetected := false;
                         status := Awaiting (next_id st) |}]> (sups st);
       settled := settled st; handlers := handlers st;
       intervals := intervals st;
       timers := <[S (next_id st) := (now st + TIMEOUT_MS, s)]> (timers st);
       now := now st; next_id := S (S (next_id st));
       posted := posted st ++ [(w, app_command (app st))];
       notified := notified st; probed := probed st; ui := ui st |}.
Proof.
  intros Hw Hr.
  unfold sup_start, resetTimeout, clear_timeout, upd_sup. simpl.
  rewrite lookup_insert_eq. simpl.
  unfold Manager.generate, Manager.isModelReady. rewrite Hw.
  rewrite (bool_decide_eq_true_2 _ Hr). simpl.
  unfold upd_sups, post, upd_mgr. simpl.
  rewrite alter_insert_eq. reflexivity.
Qed.

Lemma sups_sup_catch s msg st :
  sups (sup_catch s msg st)
  = alter (set_status (Failed (Worker.or_default msg "Generation failed"))) s (sups st).
Proof.
  unfold sup_catch. simpl.
  pose proof (sup_local_clear_timeout s st) as Hl.
  unfold clear_timeout in *. repeat case_match; reflexivity.
Qed.

Lemma started_sup_catch s s' msg st :
  is_Some (sups st !! s) -> is_Some (sups (sup_catch s' msg st) !! s).
Proof.
  rewrite sups_sup_catch. intros [sv Hs]. rewrite lookup_alter.
  case_decide; subst; rewrite Hs; simpl; eauto.
Qed.

Lemma started_sup_resume s s' o st :
  is_Some (sups st !! s) -> is_Some (sups (sup_resume s' o st) !! s).
Proof.
  intros H. unfold sup_resume.
  repeat case_match; try apply started_sup_catch; try exact H.
  simpl. destruct H as [sv Hs]. rewrite lookup_alter.
  case_decide; subst; rewrite Hs; simpl; eauto.
Qed.

Lemma started_sup_local s st st' :
  sup_local st st' -> is_Some (sups st !! s) -> is_Some (sups st' !! s).
Proof.
  intros Hl [sv Hx]. pose proof (sl_sups _ _ Hl s) as Hs. rewrite Hx in Hs.
  destruct (sups st' !! s); [eauto | contradiction].
Qed.

(** Once called, [generateSingleResponse] has its variables. *)
Lemma sup_start_started s m st : is_Some (sups (sup_start s m st) !! s).
Proof.
  unfold sup_start.
  set (st1 := upd_sups _ (bump st)).
  assert (H1 : is_Some (sups (resetTimeout s st1) !! s)).
  { apply (started_sup_local s st1); [apply sup_local_resetTimeout |].
    unfold st1. simpl. rewrite lookup_insert_eq. eauto. }
  destruct m as [m |]; [| apply started_sup_catch, H1].
  destruct (Manager.generate _ _ _ _ _) as [[mg r] effs].
  assert (H2 : is_Some (sups (foldl (fun x e => perform_basic e x)
                                (upd_mgr (fun _ => mg) (resetTimeout s st1)) effs) !! s)).
  { rewrite sups_foldl_basic. exact H1. }
  destruct r as [[v | msg] | p];
    [apply started_sup_resume | apply started_sup_catch |]; exact H2.
Qed.

Lemma sups_finish st : sups (finish st) = sups st.
Proof. reflexivity. Qed.

Lemma sups_clear_timeout s st : sups (clear_timeout s st) = sups st.
Proof. unfold clear_timeout. repeat case_match; reflexivity. Qed.

Lemma sups_sup_resume_other s s' o st :
  s <> s' -> sups (sup_resume s' o st) !! s = sups st !! s.
Proof.
  intros Hne. unfold sup_resume.
  repeat case_match; rewrite ?sups_sup_catch; simpl;
    rewrite ?lookup_alter_ne by congruence; reflexivity.
Qed.

Lemma sups_sup_start_other s s' m st :
  s <> s' -> sups (sup_start s' m st) !! s = sups st !! s.
Proof.
  intros Hne. unfold sup_start.
  set (st1 := upd_sups _ (bump st)).
  assert (H1 : sups (resetTimeout s' st1) !! s = sups st !! s).
  { unfold resetTimeout. simpl. rewrite lookup_alter_ne by congruence.
    rewrite sups_clear_timeout. unfold st1. simpl.
    apply lookup_insert_ne. congruence. }
  destruct m as [m |].
  - destruct (Manager.generate _ _ _ _ _) as [[mg r] effs].
    destruct r as [[v | msg] | p];
      rewrite ?sups_sup_resume_other, ?sups_sup_catch, ?lookup_alter_ne by congruence;
      rewrite sups_foldl_basic; exact H1.
  - rewrite sups_sup_catch, lookup_alter_ne by congruence. exact H1.
Qed.

(** After its continuation, the call for slot [s] is no longer
    awaiting. *)
Lemma sup_resume_returned s o st sv p :
  sups st !! s = Some sv -> status sv = Awaiting p ->
  returned s (sup_resume s o st) = true.
Proof.
  intros Hs Hst. unfold returned, sup_resume.
  destruct o as [v | msg]; rewrite ?Hs;
    repeat case_match; rewrite ?sups_sup_catch in *; simpl in *;
    rewrite ?lookup_alter_eq, ?Hs in *; simplify_eq/=; try reflexivity;
    congruence.
Qed.

Lemma orch_clear_timeout s st : orch (clear_timeout s st) = orch st.
Proof. unfold clear_timeout. repeat case_match; reflexivity. Qed.

Lemma app_clear_timeout s st : app (clear_timeout s st) = app st.
Proof. unfold clear_timeout. repeat case_match; reflexivity. Qed.

Lemma orch_sup_resume s o st : orch (sup_resume s o st) = orch st.
Proof.
  unfold sup_resume, sup_catch. repeat case_match; simpl;
    rewrite ?orch_clear_timeout; reflexivity.
Qed.

Lemma app_sup_resume s o st : app (sup_resume s o st) = app st.
Proof.
  unfold sup_resume, sup_catch. repeat case_match; simpl;
    rewrite ?app_clear_timeout; reflexivity.
Qed.

Lemma microtasks_idle_active b st :
  (forall s sv p, s ∈ active (orch st) ->
                  sups st !! s = Some sv -> status sv = Awaiting p ->
                  settled b !! p = None -> settled st !! p = None) ->
  microtasks b st = st.
Proof.
  unfold microtasks. generalize (active (orch st)). intros l H.
  induction l as [|s l IH]; [reflexivity |].
  simpl. replace (resume_sup b s st) with st.
  - apply IH. intros s' sv p Hin. apply H. right. exact Hin.
  - unfold resume_sup.
    destruct (sups st !! s) as [sv |] eqn:Hs; [| reflexivity].
    destruct (status sv) as [p | |] eqn:Hst; try reflexivity.
    destruct (settled b !! p) eqn:Hb; [reflexivity |].
    rewrite (H s sv p (list_elem_of_here _ _) Hs Hst Hb). reflexivity.
Qed.

Lemma first_running_calm id1 id2 p1 st st' :
  first_running id1 id2 p1 st -> calm st st' ->
  settled st' !! p1 = None ->
  first_running id1 id2 p1 st'.
Proof.
  intros [H1 H2 (sv & H3 & H3') H4 H5 H6 H7 H8] [Ca Co Ch Cc Ci Cw Cs] Hp.
  split.
  - congruence.
  - congruence.
  - pose proof (Cs id1) as Hc. rewrite H3 in Hc.
    destruct (sups st' !! id1) as [sv' |]; [| contradiction].
    destruct Hc as [Hst _]. exists sv'. split; congruence.
  - pose proof (Cs id2) as Hc. rewrite H4 in Hc.
    destruct (sups st' !! id2); [contradiction | reflexivity].
  - exact Hp.
  - rewrite Cc. exact H6.
  - rewrite Ch. exact H7.
  - intros j m q Hj. eapply H8. eapply lookup_weaken; eauto.
Qed.

(** While the first call is awaited, only a terminal event of the
    worker lets [generateResponse] go on. *)
Lemma first_running_step id1 id2 p1 st i :
  first_running id1 id2 p1 st ->
  during_generation i = true ->
  first_running id1 id2 p1 (step i st) \/
  exists w data, i = Message w data /\ ends_generation p1 w data st.
Proof.
  intros Hfr Hi.
  destruct (undisturbed i) eqn:Hu.
  2:{ destruct i; try discriminate. left.
      assert (Hh : handle GenerateResponse st = st).
      { simpl. unfold generateResponse. rewrite (fr_gen _ _ _ _ Hfr). reflexivity. }
      rewrite step_quiet; rewrite Hh; [exact Hfr | reflexivity]. }
  pose proof (calm_handle i st Hu) as Hcalm.
  destruct (settled (handle i st) !! p1) as [o |] eqn:Hset.
  - right.
    destruct (settled_handle i st p1 o Hu (fr_pending _ _ _ _ Hfr) Hset)
      as [(w & m & q & data & -> & Hw & Hfirst)
         | [(w & m & message & -> & Hw) | (j & m & -> & Hj)]].
    + apply first_settle_message in Hfirst.
      destruct (Manager.callbacks (mgr st) !! m) as [cb |] eqn:Hcb; simpl in Hfirst.
      * destruct Hfirst as [(opts & Hgen & Hterm & _) | Hrr].
        -- exists w, data. split; [reflexivity |]. split; [exact Hterm |].
           exists m, q, cb, opts. auto.
        -- exfalso. exact (fr_rr _ _ _ _ Hfr _ _ Hcb Hrr).
      * destruct Hfirst as [(opts & Hgen & _) | Hrr]; discriminate.
    + exfalso. exact (fr_handlers _ _ _ _ Hfr _ _ _ Hw eq_refl).
    + exfalso. exact (fr_intervals _ _ _ _ Hfr _ _ _ Hj eq_refl).
  - left.
    pose proof (first_running_calm _ _ _ _ _ Hfr Hcalm Hset) as Hfr'.
    unfold step. rewrite microtasks_idle_active; [exact Hfr' |].
    rewrite (fr_orch _ _ _ _ Hfr'). simpl.
    intros s sv p Hin Hs Hst Hp.
    apply list_elem_of_singleton in Hin. subst s.
    destruct (fr_first _ _ _ _ Hfr') as (sv' & Hs' & Hst').
    replace p with p1 by congruence. exact Hset.
Qed.

(** The first call's terminal event starts the second call in the same
    task. *)
Lemma first_terminal_starts_second id1 id2 p1 st w data :
  first_running id1 id2 p1 st ->
  ends_generation p1 w data st ->
  returned id1 (step (Message w data) st) = true /\
  is_Some (sups (step (Message w data) st) !! id2).
Proof.
  intros Hfr (Hterm & m & q & cb & opts & Hw & Hcb & Hgen).
  pose proof (calm_handle (Message w data) st eq_refl) as Hcalm.
  set (h := handle (Message w data) st) in *.
  assert (Hset : settled h !! p1 = Some (outcome_of data)).
  { unfold h. simpl. rewrite Hw. unfold with_manager.
    rewrite settled_perform_all. unfold settled_after. simpl.
    rewrite (fr_pending _ _ _ _ Hfr).
    eapply first_settle_terminal; [| exact Hterm].
    rewrite Hcb. exact Hgen. }
  destruct (fr_first _ _ _ _ Hfr) as (sv & Hs & Hst).
  pose proof (c_sups _ _ Hcalm id1) as Hc. rewrite Hs in Hc.
  destruct (sups h !! id1) as [sv' |] eqn:Hs'; [| contradiction].
  destruct Hc as [Hst' _]. rewrite Hst in Hst'.
  assert (Hne : id1 <> id2).
  { intros ->. rewrite (fr_second _ _ _ _ Hfr) in Hs. discriminate. }
  unfold step. fold h. unfold microtasks.
  rewrite (c_orch _ _ Hcalm), (fr_orch _ _ _ _ Hfr). simpl.
  unfold resume_sup. rewrite Hs', Hst', (fr_pending _ _ _ _ Hfr), Hset.
  unfold orch_continue.
  assert (Horch : orch (sup_resume id1 (outcome_of data) h) = SeqFirst id1 id2).
  { rewrite orch_sup_resume, (c_orch _ _ Hcalm). apply (fr_orch _ _ _ _ Hfr). }
  rewrite Horch. rewrite bool_decide_eq_true_2 by reflexivity.
  pose proof (sup_resume_returned id1 (outcome_of data) h sv' p1 Hs' Hst') as Hret.
  set (st2 := sup_start id2 _ _).
  assert (Hret2 : returned id1 st2 = true).
  { unfold returned, st2. rewrite sups_sup_start_other by exact Hne.
    exact Hret. }
  assert (Hsome : is_Some (sups st2 !! id2)) by apply sup_start_started.
  case_match; auto.
Qed.

Section SameModel.

Variables (st : State) (m : string) (w : nat).
Hypothesis Hwf : wf st.
Hypothesis Hidle : isGenerating (app st) = false.
Hypothesis Hmode : compareMode (app st) = true.
Hypothesis Hcur : currentModel (app st) = Some m.
Hypothesis Hcmp : compareModel (app st) = Some m.
Hypothesis Hname : m <> EmptyString.
Hypothesis Hready : m ∈ Manager.readyModels (mgr st).
Hypothesis Hworker : Manager.workers (mgr st) !! m = Some w.
Let id1 := next_id st.
Let id2 := S id1.
Let p1 := S (S id1).
Let st0 := upd_app (set_isGenerating true) st.

Lemma same_model_handle :
  handle GenerateResponse st
  = sup_start id1 (Some m) (set_orch (SeqFirst id1 id2) (bump (bump st0))).
Proof.
  unfold handle, generateResponse. rewrite Hidle. cbv zeta. fold st0.
  assert (Ha1 : compareMode (app st0) = true) by exact Hmode.
  assert (Ha2 : currentModel (app st0) = Some m) by exact Hcur.
  assert (Ha3 : compareModel (app st0) = Some m) by exact Hcmp.
  assert (Ha4 : model_ready (Some m) st0 = true).
  { unfold model_ready, Manager.isModelReady.
    apply bool_decide_eq_true_2. exact Hready. }
  assert (Ha5 : truthy_model (Some m) = true).
  { unfold truthy_model. rewrite (bool_decide_eq_false_2 _ Hname). reflexivity. }
  rewrite Ha1, Ha2, Ha3, Ha4, Ha5.
  cbn [andb]. rewrite bool_decide_eq_true_2 by reflexivity.
  change (next_id st0) with id1. fold id2.
  unfold start_and_continue.
  assert (Hret : returned id1
                   (sup_start id1 (Some m)
                      (set_orch (SeqFirst id1 id2) (bump (bump st0)))) = false).
  { rewrite (sup_start_accepted id1 m w); [| exact Hworker | exact Hready].
    unfold returned. simpl. rewrite lookup_insert_eq. reflexivity. }
  rewrite Hret. reflexivity.
Qed.

Lemma same_model_start :
  let st1 := step GenerateResponse st in
  first_running id1 id2 p1 st1 /\
  posted st1 = posted st ++ [(w, app_command (app st0))] /\
  Manager.callbacks (mgr st1) !! m
  = Some (installed id1 p1 (app st0) (mgr st) m) /\
  handlers st1 = handlers st.
Proof.
  assert (Hh : handle GenerateResponse st
               = sup_start id1 (Some m)
                   (set_orch (SeqFirst id1 id2) (bump (bump st0))))
    by apply same_model_handle.
  rewrite (sup_start_accepted id1 m w) in Hh; [| exact Hworker | exact Hready].
  simpl in Hh. fold id1 id2 p1 in Hh.
  change (generateResponse st) with (handle GenerateResponse st) in Hh.
  assert (Hp1 : settled st !! p1 = None).
  { apply settled_fresh; [exact Hwf | unfold p1, id1; lia]. }
  assert (Hstep : step GenerateResponse st = handle GenerateResponse st).
  { unfold step. apply microtasks_idle_active. rewrite Hh. simpl.
    intros s sv p Hin Hs Hst _.
    apply list_elem_of_singleton in Hin. subst s.
    rewrite lookup_insert_eq in Hs. simplify_eq/=. exact Hp1. }
  intros st1. unfold st1. rewrite Hstep, Hh. simpl.
  split; [| split; [reflexivity | split; [apply lookup_insert_eq | reflexivity]]].
  split; simpl.
  - reflexivity.
  - reflexivity.
  - rewrite lookup_insert_eq. eauto.
  - rewrite lookup_insert_ne by (unfold id2; lia).
    destruct (sups st !! id2) as [sv |] eqn:Hs; [| reflexivity].
    destruct (b_sups _ _ Hwf _ _ Hs) as [Hlt _]. unfold id2, id1 in Hlt. lia.
  - exact Hp1.
  - intros m' cb Hl.
    pose proof (registry_below_default (next_id st) (mgr st) m
                  (b_callbacks _ _ Hwf)) as [Hrr _].
    apply lookup_insert_Some in Hl as [[<- <-] | [_ Hl]].
    + simpl. intros Heq. apply Hrr in Heq. unfold p1, id1 in Heq. lia.
    + intros Heq. destruct (b_callbacks _ _ Hwf _ _ Hl) as [Ha _].
      apply Ha in Heq. unfold p1, id1 in Heq. lia.
  - intros w' m' q Hl. destruct (b_handlers _ _ Hwf _ _ _ Hl) as [_ Hq].
    unfold p1, id1. lia.
  - intros j m' q Hl. destruct (b_intervals _ _ Hwf _ _ _ Hl) as [_ Hq].
    unfold p1, id1. lia.
Qed.

(** In a run from the start of a dual generation on one model, the
    second call has either not begun, or a terminal event of the worker
    was handled at a moment when it had not. *)
Lemma second_after_terminal (ins : list Input) :
  Forall (fun i => during_generation i = true) ins ->
  let st1 := step GenerateResponse st in
  first_running id1 id2 p1 (run ins st1) \/
  exists ins_a w' data ins_b,
    ins = ins_a ++ Message w' data :: ins_b /\
    first_running id1 id2 p1 (run ins_a st1) /\
    ends_generation p1 w' data (run ins_a st1) /\
    is_Some (sups (run (ins_a ++ [Message w' data]) st1) !! id2).
Proof.
  intros Hall st1.
  induction ins as [|i ins IH] using rev_ind.
  - left. apply same_model_start.
  - apply Forall_app in Hall as [Hall Hi]. inversion Hi as [| ? ? Hdi _]; subst.
    destruct (IH Hall)
      as [Hfr | (ins_a & w' & data & ins_b & -> & Hfr & Hterm & Hsec)].
    + rewrite run_snoc.
      destruct (first_running_step _ _ _ _ i Hfr Hdi)
        as [Hfr' | (w' & data & -> & Hterm)]; [left; exact Hfr' |].
      right. exists ins, w', data, [].
      split; [reflexivity |]. split; [exact Hfr |]. split; [exact Hterm |].
      rewrite run_snoc.
      apply (first_terminal_starts_second _ _ _ _ _ _ Hfr Hterm).
    + right. exists ins_a, w', data, (ins_b ++ [i]).
      rewrite <- app_assoc. auto.
Qed.

End SameModel.

End SequentialCalls.

Section Aside.

Import JS Runtime Page.
Import Worker(Command(..), Event(..), ChatMessage).
Import PageSpec.
Variables (k s w p : nat).
Hypothesis Hks : k <> s.

Lemma aside_refl x : aside s w p x x.
Proof. split; reflexivity. Qed.

Lemma aside_trans x y z : aside s w p x y -> aside s w p y z -> aside s w p x z.
Proof. intros [] []. split; congruence. Qed.

Lemma aside_upd_sup f x : aside s w p x (upd_sup k f x).
Proof. split; simpl; [apply lookup_alter_ne, Hks | reflexivity..]. Qed.

Lemma aside_clear_timeout j x : aside s w p x (clear_timeout j x).
Proof. unfold clear_timeout. repeat case_match; split; reflexivity. Qed.

Lemma aside_resetTimeout x : aside s w p x (resetTimeout k x).
Proof.
  unfold resetTimeout.
  eapply aside_trans; [apply (aside_clear_timeout k) |].
  eapply aside_trans; [| apply aside_upd_sup]. split; reflexivity.
Qed.

Lemma sent_to_post w' c x :
  sent_to w (post w' c x)
  = sent_to w x ++ (if bool_decide (w' = w) then [c] else []).
Proof.
  unfold sent_to. simpl. rewrite omap_app. simpl.
  case_bool_decide; reflexivity.
Qed.

Lemma aside_manager_abort mo x :
  (forall m, mo = Some m -> Manager.workers (mgr x) !! m <> Some w) ->
  aside s w p x (manager_abort mo x).
Proof.
  intros Hm. destruct mo as [m |]; [| apply aside_refl].
  specialize (Hm m eq_refl). unfold manager_abort, Manager.abort.
  destruct (Manager.workers (mgr x) !! m) as [w' |]; simpl;
    split; simpl; try reflexivity.
  change (sent_to w (post w' CAbort (upd_mgr (fun _ => mgr x) x))
          = sent_to w x).
  rewrite sent_to_post. rewrite bool_decide_eq_false_2 by congruence.
  apply app_nil_r.
Qed.

Lemma same_call_model x y j :
  same_call (sups x !! j) (sups y !! j) -> sup_model j y = sup_model j x.
Proof.
  unfold same_call, sup_model.
  destruct (sups x !! j), (sups y !! j); try contradiction; [| reflexivity].
  intros [_ Hm]. exact Hm.
Qed.

Lemma model_sup_local x y j : sup_local x y -> sup_model j y = sup_model j x.
Proof. intros Hl. apply same_call_model, (sl_sups _ _ Hl). Qed.

Local Abbreviation elsewhere := (PageSpec.elsewhere k w).

Lemma elsewhere_sup_local x y :
  sup_local x y -> elsewhere x -> elsewhere y.
Proof.
  intros Hl He m. rewrite (model_sup_local _ _ _ Hl), (sl_mgr _ _ Hl). apply He.
Qed.

Lemma aside_watchdog x : elsewhere x -> aside s w p x (watchdog k x).
Proof.
  intros He. unfold watchdog.
  eapply aside_trans; [apply (aside_upd_sup (set_timedOut true)) |].
  apply aside_manager_abort. intros m Hm. exact (He m Hm).
Qed.

Lemma aside_sup_onToken t a x :
  elsewhere x -> aside s w p x (sup_onToken k t a x).
Proof.
  intros He. unfold sup_onToken.
  pose proof (sup_local_resetTimeout k x) as H1.
  eapply aside_trans; [apply aside_resetTimeout |].
  set (x1 := resetTimeout k x) in *.
  case_match; [| split; reflexivity].
  assert (H2 : sup_local x1 (upd_sup k (set_repetitionDetected true) x1))
    by (apply sup_local_upd_sup; intros; split; reflexivity).
  eapply aside_trans; [apply (aside_upd_sup (set_repetitionDetected true)) |].
  set (x2 := upd_sup k _ x1) in *.
  pose proof (sup_local_clear_timeout k x2) as H3.
  eapply aside_trans; [apply (aside_clear_timeout k) |].
  apply aside_manager_abort. intros m Hm.
  eapply (elsewhere_sup_local x); [| exact He | exact Hm].
  eapply sup_local_trans; [exact H1 |].
  eapply sup_local_trans; [exact H2 | exact H3].
Qed.

Lemma aside_sup_onComplete c m x : aside s w p x (sup_onComplete k c m x).
Proof.
  unfold sup_onComplete.
  eapply aside_trans; [apply (aside_clear_timeout k) |]. split; reflexivity.
Qed.

Lemma aside_settle q o x : q <> p -> aside s w p x (settle q o x).
Proof.
  intros Hq. unfold settle. case_match; split; simpl; try reflexivity.
  apply lookup_insert_ne. exact Hq.
Qed.

Lemma aside_perform e x :
  beside k w p e = true -> elsewhere x -> aside s w p x (perform e x).
Proof.
  intros Hb He. unfold perform.
  destruct e as [w' m q | w' c | w' | g | f a | q o | i m q | i]; simpl in *;
    try (split; reflexivity).
  - split; try reflexivity.
    change (sent_to w (post w' c x) = sent_to w x).
    rewrite sent_to_post. apply negb_true_iff in Hb. rewrite Hb. apply app_nil_r.
  - destruct f as [k' | k' | j]; [| | destruct a; split; reflexivity];
      apply bool_decide_eq_true_1 in Hb; subst k';
      destruct a; try (split; reflexivity).
    + apply aside_sup_onToken, He.
    + apply aside_sup_onComplete.
  - apply aside_settle. apply negb_true_iff, bool_decide_eq_false_1 in Hb. exact Hb.
Qed.

Lemma model_perform e x j : sup_model j (perform e x) = sup_model j x.
Proof.
  destruct (keeps_registry e) eqn:Hk.
  - apply same_call_model, (c_sups _ _ (calm_perform e x Hk)).
  - destruct e; try discriminate; reflexivity.
Qed.

Lemma elsewhere_perform e x : elsewhere x -> elsewhere (perform e x).
Proof. intros He m. rewrite model_perform, mgr_perform. apply He. Qed.

Lemma aside_perform_all effs x :
  forallb (beside k w p) effs = true -> elsewhere x ->
  aside s w p x (perform_all effs x).
Proof.
  unfold perform_all. revert x.
  induction effs as [|e effs IH]; intros x Hb He; [apply aside_refl |].
  cbn [forallb] in Hb. apply andb_true_iff in Hb as [Hb1 Hb2]. cbn [foldl].
  eapply aside_trans; [apply (aside_perform e x Hb1 He) |].
  apply IH; [exact Hb2 | apply elsewhere_perform, He].
Qed.

(** The events of the worker that serves slot [k]. *)
Lemma beside_handleWorkerMessage m data mg rr a pk :
  Manager.callbacks mg !! m
  = Some {| Manager.resolve_reject := rr;
            Manager.generation := Some (sup_options k a, pk) |} ->
  rr <> Some p -> pk <> p ->
  Manager.workers mg !! m <> Some w ->
  forallb (beside k w p) (Manager.handleWorkerMessage m data mg).2 = true.
Proof.
  intros Hc Hrr Hpk Hw.
  unfold Manager.handleWorkerMessage, Manager.on_complete, Manager.on_aborted,
    Manager.on_error, Manager.settle_init, Manager.call.
  rewrite Hc. simpl.
  destruct data; simpl; repeat case_match; simpl;
    rewrite ?bool_decide_eq_true_2 by reflexivity;
    rewrite ?bool_decide_eq_false_2 by congruence; reflexivity.
Qed.

Lemma aside_message x wk m qk data rr a pk :
  handlers x !! wk = Some (m, qk) ->
  Manager.callbacks (mgr x) !! m
  = Some {| Manager.resolve_reject := rr;
            Manager.generation := Some (sup_options k a, pk) |} ->
  rr <> Some p -> pk <> p ->
  sup_model k x = Some m ->
  Manager.workers (mgr x) !! m <> Some w ->
  aside s w p x (handle (Message wk data) x).
Proof.
  intros Hh Hc Hrr Hpk Hm Hw. simpl. rewrite Hh. unfold with_manager.
  eapply aside_trans; [| apply aside_perform_all].
  - split; reflexivity.
  - eapply beside_handleWorkerMessage; eassumption.
  - intros m'. unfold sup_model. simpl. fold (sup_model k x). rewrite Hm.
    intros [= <-] Hl.
    destruct (keeps_handleWorkerMessage m data (mgr x)) as (_ & Hsub & _).
    apply Hw. eapply lookup_weaken; eassumption.
Qed.

Lemma aside_timeout x t d :
  timers x !! t = Some (d, k) -> elsewhere x ->
  aside s w p x (handle (Timeout t) x).
Proof.
  intros Ht He. simpl. rewrite Ht. case_match; [| apply aside_refl].
  eapply aside_trans; [| apply aside_watchdog].
  - split; reflexivity.
  - exact He.
Qed.

End Aside.

Section TwoModels.

Import JS Runtime Page.
Import Worker(Command(..), Event(..), ChatMessage).
Import PageSpec.
Variables (id1 id2 p1 p2 : nat) (m1 m2 : string) (w1 w2 q1 q2 : nat).
Variable C : gmap string Manager.Callbacks.
Variable H : gmap nat (string * nat).
Variable W : gmap string nat.
Variables (a1 a2 : AppState) (r1 r2 : option nat).
Hypothesis Hids : id1 <> id2.
Hypothesis Hps : p1 <> p2.
Hypothesis Hws : w1 <> w2.
Hypothesis Hc1 : C !! m1 = Some {| Manager.resolve_reject := r1;
                                  Manager.generation := Some (sup_options id1 a1, p1) |}.
Hypothesis Hc2 : C !! m2 = Some {| Manager.resolve_reject := r2;
                                  Manager.generation := Some (sup_options id2 a2, p2) |}.
Hypothesis Hr1 : r1 <> Some p2.
Hypothesis Hr2 : r2 <> Some p1.
Hypothesis Hh1 : H !! w1 = Some (m1, q1).
Hypothesis Hh2 : H !! w2 = Some (m2, q2).
Hypothesis HW1 : W !! m1 = Some w1.
Hypothesis HW2 : W !! m2 = Some w2.
Local Abbreviation pair_slots := (PageSpec.pair_slots id1 id2 p1 p2 m1 m2 C H W).
Local Abbreviation both_slots := (PageSpec.both_slots id1 id2 p1 p2 m1 m2 C H W).
Local Abbreviation parallel_calls := (PageSpec.parallel_calls id1 id2 p1 p2 w1 w2).
Local Abbreviation bs_handlers := (PageSpec.bs_handlers id1 id2 p1 p2 m1 m2 C H W).
Local Abbreviation bs_callbacks := (PageSpec.bs_callbacks id1 id2 p1 p2 m1 m2 C H W).
Local Abbreviation bs_workers := (PageSpec.bs_workers id1 id2 p1 p2 m1 m2 C H W).
Local Abbreviation bs_slot1 := (PageSpec.bs_slot1 id1 id2 p1 p2 m1 m2 C H W).
Local Abbreviation bs_slot2 := (PageSpec.bs_slot2 id1 id2 p1 p2 m1 m2 C H W).
Local Abbreviation bs_orch := (PageSpec.bs_orch id1 id2 p1 p2 m1 m2 C H W).

Lemma returned_iff s st :
  returned s st = true <->
  exists sv, sups st !! s = Some sv /\ forall q, status sv <> Awaiting q.
Proof.
  unfold returned. destruct (sups st !! s) as [sv |]; split.
  - destruct (status sv) eqn:Hs; [discriminate | |]; intros _; exists sv;
      (split; [reflexivity | intros q; rewrite Hs; discriminate]).
  - intros (sv' & [= <-] & Hq). destruct (status sv); [| reflexivity..].
    exfalso. eapply Hq. reflexivity.
  - discriminate.
  - intros (sv' & [=] & _).
Qed.

Lemma model_alter_status j s f (M : gmap nat Supervisor) :
  match alter (set_status f) s M !! j with
  | Some sv => modelId sv
  | None => None
  end
  = match M !! j with Some sv => modelId sv | None => None end.
Proof.
  rewrite lookup_alter. case_decide; subst; destruct (M !! j); reflexivity.
Qed.

Lemma model_sup_resume j s o x : sup_model j (sup_resume s o x) = sup_model j x.
Proof.
  unfold sup_model, sup_resume.
  destruct o as [v | msg]; [destruct (sups x !! s) as [sv |]; [| reflexivity];
                            destruct (timedOut sv); [| destruct (repetitionDetected sv)] |];
    rewrite ?sups_sup_catch; simpl; apply model_alter_status.
Qed.

(** The continuation of slot [s], one of the two, when its promise has
    just been settled. *)
Lemma resume_in_parallel b s x :
  s = id1 \/ s = id2 ->
  let r := resume_sup b s x in
  (returned s x = true -> r = x) /\
  (forall sv p, sups x !! s = Some sv -> status sv = Awaiting p ->
                (settled x !! p = None -> r = x) /\
                (settled b !! p = None -> is_Some (settled x !! p) ->
                 orch x = Parallel id1 id2 ->
                 returned s r = true /\
                 (forall s', s' <> s -> sups r !! s' = sups x !! s') /\
                 (forall j, sup_model j r = sup_model j x) /\
                 settled r = settled x /\ handlers r = handlers x /\
                 mgr r = mgr x /\ posted r = posted x /\
                 orch r = if returned id1 r && returned id2 r
                          then Idle else Parallel id1 id2)).
Proof.
  intros Hs r. unfold r, resume_sup. split.
  - intros Hret. apply returned_iff in Hret as (sv & -> & Hq).
    destruct (status sv) eqn:Hst; [| reflexivity..].
    exfalso. eapply Hq. reflexivity.
  - intros sv p Hsv Hst. rewrite Hsv, Hst. split.
    + intros ->. case_match; reflexivity.
    + intros Hb [o Ho] Horch. rewrite Hb, Ho.
      pose proof (resumed_sup_resume s o x) as Hres.
      pose proof (sup_resume_returned s o x sv p Hsv Hst) as Hret.
      pose proof (fun j => model_sup_resume j s o x) as Hmod.
      set (y := sup_resume s o x) in *.
      assert (Hoy : orch y = Parallel id1 id2).
      { rewrite (r_orch _ _ Hres). exact Horch. }
      assert (Hother : forall s', s' <> s -> sups y !! s' = sups x !! s').
      { intros s' Hne. apply sups_sup_resume_other. exact Hne. }
      unfold orch_continue. rewrite Hoy.
      destruct (returned id1 y && returned id2 y) eqn:Hboth.
      * unfold finish, returned in *. simpl.
        rewrite Hboth. destruct Hres. repeat split; auto.
      * rewrite Hboth. destruct Hres. repeat split; auto.
Qed.

Lemma slot_ok_awaiting s p m b x :
  slot_ok s p m b x -> returned s x = false ->
  exists sv, sups x !! s = Some sv /\ status sv = Awaiting p /\
             settled b !! p = None.
Proof.
  unfold slot_ok, returned. destruct (sups x !! s) as [sv |]; [| contradiction].
  destruct (status sv) as [q | |] eqn:Hst; try discriminate.
  intros [_ Hq] _. destruct (Hq q eq_refl) as [-> Hb]. exists sv. auto.
Qed.

Lemma slot_ok_other s p m b x r :
  slot_ok s p m b x -> sups r !! s = sups x !! s -> slot_ok s p m b r.
Proof. unfold slot_ok. intros Hm ->. exact Hm. Qed.

Lemma returned_other s x r :
  sups r !! s = sups x !! s -> returned s r = returned s x.
Proof. unfold returned. intros ->. reflexivity. Qed.

(** One continuation keeps the picture, and leaves a slot awaiting only
    if its promise is still pending. *)
Lemma resume_pair b x s s' p p' m m' :
  (s = id1 /\ s' = id2 /\ p = p1 /\ p' = p2 /\ m = m1 /\ m' = m2) \/
  (s = id2 /\ s' = id1 /\ p = p2 /\ p' = p1 /\ m = m2 /\ m' = m1) ->
  pair_slots b x ->
  let r := resume_sup b s x in
  pair_slots b r /\
  settled r = settled x /\
  posted r = posted x /\
  sups r !! s' = sups x !! s' /\
  (returned s x = true -> returned s r = true) /\
  (returned s r = false -> settled r !! p = None) /\
  (returned s x = true \/ settled x !! p = None -> r = x).
Proof.
  intros Hcase Hmid r.
  assert (Hs : s = id1 \/ s = id2) by (destruct Hcase as [(-> & _) | (-> & _)]; auto).
  assert (Hne : s' <> s).
  { destruct Hcase as [(-> & -> & _) | (-> & -> & _)]; congruence. }
  assert (Hslot : slot_ok s p m b x /\ slot_ok s' p' m' b x).
  { destruct Hmid.
    destruct Hcase as [(-> & -> & -> & -> & -> & ->) | (-> & -> & -> & -> & -> & ->)];
      auto. }
  destruct Hslot as [Hslot Hslot'].
  destruct (resume_in_parallel b s x Hs) as [Hret Haw]. fold r in Hret, Haw.
  destruct (returned s x) eqn:Hr.
  { rewrite (Hret eq_refl).
    split; [exact Hmid | split; [reflexivity | split; [reflexivity |]]].
    split; [reflexivity | split; [auto | split; [congruence | reflexivity]]]. }
  destruct (slot_ok_awaiting _ _ _ _ _ Hslot Hr) as (sv & Hsv & Hst & Hb).
  destruct (Haw sv p Hsv Hst) as [Hnone Hsome].
  destruct (settled x !! p) as [o |] eqn:Hx.
  2:{ rewrite (Hnone eq_refl).
      split; [exact Hmid | split; [reflexivity | split; [reflexivity |]]].
      split; [reflexivity | split; [congruence | split; [intros _; exact Hx | reflexivity]]]. }
  assert (Horch : orch x = Parallel id1 id2).
  { rewrite (bs_orch _ _ Hmid).
    destruct Hcase as [(-> & _) | (-> & _)]; rewrite Hr; simpl;
      rewrite ?andb_false_r; reflexivity. }
  destruct (Hsome Hb (ex_intro _ o eq_refl) Horch)
    as (Hret' & Hother & Hmod & Hset & Hh & Hm & Hp & Ho).
  split; [| split; [exact Hset | split; [exact Hp | split; [apply Hother, Hne |]]]].
  - destruct Hmid as [M1 M2 M3 M4 M5 M6].
    assert (Hdone : slot_ok s p m b r).
    { unfold slot_ok. pose proof (Hmod s) as Hms. unfold sup_model in Hms.
      rewrite Hsv in Hms.
      apply returned_iff in Hret' as (sv' & Hsv' & Hq). rewrite Hsv' in *.
      split.
      - rewrite Hms. unfold slot_ok in Hslot. rewrite Hsv in Hslot. apply Hslot.
      - intros q Hq'. exfalso. exact (Hq q Hq'). }
    assert (Hkeep : slot_ok s' p' m' b r).
    { eapply slot_ok_other; [exact Hslot' | apply Hother, Hne]. }
    split.
    + congruence.
    + rewrite Hm. exact M2.
    + rewrite Hm. exact M3.
    + destruct Hcase as [(-> & -> & -> & -> & -> & ->) | (-> & -> & -> & -> & -> & ->)];
        assumption.
    + destruct Hcase as [(-> & -> & -> & -> & -> & ->) | (-> & -> & -> & -> & -> & ->)];
        assumption.
    + exact Ho.
  - split; [intros _; exact Hret' | split; [| intros [|]; discriminate]].
    rewrite Hret'. discriminate.
Qed.

(** The microtasks of a task. *)
Lemma microtasks_pair b x :
  pair_slots b x ->
  let r := microtasks b x in
  pair_slots b r /\ settled r = settled x /\ posted r = posted x /\
  (returned id1 x = true -> returned id1 r = true) /\
  (returned id2 x = true -> returned id2 r = true) /\
  (returned id1 r = false -> settled r !! p1 = None) /\
  (returned id2 r = false -> settled r !! p2 = None) /\
  (returned id1 x = true \/ settled x !! p1 = None ->
   sups r !! id1 = sups x !! id1) /\
  (returned id2 x = true \/ settled x !! p2 = None ->
   sups r !! id2 = sups x !! id2).
Proof.
  intros Hx r. unfold r, microtasks.
  destruct (returned id1 x && returned id2 x) eqn:Hboth.
  { rewrite (bs_orch _ _ Hx), Hboth. simpl.
    apply andb_true_iff in Hboth as [Hb1 Hb2].
    repeat split; auto; try apply Hx; congruence. }
  rewrite (bs_orch _ _ Hx), Hboth. simpl.
  destruct (resume_pair b x id1 id2 p1 p2 m1 m2) as (A1 & A2 & A3 & A4 & A5 & A6 & A7);
    [left; repeat split; reflexivity | exact Hx |].
  set (y := resume_sup b id1 x) in *.
  destruct (resume_pair b y id2 id1 p2 p1 m2 m1) as (B1 & B2 & B3 & B4 & B5 & B6 & B7);
    [right; repeat split; reflexivity | exact A1 |].
  set (z := resume_sup b id2 y) in *.
  split; [exact B1 |]. split; [congruence |]. split; [congruence |].
  split; [| split; [| split; [| split; [exact B6 | split]]]].
  - intros Hr. rewrite (returned_other id1 y z B4). auto.
  - intros Hr. apply B5. rewrite (returned_other id2 x y A4). exact Hr.
  - intros Hr. rewrite (returned_other id1 y z B4) in Hr.
    rewrite B2. auto.
  - intros Hn. rewrite B4, (A7 Hn). reflexivity.
  - intros Hn. rewrite B7; [exact A4 |].
    rewrite A2, (returned_other id2 x y A4). exact Hn.
Qed.

(** The synchronous part of a task leaves both calls where they are. *)
Lemma handle_pair st i :
  both_slots st -> undisturbed i = true ->
  let h := handle i st in
  pair_slots st h /\
  returned id1 h = returned id1 st /\ returned id2 h = returned id2 st.
Proof.
  intros Hst Hi h.
  destruct (calm_handle i st Hi) as [Ca Co Ch Cc Ci Cw Cs]. fold h in Ca, Co, Ch, Cc, Ci, Cw, Cs.
  assert (Hslot : forall s p m, slot_ok s p m st st ->
                                slot_ok s p m st h /\ returned s h = returned s st).
  { intros s p m. unfold slot_ok, returned. specialize (Cs s).
    destruct (sups st !! s) as [sv |]; [| contradiction].
    destruct (sups h !! s) as [sv' |]; [| contradiction].
    destruct Cs as [-> ->]. auto. }
  destruct Hst as [B1 B2 B3 B4 B5 B6].
  destruct (Hslot _ _ _ B4) as [S1 R1]. destruct (Hslot _ _ _ B5) as [S2 R2].
  split; [| auto]. split.
  - congruence.
  - congruence.
  - etrans; eassumption.
  - exact S1.
  - exact S2.
  - rewrite Co, R1, R2. exact B6.
Qed.

(** A whole task keeps the picture. *)
Lemma step_pair st i :
  both_slots st -> undisturbed i = true ->
  let h := handle i st in
  let r := step i st in
  both_slots r /\ settled r = settled h /\ posted r = posted h /\
  (returned id1 st = true -> returned id1 r = true) /\
  (returned id2 st = true -> returned id2 r = true) /\
  (returned id1 st = true \/ settled h !! p1 = None ->
   sups r !! id1 = sups h !! id1) /\
  (returned id2 st = true \/ settled h !! p2 = None ->
   sups r !! id2 = sups h !! id2).
Proof.
  intros Hst Hi h r.
  destruct (handle_pair st i Hst Hi) as (Hh & R1 & R2). fold h in Hh, R1, R2.
  destruct (microtasks_pair st h Hh) as (M1 & M2 & M3 & M4 & M5 & M6 & M7 & M8 & M9).
  change (microtasks st h) with r in *.
  split; [| split; [exact M2 | split; [exact M3 |]]].
  - destruct M1 as [B1 B2 B3 B4 B5 B6]. split; auto.
    + unfold slot_ok in *. destruct (sups r !! id1) as [sv |] eqn:Hs; [| contradiction].
      destruct B4 as [Hm Hq]. split; [exact Hm |]. intros q Hst'.
      split; [apply (Hq q Hst') |]. apply M6. unfold returned. rewrite Hs, Hst'.
      reflexivity.
    + unfold slot_ok in *. destruct (sups r !! id2) as [sv |] eqn:Hs; [| contradiction].
      destruct B5 as [Hm Hq]. split; [exact Hm |]. intros q Hst'.
      split; [apply (Hq q Hst') |]. apply M7. unfold returned. rewrite Hs, Hst'.
      reflexivity.
  - split; [intros Hr; apply M4; congruence |].
    split; [intros Hr; apply M5; congruence |].
    split; intros Hr; [apply M8 | apply M9]; rewrite ?R1, ?R2; exact Hr.
Qed.

(** Join: [generateResponse] is done exactly when both calls have
    returned. *)
Lemma join_pair st :
  both_slots st ->
  (orch st = Idle <-> returned id1 st = true /\ returned id2 st = true).
Proof.
  intros Hst. rewrite (bs_orch _ _ Hst).
  destruct (returned id1 st), (returned id2 st); simpl; split;
    try discriminate; auto; intros []; discriminate.
Qed.

(** A call whose promise the task settles returns in that task. *)
Lemma settled_returns st i :
  both_slots st -> undisturbed i = true ->
  (is_Some (settled (handle i st) !! p1) -> returned id1 (step i st) = true) /\
  (is_Some (settled (handle i st) !! p2) -> returned id2 (step i st) = true).
Proof.
  intros Hst Hi.
  destruct (step_pair st i Hst Hi) as (Hr & Hset & _).
  split; intros [o Ho]; rewrite <- Hset in Ho.
  - destruct (returned id1 (step i st)) eqn:Hret; [reflexivity |].
    destruct (slot_ok_awaiting _ _ _ _ _ (bs_slot1 _ _ Hr) Hret) as (_ & _ & _ & Hn).
    congruence.
  - destruct (returned id2 (step i st)) eqn:Hret; [reflexivity |].
    destruct (slot_ok_awaiting _ _ _ _ _ (bs_slot2 _ _ Hr) Hret) as (_ & _ & _ & Hn).
    congruence.
Qed.

(** The terminal event of a call's generation makes the call return,
    whatever became of the other call. *)
Lemma terminal_returns st data :
  both_slots st -> Worker.is_terminal data = true ->
  returned id1 (step (Message w1 data) st) = true /\
  returned id2 (step (Message w2 data) st) = true.
Proof.
  intros Hst Hterm.
  assert (Hsettles : forall w m q o p rr,
             H !! w = Some (m, q) ->
             C !! m = Some {| Manager.resolve_reject := rr;
                              Manager.generation := Some (o, p) |} ->
             is_Some (settled (handle (Message w data) st) !! p)).
  { intros w m q o p rr Hw Hc. simpl. rewrite (bs_handlers _ _ Hst), Hw.
    unfold with_manager. rewrite settled_perform_all. unfold settled_after. simpl.
    destruct (settled st !! p); [eauto |].
    rewrite (first_settle_terminal m data (mgr st) p o); [eauto | | exact Hterm].
    rewrite (bs_callbacks _ _ Hst), Hc. reflexivity. }
  split.
  - apply (settled_returns st (Message w1 data) Hst eq_refl).
    eapply Hsettles; eassumption.
  - apply (settled_returns st (Message w2 data) Hst eq_refl).
    eapply Hsettles; eassumption.
Qed.

Lemma slot_model s p m x :
  slot_ok s p m x x -> sup_model s x = Some m.
Proof.
  unfold slot_ok, sup_model. destruct (sups x !! s); [| contradiction].
  intros [Hm _]. exact Hm.
Qed.

Lemma slot_cases s p m x :
  slot_ok s p m x x -> returned s x = true \/ settled x !! p = None.
Proof.
  intros Hs. destruct (returned s x) eqn:Hr; [auto | right].
  destruct (slot_ok_awaiting _ _ _ _ _ Hs Hr) as (_ & _ & _ & Hn). exact Hn.
Qed.

Lemma workers_apart st :
  both_slots st ->
  Manager.workers (mgr st) !! m1 <> Some w2 /\
  Manager.workers (mgr st) !! m2 <> Some w1.
Proof.
  intros Hst. pose proof (bs_workers _ _ Hst) as Hsub.
  split; intros Hl; apply (lookup_weaken _ _ _ _ Hl) in Hsub; congruence.
Qed.

Lemma of_slot_undisturbed s w st i : of_slot s w st i -> undisturbed i = true.
Proof. intros [[data ->] | (t & d & -> & _)]; reflexivity. Qed.

(** Such a task for the first call leaves the second call, its worker
    and its promise alone. *)
Lemma first_aside st i :
  both_slots st -> of_slot id1 w1 st i ->
  aside id2 w2 p2 st (step i st).
Proof.
  intros Hst Hi.
  pose proof (of_slot_undisturbed _ _ _ _ Hi) as Hu.
  destruct (workers_apart st Hst) as [Hw _].
  pose proof (slot_model _ _ _ _ (bs_slot1 _ _ Hst)) as Hm.
  assert (Hh : aside id2 w2 p2 st (handle i st)).
  { destruct Hi as [[data ->] | (t & d & -> & Ht)].
    - eapply (aside_message id1 id2 w2 p2 Hids); try eassumption.
      + rewrite (bs_handlers _ _ Hst). exact Hh1.
      + rewrite (bs_callbacks _ _ Hst). exact Hc1.
    - eapply (aside_timeout id1 id2 w2 p2 Hids); [exact Ht |].
      intros m. rewrite Hm. intros [= <-]. exact Hw. }
  destruct (step_pair st i Hst Hu) as (_ & Hset & Hpost & _ & _ & _ & Hsup).
  destruct Hh as [A1 A2 A3]. split.
  - rewrite Hsup; [exact A1 |]. rewrite A3.
    apply (slot_cases _ _ _ _ (bs_slot2 _ _ Hst)).
  - unfold sent_to in *. rewrite Hpost. exact A2.
  - rewrite Hset. exact A3.
Qed.

Lemma second_aside st i :
  both_slots st -> of_slot id2 w2 st i ->
  aside id1 w1 p1 st (step i st).
Proof.
  intros Hst Hi.
  pose proof (of_slot_undisturbed _ _ _ _ Hi) as Hu.
  destruct (workers_apart st Hst) as [_ Hw].
  pose proof (slot_model _ _ _ _ (bs_slot2 _ _ Hst)) as Hm.
  assert (Hne : id2 <> id1) by congruence.
  assert (Hh : aside id1 w1 p1 st (handle i st)).
  { destruct Hi as [[data ->] | (t & d & -> & Ht)].
    - eapply (aside_message id2 id1 w1 p1 Hne); try eassumption.
      + rewrite (bs_handlers _ _ Hst). exact Hh2.
      + rewrite (bs_callbacks _ _ Hst). exact Hc2.
      + congruence.
    - eapply (aside_timeout id2 id1 w1 p1 Hne); [exact Ht |].
      intros m. rewrite Hm. intros [= <-]. exact Hw. }
  destruct (step_pair st i Hst Hu) as (_ & Hset & Hpost & _ & _ & Hsup & _).
  destruct Hh as [A1 A2 A3]. split.
  - rewrite Hsup; [exact A1 |]. rewrite A3.
    apply (slot_cases _ _ _ _ (bs_slot1 _ _ Hst)).
  - unfold sent_to in *. rewrite Hpost. exact A2.
  - rewrite Hset. exact A3.
Qed.

(** In a run of such tasks the picture holds throughout. *)
Lemma run_pair st ins :
  both_slots st -> Forall (fun i => undisturbed i = true) ins ->
  both_slots (run ins st).
Proof.
  intros Hst Hall. induction ins as [|i ins IH] using rev_ind; [exact Hst |].
  apply Forall_app in Hall as [Hall Hi]. inversion Hi as [| ? ? Hu _]; subst.
  rewrite run_snoc. apply step_pair; auto.
Qed.

Lemma pair_parallel_calls st : both_slots st -> parallel_calls st.
Proof.
  intros Hst. split; [apply join_pair, Hst |].
  split; [intros data; apply terminal_returns, Hst |].
  split; [| split; [intros i; apply first_aside, Hst
                   | intros i; apply second_aside, Hst]].
  intros i Hi. destruct (step_pair st i Hst Hi) as (_ & _ & _ & R1 & R2 & _).
  auto.
Qed.

Lemma run_parallel_calls st ins :
  both_slots st -> Forall (fun i => undisturbed i = true) ins ->
  parallel_calls (run ins st).
Proof. intros Hst Hall. apply pair_parallel_calls, run_pair; assumption. Qed.

End TwoModels.

Section DiffModels.

Import JS Runtime Page.
Import Worker(Command(..), Event(..), ChatMessage).
Import PageSpec.
Variables (st : State) (m1 m2 : string) (w1 w2 q1 q2 : nat).
Hypothesis Hwf : wf st.
Hypothesis Hidle : isGenerating (app st) = false.
Hypothesis Hmode : compareMode (app st) = true.
Hypothesis Hcur : currentModel (app st) = Some m1.
Hypothesis Hcmp : compareModel (app st) = Some m2.
Hypothesis Hname : m2 <> EmptyString.
Hypothesis Hdiff : m1 <> m2.
Hypothesis Hready1 : m1 ∈ Manager.readyModels (mgr st).
Hypothesis Hready2 : m2 ∈ Manager.readyModels (mgr st).
Hypothesis Hworker1 : Manager.workers (mgr st) !! m1 = Some w1.
Hypothesis Hworker2 : Manager.workers (mgr st) !! m2 = Some w2.
Hypothesis Hh1 : handlers st !! w1 = Some (m1, q1).
Hypothesis Hh2 : handlers st !! w2 = Some (m2, q2).
Let id1 := next_id st.
Let id2 := S id1.
Let p1 := S (S id1).
Let p2 := S (S (S (S id1))).
Let st0 := upd_app (set_isGenerating true) st.
Let r1 := Manager.resolve_reject
            (default Manager.no_callbacks (Manager.callbacks (mgr st) !! m1)).
Let r2 := Manager.resolve_reject
            (default Manager.no_callbacks (Manager.callbacks (mgr st) !! m2)).
Let C : gmap string Manager.Callbacks :=
  <[m2 := {| Manager.resolve_reject := r2;
             Manager.generation := Some (sup_options id2 (app st0), p2) |}]>
    (<[m1 := {| Manager.resolve_reject := r1;
                Manager.generation := Some (sup_options id1 (app st0), p1) |}]>
       (Manager.callbacks (mgr st))).

(** Both calls are made, one after the other, in the task of
    [generateResponse]. *)
Lemma two_models_handle :
  handle GenerateResponse st
  = {| mgr := Manager.set_callbacks C (mgr st);
       app := app st0; orch := Parallel id1 id2;
       sups := <[id2 := {| modelId := Some m2; timeoutId := Some (S p2);
                           timedOut := false; repetitionDetected := false;
                           status := Awaiting p2 |}]>
                 (<[id1 := {| modelId := Some m1; timeoutId := Some (S p1);
                              timedOut := false; repetitionDetected := false;
                              status := Awaiting p1 |}]> (sups st));
       settled := settled st; handlers := handlers st;
       intervals := intervals st;
       timers := <[S p2 := (now st + TIMEOUT_MS, id2)]>
                   (<[S p1 := (now st + TIMEOUT_MS, id1)]> (timers st));
       now := now st; next_id := S (S p2);
       posted := (posted st ++ [(w1, app_command (app st0))])
                 ++ [(w2, app_command (app st0))];
       notified := notified st; probed := probed st; ui := ui st |}.
Proof.
  unfold handle, generateResponse. rewrite Hidle. cbv zeta. fold st0.
  assert (Ha1 : compareMode (app st0) = true) by exact Hmode.
  assert (Ha2 : currentModel (app st0) = Some m1) by exact Hcur.
  assert (Ha3 : compareModel (app st0) = Some m2) by exact Hcmp.
  assert (Ha4 : model_ready (Some m2) st0 = true).
  { unfold model_ready, Manager.isModelReady.
    apply bool_decide_eq_true_2. exact Hready2. }
  assert (Ha5 : truthy_model (Some m2) = true).
  { unfold truthy_model. rewrite (bool_decide_eq_false_2 _ Hname). reflexivity. }
  rewrite Ha1, Ha2, Ha3, Ha4, Ha5.
  cbn [andb]. rewrite bool_decide_eq_false_2 by congruence.
  change (next_id st0) with id1. fold id2.
  unfold start_and_continue.
  rewrite (sup_start_accepted id1 m1 w1); [| exact Hworker1 | exact Hready1].
  match goal with
  | |- context [returned id1 ?x] =>
      assert (Hret : returned id1 x = false)
        by (unfold returned; simpl; rewrite lookup_insert_eq; reflexivity);
      rewrite Hret; clear Hret
  end.
  cbn [app compareModel set_orch bump upd_app st0 set_isGenerating].
  rewrite Hcmp.
  rewrite (sup_start_accepted id2 m2 w2); [| exact Hworker2 | exact Hready2].
  match goal with
  | |- context [returned id2 ?x] =>
      assert (Hret : returned id2 x = false)
        by (unfold returned; simpl; rewrite lookup_insert_eq; reflexivity);
      rewrite Hret; clear Hret
  end.
  unfold installed, C, r1, r2, st0. simpl.
  rewrite lookup_insert_ne by exact Hdiff. reflexivity.
Qed.

Lemma two_models_step :
  step GenerateResponse st = handle GenerateResponse st.
Proof.
  unfold step. apply microtasks_idle_active. rewrite two_models_handle. simpl.
  intros s sv p Hin Hs Hst _.
  assert (Hp : (next_id st <= p)%nat).
  { apply elem_of_cons in Hin as [-> | Hin].
    - rewrite lookup_insert_ne in Hs by (unfold id2; lia).
      rewrite lookup_insert_eq in Hs. simplify_eq/=. lia.
    - apply list_elem_of_singleton in Hin. subst s.
      rewrite lookup_insert_eq in Hs. simplify_eq/=. lia. }
  apply settled_fresh; assumption.
Qed.

Lemma two_models_start :
  let st1 := step GenerateResponse st in
  posted st1 = posted st ++ [(w1, app_command (app st0)); (w2, app_command (app st0))] /\
  both_slots id1 id2 p1 p2 m1 m2 C (handlers st) (Manager.workers (mgr st)) st1.
Proof.
  intros st1. unfold st1. rewrite two_models_step, two_models_handle.
  split; [simpl; rewrite <- app_assoc; reflexivity |].
  assert (Hp1 : settled st !! p1 = None)
    by (apply settled_fresh; [exact Hwf | unfold p1, id1; lia]).
  assert (Hp2 : settled st !! p2 = None)
    by (apply settled_fresh; [exact Hwf | unfold p2, id1; lia]).
  split; simpl.
  - reflexivity.
  - reflexivity.
  - reflexivity.
  - unfold slot_ok. simpl. rewrite lookup_insert_ne by (unfold id2; lia).
    rewrite lookup_insert_eq. simpl. split; [reflexivity |].
    intros q [= <-]. auto.
  - unfold slot_ok. simpl. rewrite lookup_insert_eq. simpl.
    split; [reflexivity |]. intros q [= <-]. auto.
  - unfold returned. simpl. rewrite lookup_insert_ne by (unfold id2; lia).
    rewrite lookup_insert_eq. reflexivity.
Qed.

(** From the start of a dual generation on two models, through any
    tasks that can run meanwhile. *)
Lemma two_models_run (ins : list Input) :
  Forall (fun i => undisturbed i = true) ins ->
  parallel_calls id1 id2 p1 p2 w1 w2 (run ins (step GenerateResponse st)).
Proof.
  intros Hall.
  pose proof (registry_below_default (next_id st) (mgr st) m1
                (b_callbacks _ _ Hwf)) as [Hrr1 _].
  pose proof (registry_below_default (next_id st) (mgr st) m2
                (b_callbacks _ _ Hwf)) as [Hrr2 _].
  apply (run_parallel_calls id1 id2 p1 p2 m1 m2 w1 w2 q1 q2 C (handlers st)
           (Manager.workers (mgr st)) (app st0) (app st0) r1 r2).
  - unfold id2. lia.
  - unfold p1, p2. lia.
  - unfold C. rewrite lookup_insert_ne by congruence. apply lookup_insert_eq.
  - unfold C. apply lookup_insert_eq.
  - intros Heq. apply Hrr1 in Heq. unfold p2, id1 in Heq. lia.
  - intros Heq. apply Hrr2 in Heq. unfold p1, id1 in Heq. lia.
  - exact Hh1.
  - exact Hh2.
  - exact Hworker1.
  - exact Hworker2.
  - apply two_models_start.
  - exact Hall.
Qed.

End DiffModels.

Section DualGeneration.

Import JS Runtime Page.
Import Worker(Command(..), Event(..), ChatMessage).
Import PageSpec.



End DualGeneration.

Section Watchdog.

Import JS Runtime Page.
Import Worker(Command(..), Event(..), ChatMessage).
Import PageSpec.

Lemma upd_mgr_same st : upd_mgr (fun _ => mgr st) st = st.
Proof. destruct st; reflexivity. Qed.

Variables (s p : nat) (m : string) (w : nat) (sv : Supervisor) (st : State).
Hypothesis Hsup : supervised s p m w sv st.

Lemma handle_token tok acc :
  handle (Message w (EToken tok acc)) st = sup_onToken s tok acc st.
Proof.
  destruct Hsup as [_ [q Hh] _ (rr & a & Hc) _ _ _ _].
  simpl. rewrite Hh. unfold with_manager, Manager.handleWorkerMessage.
  rewrite Hc. simpl. rewrite upd_mgr_same. reflexivity.
Qed.

Lemma handle_terminal data :
  Worker.is_terminal data = true ->
  settled (handle (Message w data) st) !! p = Some (outcome_of data).
Proof.
  intros Hterm.
  destruct Hsup as [_ [q Hh] _ (rr & a & Hc) _ _ _ Hp].
  simpl. rewrite Hh. unfold with_manager.
  rewrite settled_perform_all. unfold settled_after. simpl. rewrite Hp.
  eapply first_settle_terminal; [| exact Hterm]. rewrite Hc. reflexivity.
Qed.

Lemma sups_handle_terminal data :
  Worker.is_terminal data = true ->
  sups (handle (Message w data) st) = sups st.
Proof.
  intros Hterm.
  destruct Hsup as [_ [q Hh] _ (rr & a & Hc) _ _ _ Hp].
  simpl. rewrite Hh. unfold with_manager, Manager.handleWorkerMessage.
  rewrite Hc.
  destruct data; try discriminate; simpl;
    unfold sup_onComplete, settle, Manager.settle_init; simpl;
    rewrite ?sups_clear_timeout; repeat case_match; simpl;
    rewrite ?sups_clear_timeout; try reflexivity;
    unfold settle; repeat case_match; reflexivity.
Qed.

(** The task of a terminal event ends with the rest of the call and
    the [finally] block of [generateResponse]. *)
Lemma step_terminal data :
  Worker.is_terminal data = true ->
  step (Message w data) st
  = finish (sup_resume s (outcome_of data) (handle (Message w data) st)).
Proof.
  intros Hterm.
  pose proof (handle_terminal data Hterm) as Hset.
  pose proof (sups_handle_terminal data Hterm) as Hsups.
  pose proof (calm_handle (Message w data) st eq_refl) as Hcalm.
  set (h := handle (Message w data) st) in *.
  unfold step. fold h. unfold microtasks.
  rewrite (c_orch _ _ Hcalm), (sv_orch _ _ _ _ _ _ Hsup). simpl.
  unfold resume_sup.
  rewrite Hsups, (sv_sup _ _ _ _ _ _ Hsup), (sv_status _ _ _ _ _ _ Hsup),
    (sv_pending _ _ _ _ _ _ Hsup), Hset.
  unfold orch_continue.
  rewrite orch_sup_resume, (c_orch _ _ Hcalm), (sv_orch _ _ _ _ _ _ Hsup).
  rewrite bool_decide_eq_true_2 by reflexivity. reflexivity.
Qed.

Lemma status_of_finish x : status_of s (finish x) = status_of s x.
Proof. reflexivity. Qed.

(** What the call reports when its promise is settled. *)
Lemma report data :
  Worker.is_terminal data = true ->
  status_of s (step (Message w data) st)
  = Some match outcome_of data with
         | Fulfilled _ =>
             if timedOut sv then Failed timeout_message
             else if repetitionDetected sv then Failed repetition_message
             else Completed
         | Rejected message =>
             Failed (Worker.or_default message "Generation failed")
         end.
Proof.
  intros Hterm. rewrite (step_terminal data Hterm), status_of_finish.
  pose proof (sups_handle_terminal data Hterm) as Hsups.
  set (h := handle (Message w data) st) in *.
  unfold status_of, sup_resume. rewrite Hsups, (sv_sup _ _ _ _ _ _ Hsup).
  destruct (outcome_of data) as [v | msg];
    [destruct (timedOut sv); [| destruct (repetitionDetected sv)] |];
    rewrite ?sups_sup_catch; simpl; rewrite Hsups, lookup_alter_eq,
      (sv_sup _ _ _ _ _ _ Hsup); reflexivity.
Qed.

Lemma report_shown data msg :
  Worker.is_terminal data = true ->
  status_of s (step (Message w data) st) = Some (Failed msg) ->
  last (ui (step (Message w data) st)) = Some (UpdateMessageError s msg).
Proof.
  intros Hterm. rewrite (step_terminal data Hterm), status_of_finish.
  pose proof (sups_handle_terminal data Hterm) as Hsups.
  set (h := handle (Message w data) st) in *.
  unfold status_of, sup_resume. rewrite Hsups, (sv_sup _ _ _ _ _ _ Hsup).
  destruct (outcome_of data) as [v | msg0];
    [destruct (timedOut sv); [| destruct (repetitionDetected sv)] |];
    rewrite ?sups_sup_catch; simpl; rewrite ?Hsups, ?lookup_alter_eq,
      (sv_sup _ _ _ _ _ _ Hsup); simpl; intros [= <-];
    rewrite ?last_snoc; try reflexivity.
Qed.

(** A token that does not trip the repetition guard re-arms the
    timer. *)
Lemma token_resets tok acc :
  wf st -> Utils.isRepetitive acc = false ->
  let r := step (Message w (EToken tok acc)) st in
  let t' := next_id st in
  timers r !! t' = Some (now st + TIMEOUT_MS, s) /\
  (forall t, timeoutId sv = Some t -> timers r !! t = None) /\
  supervised s p m w (set_timeoutId (Some t') sv) r.
Proof.
  intros Hwf Hrep r t'.
  assert (Hr : r = ui_call (UpdateStreamingMessage s acc) (resetTimeout s st)).
  { unfold r. rewrite step_quiet; rewrite handle_token.
    - unfold sup_onToken. rewrite Hrep. reflexivity.
    - apply (sl_settled _ _ (sup_local_sup_onToken s tok acc st)). }
  destruct Hsup as [Ho Hh Hw Hc Hs Hm Hst Hp].
  destruct (b_sups _ _ Hwf _ _ Hs) as [_ [_ Ht]].
  rewrite Hr. unfold resetTimeout, clear_timeout. rewrite Hs.
  destruct (timeoutId sv) as [t |] eqn:Htid; simpl.
  - specialize (Ht t eq_refl).
    split; [apply lookup_insert_eq |]. split.
    + intros t0 [= <-]. rewrite lookup_insert_ne by (unfold t'; lia).
      apply lookup_delete_eq.
    + split; simpl; auto.
      rewrite lookup_alter_eq, Hs. reflexivity.
  - split; [apply lookup_insert_eq |]. split; [discriminate |].
    split; simpl; auto.
    rewrite lookup_alter_eq, Hs. reflexivity.
Qed.

(** The watchdog: one [abort] when the timer is due, nothing before,
    and nothing if it is fired again. *)
Lemma watchdog_trips t d :
  timers st !! t = Some (d, s) ->
  let r := step (Timeout t) st in
  (d <= now st ->
   posted r = posted st ++ [(w, CAbort)] /\
   timers r !! t = None /\
   supervised s p m w (set_timedOut true sv) r /\
   step (Timeout t) r = r) /\
  (now st < d -> r = st).
Proof.
  intros Ht r.
  assert (Hq : step (Timeout t) st = handle (Timeout t) st).
  { apply step_quiet. simpl. rewrite Ht. case_match; [| reflexivity].
    rewrite (sl_settled _ _ (sup_local_watchdog _ _)). reflexivity. }
  destruct Hsup as [Ho Hh Hw Hc Hs Hm Hst Hp].
  split.
  - intros Hdue. apply Z.leb_le in Hdue.
    assert (Hr : r = post w CAbort
                       (upd_sup s (set_timedOut true) (upd_timers (delete t) st))).
    { unfold r. rewrite Hq. simpl. rewrite Ht, Hdue.
      unfold watchdog, sup_model. simpl. rewrite Hs, Hm.
      unfold manager_abort, Manager.abort. simpl. rewrite Hw. reflexivity. }
    assert (Hgone : timers r !! t = None).
    { rewrite Hr. simpl. apply lookup_delete_eq. }
    split; [rewrite Hr; reflexivity |]. split; [exact Hgone |]. split.
    + rewrite Hr. split; simpl; auto.
      rewrite lookup_alter_eq, Hs. reflexivity.
    + rewrite step_quiet; simpl; rewrite Hgone; reflexivity.
  - intros Hearly. unfold r. rewrite Hq. simpl. rewrite Ht.
    rewrite (proj2 (Z.leb_gt _ _) Hearly). reflexivity.
Qed.

End Watchdog.

Section WatchdogReport.

Import JS Runtime Page.
Import Worker(Command(..), Event(..), ChatMessage).
Import PageSpec.

(** X26. While the one call of [generateSingleResponse] of a generation
    without comparison awaits its generation: every token event that
    does not trip the repetition guard cancels the armed timer and arms
    a new one 45 seconds from that moment; a timer fires only once due,
    then posts exactly one [abort] to the model's worker, sets
    [timedOut], and is spent; and when the generation then ends with
    [aborted] or [complete], the call reports 'Generation timed out -
    model stopped responding', the last thing shown in the task of that
    event.  A stop without a trip ends the call without an error, and
    an [error] event is reported with its own message (or 'Generation
    failed'), both different from the timeout message. *)
Theorem watchdog_timeout s p m w sv st :
  wf st ->
  supervised s p m w sv st ->
  (forall tok acc,
      Utils.isRepetitive acc = false ->
      let r := step (Message w (EToken tok acc)) st in
      timers r !! next_id st = Some (now st + TIMEOUT_MS, s) /\
      (forall t, timeoutId sv = Some t -> timers r !! t = None) /\
      supervised s p m w (set_timeoutId (Some (next_id st)) sv) r) /\
  (forall t d,
      timers st !! t = Some (d, s) ->
      let r := step (Timeout t) st in
      (d <= now st ->
       posted r = posted st ++ [(w, CAbort)] /\
       timers r !! t = None /\
       supervised s p m w (set_timedOut true sv) r /\
       step (Timeout t) r = r) /\
      (now st < d -> r = st)) /\
  (forall data,
      fulfils data = true -> timedOut sv = true ->
      let r := step (Message w data) st in
      status_of s r = Some (Failed timeout_message) /\
      last (ui r) = Some (UpdateMessageError s timeout_message)) /\
  (timedOut sv = false -> repetitionDetected sv = false ->
   status_of s (step (Message w EAborted) st) = Some Completed) /\
  (forall message,
      status_of s (step (Message w (EError message)) st)
      = Some (Failed (Worker.or_default message "Generation failed"))) /\
  timeout_message <> repetition_message /\
  timeout_message <> "Generation failed"%string.
Proof.
  intros Hwf Hsup.
  split; [intros tok acc Hrep; apply token_resets; assumption |].
  split; [intros t d Ht; apply watchdog_trips; assumption |].
  split; [| split; [| split; [| split; discriminate]]].
  - intros data Hf Hto r.
    assert (Hterm : Worker.is_terminal data = true)
      by (destruct data; try discriminate; reflexivity).
    assert (Hst : status_of s r = Some (Failed timeout_message)).
    { unfold r. rewrite (report s p m w sv st Hsup data Hterm), Hto.
      destruct data; try discriminate; reflexivity. }
    split; [exact Hst |].
    apply (report_shown s p m w sv st Hsup data _ Hterm Hst).
  - intros Hto Hrep.
    rewrite (report s p m w sv st Hsup EAborted eq_refl). simpl.
    rewrite Hto, Hrep. reflexivity.
  - intros message.
    rewrite (report s p m w sv st Hsup (EError message) eq_refl). reflexivity.
Qed.

Lemma watchdog_timeout_witness :
  supervised 4 5 "a" 3 tripped_call tripped /\
  status_of 4 (step (Message 3 EAborted) tripped) = Some (Failed timeout_message).
Proof.
  assert (Hsup : supervised 4 5 "a" 3 tripped_call tripped).
  { split; try (vm_compute; reflexivity).
    - exists 1%nat. vm_compute. reflexivity.
    - exists (Some 1%nat), (app tripped). vm_compute. reflexivity. }
  split; [exact Hsup |].
  assert (Hwf : wf tripped) by apply wf_run, wf_new_page.
  destruct (watchdog_timeout 4 5 "a" 3 tripped_call tripped Hwf Hsup)
    as (_ & _ & Hreport & _).
  apply (Hreport EAborted); reflexivity.
Defined.

(** C3. On this schedule the code does not do what the claim says: the
    model is loaded, a generation starts, no token arrives for 45
    seconds and the watchdog fires, sets [timedOut] and posts its
    [abort]; the worker then answers with an [error] event (the engine
    call failed before it streamed another token), and the call reports
    that error's message, not the timeout. *)
Lemma timeout_then_error :
  (timedOut <$> sups tripped !! 4%nat) = Some true /\
  last (posted tripped) = Some (3%nat, CAbort) /\
  status_of 4 (step (Message 3 (EError "boom")) tripped) = Some (Failed "boom") /\
  last (ui (step (Message 3 (EError "boom")) tripped))
  = Some (UpdateMessageError 4 "boom") /\
  "boom"%string <> timeout_message.
Proof.
  split; [vm_compute; reflexivity |].
  split; [vm_compute; reflexivity |].
  split; [vm_compute; reflexivity |].
  split; [vm_compute; reflexivity | discriminate].
Qed.

End WatchdogReport.

Section Scenarios.

Import JS Runtime Page.
Import Worker(Command(..), Event(..), ChatMessage).
Import PageSpec SystemSpec.

(** A single generation, from the request to the saved answer. *)
Example single_generation :
  let st := run [InitModel "m" None; Message 3 (EReady "m" None); GenerateResponse;
                 Message 3 (EToken (str "a") (str "a"));
                 Message 3 (EComplete (str "a") (Some "m"%string))]
                (new_page one_model) in
  orch st = Idle /\
  isGenerating (app st) = false /\
  status_of 4 st = Some Completed /\
  posted st = [(3%nat, app_command (app st))] /\
  ui st = [UpdateStreamingMessage 4 (str "a");
           SaveAndFinalize 4 (str "a") (Some "m"%string)].
Proof. vm_compute. repeat split; reflexivity. Qed.

(** Compare mode with the same model in both slots: the second request
    is posted only in the task that handles the first one's terminal
    event. *)
Example same_model_sequential :
  let st0 := run [InitModel "m" None; Message 3 (EReady "m" None)]
                 (new_page (new_app (Some "m"%string) (Some "m"%string) true [])) in
  let st1 := step GenerateResponse st0 in
  let st2 := step (Message 3 (EToken (str "a") (str "a"))) st1 in
  let st3 := step (Message 3 (EComplete (str "a") (Some "m"%string))) st2 in
  let st4 := step (Message 3 (EComplete (str "b") (Some "m"%string))) st3 in
  (orch st1, length (posted st1)) = (SeqFirst 4 5, 1%nat) /\
  (orch st2, length (posted st2)) = (SeqFirst 4 5, 1%nat) /\
  (orch st3, length (posted st3)) = (SeqSecond 4 5, 2%nat) /\
  (orch st4, isGenerating (app st4)) = (Idle, false) /\
  status_of 4 st4 = Some Completed /\ status_of 5 st4 = Some Completed.
Proof. vm_compute. repeat split; reflexivity. Qed.

(** Two models in parallel: the first call times out and fails, the
    second completes. *)
Example parallel_one_fails :
  let st1 := step GenerateResponse two_loaded in
  let st2 := run [Message 6 (EToken (str "b") (str "b")); Elapse 45000;
                  Timeout 10; Message 3 EAborted] st1 in
  let st3 := step (Message 6 (EComplete (str "b") (Some "b"%string))) st2 in
  status_of 7 st2 = Some (Failed timeout_message) /\
  status_of 8 st2 = Some (Awaiting 11) /\
  orch st2 = Parallel 7 8 /\
  sent_to 6 st2 = [app_command (app two_loaded)] /\
  status_of 8 st3 = Some Completed /\
  orch st3 = Idle.
Proof. vm_compute. repeat split; reflexivity. Qed.

Lemma generate_before_init_witness :
  let st := run [] (new_page one_model) in
  Manager.workers (mgr st) !! "m"%string = None /\
  let st' := step (Generate "m" [] no_options) st in
  settled st' !! next_id st = Some (Rejected ("Model " +:+ "m" +:+ " not initialized")) /\
  posted st' = posted st /\
  mgr st' = mgr st /\
  handlers st' = handlers st.
Proof.
  assert (Hnone : Manager.workers (mgr (run [] (new_page one_model))) !! "m"%string
                  = None) by reflexivity.
  split; [exact Hnone |].
  exact (proj2 (generate_before_init one_model [] "m" [] no_options Hnone)).
Defined.

Lemma initModel_idempotent_witness :
  let st := run [] (new_page one_model) in
  let p1 := next_id st in
  let w := S (S p1) in
  let st1 := step (InitModel "m" None) st in
  let p2 := next_id st1 in
  let i2 := S p2 in
  let st1' := run [Message 3 EWorkerReady] st1 in
  let st2 := step (InitModel "m" None) st1' in
  let st3 := run [Elapse 100; Interval 5] st2 in
  let st4 := step (Interval i2)
               (step (Message w (EReady "m" (Some "webgpu"%string))) st3) in
  settled st4 !! p1 = Some (Fulfilled VUndefined) /\
  settled st4 !! p2 = Some (Fulfilled VUndefined).
Proof.
  assert (Hr : "m"%string ∉ Manager.readyModels (mgr (run [] (new_page one_model))))
    by apply not_elem_of_empty.
  assert (Hl : "m"%string ∉ Manager.loadingModels (mgr (run [] (new_page one_model))))
    by apply not_elem_of_empty.
  assert (Hbefore : Forall (fun i => still_loading 3 5 i = true)
                           [Message 3 EWorkerReady])
    by (repeat constructor).
  assert (Hload : Forall (fun i => still_loading 3 5 i = true)
                         [Elapse 100; Interval 5])
    by (repeat constructor).
  destruct (initModel_idempotent one_model [] "m" None
              [Message 3 EWorkerReady] [Elapse 100; Interval 5]
              Hr Hl Hbefore Hload)
    as (_ & _ & Hready & _).
  exact (Hready "m"%string (Some "webgpu"%string)).
Defined.

(** C5. On this schedule the code does not do what the claim says: the
    second [initModel] creates no worker and polls; the load fails and
    the first call is rejected; a third call, made before the second
    one polls again, starts a second worker, and when that load
    succeeds the second call is resolved: it does not settle as the
    first call did, and two workers were created. *)
Theorem second_call_outlives_failure :
  let st2 := run (take 2 retried_load) (new_page one_model) in
  let st := run retried_load (new_page one_model) in
  (handlers st2 !! 3%nat = Some ("m"%string, 1%nat) /\
   intervals st2 !! 5%nat = Some ("m"%string, 4%nat) /\
   size (handlers st2) = 1%nat /\
   settled st2 !! 1%nat = None /\ settled st2 !! 4%nat = None) /\
  settled st !! 1%nat = Some (Rejected "boom") /\
  settled st !! 4%nat = Some (Fulfilled VUndefined) /\
  handlers st !! 3%nat = Some ("m"%string, 1%nat) /\
  handlers st !! 9%nat = Some ("m"%string, 7%nat) /\
  posted st = [(3%nat, CInit "m"); (9%nat, CInit "m")].
Proof.
  cbv zeta.
  split; [repeat split; vm_compute; reflexivity |].
  split; [vm_compute; reflexivity |].
  split; [vm_compute; reflexivity |].
  split; [vm_compute; reflexivity |].
  split; vm_compute; reflexivity.
Qed.

End Scenarios.

Section BusyGenerate.

Import JS Runtime System.
Import Worker(Command(..), Event(..), ChatMessage).
Import PageSpec SystemSpec.

(** C1. On this schedule the code does not do what the claim says: the
    second [generate] posts its command and takes over the callbacks of
    the model; the worker's answer 'Already generating' rejects the
    second promise, but every event of the first generation, its
    [complete] included, goes to the second caller's callbacks, the
    first caller's are never called, and the first promise is never
    settled. *)
Theorem busy_generate_takes_over :
  Page.posted (page busy_run)
  = [(3%nat, CInit "m");
     (3%nat, CGenerate {| Worker.messages := []; Worker.temperature := (7 # 10)%Q;
                          Worker.maxTokens := 512; Worker.systemPrompt := None |});
     (3%nat, CGenerate {| Worker.messages := []; Worker.temperature := (7 # 10)%Q;
                          Worker.maxTokens := 512; Worker.systemPrompt := None |})] /\
  observed busy_run
  = [(3%nat, EWorkerReady);
     (3%nat, EStatus "loading" "Loading AI library...");
     (3%nat, EStatus "loading" "Downloading model (wasm)...");
     (3%nat, EReady "m" (Some "wasm"%string));
     (3%nat, EGenerating);
     (3%nat, EToken (str "a") (str "a"));
     (3%nat, EError "Already generating");
     (3%nat, EToken (str "b") (str "ab"));
     (3%nat, EComplete (str "ab") (Some "m"%string))] /\
  Page.probed (page busy_run)
  = [(22%nat, AGenerating);
     (21%nat, AToken (str "a") (str "a"));
     (25%nat, AError "Already generating");
     (21%nat, AToken (str "b") (str "ab"));
     (23%nat, AComplete (str "ab") (Some "m"%string))] /\
  Page.settled (page busy_run) !! 4%nat = None /\
  Page.settled (page busy_run) !! 5%nat = Some (Rejected "Already generating").
Proof. vm_compute. repeat split; reflexivity. Qed.

End BusyGenerate.

Section WorkerInvariants.

Import JS Worker.
Import WorkerSpec.

Ltac worker_cases :=
  unfold step, onmessage, initModel, generate, step_task, finally_generate,
    spawn, set_task, end_task in *;
  repeat case_match; simplify_eq/=.

(** While [isGenerating] is set an engine call is pending. *)
Lemma step_flag_task (i : Input) (st : State) :
  tasks_below st ->
  (isGenerating st = true ->
   exists tid c f, tasks st !! tid = Some (TGenerate c f)) ->
  isGenerating (step i st).1 = true ->
  exists tid c f, tasks (step i st).1 !! tid = Some (TGenerate c f).
Proof.
  intros Hbelow Hflag.
  assert (Hfresh : forall tid t, tasks st !! tid = Some t -> tid <> next_task st).
  { intros tid t Ht ->. apply Hbelow in Ht. lia. }
  destruct i as [cmd | tid a].
  - destruct cmd; worker_cases; intros Hgen;
      first [ eexists _, _, _; apply lookup_insert_eq
            | destruct Hflag as (t & c & f & Ht);
              [first [reflexivity | assumption | congruence] |];
              exists t, c, f;
              first [ assumption
                    | rewrite lookup_insert_ne by (intros <-; eapply Hfresh; eauto);
                      assumption ] ].
  - unfold step, step_task.
    destruct (tasks st !! tid) as [t |] eqn:Htid; [| simpl; exact Hflag].
    destruct t as [m | m | m d | c f], a; simpl; try exact Hflag;
      repeat case_match; simpl; try discriminate;
      intros Hgen; try (exists tid; eexists _, _; apply lookup_insert_eq);
      destruct (Hflag Hgen) as (t & c' & f' & Ht);
      assert (t <> tid) by congruence;
      exists t, c', f';
      rewrite ?lookup_insert_ne, ?lookup_delete_ne by congruence; assumption.
Qed.

(** [generator] and [currentModel] are set and cleared together. *)
Lemma step_generator_model (i : Input) (st : State) :
  generator st = currentModel st ->
  generator (step i st).1 = currentModel (step i st).1.
Proof. intros H. worker_cases; congruence. Qed.

(** X1. In every state the worker reaches from its start, whatever it
    receives and whatever the engine does: [isGenerating] is set exactly
    while an engine call is pending, there is never more than one
    pending engine call, and [generator] holds a pipeline exactly when
    [currentModel] names its model. *)
Theorem worker_invariants (ins : list Input) :
  let st := final ins init_state in
  (isGenerating st = true <->
   exists tid c f, tasks st !! tid = Some (TGenerate c f)) /\
  (forall t1 t2 c1 f1 c2 f2,
      tasks st !! t1 = Some (TGenerate c1 f1) ->
      tasks st !! t2 = Some (TGenerate c2 f2) -> t1 = t2) /\
  generator st = currentModel st.
Proof.
  cbv zeta.
  assert (H : (isGenerating (final ins init_state) = true ->
               exists tid c f,
                 tasks (final ins init_state) !! tid = Some (TGenerate c f)) /\
              generator (final ins init_state)
              = currentModel (final ins init_state)).
  { induction ins as [|i ins [IH1 IH2]] using rev_ind.
    - split; [discriminate | reflexivity].
    - rewrite final_app, final_cons. change (final [] ?s) with s.
      split; [| apply step_generator_model; exact IH2].
      apply step_flag_task; [apply reachable_invariants | exact IH1]. }
  destruct H as [Hflag Hmodel].
  destruct (reachable_invariants ins) as [[Hgen Huniq] _].
  split; [split; [exact Hflag |] |].
  - intros (tid & c & f & Ht). eapply Hgen. exact Ht.
  - split; [exact Huniq | exact Hmodel].
Qed.

End WorkerInvariants.

Section WorkerAbort.

Import JS Worker.
Import WorkerSpec.

Ltac worker_cases :=
  unfold step, onmessage, initModel, generate, step_task, finally_generate,
    spawn, set_task, end_task in *;
  repeat case_match; simplify_eq/=.

Lemma aborting_other (tid : nat) (i : Input) (st : State) :
  aborting tid st ->
  (forall a, i <> Step tid a) ->
  aborting tid (step i st).1.
Proof.
  intros (Hab & (c & f & Ht) & Hone & Hbelow) Hother.
  split; [| split; [| split]].
  - pose proof (proj1 Hone _ _ _ Ht) as Hgen.
    destruct i as [cmd | t a].
    + destruct cmd; worker_cases; congruence.
    + assert (t <> tid) by (intros ->; eapply Hother; reflexivity).
      unfold step, step_task.
      destruct (tasks st !! t) as [x |] eqn:Hx; [| exact Hab].
      destruct x as [m | m | m d | c' f'];
        [| | | exfalso; pose proof (proj2 Hone _ _ _ _ _ _ Hx Ht); congruence];
        destruct a; simpl; repeat case_match; simpl; exact Hab.
  - exists c, f.
    destruct (step_live tid c f i st Ht) as [(Hs & _) | [(t & -> & _) | (a & e & -> & _)]].
    + apply Hbelow in Ht. exact Ht.
    + exact Hs.
    + exfalso. eapply Hother. reflexivity.
    + exfalso. eapply Hother. reflexivity.
  - apply step_one_generation; assumption.
  - apply step_tasks_below; assumption.
Qed.

Lemma aborting_move (tid : nat) (a : Act) (st : State) :
  aborting tid st ->
  (aborting tid (step (Step tid a) st).1 /\ (step (Step tid a) st).2 = []) \/
  (ended tid (step (Step tid a) st).1 /\
   exists e, (step (Step tid a) st).2 = [e] /\ is_terminal e = true /\
             ((exists t, a = Token t) -> e = EAborted)).
Proof.
  intros (Hab & (c & f & Ht) & Hone & Hbelow).
  pose proof (Hbelow _ _ Ht) as Hlt.
  unfold step, step_task. rewrite Ht, Hab.
  assert (Hend : forall st', tasks st' = delete tid (tasks st) ->
                             next_task st' = next_task st -> ended tid st').
  { intros st' Hst' Hn. split; [rewrite Hst'; apply lookup_delete_eq | lia]. }
  destruct a; simpl;
    try (left; split; [| reflexivity];
         split; [exact Hab | split; [eauto | split; assumption]]).
  - right. split; [apply Hend; reflexivity |].
    exists EAborted. auto.
  - right. split; [apply Hend; reflexivity |].
    eexists. split; [reflexivity |]. split; [reflexivity |].
    intros [t [=]].
  - right. split; [apply Hend; reflexivity |].
    unfold catch_generate. case_bool_decide; eexists;
      (split; [reflexivity |]); (split; [reflexivity |]); intros [t [=]].
Qed.

Lemma aborting_run (tid : nat) (ins : list Input) :
  forall st, aborting tid st ->
    (events_of tid (trace ins st) = [] \/
     exists e, events_of tid (trace ins st) = [e] /\ is_terminal e = true) /\
    (forall pre t rest,
        ins = pre ++ Step tid (Token t) :: rest ->
        before_move tid pre ->
        events_of tid (trace ins st) = [EAborted]).
Proof.
  induction ins as [|i ins IH]; intros st Hab.
  - split; [left; reflexivity |].
    intros pre t rest Heq. destruct pre; discriminate.
  - rewrite trace_cons. cbn [events_of].
    destruct i as [cmd | t a].
    + destruct (IH _ (aborting_other tid (Recv cmd) st Hab ltac:(discriminate)))
        as [IH1 IH2].
      split; [exact IH1 |].
      intros pre t rest Heq Hpre.
      destruct pre as [|i0 pre]; [discriminate |].
      injection Heq as <- Heq. apply Forall_cons in Hpre as [_ Hpre].
      eapply IH2; eassumption.
    + case_bool_decide as Heqt.
      * subst t.
        destruct (aborting_move tid a st Hab)
          as [[Hnext Hev] | (Hend & e & Hev & Hterm & Htok)].
        -- rewrite Hev. simpl. destruct (IH _ Hnext) as [IH1 IH2].
           split; [exact IH1 |].
           intros pre t rest Heq Hpre.
           destruct pre as [|i0 pre].
           ++ injection Heq as -> _.
              unfold step, step_task in Hnext.
              destruct Hab as (Hflag & (c & f & Ht) & _).
              destruct Hnext as (_ & _ & _ & _).
              exfalso. revert Hev. unfold step, step_task.
              rewrite Ht, Hflag. discriminate.
           ++ injection Heq as <- Heq. apply Forall_cons in Hpre as [Hno _].
              exfalso. eapply Hno. reflexivity.
        -- rewrite Hev. destruct (ended_run tid ins _ Hend) as [-> _].
           split; [right; eauto |].
           intros pre t rest Heq Hpre.
           destruct pre as [|i0 pre].
           ++ injection Heq as -> _. rewrite Htok by eauto. reflexivity.
           ++ injection Heq as <- Heq. apply Forall_cons in Hpre as [Hno _].
              exfalso. eapply Hno. reflexivity.
      * assert (Hother : forall a0, Step t a <> Step tid a0) by congruence.
        destruct (IH _ (aborting_other tid (Step t a) st Hab Hother))
          as [IH1 IH2].
        split; [exact IH1 |].
        intros pre t0 rest Heq Hpre.
        destruct pre as [|i0 pre]; [simpl in Heq; congruence |].
        injection Heq as <- Heq. apply Forall_cons in Hpre as [_ Hpre].
        eapply IH2; eassumption.
Qed.

(** X2. Once the worker has taken an [abort] while a generation runs,
    that generation sends no [token] event any more: all it still sends
    is one terminal event, and this is [aborted] if the engine streams
    another token before its call settles. *)
Theorem abort_stops_tokens (ins0 : list Input) (tid : nat) (c : EngineCall)
        (f : jsstring) (ins : list Input) :
  let st := final ins0 init_state in
  tasks st !! tid = Some (TGenerate c f) ->
  let evs := events_of tid (trace ins (step (Recv CAbort) st).1) in
  (evs = [] \/ exists e, evs = [e] /\ is_terminal e = true) /\
  Forall (fun e => is_token e = false) evs /\
  (forall pre t rest,
      ins = pre ++ Step tid (Token t) :: rest ->
      before_move tid pre ->
      evs = [EAborted]).
Proof.
  intros st Ht evs.
  destruct (reachable_invariants ins0) as [Hone Hbelow]. fold st in Hone, Hbelow.
  assert (Hab : aborting tid (step (Recv CAbort) st).1).
  { simpl. split; [reflexivity |]. split; [eauto |]. split; [| exact Hbelow].
    exact Hone. }
  destruct (aborting_run tid ins _ Hab) as [Hev Hfirst].
  fold evs in Hev, Hfirst.
  split; [exact Hev |]. split; [| exact Hfirst].
  destruct Hev as [-> | (e & -> & He)]; [constructor |].
  constructor; [| constructor]. destruct e; try discriminate; reflexivity.
Qed.

Lemma abort_stops_tokens_witness :
  let st := final [Recv (CInit "m"); Step 0 LibLoaded; Step 0 (Probed false);
                   Step 0 ModelLoaded; Recv (CGenerate hello);
                   Step 1 (Token (str "Hi"))] init_state in
  let evs := events_of 1 (trace [Step 1 (Token (str "!")); Step 1 (Return None)]
                                (step (Recv CAbort) st).1) in
  (evs = [] \/ exists e, evs = [e] /\ is_terminal e = true) /\
  Forall (fun e => is_token e = false) evs /\
  (forall pre t rest,
      [Step 1 (Token (str "!")); Step 1 (Return None)]
      = pre ++ Step 1 (Token t) :: rest ->
      before_move 1 pre ->
      evs = [EAborted]).
Proof.
  apply (abort_stops_tokens
           [Recv (CInit "m"); Step 0 LibLoaded; Step 0 (Probed false);
            Step 0 ModelLoaded; Recv (CGenerate hello);
            Step 1 (Token (str "Hi"))] 1
           (engine_call hello) (str "Hi")).
  reflexivity.
Defined.

End WorkerAbort.

Section WorkerLoad.

Import JS Worker.
Import WorkerSpec.

Ltac load_cases :=
  unfold step, onmessage, initModel, generate, step_task, finally_generate,
    spawn, set_task, end_task in *;
  repeat case_match; simplify_eq/=.

Ltac same_task :=
  first
    [ assumption
    | lia
    | rewrite lookup_insert_ne by (first [lia | congruence]); assumption
    | rewrite lookup_delete_ne by (first [lia | congruence]); assumption ].

(** One step of the worker, seen from a load of model [m]. *)
Lemma load_step (tid : nat) (m : string) (t : Task) (i : Input) (st : State) :
  tasks st !! tid = Some t -> loads m t = true ->
  (tid < next_task st)%nat ->
  (exists t', tasks (step i st).1 !! tid = Some t' /\ loads m t' = true /\
              (tid < next_task (step i st).1)%nat /\
              (forall a, i = Step tid a ->
                         Forall (fun e => is_progress e = true) (step i st).2))
  \/ (exists a e, i = Step tid a /\ ended tid (step i st).1 /\
                 (step i st).2 = [e] /\ answers_init m e = true).
Proof.
  intros Ht Hm Hlt.
  destruct i as [cmd | t0 a].
  - left. exists t. split; [| split; [exact Hm | split; [| intros a [=]]]].
    + load_cases; same_task.
    + pose proof (step_next_task (Recv cmd) st). lia.
  - destruct (decide (t0 = tid)) as [-> | Hne].
    + unfold step, step_task, ended. rewrite Ht.
      destruct t as [m' | m' | m' d | c f]; simpl in Hm; [| | | discriminate];
        apply bool_decide_eq_true in Hm; subst m';
        destruct a; cbv zeta; simpl;
        try (left; eexists; split; [exact Ht |];
             split; [simpl; apply bool_decide_eq_true_2; reflexivity |];
             split; [exact Hlt |]; intros ? _; repeat constructor).
      * case_match; simpl.
        -- right. eexists _, _. split; [reflexivity |].
           rewrite lookup_delete_eq. split; [auto |]. split; [reflexivity |].
           simpl. apply bool_decide_eq_true_2. reflexivity.
        -- left. eexists. rewrite lookup_insert_eq. split; [reflexivity |].
           split; [simpl; apply bool_decide_eq_true_2; reflexivity |].
           split; [exact Hlt |]. intros ? _. constructor.
      * right. eexists _, _. split; [reflexivity |].
        rewrite lookup_delete_eq. split; [auto |]. split; reflexivity.
      * left. eexists. rewrite lookup_insert_eq. split; [reflexivity |].
        split; [simpl; apply bool_decide_eq_true_2; reflexivity |].
        split; [exact Hlt |]. intros ? _. repeat constructor.
      * right. eexists _, _. split; [reflexivity |].
        rewrite lookup_delete_eq. split; [auto |]. split; [reflexivity |].
        simpl. apply bool_decide_eq_true_2. reflexivity.
      * right. eexists _, _. split; [reflexivity |].
        rewrite lookup_delete_eq. split; [auto |]. split; reflexivity.
    + left. exists t. split; [| split; [exact Hm | split; [| intros ? [= ?]; congruence]]].
      * load_cases; same_task.
      * pose proof (step_next_task (Step t0 a) st). lia.
Qed.

Lemma load_run (tid : nat) (m : string) (ins : list Input) :
  forall (t : Task) (st : State),
    tasks st !! tid = Some t -> loads m t = true ->
    (tid < next_task st)%nat ->
    exists (progress term : list Event),
      events_of tid (trace ins st) = progress ++ term /\
      Forall (fun e => is_progress e = true) progress /\
      ((term = [] /\ is_Some (tasks (final ins st) !! tid)) \/
       (exists e, term = [e] /\ answers_init m e = true /\
                  ended tid (final ins st))).
Proof.
  induction ins as [|i ins IH]; intros t st Ht Hm Hlt.
  - exists [], []. split; [reflexivity |]. split; [constructor |].
    left. split; [reflexivity |]. unfold final. simpl. rewrite Ht. eauto.
  - rewrite trace_cons, final_cons.
    destruct (load_step tid m t i st Ht Hm Hlt)
      as [(t' & Ht' & Hm' & Hlt' & Hev) | (a & e & -> & Hend & Hev & Hans)].
    + destruct (IH t' _ Ht' Hm' Hlt') as (progress & term & Heq & Hprog & Hcases).
      cbn [events_of]. destruct i as [cmd | t0 a].
      * exists progress, term. auto.
      * case_bool_decide as Heqt.
        -- subst t0. exists ((step (Step tid a) st).2 ++ progress), term.
           rewrite Heq, app_assoc. split; [reflexivity |].
           split; [| exact Hcases].
           apply Forall_app. split; [apply (Hev a eq_refl) | exact Hprog].
        -- exists progress, term. auto.
    + destruct (ended_run tid ins _ Hend) as [Hnil Hfin].
      exists [], [e]. cbn [events_of].
      rewrite bool_decide_eq_true_2 by reflexivity.
      rewrite Hev, Hnil. split; [reflexivity |]. split; [constructor |].
      right. eauto.
Qed.

(** X3. Every [init] command the worker takes is answered at most once:
    the load it starts sends [status] and [progress] events and then, as
    its last event, either [ready] for that model or [error]; until then
    the load is still pending. *)
Theorem one_answer_per_init (ins0 : list Input) (m : string) (ins : list Input) :
  let st := final ins0 init_state in
  let tid := next_task st in
  let started := (step (Recv (CInit m)) st).1 in
  exists (progress term : list Event),
    events_of tid (trace ins started) = progress ++ term /\
    Forall (fun e => is_progress e = true) progress /\
    ((term = [] /\ is_Some (tasks (final ins started) !! tid)) \/
     (exists e, term = [e] /\ answers_init m e = true /\
                ended tid (final ins started))).
Proof.
  intros st tid started.
  apply (load_run tid m ins (TLoadLib m)).
  - unfold started, tid. simpl. apply lookup_insert_eq.
  - simpl. apply bool_decide_eq_true_2. reflexivity.
  - unfold started, tid. simpl. lia.
Qed.

End WorkerLoad.

Section UnloadAll.

Import JS Runtime.
Import Worker(Command(..), Event(..), ChatMessage).

Lemma unload_list (l : list (string * nat)) :
  forall (st : Manager.State) (e : list Manager.Effect),
    NoDup l.*1 ->
    (forall k w, (k, w) ∈ l -> Manager.workers st !! k = Some w) ->
    let r := foldl (fun acc kw =>
                      let '(st1, effs) := Manager.unloadModel kw.1 acc.1 in
                      (st1, acc.2 ++ effs)) (st, e) l in
    (forall k, Manager.workers r.1 !! k
               = if decide (k ∈ l.*1) then None else Manager.workers st !! k) /\
    Manager.readyModels r.1 = Manager.readyModels st ∖ list_to_set l.*1 /\
    Manager.loadingModels r.1 = Manager.loadingModels st /\
    (forall k, Manager.callbacks r.1 !! k
               = if decide (k ∈ l.*1) then None else Manager.callbacks st !! k) /\
    r.2 = e ++ concat (map (fun kw => [Manager.Post kw.2 CUnload;
                                       Manager.Terminate kw.2]) l).
Proof.
  induction l as [|[k w] l IH]; intros st e Hnd Hin; cbv zeta.
  - cbn [foldl fst snd map concat].
    split; [intros k; case_decide as Hk; [set_solver | reflexivity] |].
    split; [set_solver |]. split; [reflexivity |].
    split; [intros k; case_decide as Hk; [set_solver | reflexivity] |].
    rewrite app_nil_r. reflexivity.
  - simpl in Hnd. apply NoDup_cons in Hnd as [Hk Hnd].
    set (st1 := (Manager.unloadModel k st).1).
    assert (Hst1 : Manager.unloadModel k st
                   = (st1, [Manager.Post w CUnload; Manager.Terminate w])).
    { unfold st1, Manager.unloadModel. rewrite (Hin k w) by left. reflexivity. }
    cbn [foldl fst snd]. rewrite Hst1.
    assert (Hw1 : Manager.workers st1 = delete k (Manager.workers st)).
    { unfold st1, Manager.unloadModel. rewrite (Hin k w) by left. reflexivity. }
    assert (Hr1 : Manager.readyModels st1 = Manager.readyModels st ∖ {[k]}).
    { unfold st1, Manager.unloadModel. rewrite (Hin k w) by left. reflexivity. }
    assert (Hl1 : Manager.loadingModels st1 = Manager.loadingModels st).
    { unfold st1, Manager.unloadModel. rewrite (Hin k w) by left. reflexivity. }
    assert (Hc1 : Manager.callbacks st1 = delete k (Manager.callbacks st)).
    { unfold st1, Manager.unloadModel. rewrite (Hin k w) by left. reflexivity. }
    clearbody st1.
    destruct (IH st1 (e ++ [Manager.Post w CUnload; Manager.Terminate w]) Hnd)
      as (Hw & Hr & Hl & Hc & He).
    { intros k' w' Hin'. rewrite Hw1.
      rewrite lookup_delete_ne.
      - apply Hin. right. exact Hin'.
      - intros <-. apply Hk. apply list_elem_of_fmap. exists (k, w'). auto. }
    assert (Hcons : forall k', k' ∈ ((k, w) :: l).*1 <-> k' = k \/ k' ∈ l.*1).
    { intros k'. rewrite fmap_cons. apply elem_of_cons. }
    split; [| split; [| split; [| split]]].
    + intros k'. rewrite Hw, Hw1.
      destruct (decide (k' = k)) as [-> | Hne].
      * rewrite lookup_delete_eq.
        repeat case_decide; try reflexivity; exfalso; rewrite Hcons in *; tauto.
      * rewrite lookup_delete_ne by congruence.
        repeat case_decide; try reflexivity; exfalso; rewrite Hcons in *; tauto.
    + rewrite Hr, Hr1.
      apply set_eq. intros k'.
      rewrite !elem_of_difference, !elem_of_list_to_set, Hcons, elem_of_singleton.
      tauto.
    + rewrite Hl, Hl1. reflexivity.
    + intros k'. rewrite Hc, Hc1.
      destruct (decide (k' = k)) as [-> | Hne].
      * rewrite lookup_delete_eq.
        repeat case_decide; try reflexivity; exfalso; rewrite Hcons in *; tauto.
      * rewrite lookup_delete_ne by congruence.
        repeat case_decide; try reflexivity; exfalso; rewrite Hcons in *; tauto.
    + rewrite He. cbn [map concat snd]. rewrite <- app_assoc. reflexivity.
Qed.

Lemma unloadAll_registry (st : Manager.State) :
  let r := Manager.unloadAll st in
  Manager.workers r.1 = ∅ /\
  Manager.readyModels r.1
  = Manager.readyModels st ∖ dom (Manager.workers st) /\
  Manager.loadingModels r.1 = Manager.loadingModels st /\
  (forall m, Manager.callbacks r.1 !! m
             = if decide (m ∈ dom (Manager.workers st)) then None
               else Manager.callbacks st !! m).
Proof.
  cbv zeta. unfold Manager.unloadAll.
  destruct (unload_list (map_to_list (Manager.workers st)) st [])
    as (Hw & Hr & Hl & Hc & _).
  { apply NoDup_fst_map_to_list. }
  { intros k w Hin. apply elem_of_map_to_list in Hin. exact Hin. }
  assert (Hdom : forall k, k ∈ (map_to_list (Manager.workers st)).*1
                           <-> k ∈ dom (Manager.workers st)).
  { intros k. rewrite elem_of_dom, list_elem_of_fmap. split.
    - intros ([k' w] & -> & Hin). apply elem_of_map_to_list in Hin. eauto.
    - intros [w Hk]. exists (k, w). split; [reflexivity |].
      apply elem_of_map_to_list. exact Hk. }
  split; [| split; [| split]].
  - apply map_eq. intros k. rewrite Hw, lookup_empty.
    case_decide as Hk; [reflexivity |].
    apply not_elem_of_dom. rewrite <- Hdom. exact Hk.
  - rewrite Hr. apply set_eq. intros k.
    rewrite !elem_of_difference, elem_of_list_to_set, Hdom. reflexivity.
  - exact Hl.
  - intros m. rewrite Hc.
    repeat case_decide; try reflexivity; exfalso; rewrite Hdom in *; tauto.
Qed.

Lemma registry_eq (a b : Manager.State) :
  Manager.workers a = Manager.workers b ->
  Manager.readyModels a = Manager.readyModels b ->
  Manager.loadingModels a = Manager.loadingModels b ->
  Manager.callbacks a = Manager.callbacks b ->
  a = b.
Proof. destruct a, b. simpl. intros -> -> -> ->. reflexivity. Qed.

(** X4. Whatever the order in which the Map [this.workers] lists its
    keys, [unloadAll()] posts [unload] to every registered worker and
    then terminates it, worker after worker in that order and once
    each; afterwards no worker is registered, no model that had a worker
    is ready, and the callbacks of those models are gone.  It leaves
    [loadingModels] as it is: a model unloaded while it loads is still
    held as loading.  The registry it leaves does not depend on the
    order. *)
Theorem unloadAll_clears (st : Manager.State) (keys : list string) :
  PageSpec.lists_workers keys st ->
  let r := PageSpec.unloadAll_in keys st in
  Manager.workers r.1 = ∅ /\
  Manager.readyModels r.1
  = Manager.readyModels st ∖ dom (Manager.workers st) /\
  Manager.loadingModels r.1 = Manager.loadingModels st /\
  (forall m, Manager.callbacks r.1 !! m
             = if decide (m ∈ dom (Manager.workers st)) then None
               else Manager.callbacks st !! m) /\
  r.2 = concat (map (fun k => match Manager.workers st !! k with
                              | Some w => [Manager.Post w CUnload;
                                           Manager.Terminate w]
                              | None => []
                              end) keys) /\
  r.1 = (Manager.unloadAll st).1.
Proof.
  intros [Hnd Hkeys]. cbv zeta.
  set (l := map (fun k => (k, default O (Manager.workers st !! k))) keys).
  assert (Hfst : l.*1 = keys).
  { unfold l. clear. induction keys as [|k keys IH]; [reflexivity |].
    cbn [map fmap list_fmap fst]. f_equal. exact IH. }
  assert (Hfold : PageSpec.unloadAll_in keys st
                  = foldl (fun acc kw =>
                             let '(st1, effs) := Manager.unloadModel kw.1 acc.1 in
                             (st1, acc.2 ++ effs)) (st, []) l).
  { unfold PageSpec.unloadAll_in, l. generalize (st, @nil Manager.Effect).
    clear. induction keys as [|k keys IH]; intros acc; [reflexivity |].
    cbn [map foldl fst]. apply IH. }
  destruct (unload_list l st []) as (Hw & Hr & Hl & Hc & He).
  { rewrite Hfst. exact Hnd. }
  { intros k w Hin. unfold l in Hin.
    apply list_elem_of_fmap in Hin as (k' & [= -> ->] & Hk').
    apply Hkeys in Hk' as [w Hw]. rewrite Hw. reflexivity. }
  rewrite <- Hfold in Hw, Hr, Hl, Hc, He. rewrite Hfst in Hw, Hr, Hc.
  assert (Hdom : forall k, k ∈ keys <-> k ∈ dom (Manager.workers st)).
  { intros k. rewrite Hkeys, elem_of_dom. reflexivity. }
  assert (H1 : Manager.workers (PageSpec.unloadAll_in keys st).1 = ∅).
  { apply map_eq. intros k. rewrite Hw, lookup_empty.
    case_decide as Hk; [reflexivity |].
    apply not_elem_of_dom. rewrite <- Hdom. exact Hk. }
  assert (H2 : Manager.readyModels (PageSpec.unloadAll_in keys st).1
               = Manager.readyModels st ∖ dom (Manager.workers st)).
  { rewrite Hr. apply set_eq. intros k.
    rewrite !elem_of_difference, elem_of_list_to_set, Hdom. reflexivity. }
  assert (H4 : forall m, Manager.callbacks (PageSpec.unloadAll_in keys st).1 !! m
                         = if decide (m ∈ dom (Manager.workers st)) then None
                           else Manager.callbacks st !! m).
  { intros m. rewrite Hc.
    repeat case_decide; try reflexivity; exfalso; rewrite Hdom in *; tauto. }
  split; [exact H1 |]. split; [exact H2 |]. split; [exact Hl |].
  split; [exact H4 |]. split.
  - rewrite He. cbn [app]. f_equal. unfold l. rewrite map_map.
    apply map_ext_in. intros k Hk. cbn [snd].
    apply list_elem_of_In, Hkeys in Hk as [w Hk]. rewrite Hk. reflexivity.
  - destruct (unloadAll_registry st) as (G1 & G2 & G3 & G4).
    apply registry_eq.
    + rewrite H1, G1. reflexivity.
    + rewrite H2, G2. reflexivity.
    + rewrite Hl, G3. reflexivity.
    + apply map_eq. intros m. rewrite H4, G4. reflexivity.
Qed.

Lemma unloadAll_clears_witness :
  PageSpec.lists_workers ["b"; "a"]%string PageSpec.two_workers /\
  (PageSpec.unloadAll_in ["b"; "a"]%string PageSpec.two_workers).2
  = [Manager.Post 3 CUnload; Manager.Terminate 3;
     Manager.Post 6 CUnload; Manager.Terminate 6].
Proof.
  assert (Hl : PageSpec.lists_workers ["b"; "a"]%string PageSpec.two_workers).
  { split.
    - apply (bool_decide_unpack _). vm_compute. reflexivity.
    - intros k. unfold PageSpec.two_workers. cbn [Manager.workers]. split.
      + intros Hk. apply elem_of_cons in Hk as [-> | Hk]; [vm_compute; eauto |].
        apply list_elem_of_singleton in Hk as ->. vm_compute. eauto.
      + intros [w Hk].
        apply lookup_insert_Some in Hk as [[<- _] | [_ Hk]]; [right; left |].
        apply lookup_insert_Some in Hk as [[<- _] | [_ Hk]]; [left |].
        rewrite lookup_empty in Hk. discriminate. }
  split; [exact Hl |].
  destruct (unloadAll_clears PageSpec.two_workers ["b"; "a"]%string Hl)
    as (_ & _ & _ & _ & He & _).
  exact He.
Defined.

End UnloadAll.

Section AppFrame.

Import JS Runtime Page.
Import Worker(Command(..), Event(..), ChatMessage).
Import PageSpec.

Lemma app_frame_refl st : app_frame st st.
Proof. split; auto. Qed.

Lemma app_frame_trans a b c : app_frame a b -> app_frame b c -> app_frame a c.
Proof.
  intros [] []. split; try congruence; [lia |].
  intros p Hp Hf. apply af_forgotten1; [lia |]. apply af_forgotten0; assumption.
Qed.

Lemma app_frame_fields st st' :
  mgr st' = mgr st -> handlers st' = handlers st ->
  intervals st' = intervals st -> settled st' = settled st ->
  (next_id st <= next_id st')%nat ->
  app_frame st st'.
Proof.
  intros Hm Hh Hi Hs Hn. split; rewrite ?Hm; auto.
Qed.

Lemma app_frame_sup_local st st' :
  sup_local st st' -> (next_id st <= next_id st')%nat -> app_frame st st'.
Proof. intros [] Hn. apply app_frame_fields; assumption. Qed.

Lemma app_frame_resumed st st' :
  resumed st st' -> (next_id st <= next_id st')%nat -> app_frame st st'.
Proof. intros [] Hn. apply app_frame_fields; assumption. Qed.

Lemma app_frame_sup_catch s msg st : app_frame st (sup_catch s msg st).
Proof.
  apply app_frame_resumed; [apply resumed_sup_catch |].
  rewrite next_id_sup_catch. lia.
Qed.

Lemma app_frame_sup_resume s o st : app_frame st (sup_resume s o st).
Proof.
  apply app_frame_resumed; [apply resumed_sup_resume |].
  rewrite next_id_sup_resume. lia.
Qed.

Lemma app_frame_manager_abort m st : app_frame st (manager_abort m st).
Proof.
  apply app_frame_sup_local; [apply sup_local_manager_abort |].
  rewrite next_id_manager_abort. lia.
Qed.

(** The two ways [generate] can go. *)
Lemma generate_cases m msgs o p mg :
  (exists msg, Manager.generate m msgs o p mg = (mg, Settled (Rejected msg), []))
  \/ (exists w c,
        Manager.generate m msgs o p mg
        = (Manager.set_callbacks
             (<[m := {| Manager.resolve_reject :=
                          Manager.resolve_reject
                            (default Manager.no_callbacks
                                     (Manager.callbacks mg !! m));
                        Manager.generation := Some (o, p) |}]>
                (Manager.callbacks mg)) mg,
           Waits p, [Manager.Post w c])).
Proof.
  unfold Manager.generate. repeat case_match; eauto.
Qed.

Lemma forgotten_generate q m msgs o p mg :
  p <> q -> forgotten q mg -> forgotten q (Manager.generate m msgs o p mg).1.1.
Proof.
  intros Hne Hf.
  destruct (generate_cases m msgs o p mg) as [[msg ->] | (w & c & ->)];
    [exact Hf |].
  intros m' cb. simpl. intros Hl.
  apply lookup_insert_Some in Hl as [[<- <-] | [_ Hl]]; [| eapply Hf, Hl].
  simpl. split; [| intros o' q' [= <- <-]; exact Hne].
  destruct (Manager.callbacks mg !! m) as [cb |] eqn:Hcb; simpl; [| discriminate].
  apply (Hf _ _ Hcb).
Qed.

Lemma app_frame_sup_start s model st : app_frame st (sup_start s model st).
Proof.
  unfold sup_start.
  set (st1 := upd_sups _ (bump st)).
  assert (H2 : app_frame st (resetTimeout s st1)).
  { eapply app_frame_trans with st1.
    - apply app_frame_fields; simpl; auto.
    - apply app_frame_sup_local; [apply sup_local_resetTimeout |].
      rewrite next_id_resetTimeout. lia. }
  assert (Hn2 : next_id (resetTimeout s st1) = S (S (next_id st))).
  { rewrite next_id_resetTimeout. reflexivity. }
  destruct model as [m |];
    [| eapply app_frame_trans; [exact H2 | apply app_frame_sup_catch]].
  set (st2 := resetTimeout s st1) in *. clearbody st2.
  destruct (generate_cases m (chatHistory (app st2)) (sup_options s (app st2))
              (next_id st) (mgr st2)) as [[msg Hg] | (w & c & Hg)];
    rewrite Hg; simpl.
  - eapply app_frame_trans; [| apply app_frame_sup_catch].
    eapply app_frame_trans; [exact H2 |].
    apply app_frame_fields; simpl; auto.
  - destruct H2 as [Hs2 Hw2 Hh2 Hi2 Hst2 Hnx2 Hf2].
    split; simpl; auto.
    intros p Hp Hf m' cb Hl. simpl in Hl.
    specialize (Hf2 p Hp Hf).
    apply lookup_insert_Some in Hl as [[<- <-] | [_ Hl]]; [| eapply Hf2, Hl].
    simpl. split; [| intros o' q' [= <- <-]; lia].
    destruct (Manager.callbacks (mgr st2) !! m) as [cb |] eqn:Hcb; simpl;
      [| discriminate].
    apply (Hf2 _ _ Hcb).
Qed.

Lemma app_frame_finish st : app_frame st (finish st).
Proof. apply app_frame_fields; simpl; auto. Qed.

Lemma app_frame_orch_continue s st : app_frame st (orch_continue s st).
Proof.
  unfold orch_continue.
  repeat case_match; try apply app_frame_refl; try apply app_frame_finish.
  - eapply app_frame_trans; [| apply app_frame_finish].
    eapply app_frame_trans; [| apply app_frame_sup_start].
    apply app_frame_fields; simpl; auto.
  - eapply app_frame_trans; [| apply app_frame_sup_start].
    apply app_frame_fields; simpl; auto.
Qed.

Lemma app_frame_start_and_continue s m st :
  app_frame st (start_and_continue s m st).
Proof.
  unfold start_and_continue. case_match; [| apply app_frame_sup_start].
  eapply app_frame_trans; [apply app_frame_sup_start | apply app_frame_orch_continue].
Qed.

Lemma app_frame_generateResponse st : app_frame st (generateResponse st).
Proof.
  unfold generateResponse.
  repeat case_match; try apply app_frame_refl.
  - eapply app_frame_trans; [| apply app_frame_start_and_continue].
    apply app_frame_fields; simpl; auto.
  - eapply app_frame_trans; [| apply app_frame_start_and_continue].
    eapply app_frame_trans; [| apply app_frame_start_and_continue].
    apply app_frame_fields; simpl; auto.
  - eapply app_frame_trans; [| apply app_frame_start_and_continue].
    apply app_frame_fields; simpl; auto.
Qed.

Lemma app_frame_stopGeneration st : app_frame st (stopGeneration st).
Proof.
  unfold stopGeneration.
  repeat case_match; try apply app_frame_refl;
    repeat (eapply app_frame_trans; [| apply app_frame_manager_abort]);
    apply app_frame_refl.
Qed.

Lemma app_frame_resume_sup b s st : app_frame st (resume_sup b s st).
Proof.
  unfold resume_sup. repeat case_match; try apply app_frame_refl.
  eapply app_frame_trans; [apply app_frame_sup_resume | apply app_frame_orch_continue].
Qed.

Lemma app_frame_microtasks b st : app_frame st (microtasks b st).
Proof.
  unfold microtasks. generalize (active (orch st)). intros l. revert st.
  induction l as [|s l IH]; intros st; [apply app_frame_refl |].
  simpl. eapply app_frame_trans; [apply app_frame_resume_sup | apply IH].
Qed.

Lemma unserved_sets m a b :
  sets a = sets b -> Manager.workers a = Manager.workers b ->
  unserved m b -> unserved m a.
Proof.
  unfold sets, unserved. intros [= -> ->] ->. trivial.
Qed.

Lemma orphaned_app_frame m st st' :
  app_frame st st' -> orphaned m st -> orphaned m st'.
Proof.
  intros [Hs Hw Hh _ _ _ _] [Hr Hhd]. split.
  - eapply unserved_sets; eassumption.
  - rewrite Hh. exact Hhd.
Qed.

Lemma polling_app_frame m p st st' :
  app_frame st st' -> polling m p st -> polling m p st'.
Proof.
  intros [_ _ Hh Hi Hs Hn Hf] [Hp Hb Hhd Hint Hc]. split.
  - rewrite Hs. exact Hp.
  - lia.
  - rewrite Hh. exact Hhd.
  - rewrite Hi. exact Hint.
  - apply Hf; assumption.
Qed.

End AppFrame.

Section OrphanedLoad.

Import JS Runtime Page.
Import Worker(Command(..), Event(..), ChatMessage).
Import PageSpec.

Variables (m : string).

(** *** What the effects of a task do to the workers, the intervals
    and the promises *)

Lemma handlers_perform (Q : string -> nat -> Prop) e st :
  (forall w m' q, handlers st !! w = Some (m', q) -> Q m' q) ->
  match e with Manager.Spawn _ m' q => Q m' q | _ => True end ->
  forall w m' q, handlers (perform e st) !! w = Some (m', q) -> Q m' q.
Proof.
  intros H He w m' q. unfold perform.
  destruct e as [w0 m0 p0 | w0 c | w0 | g | f a | p0 o | i m0 p0 | i];
    [| | | | destruct f as [s | s | k]; destruct a | | |];
    rewrite ?(sl_handlers _ _ (sup_local_sup_onToken _ _ _ _)),
      ?(sl_handlers _ _ (sup_local_sup_onComplete _ _ _ _));
    simpl; try exact (H w m' q).
  - intros Hl. apply lookup_insert_Some in Hl as [[<- [= <- <-]] | [_ Hl]];
      [exact He | exact (H _ _ _ Hl)].
  - intros Hl. apply lookup_delete_Some in Hl as [_ Hl]. exact (H _ _ _ Hl).
  - unfold settle. case_match; exact (H w m' q).
Qed.

Lemma handlers_perform_all (Q : string -> nat -> Prop) effs st :
  (forall w m' q, handlers st !! w = Some (m', q) -> Q m' q) ->
  Forall (fun e => match e with Manager.Spawn _ m' q => Q m' q | _ => True end) effs ->
  forall w m' q, handlers (perform_all effs st) !! w = Some (m', q) -> Q m' q.
Proof.
  unfold perform_all. revert st.
  induction effs as [|e effs IH]; intros st H Hall; [exact H |].
  inversion Hall; subst. simpl. apply IH; [| assumption].
  apply handlers_perform; assumption.
Qed.

Lemma intervals_perform (Q : string -> nat -> Prop) e st :
  (forall j m' q, intervals st !! j = Some (m', q) -> Q m' q) ->
  match e with Manager.SetInterval _ m' q => Q m' q | _ => True end ->
  forall j m' q, intervals (perform e st) !! j = Some (m', q) -> Q m' q.
Proof.
  intros H He j m' q. unfold perform.
  destruct e as [w0 m0 p0 | w0 c | w0 | g | f a | p0 o | i m0 p0 | i];
    [| | | | destruct f as [s | s | k]; destruct a | | |];
    rewrite ?(sl_intervals _ _ (sup_local_sup_onToken _ _ _ _)),
      ?(sl_intervals _ _ (sup_local_sup_onComplete _ _ _ _));
    simpl; try exact (H j m' q).
  - unfold settle. case_match; exact (H j m' q).
  - intros Hl. apply lookup_insert_Some in Hl as [[<- [= <- <-]] | [_ Hl]];
      [exact He | exact (H _ _ _ Hl)].
  - intros Hl. apply lookup_delete_Some in Hl as [_ Hl]. exact (H _ _ _ Hl).
Qed.

Lemma intervals_perform_all (Q : string -> nat -> Prop) effs st :
  (forall j m' q, intervals st !! j = Some (m', q) -> Q m' q) ->
  Forall (fun e => match e with Manager.SetInterval _ m' q => Q m' q | _ => True end) effs ->
  forall j m' q, intervals (perform_all effs st) !! j = Some (m', q) -> Q m' q.
Proof.
  unfold perform_all. revert st.
  induction effs as [|e effs IH]; intros st H Hall; [exact H |].
  inversion Hall; subst. simpl. apply IH; [| assumption].
  apply intervals_perform; assumption.
Qed.

Lemma first_settle_spares p effs :
  Forall (spares m p) effs -> first_settle p effs = None.
Proof.
  induction 1 as [|e effs He _ IH]; [reflexivity |].
  destruct e; simpl in *; try exact IH.
  rewrite bool_decide_eq_false_2 by assumption. exact IH.
Qed.

Lemma next_id_perform e st : (next_id st <= next_id (perform e st))%nat.
Proof.
  unfold perform. repeat case_match; subst;
    rewrite ?next_id_sup_onToken, ?next_id_sup_onComplete, ?next_id_perform_basic;
    lia.
Qed.

Lemma next_id_perform_all effs st :
  (next_id st <= next_id (perform_all effs st))%nat.
Proof.
  unfold perform_all. revert st.
  induction effs as [|e effs IH]; intros st; [simpl; lia |].
  simpl. pose proof (next_id_perform e st). specialize (IH (perform e st)). lia.
Qed.

(** A task that changes the registry to [mg] and has the effects
    [effs]. *)
Lemma orphaned_effects mg effs st :
  orphaned m st -> unserved m mg -> Forall (spawns_other m) effs ->
  orphaned m (perform_all effs (upd_mgr (fun _ => mg) st)).
Proof.
  intros [_ Hh] Hmg Hall. split.
  - rewrite mgr_perform_all. exact Hmg.
  - intros w m' q. apply (handlers_perform_all (fun m' _ => m' <> m)); [exact Hh |].
    eapply Forall_impl; [exact Hall |]. intros []; simpl; auto.
Qed.

Lemma polling_effects p mg effs st :
  polling m p st -> forgotten p mg -> Forall (spares m p) effs ->
  polling m p (perform_all effs (upd_mgr (fun _ => mg) st)).
Proof.
  intros [Hp Hb Hh Hi Hc] Hmg Hall. split.
  - rewrite settled_perform_all. unfold settled_after. simpl. rewrite Hp.
    apply first_settle_spares, Hall.
  - pose proof (next_id_perform_all effs (upd_mgr (fun _ => mg) st)) as Hn.
    simpl in Hn. lia.
  - intros w m' q. apply (handlers_perform_all (fun _ q => q <> p)); [exact Hh |].
    eapply Forall_impl; [exact Hall |]. intros []; simpl; auto.
  - intros j m' q.
    apply (intervals_perform_all (fun m' q => q = p -> m' = m)); [exact Hi |].
    eapply Forall_impl; [exact Hall |]. intros []; simpl; auto.
  - rewrite mgr_perform_all. exact Hmg.
Qed.

(** *** The manager's methods *)

Lemma unserved_handleWorkerMessage m' data mg :
  m' <> m -> unserved m mg ->
  unserved m (Manager.handleWorkerMessage m' data mg).1 /\
  Forall (spawns_other m) (Manager.handleWorkerMessage m' data mg).2.
Proof.
  intros Hne (Hl & Hr & Hw). split.
  - unfold unserved. destruct data; simpl; repeat case_match; simpl;
      rewrite ?lookup_delete_ne by congruence; repeat split; auto; set_solver.
  - unfold Manager.handleWorkerMessage, Manager.on_complete, Manager.on_aborted,
      Manager.on_error, Manager.settle_init, Manager.call.
    destruct data; simpl; repeat case_match; simpl; repeat constructor.
Qed.

Lemma spares_handleWorkerMessage p m' data mg :
  forgotten p mg ->
  forgotten p (Manager.handleWorkerMessage m' data mg).1 /\
  Forall (spares m p) (Manager.handleWorkerMessage m' data mg).2.
Proof.
  intros Hf.
  assert (Hcb : Manager.resolve_reject
                  (default Manager.no_callbacks (Manager.callbacks mg !! m'))
                <> Some p /\
                forall o q, Manager.generation
                              (default Manager.no_callbacks
                                       (Manager.callbacks mg !! m')) = Some (o, q) ->
                            q <> p).
  { destruct (Manager.callbacks mg !! m') as [cb |] eqn:Hcb; simpl.
    - apply (Hf _ _ Hcb).
    - split; [discriminate | intros o q [=]]. }
  destruct Hcb as [Hrr Hgen]. split.
  - destruct data; simpl; exact Hf.
  - unfold Manager.handleWorkerMessage, Manager.on_complete, Manager.on_aborted,
      Manager.on_error, Manager.settle_init, Manager.call.
    destruct (default Manager.no_callbacks (Manager.callbacks mg !! m'))
      as [rr [[opts q] |]]; simpl in *;
      destruct data; simpl; repeat case_match; simpl; repeat constructor;
      simpl; try congruence; try (eapply Hgen; reflexivity).
Qed.

Lemma unserved_initModel m' p i created mg :
  unserved m mg ->
  unserved m (Manager.initModel m' p i created mg).1.1 /\
  Forall (spawns_other m) (Manager.initModel m' p i created mg).2.
Proof.
  intros (Hl & Hr & Hw).
  unfold Manager.initModel, Manager.isModelReady, Manager.isModelLoading, unserved.
  repeat case_bool_decide; simpl; try (repeat split; auto; repeat constructor; fail).
  assert (m' <> m) by congruence.
  destruct created; simpl; rewrite ?lookup_insert_ne by congruence;
    repeat split; auto; repeat constructor; simpl; auto; set_solver.
Qed.

Lemma spares_initModel q m' p i created mg :
  p <> q ->
  forgotten q mg ->
  forgotten q (Manager.initModel m' p i created mg).1.1 /\
  Forall (spares m q) (Manager.initModel m' p i created mg).2.
Proof.
  intros Hne Hf.
  unfold Manager.initModel, Manager.isModelReady, Manager.isModelLoading.
  repeat case_bool_decide; simpl;
    try (split; [exact Hf | repeat constructor; simpl; congruence]).
  destruct created; simpl.
  - split; [exact Hf | repeat constructor; simpl; congruence].
  - split; [| repeat constructor; simpl; congruence].
    intros m0 cb. simpl. intros Hl.
    apply lookup_insert_Some in Hl as [[<- <-] | [_ Hl]]; [| eapply Hf, Hl].
    simpl. split; [congruence | intros o q' [=]].
Qed.

Lemma unserved_unloadModel m' mg :
  unserved m mg ->
  unserved m (Manager.unloadModel m' mg).1 /\
  Forall (spawns_other m) (Manager.unloadModel m' mg).2.
Proof.
  intros (Hl & Hr & Hw). unfold Manager.unloadModel, unserved.
  case_match; simpl; [| repeat split; auto; constructor].
  split; [| repeat constructor].
  repeat split; [exact Hl | set_solver |].
  destruct (decide (m' = m)) as [-> | Hne];
    [apply lookup_delete_eq | rewrite lookup_delete_ne by congruence; exact Hw].
Qed.

Lemma forgotten_delete p k mg :
  forgotten p mg ->
  forgotten p (Manager.set_callbacks (delete k (Manager.callbacks mg)) mg).
Proof.
  intros Hf m' cb. simpl. intros Hl.
  apply lookup_delete_Some in Hl as [_ Hl]. eapply Hf, Hl.
Qed.

Lemma spares_unloadModel p m' mg :
  forgotten p mg ->
  forgotten p (Manager.unloadModel m' mg).1 /\
  Forall (spares m p) (Manager.unloadModel m' mg).2.
Proof.
  intros Hf. unfold Manager.unloadModel.
  case_match; simpl; [| split; [exact Hf | constructor]].
  split; [| repeat constructor].
  intros m0 cb. simpl. intros Hl.
  apply lookup_delete_Some in Hl as [_ Hl]. eapply Hf, Hl.
Qed.

Lemma unloadAll_fold (P : Manager.State -> Prop) (E : Manager.Effect -> Prop) mg :
  (forall k x, P x -> P (Manager.unloadModel k x).1 /\
                      Forall E (Manager.unloadModel k x).2) ->
  P mg ->
  P (Manager.unloadAll mg).1 /\ Forall E (Manager.unloadAll mg).2.
Proof.
  intros Hstep. unfold Manager.unloadAll.
  generalize (map_to_list (Manager.workers mg)). intros l.
  assert (Hnil : Forall E (@nil Manager.Effect)) by constructor.
  revert Hnil. generalize (@nil Manager.Effect). revert mg.
  induction l as [|kw l IH]; intros mg effs Hall H; [simpl; auto |].
  simpl. destruct (Hstep kw.1 mg H) as [HP HE].
  destruct (Manager.unloadModel kw.1 mg) as [mg1 effs1]. simpl in *.
  apply IH; [apply Forall_app; auto | exact HP].
Qed.

(** *** The tasks of the page *)

Lemma orphaned_fields st st' :
  mgr st' = mgr st -> handlers st' = handlers st ->
  orphaned m st -> orphaned m st'.
Proof. intros Hm Hh [Hr Hhd]. split; rewrite ?Hm, ?Hh; assumption. Qed.

Lemma polling_fields p st st' :
  mgr st' = mgr st -> handlers st' = handlers st ->
  intervals st' = intervals st -> settled st' = settled st ->
  (next_id st <= next_id st')%nat ->
  polling m p st -> polling m p st'.
Proof.
  intros Hm Hh Hi Hs Hn [Hp Hb Hhd Hint Hc].
  split; rewrite ?Hm, ?Hh, ?Hi, ?Hs; auto. lia.
Qed.

Lemma checkReady_unserved mg i p : unserved m mg -> Manager.checkReady mg i m p = [].
Proof.
  intros (Hl & Hr & _).
  unfold Manager.checkReady, Manager.isModelReady, Manager.isModelLoading.
  rewrite (bool_decide_eq_false_2 _ Hr), (bool_decide_eq_true_2 _ Hl).
  reflexivity.
Qed.

Lemma orphaned_handle i st : orphaned m st -> orphaned m (handle i st).
Proof.
  intros Ho. pose proof Ho as [Hr Hh].
  destruct i as [w data | w message | i | dt | t | m' fails | m' messages options
                | m' | | m' | | | ]; simpl.
  - destruct (handlers st !! w) as [[m' q] |] eqn:Hw; [| exact Ho].
    destruct (unserved_handleWorkerMessage m' data (mgr st) (Hh _ _ _ Hw) Hr).
    apply orphaned_effects; assumption.
  - destruct (handlers st !! w) as [[m' q] |] eqn:Hw; [| exact Ho].
    pose proof (Hh _ _ _ Hw) as Hne.
    apply orphaned_effects; [exact Ho | | repeat constructor].
    destruct Hr as (Hl & Hnr & Hwk). unfold unserved. simpl.
    rewrite lookup_delete_ne by congruence. repeat split; auto. set_solver.
  - destruct (intervals st !! i) as [[m' q] |] eqn:Hi; [| exact Ho].
    rewrite <- (upd_mgr_same st) at 2.
    apply orphaned_effects; [exact Ho | exact Hr |].
    unfold Manager.checkReady. repeat case_match; repeat constructor.
  - case_match; [| exact Ho]. eapply orphaned_fields; [| | exact Ho]; reflexivity.
  - repeat case_match; try exact Ho.
    eapply orphaned_app_frame.
    + apply app_frame_sup_local; [apply sup_local_watchdog |].
      rewrite next_id_watchdog. lia.
    + eapply orphaned_fields; [| | exact Ho]; reflexivity.
  - destruct (unserved_initModel m' (next_id st) (S (next_id st))
                (match fails with
                 | Some e => inl e
                 | None => inr (S (S (next_id st)))
                 end) (mgr st) Hr) as [Hu He].
    destruct (Manager.initModel _ _ _ _ _) as [[mg r] effs]. simpl in Hu, He.
    assert (H1 : orphaned m (perform_all effs
                               (upd_mgr (fun _ => mg) (bump (bump (bump st)))))).
    { apply orphaned_effects; [| exact Hu | exact He].
      eapply orphaned_fields; [| | exact Ho]; reflexivity. }
    destruct r as [o | p]; [| exact H1].
    eapply orphaned_fields; [apply mgr_settle | | exact H1].
    unfold settle. case_match; reflexivity.
  - pose proof (sets_generate m' messages (caller_options options)
                  (next_id st) (mgr st)) as Hs.
    assert (Hw : Manager.workers
                   (Manager.generate m' messages (caller_options options)
                      (next_id st) (mgr st)).1.1 = Manager.workers (mgr st)).
    { destruct (generate_cases m' messages (caller_options options)
                  (next_id st) (mgr st)) as [[msg ->] | (w & c & ->)]; reflexivity. }
    assert (He : Forall (spawns_other m)
                   (Manager.generate m' messages (caller_options options)
                      (next_id st) (mgr st)).2).
    { destruct (generate_cases m' messages (caller_options options)
                  (next_id st) (mgr st)) as [[msg ->] | (w & c & ->)];
        repeat constructor. }
    destruct (Manager.generate _ _ _ _ _) as [[mg r] effs]. simpl in Hs, Hw, He.
    assert (H1 : orphaned m (perform_all effs (upd_mgr (fun _ => mg) (bump st)))).
    { apply orphaned_effects; [| | exact He].
      - eapply orphaned_fields; [| | exact Ho]; reflexivity.
      - eapply unserved_sets; eassumption. }
    destruct r as [o | p]; [| exact H1].
    eapply orphaned_fields; [apply mgr_settle | | exact H1].
    unfold settle. case_match; reflexivity.
  - apply orphaned_effects; [exact Ho | exact Hr |].
    unfold Manager.abort. simpl. case_match; repeat constructor.
  - apply orphaned_effects; [exact Ho | exact Hr |].
    unfold Manager.abortAll. simpl. apply Forall_map, Forall_true. intros; exact I.
  - destruct (unserved_unloadModel m' (mgr st) Hr).
    apply orphaned_effects; assumption.
  - destruct (unloadAll_fold (unserved m) (spawns_other m) (mgr st)); [| exact Hr |].
    + intros k x. apply unserved_unloadModel.
    + apply orphaned_effects; assumption.
  - eapply orphaned_app_frame; [apply app_frame_generateResponse | exact Ho].
  - eapply orphaned_app_frame; [apply app_frame_stopGeneration | exact Ho].
Qed.

Lemma orphaned_step i st : orphaned m st -> orphaned m (step i st).
Proof.
  intros Ho. unfold step.
  eapply orphaned_app_frame; [apply app_frame_microtasks |].
  apply orphaned_handle, Ho.
Qed.

Lemma orphaned_run ins st : orphaned m st -> orphaned m (run ins st).
Proof.
  revert st. induction ins as [|i ins IH]; intros st Ho; [exact Ho |].
  simpl. apply IH, orphaned_step, Ho.
Qed.

Lemma polling_settle p q o st :
  q <> p -> polling m p st -> polling m p (settle q o st).
Proof.
  intros Hne [Hp Hb Hhd Hint Hc]. unfold settle.
  case_match; [split; assumption |].
  split; simpl; auto. rewrite lookup_insert_ne by congruence. exact Hp.
Qed.

Lemma polling_handle p i st :
  orphaned m st -> polling m p st -> polling m p (handle i st).
Proof.
  intros [Hr Hh] Hpo. pose proof Hpo as [Hp Hb Hhd Hint Hc].
  destruct i as [w data | w message | i | dt | t | m' fails | m' messages options
                | m' | | m' | | | ]; simpl.
  - destruct (handlers st !! w) as [[m' q] |] eqn:Hw; [| exact Hpo].
    destruct (spares_handleWorkerMessage p m' data (mgr st) Hc).
    apply polling_effects; assumption.
  - destruct (handlers st !! w) as [[m' q] |] eqn:Hw; [| exact Hpo].
    pose proof (Hhd _ _ _ Hw) as Hne.
    apply polling_effects; [exact Hpo | exact Hc | repeat constructor; exact Hne].
  - destruct (intervals st !! i) as [[m' q] |] eqn:Hi; [| exact Hpo].
    rewrite <- (upd_mgr_same st) at 2.
    apply polling_effects; [exact Hpo | exact Hc |].
    destruct (decide (q = p)) as [-> | Hne].
    + rewrite (Hint _ _ _ Hi eq_refl), (checkReady_unserved _ _ _ Hr). constructor.
    + unfold Manager.checkReady. repeat case_match; repeat constructor; exact Hne.
  - case_match; [| exact Hpo].
    eapply polling_fields; [| | | | | exact Hpo]; simpl; auto.
  - repeat case_match; try exact Hpo.
    eapply polling_app_frame.
    + apply app_frame_sup_local; [apply sup_local_watchdog |].
      rewrite next_id_watchdog. lia.
    + eapply polling_fields; [| | | | | exact Hpo]; simpl; auto.
  - destruct (spares_initModel p m' (next_id st) (S (next_id st))
                (match fails with
                 | Some e => inl e
                 | None => inr (S (S (next_id st)))
                 end) (mgr st) ltac:(lia) Hc) as [Hf He].
    destruct (Manager.initModel _ _ _ _ _) as [[mg r] effs]. simpl in Hf, He.
    assert (H1 : polling m p (perform_all effs
                                (upd_mgr (fun _ => mg) (bump (bump (bump st)))))).
    { apply polling_effects; [| exact Hf | exact He].
      eapply polling_fields; [| | | | | exact Hpo]; simpl; auto. }
    destruct r as [o | q]; [| exact H1].
    apply polling_settle; [lia | exact H1].
  - pose proof (forgotten_generate p m' messages (caller_options options)
                  (next_id st) (mgr st) ltac:(lia) Hc) as Hf.
    assert (He : Forall (spares m p)
                   (Manager.generate m' messages (caller_options options)
                      (next_id st) (mgr st)).2).
    { destruct (generate_cases m' messages (caller_options options)
                  (next_id st) (mgr st)) as [[msg ->] | (w & c & ->)];
        repeat constructor. }
    destruct (Manager.generate _ _ _ _ _) as [[mg r] effs]. simpl in Hf, He.
    assert (H1 : polling m p (perform_all effs (upd_mgr (fun _ => mg) (bump st)))).
    { apply polling_effects; [| exact Hf | exact He].
      eapply polling_fields; [| | | | | exact Hpo]; simpl; auto. }
    destruct r as [o | q]; [| exact H1].
    apply polling_settle; [lia | exact H1].
  - apply polling_effects; [exact Hpo | exact Hc |].
    unfold Manager.abort. simpl. case_match; repeat constructor.
  - apply polling_effects; [exact Hpo | exact Hc |].
    unfold Manager.abortAll. simpl. apply Forall_map, Forall_true. intros; exact I.
  - destruct (spares_unloadModel p m' (mgr st) Hc).
    apply polling_effects; assumption.
  - destruct (unloadAll_fold (forgotten p) (spares m p) (mgr st)); [| exact Hc |].
    + intros k x. apply spares_unloadModel.
    + apply polling_effects; assumption.
  - eapply polling_app_frame; [apply app_frame_generateResponse | exact Hpo].
  - eapply polling_app_frame; [apply app_frame_stopGeneration | exact Hpo].
Qed.

Lemma polling_step p i st :
  orphaned m st -> polling m p st -> polling m p (step i st).
Proof.
  intros Ho Hpo. unfold step.
  eapply polling_app_frame; [apply app_frame_microtasks |].
  apply polling_handle; assumption.
Qed.

Lemma polling_run p ins st :
  orphaned m st -> polling m p st -> polling m p (run ins st).
Proof.
  revert st. induction ins as [|i ins IH]; intros st Ho Hpo; [exact Hpo |].
  simpl. apply IH; [apply orphaned_step, Ho | apply polling_step; assumption].
Qed.

(** [initModel(m)] for an orphaned model only starts to poll. *)
Lemma initModel_orphaned fails st :
  wf st -> orphaned m st ->
  step (InitModel m fails) st
  = upd_intervals (insert (S (next_id st)) (m, next_id st))
      (bump (bump (bump st))) /\
  polling m (next_id st) (step (InitModel m fails) st).
Proof.
  intros Hwf [Hr Hh]. pose proof Hr as (Hl & Hnr & Hw).
  assert (Hi : forall c, Manager.initModel m (next_id st) (S (next_id st)) c (mgr st)
                         = (mgr st, Waits (next_id st),
                            [Manager.SetInterval (S (next_id st)) m (next_id st)])).
  { intros c.
    unfold Manager.initModel, Manager.isModelReady, Manager.isModelLoading.
    rewrite (bool_decide_eq_false_2 _ Hnr), (bool_decide_eq_true_2 _ Hl).
    reflexivity. }
  assert (Hstep : step (InitModel m fails) st
                  = upd_intervals (insert (S (next_id st)) (m, next_id st))
                      (bump (bump (bump st)))).
  { rewrite step_quiet; simpl; rewrite Hi; reflexivity. }
  split; [exact Hstep |]. rewrite Hstep. split; simpl.
  - apply settled_fresh; [exact Hwf | lia].
  - lia.
  - intros w m' q Hl'. destruct (b_handlers _ _ Hwf _ _ _ Hl'). lia.
  - intros j m' q Hl' ->.
    apply lookup_insert_Some in Hl' as [[_ [= <-]] | [_ Hl']]; [reflexivity |].
    destruct (b_intervals _ _ Hwf _ _ _ Hl'). lia.
  - intros m' cb Hcb. destruct (b_callbacks _ _ Hwf _ _ Hcb) as [Ha Hb]. split.
    + intros Heq. specialize (Ha _ Heq). lia.
    + intros o q Heq ->. specialize (Hb _ _ Heq). lia.
Qed.

End OrphanedLoad.

Section UnloadWhileLoading.

Import JS Runtime Page.
Import Worker(Command(..), Event(..), ChatMessage).
Import PageSpec.

Lemma handlers_perform_cases e st :
  handlers (perform e st)
  = match e with
    | Manager.Spawn w m p => <[w := (m, p)]> (handlers st)
    | Manager.Terminate w => delete w (handlers st)
    | _ => handlers st
    end.
Proof.
  unfold perform.
  destruct e as [w0 m0 p0 | w0 c | w0 | g | f a | p0 o | i m0 p0 | i];
    [| | | | destruct f as [s | s | k]; destruct a | | |];
    rewrite ?(sl_handlers _ _ (sup_local_sup_onToken _ _ _ _)),
      ?(sl_handlers _ _ (sup_local_sup_onComplete _ _ _ _));
    simpl; try reflexivity.
  unfold settle. case_match; reflexivity.
Qed.

(** A worker that is terminated, and not created again, is gone. *)
Lemma terminated_perform_all w effs st :
  Forall (fun e => match e with Manager.Spawn _ _ _ => False | _ => True end) effs ->
  handlers st !! w = None \/ Manager.Terminate w ∈ effs ->
  handlers (perform_all effs st) !! w = None.
Proof.
  unfold perform_all. revert st.
  induction effs as [|e effs IH]; intros st Hall Hcase.
  - destruct Hcase as [Hn | Hin]; [exact Hn | inversion Hin].
  - inversion Hall as [| ? ? He Hrest]; subst. simpl. apply IH; [exact Hrest |].
    rewrite handlers_perform_cases.
    destruct Hcase as [Hn | Hin].
    + left. destruct e; try contradiction; try exact Hn.
      apply lookup_delete_None. auto.
    + apply elem_of_cons in Hin as [<- | Hin]; [| right; exact Hin].
      left. apply lookup_delete_eq.
Qed.

Lemma handlers_kept effs st w x :
  Forall (fun e => match e with Manager.Spawn _ _ _ => False | _ => True end) effs ->
  handlers (perform_all effs st) !! w = Some x -> handlers st !! w = Some x.
Proof.
  unfold perform_all. revert st.
  induction effs as [|e effs IH]; intros st Hall Hl; [exact Hl |].
  inversion Hall as [| ? ? He Hrest]; subst. simpl in Hl.
  apply IH in Hl; [| exact Hrest]. rewrite handlers_perform_cases in Hl.
  destruct e; try contradiction; try exact Hl.
  apply lookup_delete_Some in Hl as [_ Hl]. exact Hl.
Qed.

(** Unloading a model that loads leaves it orphaned. *)
Lemma unload_orphans m w st i :
  m ∈ Manager.loadingModels (mgr st) ->
  Manager.workers (mgr st) !! m = Some w ->
  (forall w' m' q, handlers st !! w' = Some (m', q) -> m' = m -> w' = w) ->
  i = UnloadModel m \/ i = UnloadAll ->
  orphaned m (step i st).
Proof.
  intros Hl Hw Hh Hi. unfold step.
  eapply orphaned_app_frame; [apply app_frame_microtasks |].
  destruct Hi as [-> | ->]; simpl; unfold with_manager.
  - unfold Manager.unloadModel. rewrite Hw. simpl. split; simpl.
    + repeat split; [exact Hl | set_solver | apply lookup_delete_eq].
    + intros w' m' q Hl' ->. apply lookup_delete_Some in Hl' as [Hne Hl'].
      apply Hne. symmetry. eapply Hh; [exact Hl' | reflexivity].
  - destruct (unload_list (map_to_list (Manager.workers (mgr st))) (mgr st) [])
      as (Hws & Hrs & Hls & _ & Heffs).
    { apply NoDup_fst_map_to_list. }
    { intros k w0 Hin. apply elem_of_map_to_list in Hin. exact Hin. }
    fold (Manager.unloadAll (mgr st)) in Hws, Hrs, Hls, Heffs.
    assert (Hin : m ∈ (map_to_list (Manager.workers (mgr st))).*1).
    { apply list_elem_of_fmap. exists (m, w). split; [reflexivity |].
      apply elem_of_map_to_list. exact Hw. }
    assert (Hterm : Manager.Terminate w ∈ (Manager.unloadAll (mgr st)).2).
    { rewrite Heffs. simpl. apply list_elem_of_In, in_concat.
      exists [Manager.Post w CUnload; Manager.Terminate w]. split.
      - apply in_map_iff. exists (m, w). split; [reflexivity |].
        apply list_elem_of_In, elem_of_map_to_list. exact Hw.
      - right. left. reflexivity. }
    assert (Hnospawn : Forall (fun e => match e with
                                        | Manager.Spawn _ _ _ => False
                                        | _ => True
                                        end) (Manager.unloadAll (mgr st)).2).
    { rewrite Heffs. simpl. apply Forall_concat, Forall_map, Forall_true.
      intros kw. repeat constructor. }
    split.
    + rewrite mgr_perform_all. simpl. unfold unserved.
      rewrite Hws, Hrs, Hls, decide_True by exact Hin.
      repeat split; [exact Hl |].
      intros [_ Hn]%elem_of_difference. apply Hn.
      apply elem_of_list_to_set. exact Hin.
    + intros w' m' q Hl' ->.
      pose proof (handlers_kept _ _ _ _ Hnospawn Hl') as Hold. simpl in Hold.
      pose proof (Hh _ _ _ Hold eq_refl) as ->.
      rewrite terminated_perform_all in Hl'; [discriminate | exact Hnospawn |].
      right. exact Hterm.
Qed.

(** X5. Unloading a model while it loads (by [unloadModel] or
    [unloadAll]) leaves it in [loadingModels] with no worker.  If the
    worker unloaded was the only live worker started for the model (no
    worker of an earlier, failed load is left, which [initModel] never
    terminates and which could still report [ready]), then whatever
    happens afterwards the model stays marked as loading and is never
    ready, no worker is registered for it again, and every later
    [initModel] for it creates no worker, posts nothing and returns a
    promise that is never settled. *)
Theorem unload_while_loading (st : State) (m : string) (w : nat) (i : Input)
        (ins : list Input) (fails : option string) (ins' : list Input) :
  wf st ->
  m ∈ Manager.loadingModels (mgr st) ->
  Manager.workers (mgr st) !! m = Some w ->
  (forall w' m' q, handlers st !! w' = Some (m', q) -> m' = m -> w' = w) ->
  i = UnloadModel m \/ i = UnloadAll ->
  let st1 := run ins (step i st) in
  Manager.isModelLoading (mgr st1) m = true /\
  Manager.isModelReady (mgr st1) m = false /\
  Manager.workers (mgr st1) !! m = None /\
  let st2 := step (InitModel m fails) st1 in
  handlers st2 = handlers st1 /\
  posted st2 = posted st1 /\
  let st3 := run ins' st2 in
  settled st3 !! next_id st1 = None /\
  Manager.isModelLoading (mgr st3) m = true /\
  Manager.workers (mgr st3) !! m = None.
Proof.
  intros Hwf Hl Hw Hh Hi st1.
  assert (Ho : orphaned m st1).
  { apply orphaned_run. eapply unload_orphans; eassumption. }
  assert (Hwf1 : wf st1).
  { apply wf_run. apply wf_step. exact Hwf. }
  pose proof (or_registry _ _ Ho) as (Hl1 & Hr1 & Hw1).
  split; [apply bool_decide_eq_true_2; exact Hl1 |].
  split; [apply bool_decide_eq_false_2; exact Hr1 |].
  split; [exact Hw1 |].
  intros st2.
  destruct (initModel_orphaned m fails st1 Hwf1 Ho) as [Hst2 Hpo].
  fold st2 in Hst2, Hpo.
  split; [rewrite Hst2; reflexivity |].
  split; [rewrite Hst2; reflexivity |].
  intros st3.
  assert (Ho2 : orphaned m st2) by apply orphaned_step, Ho.
  pose proof (polling_run m _ ins' st2 Ho2 Hpo) as Hpo3.
  pose proof (orphaned_run m ins' st2 Ho2) as Ho3.
  pose proof (or_registry _ _ Ho3) as (Hl3 & Hr3 & Hw3).
  split; [apply (po_pending _ _ _ Hpo3) |].
  split; [apply bool_decide_eq_true_2; exact Hl3 | exact Hw3].
Qed.

Lemma unload_while_loading_witness :
  let st := run [InitModel "m" None] (new_page one_model) in
  let st1 := run [Elapse 10] (step UnloadAll st) in
  Manager.isModelLoading (mgr st1) "m" = true /\
  Manager.isModelReady (mgr st1) "m" = false /\
  Manager.workers (mgr st1) !! "m"%string = None /\
  let st2 := step (InitModel "m" None) st1 in
  handlers st2 = handlers st1 /\
  posted st2 = posted st1 /\
  let st3 := run [Elapse 100; Interval 5; Message 3 (EReady "m" None)] st2 in
  settled st3 !! next_id st1 = None /\
  Manager.isModelLoading (mgr st3) "m" = true /\
  Manager.workers (mgr st3) !! "m"%string = None.
Proof.
  apply (unload_while_loading (run [InitModel "m" None] (new_page one_model))
           "m" 3 UnloadAll).
  - apply wf_run, wf_new_page.
  - apply (bool_decide_unpack _). vm_compute. exact I.
  - vm_compute. reflexivity.
  - intros w' m' q Hl _.
    assert (Hst : handlers (run [InitModel "m" None] (new_page one_model))
                  = <[3%nat := ("m"%string, 1%nat)]> ∅)
      by (vm_compute; reflexivity).
    rewrite Hst in Hl.
    apply lookup_insert_Some in Hl as [[<- _] | [_ Hl]]; [reflexivity |].
    rewrite lookup_empty in Hl. discriminate.
  - right. reflexivity.
Defined.

End UnloadWhileLoading.

Section RepetitionStop.

Import JS Runtime Page.
Import Worker(Command(..), Event(..), ChatMessage).
Import PageSpec.

Variables (s p : nat) (m : string) (w : nat) (sv : Supervisor) (st : State).
Hypothesis Hwf : wf st.
Hypothesis Hsup : supervised s p m w sv st.

(** A token whose accumulated text trips the repetition guard. *)
Lemma token_trips tok acc :
  Utils.isRepetitive acc = true ->
  let r := step (Message w (EToken tok acc)) st in
  let t' := next_id st in
  posted r = posted st ++ [(w, CAbort)] /\
  ui r = ui st /\
  timers r !! t' = None /\
  (forall t, timeoutId sv = Some t -> timers r !! t = None) /\
  supervised s p m w
    (set_repetitionDetected true (set_timeoutId (Some t') sv)) r.
Proof.
  intros Hrep r t'.
  assert (Hr : r = sup_onToken s tok acc st).
  { unfold r. rewrite step_quiet; rewrite (handle_token s p m w sv st Hsup).
    - reflexivity.
    - apply (sl_settled _ _ (sup_local_sup_onToken s tok acc st)). }
  destruct Hsup as [Ho Hh Hw Hc Hs Hm Hst Hp].
  destruct (b_sups _ _ Hwf _ _ Hs) as [_ [_ Ht]].
  assert (Hc0 : clear_timeout s st
                = upd_timers (fun _ => timers (clear_timeout s st)) st).
  { unfold clear_timeout. repeat case_match; destruct st; reflexivity. }
  assert (HT0 : forall t, timeoutId sv = Some t ->
                          timers (clear_timeout s st) !! t = None).
  { intros t Htid. unfold clear_timeout. rewrite Hs, Htid. simpl.
    apply lookup_delete_eq. }
  rewrite Hr. unfold sup_onToken. rewrite Hrep. unfold resetTimeout.
  rewrite Hc0. set (T0 := timers (clear_timeout s st)) in *. clearbody T0.
  cbv zeta.
  set (st2 := upd_sup s (set_repetitionDetected true) _).
  assert (Hs2 : sups st2 !! s
                = Some (set_repetitionDetected true (set_timeoutId (Some t') sv))).
  { unfold st2. simpl. rewrite !lookup_alter_eq, Hs. reflexivity. }
  assert (H3 : clear_timeout s st2 = upd_timers (delete t') st2).
  { unfold clear_timeout. rewrite Hs2. reflexivity. }
  rewrite H3. unfold sup_model. cbn [sups upd_timers]. rewrite Hs2.
  cbn [modelId set_repetitionDetected set_timeoutId]. rewrite Hm.
  unfold manager_abort, Manager.abort. cbn [mgr upd_timers].
  replace (mgr st2) with (mgr st) by reflexivity. rewrite Hw.
  cbn [foldl perform_basic].
  split; [reflexivity |]. split; [reflexivity |].
  split; [simpl; apply lookup_delete_eq |]. split.
  - intros t Htid. simpl. specialize (Ht t Htid).
    rewrite lookup_delete_ne by (unfold t'; lia).
    rewrite lookup_insert_ne by (unfold t'; lia). apply HT0, Htid.
  - split; simpl; auto.
Qed.

End RepetitionStop.

Section RepetitionReport.

Import JS Runtime Page.
Import Worker(Command(..), Event(..), ChatMessage).
Import PageSpec.

(** X6. While a call of [generateSingleResponse] awaits its generation,
    a token whose accumulated text trips the repetition guard posts one
    [abort] to the model's worker, leaves no timer of the call armed,
    sets [repetitionDetected] and does not show the text; when the
    generation then ends with [aborted] or [complete] (and the watchdog
    has not fired), the call reports 'Generation stopped due to
    repetitive output' and [generateResponse] is over. *)
Theorem repetition_stop s p m w sv st :
  wf st ->
  supervised s p m w sv st ->
  (forall tok acc,
      Utils.isRepetitive acc = true ->
      let r := step (Message w (EToken tok acc)) st in
      posted r = posted st ++ [(w, CAbort)] /\
      ui r = ui st /\
      timers r !! next_id st = None /\
      (forall t, timeoutId sv = Some t -> timers r !! t = None) /\
      supervised s p m w
        (set_repetitionDetected true (set_timeoutId (Some (next_id st)) sv)) r) /\
  (forall data,
      fulfils data = true ->
      timedOut sv = false -> repetitionDetected sv = true ->
      let r := step (Message w data) st in
      status_of s r = Some (Failed repetition_message) /\
      last (ui r) = Some (UpdateMessageError s repetition_message) /\
      orch r = Idle /\
      isGenerating (app r) = false).
Proof.
  intros Hwf Hsup.
  split; [intros tok acc Hrep; apply token_trips; assumption |].
  intros data Hf Hto Hrep r.
  assert (Hterm : Worker.is_terminal data = true)
    by (destruct data; try discriminate; reflexivity).
  assert (Hst : status_of s r = Some (Failed repetition_message)).
  { unfold r. rewrite (report s p m w sv st Hsup data Hterm), Hto, Hrep.
    destruct data; try discriminate; reflexivity. }
  split; [exact Hst |].
  split; [apply (report_shown s p m w sv st Hsup data _ Hterm Hst) |].
  unfold r. rewrite (step_terminal s p m w sv st Hsup data Hterm).
  split; reflexivity.
Qed.

Lemma repetition_stop_witness :
  supervised 4 5 "a" 3 started_call started /\
  posted (step (Message 3 (EToken (str "ab") (str "abababababababababababababababababababababababababab")))
               started)
  = posted started ++ [(3%nat, CAbort)].
Proof.
  assert (Hsup : supervised 4 5 "a" 3 started_call started).
  { split; try (vm_compute; reflexivity).
    - exists 1%nat. vm_compute. reflexivity.
    - exists (Some 1%nat), (app started). vm_compute. reflexivity. }
  split; [exact Hsup |].
  assert (Hwf : wf started) by apply wf_run, wf_new_page.
  destruct (repetition_stop 4 5 "a" 3 started_call started Hwf Hsup)
    as (Htrip & _).
  apply (Htrip (str "ab")
               (str "abababababababababababababababababababababababababab")).
  vm_compute. reflexivity.
Defined.

End RepetitionReport.

Section StaleWatchdog.

Import JS Runtime Page.
Import Worker(Command(..), Event(..), ChatMessage).
Import PageSpec.

(** A due timer of slot [k] fires: its callback posts [abort] to the
    worker of the slot's model, whether or not the call still runs. *)
Lemma watchdog_fires k t d m w sv x :
  timers x !! t = Some (d, k) -> d <= now x ->
  sups x !! k = Some sv -> modelId sv = Some m ->
  Manager.workers (mgr x) !! m = Some w ->
  step (Timeout t) x
  = post w CAbort (upd_sup k (set_timedOut true) (upd_timers (delete t) x)).
Proof.
  intros Ht Hd Hs Hm Hw. apply Z.leb_le in Hd.
  rewrite step_quiet.
  - simpl. rewrite Ht, Hd. unfold watchdog, sup_model. simpl. rewrite Hs, Hm.
    unfold manager_abort, Manager.abort. simpl. rewrite Hw. reflexivity.
  - simpl. rewrite Ht, Hd.
    rewrite (sl_settled _ _ (sup_local_watchdog _ _)). reflexivity.
Qed.

Lemma step_generateResponse x : step GenerateResponse x = generateResponse x.
Proof.
  apply step_quiet. simpl. apply (af_settled _ _ (app_frame_generateResponse x)).
Qed.

(** [generateResponse] for one model that is ready. *)
Lemma single_start m w x :
  isGenerating (app x) = false -> compareMode (app x) = false ->
  currentModel (app x) = Some m ->
  Manager.workers (mgr x) !! m = Some w ->
  m ∈ Manager.readyModels (mgr x) ->
  generateResponse x
  = sup_start (next_id x) (Some m)
      (set_orch (Single (next_id x)) (bump (upd_app (set_isGenerating true) x))).
Proof.
  intros Hg Hc Hm Hw Hr. unfold generateResponse. rewrite Hg. cbv zeta.
  replace (compareMode (app (upd_app (set_isGenerating true) x))) with false
    by (simpl; symmetry; exact Hc).
  cbn [andb].
  replace (currentModel (app (upd_app (set_isGenerating true) x))) with (Some m)
    by (simpl; symmetry; exact Hm).
  replace (next_id (upd_app (set_isGenerating true) x)) with (next_id x)
    by reflexivity.
  unfold start_and_continue.
  set (y := set_orch _ _).
  rewrite (sup_start_accepted (next_id x) m w y) by assumption.
  unfold returned. cbn [sups]. rewrite lookup_insert_eq. reflexivity.
Qed.

Variables (s p : nat) (m : string) (w : nat) (sv : Supervisor) (st : State).
Hypothesis Hwf : wf st.
Hypothesis Hsup : supervised s p m w sv st.
Hypothesis Hto : timedOut sv = false.
Hypothesis Hrep : repetitionDetected sv = false.

(** The call ends without an error when its generation is aborted. *)
Lemma stopped_state :
  step (Message w EAborted) st
  = finish (upd_sup s (set_status Completed)
              (upd_settled (insert p (Fulfilled VNull)) st)).
Proof.
  rewrite (step_terminal s p m w sv st Hsup EAborted eq_refl).
  destruct Hsup as [Ho [q Hh] Hw (rr & a & Hc) Hs Hm Hst Hp].
  assert (Hh' : handle (Message w EAborted) st
                = upd_settled (insert p (Fulfilled VNull)) st).
  { simpl. rewrite Hh. unfold with_manager, Manager.handleWorkerMessage.
    rewrite Hc. simpl. unfold settle. simpl. rewrite Hp.
    destruct st; reflexivity. }
  rewrite Hh'. simpl. rewrite Hs, Hto, Hrep. reflexivity.
Qed.

Lemma stopped_keeps_timer :
  let r := step (Message w EAborted) st in
  status_of s r = Some Completed /\
  orch r = Idle /\
  isGenerating (app r) = false /\
  timers r = timers st /\
  posted r = posted st.
Proof.
  cbv zeta. rewrite stopped_state.
  destruct Hsup as [Ho [q Hh] Hw (rr & a & Hc) Hs Hm Hst Hp].
  unfold status_of. simpl. rewrite lookup_alter_eq, Hs. auto.
Qed.

Lemma elapse_step dt x : 0 <= dt -> step (Elapse dt) x = set_now (now x + dt) x.
Proof.
  intros Hdt. apply Z.leb_le in Hdt.
  rewrite step_quiet; simpl; rewrite Hdt; reflexivity.
Qed.

Lemma stale_fires t d dt :
  timers st !! t = Some (d, s) -> 0 <= dt -> d <= now st + dt ->
  posted (step (Timeout t) (step (Elapse dt) (step (Message w EAborted) st)))
  = posted st ++ [(w, CAbort)].
Proof.
  intros Ht Hdt Hd. rewrite stopped_state, elapse_step by exact Hdt.
  destruct Hsup as [Ho [q Hh] Hw (rr & a & Hc) Hs Hm Hst Hp].
  rewrite (watchdog_fires s t d m w (set_status Completed sv)); simpl; auto.
  rewrite lookup_alter_eq, Hs. reflexivity.
Qed.

Lemma stale_hits_next t d dt :
  timers st !! t = Some (d, s) -> 0 <= dt -> d <= now st + dt ->
  currentModel (app st) = Some m -> compareMode (app st) = false ->
  m ∈ Manager.readyModels (mgr st) ->
  let r' := step (Timeout t)
              (step (Elapse dt)
                 (step GenerateResponse (step (Message w EAborted) st))) in
  let s' := next_id st in
  posted r' = posted st ++ [(w, app_command (app st)); (w, CAbort)] /\
  ui r' = ui st /\
  supervised s' (S s') m w
    {| modelId := Some m; timeoutId := Some (S (S s')); timedOut := false;
       repetitionDetected := false; status := Awaiting (S s') |} r'.
Proof.
  intros Ht Hdt Hd Hcur Hcmp Hready. cbv zeta.
  rewrite stopped_state.
  destruct Hsup as [Ho [q Hh] Hw (rr & a & Hc) Hs Hm Hst Hp].
  destruct (b_sups _ _ Hwf _ _ Hs) as [Hslt [Hplt _]]. specialize (Hplt _ Hst).
  pose proof (b_timers _ _ Hwf _ _ _ Ht) as Htlt.
  set (r := finish _).
  rewrite step_generateResponse.
  rewrite (single_start m w r) by (unfold r; simpl; auto).
  rewrite (sup_start_accepted _ m w) by (unfold r; simpl; auto).
  rewrite elapse_step by exact Hdt.
  rewrite (watchdog_fires s t d m w (set_status Completed sv)); simpl.
  - split; [rewrite <- app_assoc; reflexivity |].
    split; [reflexivity |].
    split; simpl; auto.
    + eauto.
    + rewrite lookup_insert_eq. unfold installed. eauto.
    + rewrite lookup_alter_ne by lia. rewrite lookup_insert_eq. reflexivity.
    + rewrite lookup_insert_ne by lia. apply settled_fresh; [exact Hwf | lia].
  - rewrite lookup_insert_ne by lia. exact Ht.
  - lia.
  - rewrite lookup_insert_ne by lia. rewrite lookup_alter_eq, Hs. reflexivity.
  - exact Hm.
  - exact Hw.
Qed.

End StaleWatchdog.

Section StoppedCall.

Import JS Runtime Page.
Import Worker(Command(..), Event(..), ChatMessage).
Import PageSpec.

(** X7. When a generation is stopped by the user (it ends with [aborted]
    and neither the watchdog nor the repetition guard has tripped),
    [generateSingleResponse] returns without clearing its timer: the
    timer stays armed, and when it falls due its callback posts [abort]
    to the model's worker although the call is over.  If a new
    generation on that model has started meanwhile, that [abort] reaches
    it: the new call is still awaiting with its own flags clear, so when
    the worker answers [aborted] it ends as if it had completed, with no
    answer saved and no error shown. *)
Theorem stale_watchdog (s p : nat) (m : string) (w : nat) (sv : Supervisor)
        (st : State) (t : nat) (d dt : Z) :
  wf st ->
  supervised s p m w sv st ->
  timedOut sv = false -> repetitionDetected sv = false ->
  timers st !! t = Some (d, s) ->
  0 <= dt -> d <= now st + dt ->
  let r := step (Message w EAborted) st in
  (status_of s r = Some Completed /\
   isGenerating (app r) = false /\
   timers r !! t = Some (d, s)) /\
  posted (step (Timeout t) (step (Elapse dt) r)) = posted st ++ [(w, CAbort)] /\
  (currentModel (app st) = Some m -> compareMode (app st) = false ->
   m ∈ Manager.readyModels (mgr st) ->
   let r' := step (Timeout t) (step (Elapse dt) (step GenerateResponse r)) in
   let s' := next_id st in
   posted r' = posted st ++ [(w, app_command (app st)); (w, CAbort)] /\
   status_of s' r' = Some (Awaiting (S s')) /\
   (timedOut <$> sups r' !! s') = Some false /\
   status_of s' (step (Message w EAborted) r') = Some Completed /\
   ui (step (Message w EAborted) r') = ui st).
Proof.
  intros Hwf Hsup Hto Hrep Ht Hdt Hd r.
  destruct (stopped_keeps_timer s p m w sv st Hwf Hsup Hto Hrep)
    as (Hst & _ & Hgen & Htim & _).
  fold r in Hst, Hgen, Htim.
  split; [rewrite Htim; auto |].
  split; [apply (stale_fires s p m w sv st Hwf Hsup Hto Hrep t d dt); assumption |].
  intros Hcur Hcmp Hready r' s'.
  destruct (stale_hits_next s p m w sv st Hwf Hsup Hto Hrep t d dt
              Ht Hdt Hd Hcur Hcmp Hready) as (Hposted & Hui & Hsup').
  fold r r' s' in Hposted, Hui, Hsup'.
  split; [exact Hposted |].
  pose proof (sv_sup _ _ _ _ _ _ Hsup') as Hs'.
  split; [unfold status_of; rewrite Hs'; reflexivity |].
  split; [rewrite Hs'; reflexivity |].
  split.
  - rewrite (report _ _ _ _ _ _ Hsup' EAborted eq_refl). reflexivity.
  - assert (Hwf' : wf r') by (repeat apply wf_step; exact Hwf).
    rewrite (stopped_state _ _ _ _ _ _ Hwf' Hsup' eq_refl eq_refl). simpl.
    exact Hui.
Qed.

Lemma stale_watchdog_witness :
  supervised 4 5 "a" 3 started_call started /\
  posted (step (Timeout 6) (step (Elapse 45000) (step (Message 3 EAborted) started)))
  = posted started ++ [(3%nat, CAbort)].
Proof.
  assert (Hsup : supervised 4 5 "a" 3 started_call started).
  { split; try (vm_compute; reflexivity).
    - exists 1%nat. vm_compute. reflexivity.
    - exists (Some 1%nat), (app started). vm_compute. reflexivity. }
  split; [exact Hsup |].
  assert (Hwf : wf started) by apply wf_run, wf_new_page.
  assert (Ht : timers started !! 6%nat = Some (45000, 4%nat))
    by (vm_compute; reflexivity).
  assert (Hd : 45000 <= now started + 45000).
  { replace (now started) with 0 by (vm_compute; reflexivity). lia. }
  destruct (stale_watchdog 4 5 "a" 3 started_call started 6 45000 45000
              Hwf Hsup eq_refl eq_refl Ht ltac:(lia) Hd) as (_ & Hfire & _).
  exact Hfire.
Defined.

End StoppedCall.

Section FailedStart.

Import JS Runtime Page.
Import Worker(Command(..), Event(..), ChatMessage).
Import PageSpec.

Lemma refusal_shown model mg :
  Worker.or_default (refusal model mg) "Generation failed" = refusal model mg.
Proof.
  unfold Worker.or_default, refusal.
  destruct model as [m |];
    [destruct (Manager.workers mg !! m) |];
    rewrite bool_decide_eq_false_2 by discriminate; reflexivity.
Qed.

(** [generateSingleResponse] when [generate] throws at once. *)
Lemma sup_start_refused s model x :
  servable model (mgr x) = false ->
  timers x !! next_id (bump x) = None ->
  sup_start s model x
  = upd_sups (insert s {| modelId := model; timeoutId := Some (S (next_id x));
                          timedOut := false; repetitionDetected := false;
                          status := Failed (refusal model (mgr x)) |})
      (ui_call (UpdateMessageError s (refusal model (mgr x))) (bump (bump x))).
Proof.
  intros Hserv Hfresh. unfold sup_start.
  set (st1 := upd_sups _ (bump x)).
  assert (H2 : resetTimeout s st1
               = upd_sups (insert s {| modelId := model;
                                       timeoutId := Some (S (next_id x));
                                       timedOut := false;
                                       repetitionDetected := false;
                                       status := Awaiting (next_id x) |})
                   (upd_timers (insert (S (next_id x)) (now x + TIMEOUT_MS, s))
                      (bump (bump x)))).
  { unfold resetTimeout, clear_timeout, st1. simpl. rewrite lookup_insert_eq.
    simpl. unfold upd_sup, upd_sups. simpl. rewrite alter_insert_eq.
    reflexivity. }
  assert (Hcatch : forall msg,
             Worker.or_default msg "Generation failed" = msg ->
             sup_catch s msg (resetTimeout s st1)
             = upd_sups (insert s {| modelId := model;
                                     timeoutId := Some (S (next_id x));
                                     timedOut := false;
                                     repetitionDetected := false;
                                     status := Failed msg |})
                 (ui_call (UpdateMessageError s msg) (bump (bump x)))).
  { intros msg Hmsg. rewrite H2. unfold sup_catch, clear_timeout. simpl.
    rewrite lookup_insert_eq. simpl. rewrite Hmsg.
    unfold upd_sup, upd_sups, ui_call, upd_timers. simpl.
    rewrite alter_insert_eq.
    rewrite delete_insert_id by exact Hfresh. reflexivity. }
  destruct model as [m |].
  - assert (Hg : forall msgs o q mg,
               mg = mgr x ->
               Manager.generate m msgs o q mg
               = (mg, Settled (Rejected (refusal (Some m) (mgr x))), [])).
    { intros msgs o q mg ->. unfold Manager.generate, refusal.
      unfold servable in Hserv.
      destruct (Manager.workers (mgr x) !! m) as [w |]; [| reflexivity].
      rewrite bool_decide_eq_true_2 in Hserv by eauto. simpl in Hserv.
      rewrite Hserv. reflexivity. }
    rewrite Hg by (rewrite mgr_resetTimeout; reflexivity).
    cbn [foldl]. rewrite upd_mgr_same.
    apply Hcatch, refusal_shown.
  - apply (Hcatch "Model null not initialized"%string). reflexivity.
Qed.

(** X8. When [generateResponse] runs, with nothing else running while
    it reads the history, for a model that has no worker or is not ready
    (and no second model is compared), the error of
    [modelManager.generate] is shown as the answer, nothing is posted to
    any worker, the timer the call armed is cleared again, the registry
    is as it was, and [isGenerating] is released again once the call has
    run through its [try] and [finally] blocks, which takes no event of
    a worker or a timer. *)
Theorem failed_start (st : State) :
  wf st ->
  isGenerating (app st) = false ->
  compareMode (app st) && truthy_model (compareModel (app st))
    && model_ready (compareModel (app st)) st = false ->
  servable (currentModel (app st)) (mgr st) = false ->
  let r := step GenerateResponse st in
  let s := next_id st in
  let message := refusal (currentModel (app st)) (mgr st) in
  status_of s r = Some (Failed message) /\
  ui r = ui st ++ [UpdateMessageError s message] /\
  posted r = posted st /\
  timers r = timers st /\
  mgr r = mgr st /\
  orch r = Idle /\
  isGenerating (app r) = false.
Proof.
  intros Hwf Hg Hcmp Hserv r s message.
  assert (Hfresh : timers st !! S (S (next_id st)) = None).
  { destruct (timers st !! S (S (next_id st))) as [[d k] |] eqn:Ht; [| reflexivity].
    apply (b_timers _ _ Hwf) in Ht. lia. }
  unfold r. rewrite step_generateResponse. unfold generateResponse.
  rewrite Hg. cbv zeta.
  replace (compareMode (app (upd_app (set_isGenerating true) st))
           && truthy_model (compareModel (app (upd_app (set_isGenerating true) st)))
           && model_ready (compareModel (app (upd_app (set_isGenerating true) st)))
                (upd_app (set_isGenerating true) st)) with false
    by (symmetry; exact Hcmp).
  unfold start_and_continue.
  rewrite sup_start_refused by (simpl; assumption).
  unfold returned. cbn [sups upd_sups]. rewrite lookup_insert_eq.
  cbn [status]. unfold orch_continue. cbn [orch upd_sups ui_call bump set_orch].
  rewrite bool_decide_eq_true_2 by reflexivity.
  unfold status_of. simpl. rewrite lookup_insert_eq. auto 10.
Qed.

Lemma failed_start_witness :
  let st := new_page one_model in
  status_of 1 (step GenerateResponse st) = Some (Failed "Model m not initialized") /\
  posted (step GenerateResponse st) = [] /\
  isGenerating (app (step GenerateResponse st)) = false.
Proof.
  destruct (failed_start (new_page one_model) (wf_new_page one_model)
              eq_refl eq_refl eq_refl) as (Hst & _ & Hp & _ & _ & _ & Hg).
  split; [exact Hst |]. split; [exact Hp | exact Hg].
Defined.

End FailedStart.

Section LoadFailure.

Import JS Runtime Page.
Import Worker(Command(..), Event(..), ChatMessage).
Import PageSpec.

(** [initModel] for a model that is neither ready nor loading. *)
Lemma initModel_creates m x :
  (m ∉ Manager.readyModels (mgr x)) -> (m ∉ Manager.loadingModels (mgr x)) ->
  let p := next_id x in
  let w := S (S p) in
  step (InitModel m None) x
  = upd_handlers (insert w (m, p))
      (upd_mgr (fun _ =>
         Manager.set_callbacks
           (<[m := {| Manager.resolve_reject := Some p;
                      Manager.generation := None |}]>
              (Manager.callbacks (mgr x)))
           (Manager.set_workers (<[m := w]> (Manager.workers (mgr x)))
              (Manager.set_loading ({[m]} ∪ Manager.loadingModels (mgr x))
                 (mgr x))))
         (bump (bump (bump x)))).
Proof.
  intros Hr Hl p w.
  assert (Hi : Manager.initModel m p (S p) (inr w) (mgr x)
               = (Manager.set_callbacks
                    (<[m := {| Manager.resolve_reject := Some p;
                               Manager.generation := None |}]>
                       (Manager.callbacks (mgr x)))
                    (Manager.set_workers (<[m := w]> (Manager.workers (mgr x)))
                       (Manager.set_loading
                          ({[m]} ∪ Manager.loadingModels (mgr x)) (mgr x))),
                  Waits p, [Manager.Spawn w m p])).
  { unfold Manager.initModel, Manager.isModelReady, Manager.isModelLoading.
    rewrite (bool_decide_eq_false_2 _ Hr), (bool_decide_eq_false_2 _ Hl).
    reflexivity. }
  rewrite step_quiet; simpl; fold p w; rewrite Hi; reflexivity.
Qed.

(** An error of the worker that loads model [m] for promise [p]. *)
Lemma load_fails m w p x i e :
  wf x ->
  handlers x !! w = Some (m, p) ->
  Manager.callbacks (mgr x) !! m
  = Some {| Manager.resolve_reject := Some p; Manager.generation := None |} ->
  settled x !! p = None ->
  (forall s sv q, sups x !! s = Some sv -> status sv = Awaiting q -> q <> p) ->
  (i = Message w (EError e) \/
   exists message,
     i = Error w message /\
     e = Worker.or_default message
           "Worker failed to load - check console for details") ->
  settled (step i x) !! p = Some (Rejected e) /\
  Manager.loadingModels (mgr (step i x)) = Manager.loadingModels (mgr x) ∖ {[m]} /\
  Manager.readyModels (mgr (step i x)) = Manager.readyModels (mgr x) /\
  handlers (step i x) = handlers x /\
  next_id (step i x) = next_id x.
Proof.
  intros Hwf Hh Hcb Hp Hsups Hcase.
  destruct Hcase as [-> | (message & -> & ->)].
  - assert (Hhd : handle (Message w (EError e)) x
                  = upd_settled (insert p (Rejected e))
                      (notify (GError m e)
                         (upd_mgr (fun _ =>
                            Manager.set_loading
                              (Manager.loadingModels (mgr x) ∖ {[m]}) (mgr x)) x))).
    { simpl. rewrite Hh. unfold with_manager. simpl. rewrite Hcb. simpl.
      unfold settle. simpl. rewrite Hp. reflexivity. }
    rewrite step_quiet_or; rewrite Hhd; simpl.
    + rewrite lookup_insert_eq. auto.
    + intros s sv q Hsv Hst Hnone.
      rewrite lookup_insert_ne; [exact Hnone |].
      specialize (Hsups _ _ _ Hsv Hst). congruence.
  - assert (Hhd : handle (Error w message) x
                  = upd_settled
                      (insert p (Rejected (Worker.or_default message
                         "Worker failed to load - check console for details")))
                      (notify (GError m (Worker.or_default message
                         "Worker failed to load - check console for details"))
                         (upd_mgr (fun _ => (Manager.onerror m p message (mgr x)).1)
                            x))).
    { simpl. rewrite Hh. unfold with_manager. simpl.
      unfold settle. simpl. rewrite Hp. reflexivity. }
    rewrite step_quiet_or; rewrite Hhd; simpl.
    + rewrite lookup_insert_eq. auto.
    + intros s sv q Hsv Hst Hnone.
      rewrite lookup_insert_ne; [exact Hnone |].
      specialize (Hsups _ _ _ Hsv Hst). congruence.
Qed.

(** [initModel] when creating the worker throws. *)
Lemma initModel_throws m e x :
  wf x ->
  (m ∉ Manager.readyModels (mgr x)) -> (m ∉ Manager.loadingModels (mgr x)) ->
  let x' := step (InitModel m (Some e)) x in
  settled x' !! next_id x = Some (Rejected e) /\
  mgr x' = mgr x /\ handlers x' = handlers x /\ posted x' = posted x.
Proof.
  intros Hwf Hr Hl.
  assert (Hi : Manager.initModel m (next_id x) (S (next_id x)) (inl e) (mgr x)
               = (mgr x, Waits (next_id x),
                  [Manager.Settle (next_id x) (Rejected e)])).
  { unfold Manager.initModel, Manager.isModelReady, Manager.isModelLoading.
    rewrite (bool_decide_eq_false_2 _ Hr), (bool_decide_eq_false_2 _ Hl).
    simpl. f_equal. f_equal. destruct (mgr x) as [ws rs ls cs]. simpl in *.
    unfold Manager.set_loading. simpl. f_equal. set_solver. }
  assert (Hh : handle (InitModel m (Some e)) x
               = upd_settled (insert (next_id x) (Rejected e))
                   (upd_mgr (fun _ => mgr x) (bump (bump (bump x))))).
  { simpl. rewrite Hi. simpl. unfold settle. simpl.
    rewrite (settled_fresh x (next_id x) Hwf) by lia. reflexivity. }
  cbv zeta. rewrite step_quiet_or; rewrite Hh; simpl.
  - rewrite lookup_insert_eq. auto.
  - intros s sv q Hsv Hst Hnone.
    rewrite lookup_insert_ne; [exact Hnone |].
    destruct (b_sups _ _ Hwf _ _ Hsv) as [_ [Hlt _]]. specialize (Hlt _ Hst). lia.
Qed.

End LoadFailure.

Section LoadRetry.

Import JS Runtime Page.
Import Worker(Command(..), Event(..), ChatMessage).
Import PageSpec.

(** X9. A load that fails releases the model.  If creating the worker
    throws, [initModel] rejects its promise with that error and leaves
    the registry as it was.  If the worker reports an [error] event, or
    raises an error event of its own, the promise is rejected with the
    message and the model is no longer held as loading; the failed
    worker is not terminated.  A following [initModel] then creates a
    new worker for the model and holds it as loading again. *)
Theorem load_failure_retry (st : State) (m : string) (i : Input) (e : string) :
  wf st ->
  (m ∉ Manager.readyModels (mgr st)) ->
  (m ∉ Manager.loadingModels (mgr st)) ->
  let p1 := next_id st in
  let w := S (S p1) in
  let st1 := step (InitModel m None) st in
  (i = Message w (EError e) \/
   exists message,
     i = Error w message /\
     e = Worker.or_default message
           "Worker failed to load - check console for details") ->
  let st2 := step i st1 in
  (forall e',
      let st' := step (InitModel m (Some e')) st in
      settled st' !! p1 = Some (Rejected e') /\
      mgr st' = mgr st /\ handlers st' = handlers st /\ posted st' = posted st) /\
  (settled st1 !! p1 = None /\ Manager.isModelLoading (mgr st1) m = true) /\
  (settled st2 !! p1 = Some (Rejected e) /\
   Manager.isModelLoading (mgr st2) m = false /\
   Manager.isModelReady (mgr st2) m = false /\
   handlers st2 !! w = Some (m, p1)) /\
  let p2 := next_id st2 in
  let w2 := S (S p2) in
  let st3 := step (InitModel m None) st2 in
  w2 <> w /\
  handlers st3 !! w2 = Some (m, p2) /\
  handlers st3 !! w = Some (m, p1) /\
  Manager.workers (mgr st3) !! m = Some w2 /\
  Manager.isModelLoading (mgr st3) m = true /\
  settled st3 !! p2 = None.
Proof.
  intros Hwf Hr Hl p1 w st1 Hcase st2.
  split; [intros e'; apply initModel_throws; assumption |].
  pose proof (initModel_creates m st Hr Hl) as Hst1. cbv zeta in Hst1.
  fold p1 w st1 in Hst1.
  assert (Hwf1 : wf st1) by (apply wf_step; exact Hwf).
  assert (Hp1 : settled st1 !! p1 = None).
  { rewrite Hst1. simpl. apply settled_fresh; [exact Hwf | unfold p1; lia]. }
  split.
  { split; [exact Hp1 |]. rewrite Hst1. simpl.
    apply bool_decide_eq_true_2. set_solver. }
  destruct (load_fails m w p1 st1 i e Hwf1) as (Hs2 & Hl2 & Hr2 & Hh2 & Hn2).
  { rewrite Hst1. simpl. apply lookup_insert_eq. }
  { rewrite Hst1. simpl. apply lookup_insert_eq. }
  { exact Hp1. }
  { rewrite Hst1. simpl. intros s sv q Hsv Hst.
    destruct (b_sups _ _ Hwf _ _ Hsv) as [_ [Hlt _]]. specialize (Hlt _ Hst).
    unfold p1. lia. }
  { exact Hcase. }
  fold st2 in Hs2, Hl2, Hr2, Hh2, Hn2.
  assert (Hnl2 : m ∉ Manager.loadingModels (mgr st2)) by (rewrite Hl2; set_solver).
  assert (Hnr2 : m ∉ Manager.readyModels (mgr st2)).
  { rewrite Hr2, Hst1. simpl. exact Hr. }
  assert (Hw1 : handlers st1 !! w = Some (m, p1)).
  { rewrite Hst1. simpl. apply lookup_insert_eq. }
  split.
  { split; [exact Hs2 |].
    split; [apply bool_decide_eq_false_2; exact Hnl2 |].
    split; [apply bool_decide_eq_false_2; exact Hnr2 |].
    rewrite Hh2. exact Hw1. }
  intros p2 w2 st3.
  pose proof (initModel_creates m st2 Hnr2 Hnl2) as Hst3. cbv zeta in Hst3.
  fold p2 w2 st3 in Hst3.
  assert (Hp2 : p2 = S (S (S p1))).
  { unfold p2. rewrite Hn2, Hst1. reflexivity. }
  assert (Hne : w2 <> w) by (unfold w2, w; lia).
  split; [exact Hne |].
  rewrite Hst3. simpl.
  split; [apply lookup_insert_eq |].
  split; [rewrite lookup_insert_ne by exact Hne; rewrite Hh2; exact Hw1 |].
  split; [apply lookup_insert_eq |].
  split; [apply bool_decide_eq_true_2; set_solver |].
  apply settled_fresh; [apply wf_step; exact Hwf1 | fold st2 p2; lia].
Qed.

Lemma load_failure_retry_witness :
  let st := new_page one_model in
  let st2 := step (Message 3 (EError "no network")) (step (InitModel "m" None) st) in
  let st3 := step (InitModel "m" None) st2 in
  settled st2 !! 1%nat = Some (Rejected "no network") /\
  Manager.workers (mgr st3) !! "m"%string = Some 6%nat /\
  handlers st3 !! 3%nat = Some ("m"%string, 1%nat).
Proof.
  destruct (load_failure_retry (new_page one_model) "m"
              (Message 3 (EError "no network")) "no network"
              (wf_new_page one_model))
    as (_ & _ & (Hs & _) & _ & _ & Hw & Hwk & _).
  - apply not_elem_of_empty.
  - apply not_elem_of_empty.
  - left. reflexivity.
  - split; [exact Hs |]. split; [exact Hwk | exact Hw].
Defined.

End LoadRetry.

Section FileNames.

Import JS Utils.

Ltac unit_cases :=
  unfold filename_char, is_ascii_letter, is_ascii_digit, is_whitespace,
    markdown_char, hyphen, underscore, space, line_feed, backtick in *;
  repeat (rewrite ?orb_true_iff, ?andb_true_iff, ?orb_false_iff,
            ?andb_false_iff, ?negb_true_iff, ?negb_false_iff,
            ?N.leb_le, ?N.leb_gt, ?N.eqb_eq, ?N.eqb_neq in * ).

(** The code units [sanitizeFilename] lets through unchanged. *)
Lemma kept_unit (c : N) :
  filename_char c = true /\ is_whitespace c = false <->
  is_ascii_letter c || is_ascii_digit c || (c =? hyphen)%N = true.
Proof. unit_cases. lia. Qed.

Lemma Forall_trimStart (P : N -> Prop) (s : jsstring) :
  Forall P s -> Forall P (trimStart s).
Proof.
  induction 1 as [|c s Hc Hs IH]; simpl; [constructor |].
  destruct (is_whitespace c); [exact IH | constructor; assumption].
Qed.

Lemma Forall_trim (P : N -> Prop) (s : jsstring) :
  Forall P s -> Forall P (trim s).
Proof.
  intros H. unfold trim, trimEnd.
  apply Forall_reverse, Forall_trimStart, Forall_reverse, Forall_trimStart, H.
Qed.

Lemma trimStart_snoc (u : jsstring) (c : N) :
  is_whitespace c = false -> trimStart (u ++ [c]) = trimStart u ++ [c].
Proof.
  intros Hc. induction u as [|x u IH]; simpl; [rewrite Hc; reflexivity |].
  destruct (is_whitespace x); [exact IH | reflexivity].
Qed.

Lemma trimEnd_cons (c : N) (t : jsstring) :
  is_whitespace c = false -> trimEnd (c :: t) = c :: trimEnd t.
Proof.
  intros Hc. unfold trimEnd. rewrite reverse_cons, trimStart_snoc by exact Hc.
  rewrite reverse_app. reflexivity.
Qed.

(** The first code unit of a trimmed string is the first one that is
    not white space. *)
Lemma head_trimStart (s : list N) :
  head (trimStart s) = head (filter (fun c => is_whitespace c = false) s).
Proof.
  induction s as [|c s IH]; [reflexivity |]. cbn [trimStart].
  destruct (is_whitespace c) eqn:Hc.
  - rewrite filter_cons_False by congruence. exact IH.
  - rewrite filter_cons_True by exact Hc. reflexivity.
Qed.

Lemma trimStart_head (s : jsstring) (c : N) (t : jsstring) :
  trimStart s = c :: t -> is_whitespace c = false.
Proof.
  induction s as [|x s IH]; simpl; [discriminate |].
  destruct (is_whitespace x) eqn:Hx; [exact IH | intros [= <- _]; exact Hx].
Qed.

Lemma head_trim (s : list N) :
  head (trim s) = head (filter (fun c => is_whitespace c = false) s).
Proof.
  unfold trim. rewrite <- head_trimStart.
  destruct (trimStart s) as [|c t] eqn:Hs; [reflexivity |].
  rewrite trimEnd_cons by (eapply trimStart_head; exact Hs). reflexivity.
Qed.

Lemma head_trim_unit (s : list N) (c : N) :
  head (trim s) = Some c -> is_whitespace c = false.
Proof.
  rewrite head_trim. intros H.
  assert (Hin : c ∈ filter (fun c => is_whitespace c = false) s).
  { destruct (filter _ s) as [|x l]; simpl in H; [discriminate |].
    injection H as ->. left. }
  apply list_elem_of_filter in Hin. tauto.
Qed.

Lemma Forall_replace_runs (X : N -> bool) (r : jsstring) (P : N -> Prop)
      (s : jsstring) :
  Forall P r -> Forall (fun c => X c = false -> P c) s ->
  forall b, Forall P (replace_runs X r b s).
Proof.
  intros Hr. induction 1 as [|c s Hc Hs IH]; intros b; simpl; [constructor |].
  destruct (X c) eqn:Hx.
  - apply Forall_app. split; [destruct b; [constructor | exact Hr] | apply IH].
  - constructor; [apply Hc; reflexivity | apply IH].
Qed.

Lemma head_replace_runs (X : N -> bool) (r : jsstring) (c : N) (s : jsstring) :
  X c = false -> replace_runs X r false (c :: s) = c :: replace_runs X r false s.
Proof. intros Hc. simpl. rewrite Hc. reflexivity. Qed.

(** A run is replaced by one underscore, so no two underscores are
    neighbours when the text had none. *)
Lemma single_underscores (s : jsstring) :
  Forall (fun c => c <> underscore) s ->
  forall b,
    let o := replace_runs is_whitespace (str "_") b s in
    (forall i, o !! i = Some underscore -> o !! S i <> Some underscore) /\
    (b = true -> head o <> Some underscore).
Proof.
  induction 1 as [|c s Hc Hs IH]; intros b; cbv zeta.
  - simpl. split; [intros [|i]; discriminate | discriminate].
  - simpl. destruct (is_whitespace c) eqn:Hw.
    + destruct (IH true) as [IH1 IH2]. destruct b; simpl.
      * split; [exact IH1 | intros _; apply IH2; reflexivity].
      * split; [| discriminate].
        intros [|i]; simpl; [| apply IH1].
        intros _. rewrite <- head_lookup. apply IH2. reflexivity.
    + destruct (IH false) as [IH1 _]. split.
      * intros [|i]; simpl; [| apply IH1]. intros [= ->]. contradiction.
      * intros _. simpl. intros [= ->]. contradiction.
Qed.

Lemma or_else_length (x d : jsstring) :
  (1 <= length d)%nat -> (1 <= length (or_else x d))%nat.
Proof. destruct x; simpl; lia. Qed.

(** X10. Whatever the title, [sanitizeFilename] returns a name of 1 to
    50 code units made only of ASCII letters, digits, hyphens and
    underscores, which does not begin with an underscore and never has
    two underscores in a row. *)
Theorem sanitizeFilename_safe (name : jsstring) :
  let r := sanitizeFilename name in
  (1 <= length r <= 50)%nat /\
  Forall (fun c => is_ascii_letter c || is_ascii_digit c
                   || (c =? hyphen)%N || (c =? underscore)%N = true) r /\
  head r <> Some underscore /\
  (forall i, r !! i = Some underscore -> r !! S i <> Some underscore).
Proof.
  cbv zeta. unfold sanitizeFilename.
  set (kept := remove_all (fun c => negb (filename_char c)) name).
  set (t := trim kept).
  set (o := replace_runs is_whitespace (str "_") false t).
  assert (Hkept : Forall (fun c => filename_char c = true) kept).
  { unfold kept, remove_all. apply Forall_forall. intros c Hc.
    apply list_elem_of_filter in Hc as [Hc _].
    apply negb_false_iff in Hc. exact Hc. }
  assert (Ht : Forall (fun c => filename_char c = true) t)
    by apply Forall_trim, Hkept.
  assert (Ho : Forall (fun c => is_ascii_letter c || is_ascii_digit c
                                || (c =? hyphen)%N || (c =? underscore)%N = true) o).
  { apply Forall_replace_runs; [repeat constructor |].
    eapply Forall_impl; [exact Ht |]. intros c Hc Hw. simpl in *.
    pose proof (proj1 (kept_unit c) (conj Hc Hw)) as Hk.
    rewrite Hk. reflexivity. }
  assert (Hnu : Forall (fun c => c <> underscore) t).
  { eapply Forall_impl; [exact Ht |]. intros c Hc ->. vm_compute in Hc.
    discriminate. }
  destruct (single_underscores t Hnu false) as [Hsingle _]. fold o in Hsingle.
  assert (Hhead : head o <> Some underscore).
  { unfold o. pose proof Hnu as Hnu'.
    destruct t as [|c t'] eqn:Heq; [discriminate |].
    apply Forall_cons in Hnu' as [Hc _].
    assert (Hw : is_whitespace c = false).
    { apply (head_trim_unit kept). fold t. rewrite Heq. reflexivity. }
    rewrite head_replace_runs by exact Hw. simpl. intros [= ->].
    contradiction. }
  destruct (take 50 o) as [|c l] eqn:Htake.
  - cbn [or_else]. set (d := str "conversation"). vm_compute in d. subst d.
    unfold underscore.
    split; [simpl; lia |]. split; [repeat constructor |].
    split; [simpl; discriminate |].
    intros i Hi. exfalso. revert Hi.
    do 12 (destruct i as [|i]; [discriminate |]). discriminate.
  - cbn [or_else]. rewrite <- Htake.
    split; [split; [rewrite Htake; simpl; lia | rewrite length_take; lia] |].
    split; [apply Forall_take, Ho |].
    split.
    + rewrite Htake. simpl. intros [= ->].
      apply Hhead. destruct o; simpl in *; [discriminate |].
      injection Htake as -> _. reflexivity.
    + intros i Hi Hi'.
      apply lookup_take_Some in Hi as [Hi _].
      apply lookup_take_Some in Hi' as [Hi' _].
      exact (Hsingle i Hi Hi').
Qed.

(** X11. [sanitizeFilename] names the export after the first ASCII
    letter, digit or hyphen of the title and what follows it; a title
    that holds none of these (one in another script, say) is exported as
    'conversation'. *)
Theorem sanitizeFilename_first (name : jsstring) :
  match head (filter (fun c => is_ascii_letter c || is_ascii_digit c
                               || (c =? hyphen)%N = true) name) with
  | Some c => head (sanitizeFilename name) = Some c
  | None => sanitizeFilename name = str "conversation"
  end.
Proof.
  unfold sanitizeFilename.
  set (kept := remove_all (fun c => negb (filename_char c)) name).
  assert (Hhead : head (trim kept)
                  = head (filter (fun c => is_ascii_letter c || is_ascii_digit c
                                           || (c =? hyphen)%N = true) name)).
  { rewrite head_trim. unfold kept, remove_all, jsstring.
    rewrite list_filter_filter. f_equal. apply list_filter_iff.
    intros c. rewrite <- kept_unit, negb_false_iff. tauto. }
  rewrite <- Hhead.
  destruct (trim kept) as [|c t] eqn:Ht; simpl; [reflexivity |].
  assert (Hw : is_whitespace c = false).
  { apply (head_trim_unit kept). rewrite Ht. reflexivity. }
  rewrite Hw. reflexivity.
Qed.

End FileNames.

Section Titles.

Import JS Utils.

Lemma Forall_remove_code_blocks (P : N -> Prop) (s : jsstring) :
  Forall P s -> forall k, Forall P (remove_code_blocks k s).
Proof.
  induction 1 as [|c s Hc Hs IH]; intros k; simpl; [constructor |].
  destruct k; [| apply IH].
  destruct (code_block_length (c :: s)); [apply IH |].
  constructor; [exact Hc | apply IH].
Qed.

Lemma Forall_remove_all (X : N -> bool) (P : N -> Prop) (s : list N) :
  Forall P s -> Forall (fun c => X c = false /\ P c) (remove_all X s).
Proof.
  intros H. unfold remove_all. apply Forall_forall. intros c Hc.
  apply list_elem_of_filter in Hc as [Hx Hin]. split; [exact Hx |].
  rewrite Forall_forall in H. auto.
Qed.

(** The text a title is made of holds no backtick, no Markdown mark and
    no line feed. *)
Lemma title_text_units (content : jsstring) :
  Forall (fun c => markdown_char c = false /\ c <> backtick /\ c <> line_feed)
         (title_text content).
Proof.
  unfold title_text. apply Forall_trim.
  apply Forall_replace_runs.
  - repeat constructor; discriminate.
  - set (s := remove_code_blocks 0 content).
    pose proof (Forall_remove_all (fun c => (c =? backtick)%N) (fun _ => True) s
                  (Forall_true _ _ (fun _ => I))) as H1.
    pose proof (Forall_remove_all markdown_char _ _ H1) as H2.
    eapply Forall_impl; [exact H2 |].
    intros c (Hm & Hb & _) Hl. simpl in *.
    apply N.eqb_neq in Hb, Hl. auto.
Qed.

Lemma lastIndexOf_loop_spec (c : N) (s : jsstring) :
  forall (i found : Z),
    let r := lastIndexOf_loop c s i found in
    (Forall (fun x => x <> c) s /\ r = found) \/
    (exists k : nat,
        (k < length s)%nat /\ r = i + Z.of_nat k /\ s !! k = Some c /\
        forall j, (k < j)%nat -> s !! j <> Some c).
Proof.
  induction s as [|x s IH]; intros i found; cbv zeta; simpl.
  - left. split; [constructor | reflexivity].
  - destruct (IH (i + 1) (if (x =? c)%N then i else found))
      as [[Hall Hr] | (k & Hk & Hr & Hl & Hlast)].
    + destruct (x =? c)%N eqn:Hx.
      * apply N.eqb_eq in Hx. subst x. right. exists 0%nat.
        split; [lia |]. split; [lia |]. split; [reflexivity |].
        intros [|j] Hj; [lia |]. simpl. intros Hj'.
        apply list_elem_of_lookup_2 in Hj'.
        rewrite Forall_forall in Hall. apply (Hall _ Hj'). reflexivity.
      * apply N.eqb_neq in Hx. left. split; [constructor; assumption | exact Hr].
    + right. exists (S k). split; [lia |]. split; [lia |].
      split; [exact Hl |].
      intros [|j] Hj; [lia |]. simpl. apply Hlast. lia.
Qed.

Lemma lastIndexOf_spec (c : N) (s : jsstring) :
  (lastIndexOf c s = -1 /\ Forall (fun x => x <> c) s) \/
  (exists k : nat,
      (k < length s)%nat /\ lastIndexOf c s = Z.of_nat k /\ s !! k = Some c /\
      forall j, (k < j)%nat -> s !! j <> Some c).
Proof.
  unfold lastIndexOf.
  destruct (lastIndexOf_loop_spec c s 0 (-1))
    as [[Hall Hr] | (k & Hk & Hr & Hl & Hlast)]; [left; auto |].
  right. exists k. rewrite Hr. repeat split; auto.
Qed.

(** X12. [generateTitle] never returns the empty string; the title is
    'New Chat' or has at most [maxLength] + 3 code units; and it holds no
    backtick, none of the Markdown marks [#*_~[]()] and no line feed. *)
Theorem generateTitle_clean (content : jsstring) (maxLength : nat) :
  let t := generateTitle content maxLength in
  t <> [] /\
  (t = str "New Chat" \/ (length t <= maxLength + 3)%nat) /\
  Forall (fun c => markdown_char c = false /\ c <> backtick /\ c <> line_feed) t.
Proof.
  cbv zeta. unfold generateTitle.
  pose proof (title_text_units content) as Hunits.
  set (cleaned := title_text content) in *.
  assert (Hdots : Forall (fun c => markdown_char c = false /\ c <> backtick /\
                                   c <> line_feed) (str "..."))
    by (repeat constructor; discriminate).
  destruct (length cleaned <=? maxLength)%nat eqn:Hlen.
  - apply Nat.leb_le in Hlen. destruct cleaned as [|c l] eqn:Hc; simpl.
    + split; [discriminate |]. split; [left; reflexivity |].
      repeat constructor; discriminate.
    + split; [discriminate |]. split; [right; simpl in Hlen; lia | exact Hunits].
  - set (truncated := take maxLength cleaned).
    assert (Htr : Forall (fun c => markdown_char c = false /\ c <> backtick /\
                                   c <> line_feed) truncated)
      by apply Forall_take, Hunits.
    assert (Hlt : (length truncated <= maxLength)%nat)
      by (unfold truncated; rewrite length_take; lia).
    destruct (3 * Z.of_nat maxLength <? 5 * lastIndexOf space truncated).
    + split; [intros [_ [=]]%app_eq_nil |].
      split; [right; rewrite length_app, length_take; simpl; lia |].
      apply Forall_app. split; [apply Forall_take, Htr | exact Hdots].
    + split; [intros [_ [=]]%app_eq_nil |].
      split; [right; rewrite length_app; simpl; lia |].
      apply Forall_app. split; [exact Htr | exact Hdots].
Qed.

(** X13. A text that fits is the title as it is.  A longer one is cut:
    at the last space among its first [maxLength] code units when that
    space lies beyond three fifths of [maxLength], so that the title ends
    with a whole word, and after [maxLength] code units otherwise; in
    both cases '...' is appended. *)
Theorem generateTitle_cut (content : jsstring) (maxLength : nat) :
  let cleaned := title_text content in
  let t := generateTitle content maxLength in
  ((length cleaned <= maxLength)%nat -> cleaned <> [] -> t = cleaned) /\
  ((maxLength < length cleaned)%nat ->
   exists k : nat,
     t = take k cleaned ++ str "..." /\
     ((k = maxLength /\
       forall j, (j < maxLength)%nat -> cleaned !! j = Some space ->
                 (5 * j <= 3 * maxLength)%nat) \/
      ((k < maxLength)%nat /\ (3 * maxLength < 5 * k)%nat /\
       cleaned !! k = Some space /\
       forall j, (k < j < maxLength)%nat -> cleaned !! j <> Some space))).
Proof.
  cbv zeta. unfold generateTitle.
  set (cleaned := title_text content).
  split.
  - intros Hlen Hne. apply Nat.leb_le in Hlen. rewrite Hlen.
    destruct cleaned; [contradiction | reflexivity].
  - intros Hlen. apply Nat.leb_gt in Hlen. rewrite Hlen.
    apply Nat.leb_gt in Hlen.
    set (truncated := take maxLength cleaned).
    assert (Hlt : length truncated = maxLength)
      by (unfold truncated; rewrite length_take; lia).
    assert (Hlook : forall j, (j < maxLength)%nat -> truncated !! j = cleaned !! j).
    { intros j Hj. unfold truncated. apply lookup_take_lt. exact Hj. }
    destruct (lastIndexOf_spec space truncated)
      as [[Hr Hall] | (k & Hk & Hr & Hl & Hlast)]; rewrite Hr.
    + replace (3 * Z.of_nat maxLength <? 5 * -1) with false
        by (symmetry; apply Z.ltb_ge; lia).
      exists maxLength. split; [reflexivity |]. left. split; [reflexivity |].
      intros j Hj Hsp. exfalso. rewrite <- Hlook in Hsp by exact Hj.
      apply list_elem_of_lookup_2 in Hsp. rewrite Forall_forall in Hall.
      apply (Hall _ Hsp). reflexivity.
    + destruct (3 * Z.of_nat maxLength <? 5 * Z.of_nat k) eqn:Hcmp.
      * apply Z.ltb_lt in Hcmp. exists k. rewrite Nat2Z.id. split.
        -- unfold truncated. rewrite take_take. f_equal. f_equal. lia.
        -- right. split; [lia |]. split; [lia |].
           split; [rewrite <- Hlook by lia; exact Hl |].
           intros j [Hj1 Hj2]. rewrite <- Hlook by lia. apply Hlast, Hj1.
      * apply Z.ltb_ge in Hcmp. exists maxLength. split; [reflexivity |].
        left. split; [reflexivity |].
        intros j Hj Hsp. rewrite <- Hlook in Hsp by exact Hj.
        destruct (decide (j <= k)%nat) as [Hle | Hgt]; [lia |].
        exfalso. apply (Hlast j); [lia | exact Hsp].
Qed.

End Titles.

Section RelativeTime.

Import JS Utils.

Lemma whole_units (seconds unit_seconds : Z) :
  0 < unit_seconds ->
  (1 <=? seconds / unit_seconds) = (unit_seconds <=? seconds).
Proof.
  intros Hu. apply eq_true_iff_eq. rewrite !Z.leb_le. split.
  - intros H. pose proof (Z.mul_div_le seconds unit_seconds Hu). nia.
  - intros H. apply Z.div_le_lower_bound; lia.
Qed.

Lemma in_intervals (l : string) (u : Z) :
  (l, u) ∈ intervals ->
  u = 31536000 \/ u = 2592000 \/ u = 604800 \/ u = 86400 \/ u = 3600 \/ u = 60.
Proof.
  unfold intervals. intros Hin.
  repeat (apply elem_of_cons in Hin as [[= -> ->] | Hin]; [tauto |]).
  inversion Hin.
Qed.

(** X14. For times in the range of [Date] from 1970 on, both whole
    numbers of milliseconds: [formatRelativeTime] answers 'just now' for
    everything less than a minute old (and for a time in the future);
    otherwise it names the largest of year, month (30 days), week, day,
    hour and minute that has gone by at least once, with the whole
    number of such units, and writes the plural exactly when that
    number exceeds one.  The number is at most 59 for minutes, 23 for
    hours, 6 for days, 4 for weeks, 12 for months and 273972 for
    years. *)
Theorem formatRelativeTime_units (now timestamp : Z) :
  time_value now -> time_value timestamp ->
  let seconds := (now - timestamp) / 1000 in
  (seconds < 60 -> formatRelativeTime now timestamp = "just now"%string) /\
  (60 <= seconds ->
   exists (label : string) (unit_seconds : Z),
     (label, unit_seconds) ∈ intervals /\
     unit_seconds <= seconds /\
     (forall l u, (l, u) ∈ intervals -> u <= seconds -> u <= unit_seconds) /\
     let count := seconds / unit_seconds in
     formatRelativeTime now timestamp
     = (pretty count +:+ " " +:+ label
        +:+ (if (1 <? count)%Z then "s" else EmptyString) +:+ " ago")%string /\
     1 <= count /\
     (label = "minute"%string -> count <= 59) /\
     (label = "hour"%string -> count <= 23) /\
     (label = "day"%string -> count <= 6) /\
     (label = "week"%string -> count <= 4) /\
     (label = "month"%string -> count <= 12) /\
     (label = "year"%string -> count <= 273972)).
Proof.
  intros Hnow Hts seconds.
  assert (Hmax : seconds < 8640000000001).
  { unfold seconds, time_value in *. apply Z.div_lt_upper_bound; lia. }
  set (F := formatRelativeTime now timestamp).
  assert (HF : F = formatRelativeTime_loop seconds
                     [("year", 31536000); ("month", 2592000); ("week", 604800);
                      ("day", 86400); ("hour", 3600); ("minute", 60)]%string)
    by reflexivity.
  cbn [formatRelativeTime_loop] in HF. rewrite !whole_units in HF by lia.
  split.
  - intros Hs. rewrite HF.
    repeat (rewrite (proj2 (Z.leb_gt _ _)) by lia). reflexivity.
  - intros Hs.
    destruct (31536000 <=? seconds) eqn:H1; [apply Z.leb_le in H1 | apply Z.leb_gt in H1].
    { exists "year"%string, 31536000. split; [unfold intervals; set_solver |].
      split; [lia |]. split.
      - intros l u Hin Hu. apply in_intervals in Hin. lia.
      - cbv zeta. split; [exact HF |].
        split; [apply Z.div_le_lower_bound; lia |].
        repeat split; try discriminate.
        intros _. apply Z.lt_succ_r, Z.div_lt_upper_bound; lia. }
    destruct (2592000 <=? seconds) eqn:H2; [apply Z.leb_le in H2 | apply Z.leb_gt in H2].
    { exists "month"%string, 2592000. split; [unfold intervals; set_solver |].
      split; [lia |]. split.
      - intros l u Hin Hu. apply in_intervals in Hin. lia.
      - cbv zeta. split; [exact HF |].
        split; [apply Z.div_le_lower_bound; lia |].
        repeat split; try discriminate.
        intros _. apply Z.lt_succ_r, Z.div_lt_upper_bound; lia. }
    destruct (604800 <=? seconds) eqn:H3; [apply Z.leb_le in H3 | apply Z.leb_gt in H3].
    { exists "week"%string, 604800. split; [unfold intervals; set_solver |].
      split; [lia |]. split.
      - intros l u Hin Hu. apply in_intervals in Hin. lia.
      - cbv zeta. split; [exact HF |].
        split; [apply Z.div_le_lower_bound; lia |].
        repeat split; try discriminate.
        intros _. apply Z.lt_succ_r, Z.div_lt_upper_bound; lia. }
    destruct (86400 <=? seconds) eqn:H4; [apply Z.leb_le in H4 | apply Z.leb_gt in H4].
    { exists "day"%string, 86400. split; [unfold intervals; set_solver |].
      split; [lia |]. split.
      - intros l u Hin Hu. apply in_intervals in Hin. lia.
      - cbv zeta. split; [exact HF |].
        split; [apply Z.div_le_lower_bound; lia |].
        repeat split; try discriminate.
        intros _. apply Z.lt_succ_r, Z.div_lt_upper_bound; lia. }
    destruct (3600 <=? seconds) eqn:H5; [apply Z.leb_le in H5 | apply Z.leb_gt in H5].
    { exists "hour"%string, 3600. split; [unfold intervals; set_solver |].
      split; [lia |]. split.
      - intros l u Hin Hu. apply in_intervals in Hin. lia.
      - cbv zeta. split; [exact HF |].
        split; [apply Z.div_le_lower_bound; lia |].
        repeat split; try discriminate.
        intros _. apply Z.lt_succ_r, Z.div_lt_upper_bound; lia. }
    rewrite (proj2 (Z.leb_le 60 seconds)) in HF by lia.
    exists "minute"%string, 60. split; [unfold intervals; set_solver |].
    split; [lia |]. split.
    + intros l u Hin Hu. apply in_intervals in Hin. lia.
    + cbv zeta. split; [exact HF |].
      split; [apply Z.div_le_lower_bound; lia |].
      repeat split; try discriminate.
      intros _. apply Z.lt_succ_r, Z.div_lt_upper_bound; lia.
Qed.

Lemma formatRelativeTime_units_witness :
  time_value 1700000000000 /\ time_value 1699999990000 /\
  formatRelativeTime 1700000000000 1699999990000 = "just now"%string.
Proof.
  assert (Hnow : time_value 1700000000000) by (unfold time_value; lia).
  assert (Hts : time_value 1699999990000) by (unfold time_value; lia).
  split; [exact Hnow |]. split; [exact Hts |].
  apply (formatRelativeTime_units 1700000000000 1699999990000 Hnow Hts).
  vm_compute. reflexivity.
Defined.

End RelativeTime.

Section DisplayNames.

Import JS Utils.

Lemma last_part_plain (part s : list N) :
  Forall (fun c => c <> slash) s -> last_part part s = reverse part ++ s.
Proof.
  revert part. induction s as [|c s IH]; intros part Hs.
  - simpl. rewrite app_nil_r. reflexivity.
  - apply Forall_cons in Hs as [Hc Hs]. simpl.
    rewrite (proj2 (N.eqb_neq c slash) Hc), IH by exact Hs.
    rewrite reverse_cons, <- app_assoc. reflexivity.
Qed.

Lemma last_part_slash (part org name : list N) :
  last_part part (org ++ slash :: name) = last_part [] name.
Proof.
  revert part. induction org as [|c org IH]; intros part; simpl.
  - reflexivity.
  - destruct (c =? slash)%N; apply IH.
Qed.

Lemma last_part_units (P : N -> Prop) (part s : list N) :
  Forall P part -> Forall P s -> Forall P (last_part part s).
Proof.
  revert part. induction s as [|c s IH]; intros part Hp Hs.
  - simpl. rewrite Forall_forall in *. intros x Hx. apply Hp.
    apply elem_of_reverse. exact Hx.
  - apply Forall_cons in Hs as [Hc Hs]. simpl.
    destruct (c =? slash)%N; apply IH; auto.
Qed.

Lemma last_part_no_slash (part s : list N) :
  Forall (fun c => c <> slash) part ->
  Forall (fun c => c <> slash) (last_part part s).
Proof.
  revert part. induction s as [|c s IH]; intros part Hp.
  - simpl. rewrite Forall_forall in *. intros x Hx. apply Hp.
    apply elem_of_reverse. exact Hx.
  - simpl. destruct (c =? slash)%N eqn:Hc.
    + apply IH. constructor.
    + apply IH. constructor; [apply N.eqb_neq; exact Hc | exact Hp].
Qed.

Lemma remove_matches_units (P : N -> Prop) (ml : list N -> option nat)
      (s : list N) :
  Forall P s -> forall skip, Forall P (remove_matches ml skip s).
Proof.
  induction 1 as [|c s Hc Hs IH]; intros skip; simpl; [constructor |].
  destruct skip; [| apply IH].
  destruct (ml (c :: s)); [apply IH |].
  constructor; [exact Hc | apply IH].
Qed.

(** A pattern that begins with a character the string does not hold
    matches nowhere in it. *)
Lemma remove_matches_none (ml : list N -> option nat) (first : N) (s : list N) :
  (forall c rest, c <> first -> ml (c :: rest) = None) ->
  Forall (fun c => c <> first) s ->
  remove_matches ml 0 s = s.
Proof.
  intros Hml. induction 1 as [|c s Hc Hs IH]; simpl; [reflexivity |].
  rewrite (Hml c s Hc), IH. reflexivity.
Qed.

Lemma quantization_first (c : N) (rest : list N) :
  c <> underscore -> quantization_length (c :: rest) = None.
Proof.
  intros Hc. unfold quantization_length. destruct rest as [|q rest]; [reflexivity |].
  rewrite (proj2 (N.eqb_neq c underscore) Hc). reflexivity.
Qed.

Lemma instruct_first (c : N) (rest : list N) :
  c <> hyphen -> instruct_length (c :: rest) = None.
Proof.
  intros Hc. unfold instruct_length.
  rewrite bool_decide_eq_false_2; [reflexivity |].
  cbn [take map]. change (str "-instruct") with (hyphen :: str "instruct").
  intros [= Hl _]. apply Hc. unfold lower in Hl.
  destruct ((65 <=? c) && (c <=? 90))%N eqn:Hup; [| exact Hl].
  apply andb_prop in Hup as [H1 H2].
  apply N.leb_le in H1, H2. unfold hyphen in Hl. lia.
Qed.

Lemma spaces_for_underscores (s : list N) :
  Forall (fun c => c <> slash) s ->
  Forall (fun c => c <> slash /\ c <> underscore)
         (map (fun c => if (c =? underscore)%N then space else c) s).
Proof.
  induction 1 as [|c s Hc Hs IH]; simpl; constructor; [| exact IH].
  destruct (c =? underscore)%N eqn:Hu.
  - split; discriminate.
  - split; [exact Hc | apply N.eqb_neq; exact Hu].
Qed.

(** X25. The name [getModelDisplayName] gives never holds a slash or an
    underscore.  Of an identifier it uses what follows the last slash,
    so one that ends in a slash gets the empty name, not 'Unknown'; an
    identifier without slash, underscore and hyphen is its own name;
    and every character of a name is a space or comes from the
    identifier. *)
Theorem getModelDisplayName_clean (modelId : option jsstring) :
  Forall (fun c => c <> slash /\ c <> underscore) (getModelDisplayName modelId) /\
  (forall org name : jsstring,
     name <> [] -> Forall (fun c => c <> slash) name ->
     getModelDisplayName (Some (org ++ slash :: name))
     = getModelDisplayName (Some name)) /\
  (forall org : jsstring, getModelDisplayName (Some (org ++ [slash])) = []) /\
  (forall id : jsstring,
     modelId = Some id -> id <> [] ->
     Forall (fun c => c <> slash /\ c <> underscore /\ c <> hyphen) id ->
     getModelDisplayName modelId = id) /\
  (forall id : jsstring,
     modelId = Some id -> id <> [] ->
     Forall (fun c => c = space \/ c ∈ id) (getModelDisplayName modelId)).
Proof.
  unfold jsstring in *.
  assert (Hsome : forall id : list N,
             id <> [] ->
             getModelDisplayName (Some id)
             = map (fun c => if (c =? underscore)%N then space else c)
                 (remove_matches instruct_length 0
                    (remove_matches instruct_length 0
                       (remove_matches quantization_length 0
                          (last_part [] id))))).
  { intros [|c id] Hid; [congruence | reflexivity]. }
  split; [| split; [| split; [| split]]].
  - destruct modelId as [[|c id] |];
      [apply (bool_decide_unpack _); vm_compute; reflexivity | |
       apply (bool_decide_unpack _); vm_compute; reflexivity].
    rewrite Hsome by discriminate.
    apply spaces_for_underscores.
    do 3 apply remove_matches_units.
    apply last_part_no_slash. constructor.
  - intros org name Hname Hplain.
    assert (Hne : org ++ slash :: name <> [])
      by (destruct org; discriminate).
    rewrite (Hsome _ Hne), (Hsome _ Hname), last_part_slash. reflexivity.
  - intros org.
    assert (Hne : org ++ [slash] <> []) by (destruct org; discriminate).
    rewrite (Hsome _ Hne), last_part_slash. reflexivity.
  - intros id -> Hid Hplain. rewrite (Hsome _ Hid).
    rewrite last_part_plain
      by (eapply Forall_impl; [exact Hplain | intros c (? & ? & ?); assumption]).
    change (reverse [] ++ id) with id.
    assert (Hu : Forall (fun c => c <> underscore) id)
      by (eapply Forall_impl; [exact Hplain | intros c (? & ? & ?); assumption]).
    assert (Hh : Forall (fun c => c <> hyphen) id)
      by (eapply Forall_impl; [exact Hplain | intros c (? & ? & ?); assumption]).
    rewrite (remove_matches_none quantization_length underscore id
               quantization_first Hu).
    rewrite !(remove_matches_none instruct_length hyphen id instruct_first Hh).
    clear Hid Hsome Hu Hh.
    induction Hplain as [|c id (_ & Hc & _) _ IH]; [reflexivity |].
    simpl. rewrite (proj2 (N.eqb_neq c underscore) Hc), IH. reflexivity.
  - intros id -> Hid. rewrite (Hsome _ Hid).
    assert (Hfrom : Forall (fun c => c ∈ id)
                      (remove_matches instruct_length 0
                         (remove_matches instruct_length 0
                            (remove_matches quantization_length 0
                               (last_part [] id))))).
    { do 3 apply remove_matches_units.
      apply last_part_units; [constructor |].
      apply Forall_forall. auto. }
    induction Hfrom as [|c l Hc _ IH]; simpl; constructor; [| exact IH].
    destruct (c =? underscore)%N; [left; reflexivity | right; exact Hc].
Qed.

End DisplayNames.

Section TimerDelay.

Import Timing.

Lemma timeout_of_nonneg (delay : Z) : 0 <= timeout_of delay.
Proof. unfold timeout_of. lia. Qed.

(** A delay that fits into 31 bits is waited for in full. *)
Lemma timeout_of_small (delay : Z) :
  0 <= delay < 2 ^ 31 -> timeout_of delay = delay.
Proof.
  intros Hd. unfold timeout_of, to_long.
  rewrite Z.mod_small by lia. lia.
Qed.

(** The first delay that is not: its timer is due at once. *)
Lemma timeout_of_wraps : timeout_of (2 ^ 31) = 0.
Proof. reflexivity. Qed.

End TimerDelay.

Section DebounceCalls.

Import Timing TimingSpec.

Context {A : Type}.
Variable delay : Z.

Lemma settled_calls_request (t : Z) (args : A) (l : list (TimerEvent A)) :
  settled_calls delay l -> settled_calls delay (Requested t args :: l).
Proof.
  intros Hl pre T a post Heq.
  destruct pre as [|e pre]; [discriminate |].
  injection Heq as _ Heq. eapply Hl. exact Heq.
Qed.

Lemma debounced_pending (args : A) (st : Debounced A) :
  pending delay st -> pending delay (debounced delay args st).
Proof.
  intros Hp.
  assert (Hempty : forall t, timeoutId st = Some t ->
                             delete t (timers (d_clock st)) = ∅).
  { intros t Ht. unfold pending in Hp.
    destruct (log (d_clock st)) as [|[t0 a | T a] l].
    - rewrite Hp. apply delete_empty.
    - destruct Hp as (t' & Ht' & ->).
      replace t' with t by congruence. apply delete_singleton_eq.
    - rewrite Hp. apply delete_empty. }
  assert (Hnone : timeoutId st = None -> timers (d_clock st) = ∅).
  { intros Ht. unfold pending in Hp.
    destruct (log (d_clock st)) as [|[t0 a | T a] l]; try exact Hp.
    destruct Hp as (t' & Ht' & _). congruence. }
  unfold pending, debounced.
  destruct (timeoutId st) as [t |] eqn:Hid; simpl.
  - exists (next_timer (d_clock st)). split; [reflexivity |].
    rewrite (Hempty t) by reflexivity. reflexivity.
  - exists (next_timer (d_clock st)). split; [reflexivity |].
    rewrite Hnone by reflexivity. reflexivity.
Qed.

(** A timer that runs is the one of the newest request. *)
Lemma due_pending (t : nat) (h : Handler A) (c : Clock A) (st : Debounced A) :
  pending delay st ->
  due t (d_clock st) = Some (h, c) ->
  exists t0 args rest,
    log (d_clock st) = Requested t0 args :: rest /\
    h = Apply args /\ t0 + timeout_of delay <= now (d_clock st) /\
    now c = now (d_clock st) /\ log c = log (d_clock st) /\ timers c = ∅.
Proof.
  unfold pending, due. intros Hp Hdue.
  destruct (timers (d_clock st) !! t) as [[deadline h'] |] eqn:Ht; [| discriminate].
  destruct (deadline <=? now (d_clock st)) eqn:Hd; [| discriminate].
  injection Hdue as <- <-. apply Z.leb_le in Hd.
  destruct (log (d_clock st)) as [|[t0 a | T a] l].
  - rewrite Hp in Ht. discriminate.
  - destruct Hp as (t' & _ & Htimers). rewrite Htimers in Ht.
    apply lookup_singleton_Some in Ht as [<- [= <- <-]].
    exists t0, a, l. simpl. rewrite Htimers.
    repeat split; [exact Hd | apply delete_singleton_eq].
  - rewrite Hp in Ht. discriminate.
Qed.

Lemma debounce_step_invariant (i : TimerInput A) (st : Debounced A) :
  pending delay st /\ settled_calls delay (log (d_clock st)) ->
  pending delay (debounce_step delay i st) /\
  settled_calls delay (log (d_clock (debounce_step delay i st))).
Proof.
  intros [Hp Hl]. destruct i as [args | dt | t]; simpl.
  - split; [apply debounced_pending; exact Hp |].
    unfold debounced. simpl.
    replace (log (clearTimeout (timeoutId st)
                    (record (Requested (now (d_clock st)) args) (d_clock st))))
      with (Requested (now (d_clock st)) args :: log (d_clock st))
      by (destruct (timeoutId st); reflexivity).
    apply settled_calls_request. exact Hl.
  - destruct (0 <=? dt); [| split; assumption].
    split; [exact Hp | exact Hl].
  - destruct (due t (d_clock st)) as [[h c] |] eqn:Hdue; [| split; assumption].
    destruct (due_pending t h c st Hp Hdue)
      as (t0 & args & rest & Hlog & -> & Hle & Hnow & Hc & Hempty).
    split.
    + unfold pending. simpl. exact Hempty.
    + simpl. rewrite Hc, Hlog, Hnow. intros pre T a post Heq.
      destruct pre as [|e pre].
      * injection Heq as <- <- <-. exists t0, rest. split; [reflexivity | exact Hle].
      * injection Heq as _ Heq. rewrite <- Hlog in Heq. eapply Hl. exact Heq.
Qed.

Lemma debounce_run_invariant (ins : list (TimerInput A)) :
  pending delay (debounce_run delay ins) /\
  settled_calls delay (log (d_clock (debounce_run delay ins))).
Proof.
  unfold debounce_run.
  induction ins as [|i ins IH] using rev_ind.
  - split; [reflexivity |].
    intros pre T a post Heq. destruct pre; discriminate.
  - rewrite foldl_app. simpl. apply debounce_step_invariant. exact IH.
Qed.

(** X15. A function made by [debounce] calls [fn] only from the timer of
    the newest request: every call of [fn] comes directly after the
    request whose arguments it takes, the timeout of [delay] or more
    after it, so a request overtaken by another one is never passed on,
    and at any time the only armed timer is that of the newest request
    not yet passed on.  A request left alone for that timeout is passed
    on when its timer runs.  The timeout is [delay] milliseconds for a
    delay from 0 to 2^31 - 1; [setTimeout] reads a larger one as a
    32-bit signed number, so that a delay of 2^31 is not waited for at
    all. *)
Theorem debounce_latest (ins : list (TimerInput A)) (args : A) :
  let st := debounce_run delay ins in
  settled_calls delay (log (d_clock st)) /\
  pending delay st /\
  (let t := next_timer (d_clock st) in
   let T := now (d_clock st) in
   log (d_clock (debounce_run delay
                   (ins ++ [Call args; Elapse (timeout_of delay); Timeout t])))
   = Applied (T + timeout_of delay) args :: Requested T args
       :: log (d_clock st)) /\
  (0 <= delay < 2 ^ 31 -> timeout_of delay = delay) /\
  timeout_of (2 ^ 31) = 0.
Proof.
  intros st. destruct (debounce_run_invariant ins) as [Hp Hl]. fold st in Hp, Hl.
  split; [exact Hl |]. split; [exact Hp |].
  split; [| split; [apply timeout_of_small | reflexivity]].
  intros t T. unfold debounce_run. rewrite foldl_app. fold (debounce_run delay ins).
  fold st. cbn [foldl].
  set (st1 := debounce_step delay (Call args) st).
  assert (H1 : timers (d_clock st1) !! t = Some (T + timeout_of delay, Apply args) /\
               now (d_clock st1) = T /\
               log (d_clock st1) = Requested T args :: log (d_clock st)).
  { subst st1. unfold debounce_step, debounced. simpl.
    destruct (timeoutId st); simpl; (split; [apply lookup_insert_eq | split; reflexivity]). }
  destruct H1 as (Htimer & Hnow & Hlog).
  assert (H0 : (0 <=? timeout_of delay) = true)
    by (apply Z.leb_le, timeout_of_nonneg).
  unfold debounce_step at 2. rewrite H0.
  unfold debounce_step, due. cbn [d_clock advance timers now].
  rewrite Htimer, Hnow.
  rewrite (proj2 (Z.leb_le _ _) (Z.le_refl _)).
  simpl. subst T. destruct (timeoutId st); reflexivity.
Qed.

End DebounceCalls.

Section ThrottleCalls.

Import Timing TimingSpec.

Context {A : Type}.
Variable fn_returns : A -> bool.
Variable limit : Z.

Lemma calls_before_le (b1 b2 : Z) (l : list (TimerEvent A)) :
  calls_before fn_returns limit b1 l -> b1 <= b2 ->
  calls_before fn_returns limit b2 l.
Proof. intros H Hle T a Hin Hr. specialize (H T a Hin Hr). lia. Qed.

Lemma calls_before_request (b t : Z) (args : A) (l : list (TimerEvent A)) :
  calls_before fn_returns limit b l ->
  calls_before fn_returns limit b (Requested t args :: l).
Proof.
  intros H T a Hin Hr. apply elem_of_cons in Hin as [[=] | Hin].
  eapply H; eassumption.
Qed.

Lemma immediate_calls_request (t : Z) (args : A) (l : list (TimerEvent A)) :
  immediate_calls l -> immediate_calls (Requested t args :: l).
Proof.
  intros Hl pre T a post Heq.
  destruct pre as [|e pre]; [discriminate |].
  injection Heq as _ Heq. eapply Hl. exact Heq.
Qed.

Lemma spaced_calls_request (t : Z) (args : A) (l : list (TimerEvent A)) :
  spaced_calls fn_returns limit l ->
  spaced_calls fn_returns limit (Requested t args :: l).
Proof.
  intros Hl pre T2 a2 mid T1 a1 post Heq.
  destruct pre as [|e pre]; [discriminate |].
  injection Heq as _ Heq. eapply Hl. exact Heq.
Qed.

(** A call of [fn] made now, after the time of every earlier one that
    returned has passed, keeps the calls apart. *)
Lemma spaced_calls_applied (T : Z) (args : A) (l : list (TimerEvent A)) :
  spaced_calls fn_returns limit l ->
  calls_before fn_returns limit T l ->
  spaced_calls fn_returns limit (Applied T args :: l).
Proof.
  intros Hl Hb pre T2 a2 mid T1 a1 post Heq Hr.
  destruct pre as [|e pre].
  - injection Heq as <- <- ->. apply (Hb T1 a1); [| exact Hr].
    apply elem_of_app. right. left.
  - injection Heq as _ Heq. eapply Hl; eassumption.
Qed.

Lemma throttled_invariant (args : A) (st : Throttled A) :
  throttle_inv fn_returns limit st ->
  throttle_inv fn_returns limit (throttled fn_returns limit args st).
Proof.
  intros [Hflag Hpast Himm Hsp]. unfold throttling in Hflag. unfold throttled.
  pose proof (timeout_of_nonneg limit) as Hlimit.
  destruct (inThrottle st) eqn:Hin.
  - destruct Hflag as (t & d & Ht & Hb).
    split; simpl.
    + unfold throttling. simpl. exists t, d.
      split; [exact Ht | apply calls_before_request; exact Hb].
    + intros T a Hel. apply elem_of_cons in Hel as [[=] | Hel]. eapply Hpast, Hel.
    + apply immediate_calls_request, Himm.
    + apply spaced_calls_request, Hsp.
  - destruct Hflag as [Hempty Hb].
    assert (Hpast' : forall T a,
               Applied T a ∈ Applied (now (t_clock st)) args
                 :: Requested (now (t_clock st)) args :: log (t_clock st) ->
               T <= now (t_clock st)).
    { intros T a Hel. apply elem_of_cons in Hel as [[= -> _] | Hel]; [lia |].
      apply elem_of_cons in Hel as [[=] | Hel]. eapply Hpast, Hel. }
    assert (Himm' : immediate_calls
                      (Applied (now (t_clock st)) args
                         :: Requested (now (t_clock st)) args :: log (t_clock st))).
    { intros pre T a post Heq. destruct pre as [|e pre].
      - injection Heq as <- <- <-. eexists. reflexivity.
      - injection Heq as _ Heq.
        eapply (immediate_calls_request _ _ _ Himm). exact Heq. }
    assert (Hsp' : spaced_calls fn_returns limit
                     (Applied (now (t_clock st)) args
                        :: Requested (now (t_clock st)) args :: log (t_clock st))).
    { apply spaced_calls_applied.
      - apply spaced_calls_request, Hsp.
      - apply calls_before_request, Hb. }
    destruct (fn_returns args) eqn:Hr; split; simpl;
      try exact Hpast'; try exact Himm'; try exact Hsp'.
    + unfold throttling. simpl.
      exists (next_timer (t_clock st)), (now (t_clock st) + timeout_of limit).
      split; [rewrite Hempty; reflexivity |].
      intros T a Hel Hra. apply elem_of_cons in Hel as [[= -> _] | Hel]; [lia |].
      apply elem_of_cons in Hel as [[=] | Hel].
      specialize (Hb T a Hel Hra). lia.
    + unfold throttling. simpl. split; [exact Hempty |].
      intros T a Hel Hra. apply elem_of_cons in Hel as [[= -> ->] | Hel]; [congruence |].
      apply elem_of_cons in Hel as [[=] | Hel]. exact (Hb T a Hel Hra).
Qed.

Lemma throttle_step_invariant (i : TimerInput A) (st : Throttled A) :
  throttle_inv fn_returns limit st ->
  throttle_inv fn_returns limit (throttle_step fn_returns limit i st).
Proof.
  intros Hinv. destruct i as [args | dt | t]; simpl.
  - apply throttled_invariant, Hinv.
  - destruct (0 <=? dt) eqn:Hdt; [apply Z.leb_le in Hdt | exact Hinv].
    destruct Hinv as [Hflag Hpast Himm Hsp]. split; simpl; try assumption.
    + unfold throttling in *. simpl. destruct (inThrottle st); [exact Hflag |].
      destruct Hflag as [Hempty Hb]. split; [exact Hempty |].
      eapply calls_before_le; [exact Hb | lia].
    + intros T a Hel. specialize (Hpast T a Hel). lia.
  - unfold due.
    destruct (timers (t_clock st) !! t) as [[d h] |] eqn:Ht; [| exact Hinv].
    destruct (d <=? now (t_clock st)) eqn:Hd; [apply Z.leb_le in Hd | exact Hinv].
    destruct Hinv as [Hflag Hpast Himm Hsp]. unfold throttling in Hflag.
    destruct (inThrottle st).
    + destruct Hflag as (t' & d' & Htimers & Hb). rewrite Htimers in Ht.
      apply lookup_singleton_Some in Ht as [<- [= <- <-]].
      split; simpl; try assumption.
      unfold throttling. simpl. rewrite Htimers.
      split; [apply delete_singleton_eq |].
      eapply calls_before_le; [exact Hb | exact Hd].
    + destruct Hflag as [Hempty _]. rewrite Hempty in Ht. discriminate.
Qed.

Lemma throttle_run_invariant (ins : list (TimerInput A)) :
  throttle_inv fn_returns limit (throttle_run fn_returns limit ins).
Proof.
  unfold throttle_run.
  induction ins as [|i ins IH] using rev_ind.
  - split; simpl.
    + split; [reflexivity |]. intros T a Hel. inversion Hel.
    + intros T a Hel. inversion Hel.
    + intros pre T a post Heq. destruct pre; discriminate.
    + intros pre T2 a2 mid T1 a1 post Heq. destruct pre; discriminate.
  - rewrite foldl_app. simpl. apply throttle_step_invariant. exact IH.
Qed.

(** X16. A function made by [throttle] calls [fn] only inside a request,
    with that request's arguments, so a request that comes while the
    throttle is on is dropped for good; after a call of [fn] that
    returned, [fn] is not called again for the timeout of [limit].  A
    request made while the throttle is off is passed on at once, and the
    one after it is dropped, unless [fn] threw: then the throttle stays
    off and the next request is passed on as well.  The timeout is
    [limit] milliseconds for a limit from 0 to 2^31 - 1; [setTimeout]
    reads a larger one as a 32-bit signed number, so that a limit of
    2^31 throttles nothing. *)
Theorem throttle_spacing (ins : list (TimerInput A)) (a b : A) :
  let st := throttle_run fn_returns limit ins in
  let T := now (t_clock st) in
  immediate_calls (log (t_clock st)) /\
  spaced_calls fn_returns limit (log (t_clock st)) /\
  throttling fn_returns limit st /\
  (inThrottle st = false ->
   log (t_clock (throttle_run fn_returns limit (ins ++ [Call a; Call b])))
   = if fn_returns a
     then Requested T b :: Applied T a :: Requested T a :: log (t_clock st)
     else Applied T b :: Requested T b :: Applied T a :: Requested T a
            :: log (t_clock st)) /\
  (0 <= limit < 2 ^ 31 -> timeout_of limit = limit) /\
  timeout_of (2 ^ 31) = 0.
Proof.
  intros st T. destruct (throttle_run_invariant ins) as [Hflag _ Himm Hsp].
  fold st in Hflag, Himm, Hsp.
  split; [exact Himm |]. split; [exact Hsp |]. split; [exact Hflag |].
  split; [| split; [apply timeout_of_small | reflexivity]].
  intros Hoff. unfold throttle_run. rewrite foldl_app.
  fold (throttle_run fn_returns limit ins). fold st.
  cbn [foldl throttle_step]. unfold throttled at 2. rewrite Hoff.
  destruct (fn_returns a) eqn:Ha.
  - unfold throttled. simpl. reflexivity.
  - unfold throttled. simpl. destruct (fn_returns b); reflexivity.
Qed.

End ThrottleCalls.

Section Settings.

Import JS Store StoreSpec.

(** Two stores with the same tables are the same store. *)
Lemma DB_eq (a b : DB) :
  conversations a = conversations b ->
  next_conversation a = next_conversation b ->
  messages a = messages b ->
  next_message a = next_message b ->
  settings a = settings b ->
  a = b.
Proof. destruct a, b. simpl. intros -> -> -> -> ->. reflexivity. Qed.

Lemma defaults_keys :
  NoDup defaults.*1 /\ (list_to_map defaults : gmap string Setting) !! "__proto__"%string = None.
Proof.
  split; [| reflexivity].
  apply (bool_decide_unpack _). vm_compute. reflexivity.
Qed.

(** The loop of [initializeSettings] over any list of defaults with
    different keys. *)
Lemma fill_settings (existing : gmap string Setting) (l : list (string * Setting)) :
  NoDup l.*1 ->
  forall (d : DB) (k : string),
    settings (foldl (fun d '(key, value) =>
                       if bool_decide (is_Some (existing !! key)) then d
                       else setSetting key value d) d l) !! k
    = match (list_to_map l : gmap string Setting) !! k with
      | Some v => if bool_decide (is_Some (existing !! k)) then settings d !! k
                  else Some v
      | None => settings d !! k
      end.
Proof.
  induction l as [|[k0 v0] l IH]; intros Hnd d k; [reflexivity |].
  apply NoDup_cons in Hnd as [Hk0 Hnd].
  cbn [foldl list_to_map foldr fmap list_fmap uncurry fst snd].
  rewrite (IH Hnd).
  assert (Hnone : (list_to_map l : gmap string Setting) !! k0 = None)
    by (apply not_elem_of_list_to_map_1; exact Hk0).
  destruct (decide (k = k0)) as [-> | Hne].
  - rewrite Hnone, lookup_insert_eq.
    destruct (bool_decide (is_Some (existing !! k0))); [reflexivity |].
    simpl. apply lookup_insert_eq.
  - rewrite (lookup_insert_ne _ k0 k) by congruence.
    assert (Hd : settings (if bool_decide (is_Some (existing !! k0)) then d
                           else setSetting k0 v0 d) !! k = settings d !! k).
    { destruct (bool_decide (is_Some (existing !! k0))); [reflexivity |].
      simpl. apply lookup_insert_ne. congruence. }
    rewrite Hd. reflexivity.
Qed.

Lemma fill_tables (existing : gmap string Setting) (l : list (string * Setting)) :
  forall d : DB,
    let d' := foldl (fun d '(key, value) =>
                       if bool_decide (is_Some (existing !! key)) then d
                       else setSetting key value d) d l in
    conversations d' = conversations d /\
    next_conversation d' = next_conversation d /\
    messages d' = messages d /\ next_message d' = next_message d.
Proof.
  induction l as [|[k0 v0] l IH]; intros d; [repeat split |].
  cbn [foldl]. cbv zeta in IH.
  destruct (IH (if bool_decide (is_Some (existing !! k0)) then d
                else setSetting k0 v0 d)) as (H1 & H2 & H3 & H4).
  rewrite H1, H2, H3, H4.
  destruct (bool_decide (is_Some (existing !! k0))); repeat split.
Qed.

(** The store after [initializeSettings]: the settings it had, and the
    defaults for the keys it had not. *)
Lemma initializeSettings_settings (db : DB) :
  settings (initializeSettings db).2 = settings db ∪ list_to_map defaults.
Proof.
  destruct defaults_keys as [Hnd Hproto].
  apply map_eq. intros k. unfold initializeSettings. cbn [snd].
  rewrite (fill_settings _ _ Hnd), lookup_union. unfold getAllSettings.
  destruct ((list_to_map defaults : gmap string Setting) !! k) as [v |] eqn:Hk.
  - assert (Hne : k <> "__proto__"%string) by congruence.
    rewrite lookup_delete_ne by congruence.
    destruct (settings db !! k) as [w |] eqn:Hw.
    + rewrite bool_decide_eq_true_2 by eauto. reflexivity.
    + rewrite bool_decide_eq_false_2 by (intros [? [=]]). reflexivity.
  - destruct (settings db !! k); reflexivity.
Qed.

Lemma initializeSettings_result (db : DB) :
  (initializeSettings db).1 = getAllSettings (initializeSettings db).2.
Proof.
  destruct defaults_keys as [_ Hproto].
  unfold getAllSettings at 1. rewrite initializeSettings_settings.
  rewrite delete_union. rewrite (delete_id (list_to_map defaults)) by exact Hproto.
  reflexivity.
Qed.

Lemma initializeSettings_tables (db : DB) :
  conversations (initializeSettings db).2 = conversations db /\
  next_conversation (initializeSettings db).2 = next_conversation db /\
  messages (initializeSettings db).2 = messages db /\
  next_message (initializeSettings db).2 = next_message db.
Proof. unfold initializeSettings. cbn [snd]. apply fill_tables. Qed.

(** X17. [initializeSettings] stores the default of every setting the
    store has no row for and changes no row it has, also none that
    holds [null]; the object it returns is what [getAllSettings] then
    reads; conversations and messages stay as they are; and run again
    it returns the same and changes nothing. *)
Theorem initializeSettings_fills (db : DB) :
  let result := (initializeSettings db).1 in
  let db' := (initializeSettings db).2 in
  settings db' = settings db ∪ list_to_map defaults /\
  (forall key value, (key, value) ∈ defaults ->
     settings db' !! key = Some (default value (settings db !! key))) /\
  result = getAllSettings db' /\
  conversations db' = conversations db /\ messages db' = messages db /\
  initializeSettings db' = (result, db').
Proof.
  intros result db'. subst result db'.
  destruct defaults_keys as [Hnd Hproto].
  split; [apply initializeSettings_settings |].
  split; [| split; [apply initializeSettings_result |]].
  - intros key value Hin. rewrite initializeSettings_settings, lookup_union.
    rewrite (elem_of_list_to_map_1 _ _ _ Hnd Hin).
    destruct (settings db !! key); reflexivity.
  - destruct (initializeSettings_tables db) as (Hc & Hnc & Hm & Hnm).
    split; [exact Hc |]. split; [exact Hm |].
    assert (Hsame : settings (initializeSettings (initializeSettings db).2).2
                    = settings (initializeSettings db).2).
    { rewrite !initializeSettings_settings.
      rewrite <- map_union_assoc, map_union_idemp. reflexivity. }
    rewrite (surjective_pairing (initializeSettings (initializeSettings db).2)).
    f_equal.
    + rewrite !initializeSettings_result. unfold getAllSettings.
      rewrite Hsame. reflexivity.
    + destruct (initializeSettings_tables (initializeSettings db).2)
        as (Hc' & Hnc' & Hm' & Hnm').
      apply DB_eq; assumption.
Qed.

(** X18. A setting written with [setSetting] is read back by
    [getSetting], except that a stored [null] or [undefined] reads as
    the caller's default; other keys are not affected and the last
    write wins.  [initializeSettings] leaves the written value in place
    whatever it is, so a setting stored as [null] keeps reading as the
    caller's default, not as the application's. *)
Theorem settings_roundtrip (db : DB) (key : string) (value defaultValue : Setting) :
  let db' := setSetting key value db in
  getSetting key defaultValue db' = coalesce value defaultValue /\
  (forall key', key' <> key ->
     getSetting key' defaultValue db' = getSetting key' defaultValue db) /\
  (forall value', setSetting key value' db' = setSetting key value' db) /\
  settings (initializeSettings db').2 !! key = Some value /\
  getSetting key defaultValue (initializeSettings db').2 = coalesce value defaultValue.
Proof.
  intros db'. subst db'.
  assert (Hkept : settings (initializeSettings (setSetting key value db)).2 !! key
                  = Some value).
  { rewrite initializeSettings_settings, lookup_union.
    unfold setSetting. cbn [settings]. rewrite lookup_insert_eq.
    destruct ((list_to_map defaults : gmap string Setting) !! key); reflexivity. }
  split; [| split; [| split; [| split]]].
  - unfold getSetting. simpl. rewrite lookup_insert_eq. reflexivity.
  - intros key' Hne. unfold getSetting. simpl.
    rewrite lookup_insert_ne by congruence. reflexivity.
  - intros value'. apply DB_eq; try reflexivity.
    simpl. apply insert_insert_eq.
  - exact Hkept.
  - unfold getSetting. rewrite Hkept. reflexivity.
Qed.

End Settings.

Section ClearAllData.

Import JS Store StoreSpec History.

(** X23. [clearAllData], once confirmed, empties the conversations and
    the messages but deletes no setting: every setting the user had
    changed is still stored afterwards and is what the page takes as
    its settings, and only settings that had no row get their default.
    Keys of deleted rows are not given out again.  Declined, it changes
    nothing. *)
Theorem clearAllData_keeps_settings (db : DB) :
  let db' := (clearAllData true db).2 in
  conversations db' = [] /\ messages db' = [] /\
  next_conversation db' = next_conversation db /\
  next_message db' = next_message db /\
  settings db' = settings db ∪ list_to_map defaults /\
  (forall key value, settings db !! key = Some value ->
     settings db' !! key = Some value) /\
  (clearAllData true db).1 = Some (getAllSettings db ∪ list_to_map defaults) /\
  (forall key value, settings db !! key = Some value -> key <> "__proto__"%string ->
     exists s, (clearAllData true db).1 = Some s /\ s !! key = Some value) /\
  clearAllData false db = (None, db).
Proof.
  intros db'. subst db'. unfold clearAllData.
  set (d0 := deleteAllConversations db).
  rewrite (surjective_pairing (initializeSettings d0)).
  cbn [fst snd].
  destruct (initializeSettings_tables d0) as (Hc & Hnc & Hm & Hnm).
  pose proof (initializeSettings_settings d0) as Hs.
  change (settings d0) with (settings db) in Hs.
  split; [exact Hc |]. split; [exact Hm |].
  split; [exact Hnc |]. split; [exact Hnm |].
  split; [exact Hs |].
  split; [| split; [| split]].
  - intros key value Hk. rewrite Hs, lookup_union, Hk.
    destruct ((list_to_map defaults : gmap string Setting) !! key); reflexivity.
  - reflexivity.
  - intros key value Hk Hne. eexists. split; [reflexivity |].
    unfold initializeSettings, getAllSettings. cbn [fst].
    change (settings d0) with (settings db).
    rewrite lookup_union, lookup_delete_ne, Hk by congruence.
    destruct ((list_to_map defaults : gmap string Setting) !! key); reflexivity.
  - reflexivity.
Qed.

End ClearAllData.

Section Sorting.

Import JS Store StoreSpec.

Context {X : Type}.
Variable key : X -> Z.

Lemma insert_by_perm (x : X) (l : list X) : insert_by key x l ≡ₚ x :: l.
Proof.
  induction l as [|y l IH]; [reflexivity |].
  simpl. destruct (key x <=? key y); [reflexivity |].
  rewrite IH. apply Permutation_swap.
Qed.

Lemma sort_by_perm (l : list X) : sort_by key l ≡ₚ l.
Proof.
  induction l as [|x l IH]; [reflexivity |].
  unfold sort_by in *. simpl. rewrite insert_by_perm, IH. reflexivity.
Qed.

Lemma insert_by_sorted (x : X) (l : list X) :
  sorted_by key l -> sorted_by key (insert_by key x l).
Proof.
  induction l as [|y l IH]; intros Hs.
  - simpl. split; [| exact I]. intros y Hy. inversion Hy.
  - destruct Hs as [Hy Hs]. simpl.
    destruct (key x <=? key y) eqn:Hle;
      [apply Z.leb_le in Hle | apply Z.leb_gt in Hle].
    + split; [| split; assumption].
      intros z Hz. apply elem_of_cons in Hz as [-> | Hz]; [exact Hle |].
      specialize (Hy z Hz). lia.
    + split; [| apply IH; exact Hs].
      intros z Hz. rewrite insert_by_perm in Hz.
      apply elem_of_cons in Hz as [-> | Hz]; [lia | apply Hy; exact Hz].
Qed.

Lemma sort_by_sorted (l : list X) : sorted_by key (sort_by key l).
Proof.
  induction l as [|x l IH]; [exact I |].
  unfold sort_by in *. simpl. apply insert_by_sorted. exact IH.
Qed.

(** A row that is not older than any row of the list goes last. *)
Lemma insert_by_snoc (y x : X) (l : list X) :
  key y <= key x ->
  insert_by key y (l ++ [x]) = insert_by key y l ++ [x].
Proof.
  intros Hle. induction l as [|z l IH]; simpl.
  - rewrite (proj2 (Z.leb_le _ _) Hle). reflexivity.
  - destruct (key y <=? key z); [reflexivity |]. rewrite IH. reflexivity.
Qed.

Lemma sort_by_snoc (x : X) (l : list X) :
  (forall y, y ∈ l -> key y <= key x) ->
  sort_by key (l ++ [x]) = sort_by key l ++ [x].
Proof.
  induction l as [|y l IH]; intros Hx; [reflexivity |].
  unfold sort_by in *. simpl. rewrite IH.
  - apply insert_by_snoc. apply Hx. left.
  - intros z Hz. apply Hx. right. exact Hz.
Qed.

(** Leaving rows out and sorting can be done in either order. *)
Lemma insert_by_filter (P : X -> Prop) `{!forall x, Decision (P x)}
      (x : X) (l : list X) :
  sorted_by key l ->
  filter P (insert_by key x l)
  = if decide (P x) then insert_by key x (filter P l) else filter P l.
Proof.
  induction l as [|y l IH]; intros Hs.
  - simpl. rewrite filter_cons, filter_nil. destruct (decide (P x)); reflexivity.
  - destruct Hs as [Hy Hs]. simpl.
    destruct (key x <=? key y) eqn:Hle;
      [apply Z.leb_le in Hle | apply Z.leb_gt in Hle].
    + rewrite (filter_cons P x). destruct (decide (P x)) as [Hx | Hx]; [| reflexivity].
      f_equal. rewrite (filter_cons P y).
      destruct (decide (P y)).
      * simpl. rewrite (proj2 (Z.leb_le _ _) Hle). reflexivity.
      * destruct (filter P l) as [|z l'] eqn:Hf; [reflexivity |].
        simpl. assert (Hz : z ∈ l).
        { assert (Hz' : z ∈ filter P l) by (rewrite Hf; left).
          apply list_elem_of_filter in Hz'. tauto. }
        specialize (Hy z Hz).
        rewrite (proj2 (Z.leb_le (key x) (key z))) by lia. reflexivity.
    + rewrite !(filter_cons P y), IH by exact Hs.
      destruct (decide (P y)); destruct (decide (P x)); try reflexivity.
      simpl. rewrite (proj2 (Z.leb_gt _ _) Hle). reflexivity.
Qed.

Lemma sort_by_filter (P : X -> Prop) `{!forall x, Decision (P x)} (l : list X) :
  sort_by key (filter P l) = filter P (sort_by key l).
Proof.
  induction l as [|x l IH]; [reflexivity |].
  rewrite filter_cons. unfold sort_by in *. cbn [foldr].
  rewrite insert_by_filter by apply sort_by_sorted.
  destruct (decide (P x)); [cbn [foldr]; rewrite IH; reflexivity | exact IH].
Qed.

(** Changing rows without touching the sort key does not move them. *)
Lemma sort_by_map (f : X -> X) (l : list X) :
  (forall x, key (f x) = key x) ->
  sort_by key (map f l) = map f (sort_by key l).
Proof.
  intros Hf. induction l as [|x l IH]; [reflexivity |].
  unfold sort_by in *. cbn [map foldr]. rewrite IH.
  generalize (foldr (insert_by key) [] l). intros s.
  induction s as [|y s IHs]; [reflexivity |].
  simpl. rewrite !Hf. destruct (key x <=? key y); [reflexivity |].
  simpl. rewrite IHs. reflexivity.
Qed.

(** The last row of a sorted list is not older than any other. *)
Lemma sorted_by_last (l : list X) (x y : X) :
  sorted_by key l -> last l = Some x -> y ∈ l -> key y <= key x.
Proof.
  induction l as [|z l IH]; intros Hs Hlast Hy; [inversion Hy |].
  destruct Hs as [Hz Hs].
  destruct l as [|z' l'].
  - injection Hlast as <-. apply list_elem_of_singleton in Hy as ->. lia.
  - change (last (z :: z' :: l')) with (last (z' :: l')) in Hlast.
    apply elem_of_cons in Hy as [-> | Hy]; [| apply IH; assumption].
    apply Hz. apply list_elem_of_lookup. rewrite last_lookup in Hlast. eauto.
Qed.

End Sorting.

Section Messages.

Import JS Store StoreSpec.

Lemma filter_none {X : Type} (P : X -> Prop) `{!forall x, Decision (P x)}
      (l : list X) :
  (forall x, x ∈ l -> ~ P x) -> filter P l = [].
Proof.
  induction l as [|x l IH]; intros Hall; [reflexivity |].
  rewrite filter_cons_False by (apply Hall; left).
  apply IH. intros y Hy. apply Hall. right. exact Hy.
Qed.

Lemma filter_all {X : Type} (P : X -> Prop) `{!forall x, Decision (P x)}
      (l : list X) :
  (forall x, x ∈ l -> P x) -> filter P l = l.
Proof.
  induction l as [|x l IH]; intros Hall; [reflexivity |].
  rewrite filter_cons_True by (apply Hall; left).
  f_equal. apply IH. intros y Hy. apply Hall. right. exact Hy.
Qed.

Lemma filter_within {X : Type} (P Q : X -> Prop)
      `{!forall x, Decision (P x)} `{!forall x, Decision (Q x)} (l : list X) :
  (forall x, x ∈ l -> P x -> Q x) -> filter P (filter Q l) = filter P l.
Proof.
  induction l as [|x l IH]; intros Hall; [reflexivity |].
  assert (IH' : filter P (filter Q l) = filter P l)
    by (apply IH; intros y Hy; apply Hall; right; exact Hy).
  rewrite (filter_cons Q x). destruct (decide (Q x)) as [Hq | Hq].
  - rewrite !(filter_cons P x), IH'. reflexivity.
  - rewrite IH', (filter_cons_False P) by (intros Hp; apply Hq, Hall; [left | exact Hp]).
    reflexivity.
Qed.

Lemma find_filter (p : Conversation -> bool) (Q : Conversation -> Prop)
      `{!forall x, Decision (Q x)} (l : list Conversation) :
  (forall x, p x = true -> Q x) -> find p (filter Q l) = find p l.
Proof.
  intros Hall. induction l as [|x l IH]; [reflexivity |].
  rewrite (filter_cons Q x). simpl. destruct (decide (Q x)) as [Hq | Hq].
  - simpl. rewrite IH. reflexivity.
  - destruct (p x) eqn:Hp; [exfalso; apply Hq, Hall, Hp | exact IH].
Qed.

Lemma find_none (p : Conversation -> bool) (l : list Conversation) :
  (forall x, x ∈ l -> p x = false) -> find p l = None.
Proof.
  induction l as [|x l IH]; intros Hall; [reflexivity |].
  simpl. rewrite (Hall x) by left. apply IH. intros y Hy. apply Hall. right. exact Hy.
Qed.

Lemma find_touch (c : nat) (now : Z) (id : nat) (l : list Conversation) :
  find (fun x => bool_decide (c_id x = id)) (map (touch c now) l)
  = touch c now <$> find (fun x => bool_decide (c_id x = id)) l.
Proof.
  induction l as [|x l IH]; [reflexivity |].
  assert (Hid : c_id (touch c now x) = c_id x)
    by (unfold touch; destruct (bool_decide (c_id x = c)); reflexivity).
  cbn [map find]. rewrite Hid.
  destruct (bool_decide (c_id x = id)); [reflexivity | exact IH].
Qed.

(** What [getMessages] reads after [addMessage]. *)
Lemma getMessages_addMessage (db : DB) (c c' : nat) (role : string)
      (content : jsstring) (model : option string) (now : Z) :
  getMessages c' (addMessage c role content model now db).2
  = sort_by m_createdAt
      (filter (fun m => m_conversationId m = c') (messages db) ++
       if decide (c = c')
       then [{| m_id := next_message db; m_conversationId := c; m_role := role;
                m_content := content; m_model := model; m_createdAt := now |}]
       else []).
Proof.
  unfold getMessages, addMessage. cbn [snd messages].
  rewrite filter_app, filter_cons, filter_nil. cbn [m_conversationId].
  reflexivity.
Qed.

(** X19. [addMessage] gives the message the next key and hands it to
    [getMessages] of its conversation, which stays sorted by
    [createdAt]; the lists of the other conversations do not change,
    and of the conversations only the one of the message changes, in
    its [updatedAt].  The message comes last if no message of the
    conversation carries a later time; if one does, because the clock
    was set back, the new message is not the last one of the list. *)
Theorem addMessage_order (db : DB) (c : nat) (role : string)
        (content : jsstring) (model : option string) (now : Z) :
  let db' := (addMessage c role content model now db).2 in
  let new := {| m_id := next_message db; m_conversationId := c; m_role := role;
                m_content := content; m_model := model; m_createdAt := now |} in
  (addMessage c role content model now db).1 = next_message db /\
  getMessages c db' ≡ₚ new :: getMessages c db /\
  sorted_by m_createdAt (getMessages c db') /\
  ((forall m, m ∈ getMessages c db -> m_createdAt m <= now) ->
   getMessages c db' = getMessages c db ++ [new]) /\
  ((exists m, m ∈ getMessages c db /\ now < m_createdAt m) ->
   last (getMessages c db') <> Some new) /\
  (forall c', c' <> c -> getMessages c' db' = getMessages c' db) /\
  (forall c', getConversation c' db' = touch c now <$> getConversation c' db).
Proof.
  intros db' new. subst db'.
  assert (Hget : getMessages c (addMessage c role content model now db).2
                 = sort_by m_createdAt
                     (filter (fun m => m_conversationId m = c) (messages db)
                        ++ [new])).
  { rewrite getMessages_addMessage. rewrite decide_True by reflexivity. reflexivity. }
  assert (Hperm : getMessages c (addMessage c role content model now db).2
                  ≡ₚ new :: getMessages c db).
  { rewrite Hget. unfold getMessages. rewrite !sort_by_perm.
    rewrite Permutation_app_comm. reflexivity. }
  split; [reflexivity |]. split; [exact Hperm |].
  split; [apply sort_by_sorted |].
  split; [| split; [| split]].
  - intros Hmono. rewrite Hget. unfold getMessages. apply sort_by_snoc.
    intros y Hy. apply (Hmono y). unfold getMessages.
    rewrite sort_by_perm. exact Hy.
  - intros (m & Hm & Hlate) Hlast.
    assert (Hin : m ∈ getMessages c (addMessage c role content model now db).2)
      by (rewrite Hperm; right; exact Hm).
    pose proof (sorted_by_last m_createdAt _ new m
                  (sort_by_sorted m_createdAt _) Hlast Hin) as Hle.
    simpl in Hle. lia.
  - intros c' Hne. rewrite getMessages_addMessage.
    rewrite decide_False by congruence. rewrite app_nil_r. reflexivity.
  - intros c'. unfold getConversation, addMessage. cbn [snd conversations].
    apply find_touch.
Qed.

(** X20. [deleteConversation] removes the conversation and the messages
    filed under its key and nothing else.  The store does not ask that
    a message belongs to a conversation: a message added under the
    deleted key is kept and listed under that key, which no
    conversation holds, until the key is deleted once more. *)
Theorem deleteConversation_exact (db : DB) (id : nat) (role : string)
        (content : jsstring) (model : option string) (now : Z) :
  let db' := deleteConversation id db in
  let late := (addMessage id role content model now db').2 in
  getConversation id db' = None /\ getMessages id db' = [] /\
  (forall c, c <> id ->
     getConversation c db' = getConversation c db /\
     getMessages c db' = getMessages c db) /\
  settings db' = settings db /\
  getConversation id late = None /\
  getMessages id late
  = [{| m_id := next_message db; m_conversationId := id; m_role := role;
        m_content := content; m_model := model; m_createdAt := now |}] /\
  getMessages id (deleteConversation id late) = [].
Proof.
  intros db' late.
  assert (Hgone : forall d, getConversation id (deleteConversation id d) = None).
  { intros d. unfold getConversation, deleteConversation. simpl.
    apply find_none. intros x Hx. apply list_elem_of_filter in Hx as [Hx _].
    apply bool_decide_eq_false_2. exact Hx. }
  assert (Hempty : forall d, getMessages id (deleteConversation id d) = []).
  { intros d. unfold getMessages, deleteConversation. simpl.
    rewrite filter_none; [reflexivity |].
    intros x Hx. apply list_elem_of_filter in Hx as [Hx _]. exact Hx. }
  split; [apply Hgone |]. split; [apply Hempty |].
  split; [| split; [reflexivity |]].
  - intros c Hne. split.
    + unfold getConversation, db', deleteConversation. simpl.
      apply (find_filter _ (fun x => c_id x <> id)).
      intros x Hx. apply bool_decide_eq_true_1 in Hx. congruence.
    + unfold getMessages, db', deleteConversation. simpl.
      rewrite (filter_within (fun m => m_conversationId m = c)); [reflexivity |].
      intros x _ Hx. congruence.
  - split; [| split; [| apply Hempty]].
    + unfold late, getConversation, addMessage. cbn [snd conversations].
      rewrite find_touch. fold (getConversation id db'). unfold db'.
      rewrite Hgone. reflexivity.
    + unfold late. rewrite getMessages_addMessage, decide_True by reflexivity.
      assert (Hnone : filter (fun m => m_conversationId m = id) (messages db') = []).
      { unfold db', deleteConversation. simpl. apply filter_none.
        intros x Hx. apply list_elem_of_filter in Hx as [Hx _]. exact Hx. }
      rewrite Hnone. reflexivity.
Qed.

End Messages.

Section StoreKeys.

Import JS Store StoreSpec.

Lemma rising_weaken (l : list nat) (b b' : nat) :
  rising l b -> (b <= b')%nat -> rising l b'.
Proof.
  induction l as [|k l IH]; intros Hr Hle; [exact I |].
  destruct Hr as (H1 & H2 & H3). split; [exact H1 |]. split; [lia | auto].
Qed.

Lemma rising_snoc (l : list nat) (b : nat) : rising l b -> rising (l ++ [b]) (S b).
Proof.
  induction l as [|k l IH]; intros Hr.
  - simpl. split; [intros k' Hk'; inversion Hk' |]. split; [lia | exact I].
  - destruct Hr as (H1 & H2 & H3). simpl. split; [| split; [lia | auto]].
    intros k' Hk'. apply elem_of_app in Hk' as [Hk' | Hk']; [auto |].
    apply list_elem_of_singleton in Hk' as ->. exact H2.
Qed.

Lemma rising_sublist (l' l : list nat) (b : nat) :
  sublist l' l -> rising l b -> rising l' b.
Proof.
  intros Hsub. induction Hsub as [| x l1 l2 Hsub IH | x l1 l2 Hsub IH]; intros Hr.
  - exact I.
  - destruct Hr as (H1 & H2 & H3). split; [| split; [exact H2 | auto]].
    intros k' Hk'. apply H1. eapply elem_of_sublist; eassumption.
  - destruct Hr as (_ & _ & H3). auto.
Qed.

Lemma rising_NoDup (l : list nat) (b : nat) : rising l b -> NoDup l.
Proof.
  induction l as [|k l IH]; intros Hr; [constructor |].
  destruct Hr as (H1 & _ & H3). constructor; [| auto].
  intros Hk. specialize (H1 k Hk). lia.
Qed.

Lemma with_content_id (id : nat) (content : jsstring) (m : Message) :
  m_id (with_content id content m) = m_id m /\
  m_conversationId (with_content id content m) = m_conversationId m /\
  m_createdAt (with_content id content m) = m_createdAt m.
Proof. unfold with_content. destruct (bool_decide (m_id m = id)); repeat split. Qed.

Lemma touch_id (c : nat) (now : Z) (x : Conversation) : c_id (touch c now x) = c_id x.
Proof. unfold touch. destruct (bool_decide (c_id x = c)); reflexivity. Qed.

Lemma store_wf_apply (op : Op) (db : DB) : store_wf db -> store_wf (apply op db).
Proof.
  intros [Hm Hc]. destruct op; unfold store_wf, apply; [simpl .. |].
  - split; [exact Hm |]. rewrite map_app. apply rising_snoc. exact Hc.
  - split; (eapply rising_sublist; [| eassumption]);
      apply fmap_sublist, sublist_filter.
  - split; exact I.
  - split.
    + rewrite map_app. apply rising_snoc. exact Hm.
    + rewrite map_map. erewrite map_ext; [exact Hc |].
      intros x. apply touch_id.
  - split; [| exact Hc]. rewrite map_map. erewrite map_ext; [exact Hm |].
    intros x. apply with_content_id.
  - split; [| exact Hc]. eapply rising_sublist; [| exact Hm].
    apply fmap_sublist, sublist_filter.
  - split; assumption.
  - destruct (initializeSettings_tables db) as (H1 & H2 & H3 & H4).
    rewrite H1, H2, H3, H4. split; assumption.
Qed.

Lemma store_wf_run (ops : list Op) : store_wf (store_run ops).
Proof.
  unfold store_run. induction ops as [|op ops IH] using rev_ind.
  - split; exact I.
  - rewrite foldl_app. simpl. apply store_wf_apply. exact IH.
Qed.

(** In a store the application made, a key names one message. *)
Lemma message_key (db : DB) (m m' : Message) :
  store_wf db -> m ∈ messages db -> m' ∈ messages db -> m_id m = m_id m' -> m = m'.
Proof.
  intros [Hm _] H1 H2 Heq. apply rising_NoDup in Hm.
  revert Hm H1 H2. generalize (messages db). intros l.
  induction l as [|x l IH]; intros Hnd H1 H2; [inversion H1 |].
  cbn [map] in Hnd. apply NoDup_cons in Hnd as [Hx Hnd].
  apply elem_of_cons in H1 as [-> | H1]; apply elem_of_cons in H2 as [-> | H2];
    auto.
  - exfalso. apply Hx. rewrite Heq. apply list_elem_of_fmap. eauto.
  - exfalso. apply Hx. rewrite <- Heq. apply list_elem_of_fmap. eauto.
Qed.

End StoreKeys.

Section Trimming.

Import JS Store StoreSpec History.

Lemma delete_all_messages (l : list Message) :
  forall db : DB,
    messages (delete_all l db)
    = filter (fun m => m_id m ∉ map m_id l) (messages db) /\
    conversations (delete_all l db) = conversations db /\
    next_conversation (delete_all l db) = next_conversation db /\
    next_message (delete_all l db) = next_message db /\
    settings (delete_all l db) = settings db.
Proof.
  unfold delete_all. induction l as [|x l IH]; intros db.
  - simpl. split; [| repeat split].
    symmetry. apply filter_all. intros m _ Hin. inversion Hin.
  - cbn [foldl]. destruct (IH (deleteMessage (m_id x) db)) as (H1 & H2 & H3 & H4 & H5).
    rewrite H1, H2, H3, H4, H5. split; [| repeat split].
    unfold deleteMessage. cbn [set_messages messages].
    rewrite list_filter_filter. apply list_filter_iff.
    intros m. cbn [map]. rewrite not_elem_of_cons. tauto.
Qed.

(** Dropping the rows whose keys are those of the tail of a list with
    different keys leaves its head. *)
Lemma filter_tail_keys (n : nat) (l : list Message) :
  NoDup (map m_id l) ->
  filter (fun m => m_id m ∉ map m_id (drop n l)) l = take n l.
Proof.
  intros Hnd.
  assert (Hsplit : filter (fun m => m_id m ∉ map m_id (drop n l))
                     (take n l ++ drop n l) = take n l).
  { rewrite <- (take_drop n l), map_app in Hnd.
    apply NoDup_app in Hnd as (_ & Hdis & _).
    rewrite filter_app, (filter_none _ (drop n l)).
    - rewrite app_nil_r. apply filter_all.
      intros m Hm. apply Hdis. apply list_elem_of_fmap. eauto.
    - intros m Hm Hnot. apply Hnot. apply list_elem_of_fmap. eauto. }
  rewrite take_drop in Hsplit. exact Hsplit.
Qed.

Lemma getMessages_keys (db : DB) (c : nat) :
  store_wf db -> NoDup (map m_id (getMessages c db)).
Proof.
  intros [Hm _]. apply rising_NoDup in Hm.
  unfold getMessages. rewrite sort_by_perm.
  eapply sublist_NoDup; [exact Hm | apply fmap_sublist, sublist_filter].
Qed.

Lemma getMessages_elem (db : DB) (c : nat) (m : Message) :
  m ∈ getMessages c db <-> m ∈ messages db /\ m_conversationId m = c.
Proof.
  unfold getMessages. rewrite sort_by_perm, list_elem_of_filter. tauto.
Qed.

(** The messages of a conversation once those of [gone], a part of the
    conversation [c], are deleted. *)
Lemma getMessages_delete_all (db : DB) (c c' : nat) (gone : list Message) :
  store_wf db ->
  (forall m, m ∈ gone -> exists g, g ∈ getMessages c db /\ m_id g = m_id m) ->
  getMessages c' (delete_all gone db)
  = if decide (c' = c)
    then filter (fun m => m_id m ∉ map m_id gone) (getMessages c db)
    else getMessages c' db.
Proof.
  intros Hwf Hgone.
  destruct (delete_all_messages gone db) as (Hm & _).
  unfold getMessages at 1. rewrite Hm.
  destruct (decide (c' = c)) as [-> | Hne].
  - unfold getMessages. rewrite <- sort_by_filter. f_equal.
    rewrite !list_filter_filter. apply list_filter_iff. intros m. tauto.
  - unfold getMessages. f_equal. apply filter_within.
    intros m Hm' Hc Hin. apply list_elem_of_fmap in Hin as (x & Hid & Hx).
    destruct (Hgone x Hx) as (g & Hg & Hgx).
    apply getMessages_elem in Hg as [Hg Hgc].
    assert (Heq : m_id m = m_id g) by congruence.
    pose proof (message_key db m g Hwf Hm' Hg Heq) as ->. congruence.
Qed.

Lemma lastUserIndex_loop_spec (messages : list Message) (n : nat) :
  match lastUserIndex_loop messages n with
  | Some i =>
      (i < n)%nat /\
      (exists m, messages !! i = Some m /\ m_role m = "user"%string) /\
      (forall j m, (i < j < n)%nat -> messages !! j = Some m ->
                   m_role m <> "user"%string)
  | None =>
      forall j m, (j < n)%nat -> messages !! j = Some m -> m_role m <> "user"%string
  end.
Proof.
  induction n as [|n IH]; simpl; [intros j m Hj; lia |].
  destruct (messages !! n) as [x |] eqn:Hx.
  - case_bool_decide as Hrole.
    + split; [lia |]. split; [eauto |]. intros j m Hj. lia.
    + destruct (lastUserIndex_loop messages n) as [i |].
      * destruct IH as (Hi & Hm & Hafter). split; [lia |]. split; [exact Hm |].
        intros j m Hj Hjm. destruct (decide (j = n)) as [-> | Hne].
        -- congruence.
        -- apply (Hafter j m); [lia | exact Hjm].
      * intros j m Hj Hjm. destruct (decide (j = n)) as [-> | Hne].
        -- congruence.
        -- apply (IH j m); [lia | exact Hjm].
  - destruct (lastUserIndex_loop messages n) as [i |].
    + destruct IH as (Hi & Hm & Hafter). split; [lia |]. split; [exact Hm |].
      intros j m Hj Hjm. destruct (decide (j = n)) as [-> | Hne].
      * congruence.
      * apply (Hafter j m); [lia | exact Hjm].
    + intros j m Hj Hjm. destruct (decide (j = n)) as [-> | Hne].
      * congruence.
      * apply (IH j m); [lia | exact Hjm].
Qed.

(** X21. [regenerateResponse] on a store the application made: when the
    open conversation has a user message, the messages after its last
    user message are deleted and nothing else, so the conversation then
    ends with that message, which is what is shown and generated from;
    the other conversations and the settings are not touched.  Without
    a user message it changes nothing, and says so if the conversation
    has messages at all.  While a generation runs, or with no
    conversation open, it does nothing. *)
Theorem regenerateResponse_trims (ops : list Op) (c : nat) :
  let db := store_run ops in
  let msgs := getMessages (S c) db in
  let r := regenerateResponse false (Some (S c)) db in
  match lastUserIndex msgs with
  | Some i =>
      (exists m, msgs !! i = Some m /\ m_role m = "user"%string) /\
      (forall j m, (i < j)%nat -> msgs !! j = Some m -> m_role m <> "user"%string) /\
      r.1 = Regenerates (take (S i) msgs) /\
      getMessages (S c) r.2 = take (S i) msgs /\
      (forall c', c' <> S c -> getMessages c' r.2 = getMessages c' db) /\
      conversations r.2 = conversations db /\ settings r.2 = settings db
  | None =>
      (forall m, m ∈ msgs -> m_role m <> "user"%string) /\
      r.2 = db /\
      r.1 = if bool_decide (msgs = [])
            then Returned
            else Toast "No user message to regenerate from" "warning"
  end /\
  (forall current, regenerateResponse true current db = (Returned, db)) /\
  regenerateResponse false None db = (Returned, db) /\
  regenerateResponse false (Some O) db = (Returned, db).
Proof.
  intros db msgs r.
  pose proof (store_wf_run ops) as Hwf. fold db in Hwf.
  split; [| repeat split].
  pose proof (lastUserIndex_loop_spec msgs (length msgs)) as Hspec.
  fold (lastUserIndex msgs) in Hspec.
  assert (Hr : r = if bool_decide (length msgs = O) then (Returned, db)
                   else match lastUserIndex msgs with
                        | None =>
                            (Toast "No user message to regenerate from" "warning",
                             db)
                        | Some i =>
                            (Regenerates
                               (getMessages (S c)
                                  (delete_all (drop (S i) msgs) db)),
                             delete_all (drop (S i) msgs) db)
                        end) by reflexivity.
  rewrite Hr. clear Hr.
  destruct (lastUserIndex msgs) as [i |] eqn:Hlast.
  - destruct Hspec as (Hi & Hm & Hafter).
    rewrite (bool_decide_eq_false_2 (length msgs = O)) by lia.
    cbn [fst snd].
    assert (Hkeep : getMessages (S c) (delete_all (drop (S i) msgs) db)
                    = take (S i) msgs).
    { rewrite (getMessages_delete_all db (S c) (S c)); [| exact Hwf |].
      - rewrite decide_True by reflexivity. fold msgs.
        apply filter_tail_keys. apply getMessages_keys. exact Hwf.
      - intros m Hin. exists m. split; [| reflexivity].
        fold msgs. eapply elem_of_sublist; [exact Hin |].
        apply sublist_drop. }
    split; [exact Hm |]. split.
    { intros j m Hj Hjm. apply (Hafter j m); [| exact Hjm].
      split; [exact Hj |]. apply lookup_lt_Some in Hjm. exact Hjm. }
    split; [rewrite Hkeep; reflexivity |]. split; [exact Hkeep |].
    split.
    + intros c' Hne.
      rewrite (getMessages_delete_all db (S c) c'); [| exact Hwf |].
      * rewrite decide_False by exact Hne. reflexivity.
      * intros m Hin. exists m. split; [| reflexivity].
        fold msgs. eapply elem_of_sublist; [exact Hin |].
        apply sublist_drop.
    + destruct (delete_all_messages (drop (S i) msgs) db) as (_ & Hc & _ & _ & Hs).
      split; assumption.
  - split.
    + intros m Hin. apply list_elem_of_lookup in Hin as [j Hj].
      apply (Hspec j m); [| exact Hj]. apply lookup_lt_Some in Hj. exact Hj.
    + destruct msgs as [|m0 msgs']; [split; reflexivity |].
      rewrite bool_decide_eq_false_2 by discriminate.
      rewrite (bool_decide_eq_false_2 (m0 :: msgs' = [])) by discriminate.
      split; reflexivity.
Qed.

Lemma filter_map_commute (P : Message -> Prop) `{!forall x, Decision (P x)}
      (f : Message -> Message) (l : list Message) :
  (forall x, P (f x) <-> P x) -> filter P (map f l) = map f (filter P l).
Proof.
  intros Hf. induction l as [|x l IH]; [reflexivity |].
  cbn [map]. rewrite !filter_cons.
  destruct (decide (P (f x))) as [Hp | Hp]; destruct (decide (P x)) as [Hq | Hq].
  - cbn [map]. rewrite IH. reflexivity.
  - exfalso. apply Hq, Hf, Hp.
  - exfalso. apply Hp, Hf, Hq.
  - exact IH.
Qed.

Lemma getMessages_updateMessage (db : DB) (c id : nat) (content : jsstring) :
  getMessages c (updateMessage id content db)
  = map (with_content id content) (getMessages c db).
Proof.
  unfold getMessages, updateMessage. cbn [set_messages messages].
  rewrite filter_map_commute.
  - apply sort_by_map. intros x. apply with_content_id.
  - intros x. destruct (with_content_id id content x) as (_ & -> & _). tauto.
Qed.

(** Rows with another key are not changed by [with_content]. *)
Lemma with_content_others (id : nat) (content : jsstring) (l : list Message) :
  (forall m, m ∈ l -> m_id m <> id) -> map (with_content id content) l = l.
Proof.
  induction l as [|x l IH]; intros Hl; [reflexivity |].
  cbn [map]. rewrite IH by (intros m Hm; apply Hl; right; exact Hm).
  unfold with_content. rewrite bool_decide_eq_false_2 by (apply Hl; left).
  reflexivity.
Qed.

Lemma findIndex_spec (messageId : nat) (l : list Message) :
  match findIndex messageId l with
  | Some i =>
      (exists m, l !! i = Some m /\ m_id m = messageId) /\
      (forall m, m ∈ take i l -> m_id m <> messageId)
  | None => forall m, m ∈ l -> m_id m <> messageId
  end.
Proof.
  induction l as [|x l IH]; [intros m Hm; inversion Hm |].
  cbn [findIndex]. case_bool_decide as Hx.
  - split; [exists x; split; [reflexivity | exact Hx] |].
    intros m Hm. inversion Hm.
  - destruct (findIndex messageId l) as [i |]; cbn [fmap option_fmap option_map].
    + destruct IH as [Hm Hbefore]. split; [exact Hm |].
      intros m Hin. cbn [take] in Hin.
      apply elem_of_cons in Hin as [-> | Hin]; [exact Hx | auto].
    + intros m Hin. apply elem_of_cons in Hin as [-> | Hin]; [exact Hx | auto].
Qed.

(** X22. [handleEditMessage] on a store the application made: when the
    message is one of the open conversation, it gets the new content
    and keeps its place, the messages after it are deleted and nothing
    else, so the conversation then ends with the edited message, which
    is what is shown and generated from; the other conversations and
    the settings are not touched.  A key that names no message of the
    open conversation changes nothing, and while a generation runs the
    handler does nothing. *)
Theorem handleEditMessage_trims (ops : list Op) (c messageId : nat)
        (newContent : jsstring) :
  let db := store_run ops in
  let msgs := getMessages c db in
  let r := handleEditMessage false c messageId newContent db in
  match findIndex messageId msgs with
  | Some i =>
      exists m,
        msgs !! i = Some m /\ m_id m = messageId /\
        let edited :=
          {| m_id := m_id m; m_conversationId := m_conversationId m;
             m_role := m_role m; m_content := newContent;
             m_model := m_model m; m_createdAt := m_createdAt m |} in
        getMessages c r.2 = take i msgs ++ [edited] /\
        r.1 = Regenerates (take i msgs ++ [edited]) /\
        (forall c', c' <> c -> getMessages c' r.2 = getMessages c' db) /\
        conversations r.2 = conversations db /\ settings r.2 = settings db
  | None =>
      (forall m, m ∈ msgs -> m_id m <> messageId) /\
      r = (Toast "Message not found" "error", db)
  end /\
  handleEditMessage true c messageId newContent db = (Returned, db).
Proof.
  intros db msgs r. split; [| reflexivity].
  pose proof (store_wf_run ops) as Hwf. fold db in Hwf.
  pose proof (findIndex_spec messageId msgs) as Hspec.
  assert (Hr : r = match findIndex messageId msgs with
                   | None => (Toast "Message not found" "error", db)
                   | Some i =>
                       let db1 := updateMessage messageId newContent db in
                       let db' := delete_all (drop (S i) msgs) db1 in
                       (Regenerates (getMessages c db'), db')
                   end) by reflexivity.
  rewrite Hr. clear Hr.
  destruct (findIndex messageId msgs) as [i |]; [| split; [exact Hspec | reflexivity]].
  destruct Hspec as [(m & Hm & Hid) Hbefore].
  exists m. split; [exact Hm |]. split; [exact Hid |].
  cbv zeta. cbn [fst snd].
  set (db1 := updateMessage messageId newContent db).
  assert (Hwf1 : store_wf db1) by (apply (store_wf_apply (UpdateMessage messageId newContent)), Hwf).
  assert (Hgone : forall x, x ∈ drop (S i) msgs ->
                            exists g, g ∈ getMessages c db1 /\ m_id g = m_id x).
  { intros x Hx. exists (with_content messageId newContent x). split.
    - unfold db1. rewrite getMessages_updateMessage. fold msgs.
      apply list_elem_of_fmap. exists x. split; [reflexivity |].
      eapply elem_of_sublist; [exact Hx | apply sublist_drop].
    - apply with_content_id. }
  assert (Hedit : with_content messageId newContent m
                  = {| m_id := m_id m; m_conversationId := m_conversationId m;
                       m_role := m_role m; m_content := newContent;
                       m_model := m_model m; m_createdAt := m_createdAt m |}).
  { unfold with_content. rewrite bool_decide_eq_true_2 by exact Hid. reflexivity. }
  assert (Hkeep : getMessages c (delete_all (drop (S i) msgs) db1)
                  = take i msgs ++ [with_content messageId newContent m]).
  { rewrite (getMessages_delete_all db1 c c _ Hwf1 Hgone).
    rewrite decide_True by reflexivity.
    unfold db1. rewrite getMessages_updateMessage. fold msgs.
    rewrite filter_map_commute
      by (intros x; destruct (with_content_id messageId newContent x) as (-> & _);
          tauto).
    rewrite filter_tail_keys by (apply getMessages_keys; exact Hwf).
    rewrite (take_S_r _ _ _ Hm), map_app.
    rewrite with_content_others by exact Hbefore. reflexivity. }
  rewrite Hkeep, Hedit.
  split; [reflexivity |]. split; [reflexivity |].
  split.
  - intros c' Hne.
    rewrite (getMessages_delete_all db1 c c' _ Hwf1 Hgone).
    rewrite decide_False by exact Hne.
    unfold db1. rewrite getMessages_updateMessage.
    apply with_content_others. intros x Hx Hxid.
    apply getMessages_elem in Hx as [Hx Hxc].
    assert (Hin : m ∈ msgs) by (eapply list_elem_of_lookup_2; exact Hm).
    apply getMessages_elem in Hin as [Hin Hmc].
    assert (Heq : m_id x = m_id m) by congruence.
    pose proof (message_key db x m Hwf Hx Hin Heq). congruence.
  - destruct (delete_all_messages (drop (S i) msgs) db1) as (_ & Hc & _ & _ & Hs).
    split; [exact Hc | exact Hs].
Qed.

End Trimming.

Section ConversationList.

Import JS Store StoreSpec.

(** In a store the application made, a key names one conversation. *)
Lemma conversation_key (db : DB) (x y : Conversation) :
  store_wf db -> x ∈ conversations db -> y ∈ conversations db -> c_id x = c_id y -> x = y.
Proof.
  intros [_ Hc] H1 H2 Heq. apply rising_NoDup in Hc.
  revert Hc H1 H2. generalize (conversations db). intros l.
  induction l as [|z l IH]; intros Hnd H1 H2; [inversion H1 |].
  cbn [map] in Hnd. apply NoDup_cons in Hnd as [Hz Hnd].
  apply elem_of_cons in H1 as [-> | H1]; apply elem_of_cons in H2 as [-> | H2];
    auto.
  - exfalso. apply Hz. rewrite Heq. apply list_elem_of_fmap. eauto.
  - exfalso. apply Hz. rewrite <- Heq. apply list_elem_of_fmap. eauto.
Qed.

Lemma getConversation_elem (db : DB) (c : nat) (x : Conversation) :
  getConversation c db = Some x -> x ∈ conversations db /\ c_id x = c.
Proof.
  unfold getConversation. generalize (conversations db). intros l.
  induction l as [|y l IH]; [discriminate |].
  simpl. case_bool_decide as Hy.
  - intros [= ->]. split; [left | exact Hy].
  - intros Hf. destruct (IH Hf) as [Hin Hid]. split; [right; exact Hin | exact Hid].
Qed.

Lemma head_reverse {X : Type} (l : list X) : head (reverse l) = last l.
Proof.
  induction l as [|x l IH] using rev_ind; [reflexivity |].
  rewrite reverse_snoc, last_snoc. reflexivity.
Qed.

(** X24. The conversation just written to leads the list of
    [getConversations]: a conversation created at a time no earlier
    than the [updatedAt] of every other comes first, and so does, in a
    store the application made, a conversation that gets a message at a
    time later than the [updatedAt] of every other. *)
Theorem getConversations_recent (ops : list Op) (now : Z) :
  let db := store_run ops in
  (forall title model,
     (forall y, y ∈ conversations db -> c_updatedAt y <= now) ->
     head (getConversations (createConversation title model now db).2)
     = Some {| c_id := next_conversation db; c_title := title; c_model := model;
               c_systemPrompt := None; c_compareMode := false;
               c_createdAt := now; c_updatedAt := now |}) /\
  (forall c x role content model,
     getConversation c db = Some x ->
     (forall y, y ∈ conversations db -> c_id y <> c -> c_updatedAt y < now) ->
     head (getConversations (addMessage c role content model now db).2)
     = Some (touch c now x)).
Proof.
  intros db. pose proof (store_wf_run ops) as Hwf. fold db in Hwf.
  split.
  - intros title model Hold.
    unfold getConversations, createConversation. cbn [snd conversations].
    rewrite sort_by_snoc by exact Hold.
    rewrite reverse_snoc. reflexivity.
  - intros c x role content model Hx Hothers.
    apply getConversation_elem in Hx as [Hin Hid].
    unfold getConversations, addMessage. cbn [snd conversations].
    rewrite head_reverse.
    set (l := sort_by c_updatedAt (map (touch c now) (conversations db))).
    assert (Hmine : touch c now x ∈ l).
    { unfold l. rewrite sort_by_perm. apply list_elem_of_fmap. eauto. }
    assert (Hkey : c_updatedAt (touch c now x) = now).
    { unfold touch. rewrite bool_decide_eq_true_2 by exact Hid. reflexivity. }
    destruct (last l) as [z |] eqn:Hlast.
    + pose proof (sorted_by_last c_updatedAt l z _
                    (sort_by_sorted c_updatedAt _) Hlast Hmine) as Hle.
      rewrite Hkey in Hle.
      assert (Hz : z ∈ l).
      { rewrite last_lookup in Hlast. eapply list_elem_of_lookup_2. exact Hlast. }
      unfold l in Hz. rewrite sort_by_perm in Hz.
      apply list_elem_of_fmap in Hz as (y & -> & Hy).
      destruct (decide (c_id y = c)) as [Hyc | Hyc].
      * assert (Heq : c_id y = c_id x) by congruence.
        rewrite (conversation_key db y x Hwf Hy Hin Heq). reflexivity.
      * exfalso. specialize (Hothers y Hy Hyc).
        unfold touch in Hle. rewrite bool_decide_eq_false_2 in Hle by exact Hyc.
        lia.
    + exfalso. apply last_None in Hlast. rewrite Hlast in Hmine. inversion Hmine.
Qed.

End ConversationList.
